(** * Encrypt: the encryption engine of encrypt-document-management

    Shallow embedding of [src/encrypt.ts] (class [Encrypt]: [encryptText],
    [decryptText], [wordArrayToArrayBuffer], the constant [MAGIC_WORDS]), of
    the marker-less lineage of that class in [src/unnamed/part_000], and of
    the plugin around them in [src/main.ts] and [src/unnamed/part_000]:
    [encryptFile], [decryptFile], [getDocumentFiles], the handlers of the
    [file-open] and [quit] events, and, from the earlier revision kept in
    [src/main.ts], the cipher methods that read the key through [Buffer]
    and the key generator of the settings tab.

    With them come the parts of the crypto-js dependency (imported at
    src/encrypt.ts:3, release line 4.x) that those functions drive:
    [lib.WordArray] (core.js, lib-typedarrays.js), [enc.Latin1] /
    [enc.Utf8] / [enc.Hex], [lib.Hasher], [pad.Pkcs7], [mode.CBC],
    [lib.BufferedBlockAlgorithm], [lib.BlockCipher],
    [lib.SerializableCipher] (cipher-core.js), [algo.AES] (aes.js) and
    [algo.SHA256] (sha256.js), and the platform's [TextEncoder] /
    [TextDecoder] (Encoding standard).  The views and the settings page,
    which build DOM elements through obsidian, are not part of the
    development.

    Conventions.
    - A JavaScript bitwise operator works on 32-bit integers.  A 32-bit
      value is represented by its residue in [0, 2^32); every operator
      below reduces its result with [u32], so [x >>> 0] is the identity on
      representations and [ToInt32] never has to be written.
    - A JavaScript array of words is a [list Z].  Reading outside the array
      yields [undefined], which every consumer in this code feeds to a
      bitwise operator, where it counts as 0: [get] returns 0 there.
      Writing past the end extends the array; the holes read as 0 too.
    - An [ArrayBuffer] / [Uint8Array] is a [list byte].
    - A JavaScript string is the list of its UTF-16 code units.
    - An exception is a value [Throw m]; errors are told apart by their
      message, which is all the [catch] blocks of the source keep.
    - The two methods take and return the module-level state ([MAGIC_WORDS]),
      the only object that outlives a call.  A second embedding,
      [Objects], keeps every object on a heap and runs [clamp], [concat]
      and the filling of buffers in place.

    Word arrays index their bytes with [i >>> 2], a 32-bit operation: the
    statements about contents are made for buffers below 2^32 bytes, where
    that index is exact. *)

From Stdlib Require Import ZArith List Lia Bool.
From Stdlib Require String Ascii.
From coqutil Require Import Byte Z.bitblast.
Import ListNotations.
Local Open Scope Z_scope.

(** ** 32-bit operators *)

Definition u32 (x : Z) : Z := x mod 2 ^ 32.

(** [a | b], [a ^ b], [a & b] *)
Definition bor (a b : Z) : Z := u32 (Z.lor a b).
Definition bxor (a b : Z) : Z := u32 (Z.lxor a b).
Definition band (a b : Z) : Z := u32 (Z.land a b).
(** [a << n] and [a >>> n]: the shift count is taken modulo 32. *)
Definition shl (a n : Z) : Z := u32 (Z.shiftl a (n mod 32)).
Definition ushr (a n : Z) : Z := Z.shiftr (u32 a) (n mod 32).

(** ** Arrays of words *)

(** [a[i]] read through a bitwise operator. *)
Fixpoint get (a : list Z) (i : Z) : Z :=
  match a with
  | [] => 0
  | x :: r => if i =? 0 then x else get r (i - 1)
  end.

(** [a[i] = v] *)
Fixpoint set_nat (a : list Z) (i : nat) (v : Z) : list Z :=
  match i, a with
  | O, [] => [v]
  | O, _ :: r => v :: r
  | S j, [] => 0 :: set_nat [] j v
  | S j, x :: r => x :: set_nat r j v
  end.

Definition set (a : list Z) (i : Z) (v : Z) : list Z := set_nat a (Z.to_nat i) v.

(** [a.slice(from, to)] and [a.slice(from)] for [0 <= from <= to]. *)
Definition slice {A} (a : list A) (from to : nat) : list A :=
  firstn (to - from) (skipn from a).

(** [for (var i = 0; i < n; i++) body] over a loop-carried state. *)
Definition for_loop {S : Type} (n : nat) (body : Z -> S -> S) (s : S) : S :=
  fold_left (fun acc i => body (Z.of_nat i) acc) (seq 0 n) s.

(** [Math.ceil(a / b)] for [b > 0]. *)
Definition ceil_div (a b : Z) : Z := - ((- a) / b).

(** ** crypto-js: lib.WordArray *)

Record WordArray : Type := mkWordArray { words : list Z; sigBytes : Z }.

(** [WordArray.init(words, sigBytes)] with both arguments given. *)
Definition WordArray_init (ws : list Z) (sb : Z) : WordArray := mkWordArray ws sb.

(** [WordArray.create(typedArray)] for a [Uint8Array] (lib-typedarrays.js):
    [words[i >>> 2] |= typedArray[i] << (24 - (i % 4) * 8)]. *)
Definition u8_words (typedArray : list byte) : list Z :=
  for_loop (length typedArray)
    (fun i ws =>
       set ws (ushr i 2)
         (bor (get ws (ushr i 2))
              (shl (byte.unsigned (nth (Z.to_nat i) typedArray Byte.x00))
                   (24 - (i mod 4) * 8))))
    [].

Definition WordArray_create_u8 (typedArray : list byte) : WordArray :=
  WordArray_init (u8_words typedArray) (Z.of_nat (length typedArray)).

(** [clamp]: [words[sigBytes >>> 2] &= 0xffffffff << (32 - (sigBytes % 4) * 8);
    words.length = Math.ceil(sigBytes / 4)]. *)
Definition WordArray_clamp (w : WordArray) : WordArray :=
  let sb := sigBytes w in
  let ws := set (words w) (ushr sb 2)
              (band (get (words w) (ushr sb 2))
                    (shl 4294967295 (32 - (sb mod 4) * 8))) in
  mkWordArray (firstn (Z.to_nat (ceil_div sb 4)) ws) sb.

(** [clone]: a new object over [words.slice(0)]. *)
Definition WordArray_clone (w : WordArray) : WordArray :=
  mkWordArray (slice (words w) 0 (length (words w))) (sigBytes w).

(** [this.concat(wordArray)]: clamps the receiver, then copies byte by byte
    when the receiver ends inside a word and word by word otherwise. *)
Definition WordArray_concat (this that : WordArray) : WordArray :=
  let thatWords := words that in
  let thisSigBytes := sigBytes this in
  let thatSigBytes := sigBytes that in
  let thisWords := words (WordArray_clamp this) in
  let thisWords' :=
    if negb (thisSigBytes mod 4 =? 0) then
      for_loop (Z.to_nat thatSigBytes)
        (fun i ws =>
           let thatByte := band (ushr (get thatWords (ushr i 2)) (24 - (i mod 4) * 8)) 255 in
           set ws (ushr (thisSigBytes + i) 2)
             (bor (get ws (ushr (thisSigBytes + i) 2))
                  (shl thatByte (24 - ((thisSigBytes + i) mod 4) * 8))))
        thisWords
    else
      for_loop (Z.to_nat (ceil_div thatSigBytes 4))
        (fun k ws =>
           let j := 4 * k in
           set ws (ushr (thisSigBytes + j) 2) (get thatWords (ushr j 2)))
        thisWords in
  mkWordArray thisWords' (thisSigBytes + thatSigBytes).

(** ** crypto-js: algo.AES (aes.js) *)

Module AES.

(** The lookup tables, filled in by the loop that walks GF(2^8). *)
Record tables : Type := mkTables {
  t_SBOX : list Z; t_INV_SBOX : list Z;
  t_SUB_MIX_0 : list Z; t_SUB_MIX_1 : list Z; t_SUB_MIX_2 : list Z; t_SUB_MIX_3 : list Z;
  t_INV_SUB_MIX_0 : list Z; t_INV_SUB_MIX_1 : list Z;
  t_INV_SUB_MIX_2 : list Z; t_INV_SUB_MIX_3 : list Z }.

(** [d[i] = i << 1] for [i < 128], [(i << 1) ^ 0x11b] otherwise. *)
Definition d_table : list Z :=
  for_loop 256
    (fun i d => set d i (if i <? 128 then shl i 1 else bxor (shl i 1) 283))
    [].

(** One iteration of the table loop; [x] and [xi] are the loop-carried
    counters. *)
Definition walk_step (d : list Z) (st : Z * Z * tables) : Z * Z * tables :=
  let '(x, xi, T) := st in
  let sx := bxor (bxor (bxor (bxor xi (shl xi 1)) (shl xi 2)) (shl xi 3)) (shl xi 4) in
  let sx := bxor (bxor (ushr sx 8) (band sx 255)) 99 in
  let x2 := get d x in
  let x4 := get d x2 in
  let x8 := get d x4 in
  let t := bxor (get d sx * 257) (sx * 16843008) in
  let u := bxor (bxor (bxor (x8 * 16843009) (x4 * 65537)) (x2 * 257)) (x * 16843008) in
  let T' :=
    mkTables
      (set (t_SBOX T) x sx)
      (set (t_INV_SBOX T) sx x)
      (set (t_SUB_MIX_0 T) x (bor (shl t 24) (ushr t 8)))
      (set (t_SUB_MIX_1 T) x (bor (shl t 16) (ushr t 16)))
      (set (t_SUB_MIX_2 T) x (bor (shl t 8) (ushr t 24)))
      (set (t_SUB_MIX_3 T) x t)
      (set (t_INV_SUB_MIX_0 T) sx (bor (shl u 24) (ushr u 8)))
      (set (t_INV_SUB_MIX_1 T) sx (bor (shl u 16) (ushr u 16)))
      (set (t_INV_SUB_MIX_2 T) sx (bor (shl u 8) (ushr u 24)))
      (set (t_INV_SUB_MIX_3 T) sx u) in
  if x =? 0 then (1, 1, T')
  else (bxor x2 (get d (get d (get d (bxor x8 x2)))),
        bxor xi (get d (get d xi)),
        T').

Definition compute_tables : tables :=
  let '(_, _, T) :=
    for_loop 256 (fun _ st => walk_step d_table st)
      (0, 0, mkTables [] [] [] [] [] [] [] [] [] []) in
  T.

Definition SBOX : list Z := Eval vm_compute in t_SBOX compute_tables.
Definition INV_SBOX : list Z := Eval vm_compute in t_INV_SBOX compute_tables.
Definition SUB_MIX_0 : list Z := Eval vm_compute in t_SUB_MIX_0 compute_tables.
Definition SUB_MIX_1 : list Z := Eval vm_compute in t_SUB_MIX_1 compute_tables.
Definition SUB_MIX_2 : list Z := Eval vm_compute in t_SUB_MIX_2 compute_tables.
Definition SUB_MIX_3 : list Z := Eval vm_compute in t_SUB_MIX_3 compute_tables.
Definition INV_SUB_MIX_0 : list Z := Eval vm_compute in t_INV_SUB_MIX_0 compute_tables.
Definition INV_SUB_MIX_1 : list Z := Eval vm_compute in t_INV_SUB_MIX_1 compute_tables.
Definition INV_SUB_MIX_2 : list Z := Eval vm_compute in t_INV_SUB_MIX_2 compute_tables.
Definition INV_SUB_MIX_3 : list Z := Eval vm_compute in t_INV_SUB_MIX_3 compute_tables.

Definition RCON : list Z := [0; 1; 2; 4; 8; 16; 32; 64; 128; 27; 54].

(** [(SBOX[t >>> 24] << 24) | (SBOX[(t >>> 16) & 0xff] << 16) |
     (SBOX[(t >>> 8) & 0xff] << 8) | SBOX[t & 0xff]] *)
Definition sub_word (t : Z) : Z :=
  bor (bor (bor (shl (get SBOX (ushr t 24)) 24)
                (shl (get SBOX (band (ushr t 16) 255)) 16))
           (shl (get SBOX (band (ushr t 8) 255)) 8))
      (get SBOX (band t 255)).

(** The key schedule of [_doReset].  [keySize = key.sigBytes / 4] is a
    JavaScript number and need not be an integer; the tests on it are
    written on [key.sigBytes = 4 * keySize]:
    - [ksRows = (keySize + 6 + 1) * 4 = sigBytes + 28];
    - [ksRow < keySize] is [4 * ksRow < sigBytes];
    - [!(ksRow % keySize)] holds when the remainder is 0, and when it is
      NaN ([keySize = 0]);
    - [(ksRow / keySize) | 0] truncates the quotient, and is 0 for the
      quotients NaN and Infinity of [keySize = 0];
    - [keySchedule[ksRow - keySize]] is [undefined] for a non-integer
      index. *)
Definition key_schedule_step (keyWords : list Z) (sb : Z) (ksRow : Z) (keySchedule : list Z)
  : list Z :=
  if 4 * ksRow <? sb then
    set keySchedule ksRow (get keyWords ksRow)
  else
    let t := get keySchedule (ksRow - 1) in
    let t :=
      if (sb =? 0) || ((4 * ksRow) mod sb =? 0) then
        let t := bor (shl t 8) (ushr t 24) in
        let t := sub_word t in
        bxor t (shl (get RCON (if sb =? 0 then 0 else (4 * ksRow) / sb)) 24)
      else if (24 <? sb) && ((4 * ksRow) mod sb =? 16) then
        sub_word t
      else t in
    let back := if sb mod 4 =? 0 then get keySchedule (ksRow - sb / 4) else 0 in
    set keySchedule ksRow (bxor back t).

Definition key_schedule (key : WordArray) : list Z :=
  let sb := sigBytes key in
  for_loop (Z.to_nat (sb + 28)) (key_schedule_step (words key) sb) [].

(** The inverse key schedule of [_doReset]. *)
Definition inv_key_schedule_step (keySchedule : list Z) (ksRows : Z) (invKsRow : Z)
  (invKeySchedule : list Z) : list Z :=
  let ksRow := ksRows - invKsRow in
  let t := if negb (invKsRow mod 4 =? 0) then get keySchedule ksRow
           else get keySchedule (ksRow - 4) in
  if (invKsRow <? 4) || (ksRow <=? 4) then
    set invKeySchedule invKsRow t
  else
    set invKeySchedule invKsRow
      (bxor (bxor (bxor (get INV_SUB_MIX_0 (get SBOX (ushr t 24)))
                        (get INV_SUB_MIX_1 (get SBOX (band (ushr t 16) 255))))
                  (get INV_SUB_MIX_2 (get SBOX (band (ushr t 8) 255))))
            (get INV_SUB_MIX_3 (get SBOX (band t 255)))).

Definition inv_key_schedule (keySchedule : list Z) (ksRows : Z) : list Z :=
  for_loop (Z.to_nat ksRows) (inv_key_schedule_step keySchedule ksRows) [].

(** The number of times the body of
    [for (var round = 1; round < nRounds; round++)] runs, for
    [nRounds = keySize + 6 = (sigBytes + 24) / 4]. *)
Definition inner_rounds (sb : Z) : nat := Z.to_nat (ceil_div (sb + 24) 4 - 1).

(** The instance fields [_doReset] leaves behind. *)
Record instance : Type := mkInstance {
  _keySchedule : list Z;
  _invKeySchedule : list Z;
  _innerRounds : nat }.

Definition doReset (key : WordArray) : instance :=
  let ks := key_schedule key in
  mkInstance ks (inv_key_schedule ks (sigBytes key + 28)) (inner_rounds (sigBytes key)).

Definition state : Type := (Z * Z * Z * Z)%type.

(** One pass of the round loop of [_doCryptBlock]; returns the new state
    and the advanced [ksRow]. *)
Definition round_body (keySchedule S0 S1 S2 S3 : list Z) (s : state) (ksRow : Z) : state * Z :=
  let '(s0, s1, s2, s3) := s in
  let t0 := bxor (bxor (bxor (bxor (get S0 (ushr s0 24)) (get S1 (band (ushr s1 16) 255)))
                 (get S2 (band (ushr s2 8) 255))) (get S3 (band s3 255)))
                 (get keySchedule ksRow) in
  let t1 := bxor (bxor (bxor (bxor (get S0 (ushr s1 24)) (get S1 (band (ushr s2 16) 255)))
                 (get S2 (band (ushr s3 8) 255))) (get S3 (band s0 255)))
                 (get keySchedule (ksRow + 1)) in
  let t2 := bxor (bxor (bxor (bxor (get S0 (ushr s2 24)) (get S1 (band (ushr s3 16) 255)))
                 (get S2 (band (ushr s0 8) 255))) (get S3 (band s1 255)))
                 (get keySchedule (ksRow + 2)) in
  let t3 := bxor (bxor (bxor (bxor (get S0 (ushr s3 24)) (get S1 (band (ushr s0 16) 255)))
                 (get S2 (band (ushr s1 8) 255))) (get S3 (band s2 255)))
                 (get keySchedule (ksRow + 3)) in
  ((t0, t1, t2, t3), ksRow + 4).

Fixpoint round_loop (n : nat) (keySchedule S0 S1 S2 S3 : list Z) (s : state) (ksRow : Z)
  : state * Z :=
  match n with
  | O => (s, ksRow)
  | S n' =>
      let '(s', ksRow') := round_body keySchedule S0 S1 S2 S3 s ksRow in
      round_loop n' keySchedule S0 S1 S2 S3 s' ksRow'
  end.

(** The last round: shift rows, sub bytes, add round key. *)
Definition final_round (keySchedule SB : list Z) (s : state) (ksRow : Z) : state :=
  let '(s0, s1, s2, s3) := s in
  let t0 := bxor (bor (bor (bor (shl (get SB (ushr s0 24)) 24)
                 (shl (get SB (band (ushr s1 16) 255)) 16))
                 (shl (get SB (band (ushr s2 8) 255)) 8)) (get SB (band s3 255)))
                 (get keySchedule ksRow) in
  let t1 := bxor (bor (bor (bor (shl (get SB (ushr s1 24)) 24)
                 (shl (get SB (band (ushr s2 16) 255)) 16))
                 (shl (get SB (band (ushr s3 8) 255)) 8)) (get SB (band s0 255)))
                 (get keySchedule (ksRow + 1)) in
  let t2 := bxor (bor (bor (bor (shl (get SB (ushr s2 24)) 24)
                 (shl (get SB (band (ushr s3 16) 255)) 16))
                 (shl (get SB (band (ushr s0 8) 255)) 8)) (get SB (band s1 255)))
                 (get keySchedule (ksRow + 2)) in
  let t3 := bxor (bor (bor (bor (shl (get SB (ushr s3 24)) 24)
                 (shl (get SB (band (ushr s0 16) 255)) 16))
                 (shl (get SB (band (ushr s1 8) 255)) 8)) (get SB (band s2 255)))
                 (get keySchedule (ksRow + 3)) in
  (t0, t1, t2, t3).

(** [_doCryptBlock(M, offset, keySchedule, SUB_MIX_0, .., SBOX)]: transforms
    the four words of [M] at [offset] in place. *)
Definition doCryptBlock (nInner : nat) (M : list Z) (offset : Z)
  (keySchedule S0 S1 S2 S3 SB : list Z) : list Z :=
  let s0 := bxor (get M offset) (get keySchedule 0) in
  let s1 := bxor (get M (offset + 1)) (get keySchedule 1) in
  let s2 := bxor (get M (offset + 2)) (get keySchedule 2) in
  let s3 := bxor (get M (offset + 3)) (get keySchedule 3) in
  let '(s, ksRow) := round_loop nInner keySchedule S0 S1 S2 S3 (s0, s1, s2, s3) 4 in
  let '(t0, t1, t2, t3) := final_round keySchedule SB s ksRow in
  set (set (set (set M offset t0) (offset + 1) t1) (offset + 2) t2) (offset + 3) t3.

Definition encryptBlock (c : instance) (M : list Z) (offset : Z) : list Z :=
  doCryptBlock (_innerRounds c) M offset (_keySchedule c)
    SUB_MIX_0 SUB_MIX_1 SUB_MIX_2 SUB_MIX_3 SBOX.

(** [decryptBlock] swaps the 2nd and 4th words around the same routine run
    on the inverse schedule and tables. *)
Definition swap13 (M : list Z) (offset : Z) : list Z :=
  let t := get M (offset + 1) in
  let M := set M (offset + 1) (get M (offset + 3)) in
  set M (offset + 3) t.

Definition decryptBlock (c : instance) (M : list Z) (offset : Z) : list Z :=
  let M := swap13 M offset in
  let M := doCryptBlock (_innerRounds c) M offset (_invKeySchedule c)
             INV_SUB_MIX_0 INV_SUB_MIX_1 INV_SUB_MIX_2 INV_SUB_MIX_3 INV_SBOX in
  swap13 M offset.

End AES.

(** ** crypto-js: pad.Pkcs7 (cipher-core.js) *)

Module Pkcs7.

Definition pad (data : WordArray) (blockSize : Z) : WordArray :=
  let blockSizeBytes := blockSize * 4 in
  let nPaddingBytes := blockSizeBytes - sigBytes data mod blockSizeBytes in
  let paddingWord :=
    bor (bor (bor (shl nPaddingBytes 24) (shl nPaddingBytes 16)) (shl nPaddingBytes 8))
        nPaddingBytes in
  (* for (var i = 0; i < nPaddingBytes; i += 4) paddingWords.push(paddingWord) *)
  let paddingWords :=
    for_loop (Z.to_nat (ceil_div nPaddingBytes 4)) (fun _ pw => pw ++ [paddingWord]) [] in
  let padding := WordArray_init paddingWords nPaddingBytes in
  WordArray_concat data padding.

(** [unpad] reads the count in the last byte and shortens [sigBytes] by it;
    it checks neither the count nor the other padding bytes. *)
Definition unpad (data : WordArray) : WordArray :=
  let nPaddingBytes := band (get (words data) (ushr (sigBytes data - 1) 2)) 255 in
  mkWordArray (words data) (sigBytes data - nPaddingBytes).

End Pkcs7.

(** ** crypto-js: mode.CBC (cipher-core.js) *)

Module CBC.

(** The mode object: [_iv] is consumed by the first block, [_prevBlock] is
    set by every block.  [_prevBlock] is never read before it is written,
    because both callers pass an iv. *)
Record mode : Type := mkMode { _iv : option (list Z); _prevBlock : list Z }.

Definition create (iv : list Z) : mode := mkMode (Some iv) [].

Definition xorBlock (m : mode) (ws : list Z) (offset blockSize : Z) : mode * list Z :=
  let '(block, m') :=
    match _iv m with
    | Some iv => (iv, mkMode None (_prevBlock m))
    | None => (_prevBlock m, m)
    end in
  (m', for_loop (Z.to_nat blockSize)
         (fun i ws => set ws (offset + i) (bxor (get ws (offset + i)) (get block i))) ws).

Definition Encryptor_processBlock (cipher : AES.instance) (m : mode) (ws : list Z) (offset : Z)
  : mode * list Z :=
  let blockSize := 4 in
  let '(m, ws) := xorBlock m ws offset blockSize in
  let ws := AES.encryptBlock cipher ws offset in
  (mkMode (_iv m) (slice ws (Z.to_nat offset) (Z.to_nat (offset + blockSize))), ws).

Definition Decryptor_processBlock (cipher : AES.instance) (m : mode) (ws : list Z) (offset : Z)
  : mode * list Z :=
  let blockSize := 4 in
  let thisBlock := slice ws (Z.to_nat offset) (Z.to_nat (offset + blockSize)) in
  let ws := AES.decryptBlock cipher ws offset in
  let '(m, ws) := xorBlock m ws offset blockSize in
  (mkMode (_iv m) thisBlock, ws).

End CBC.

(** ** crypto-js: BufferedBlockAlgorithm, BlockCipher, SerializableCipher *)

Module Cipher.

Inductive xformMode : Type := ENC_XFORM_MODE | DEC_XFORM_MODE.

(** [_process(doFlush)] with [doFlush] true, the only call made by
    [finalize]: every block of [_data], the partial last one included, is
    transformed in place and spliced off. *)
Definition process (x : xformMode) (cipher : AES.instance) (m : CBC.mode) (data : WordArray)
  : WordArray :=
  let dataWords := words data in
  let dataSigBytes := sigBytes data in
  let blockSize := 4 in
  let blockSizeBytes := blockSize * 4 in
  let nBlocksReady := ceil_div dataSigBytes blockSizeBytes in
  let nWordsReady := nBlocksReady * blockSize in
  let nBytesReady := Z.min (nWordsReady * 4) dataSigBytes in
  if nWordsReady =? 0 then WordArray_init [] nBytesReady
  else
    let '(_, ws) :=
      for_loop (Z.to_nat nBlocksReady)
        (fun k '(m, ws) =>
           match x with
           | ENC_XFORM_MODE => CBC.Encryptor_processBlock cipher m ws (k * blockSize)
           | DEC_XFORM_MODE => CBC.Decryptor_processBlock cipher m ws (k * blockSize)
           end)
        (m, dataWords) in
    WordArray_init (firstn (Z.to_nat nWordsReady) ws) nBytesReady.

(** [createEncryptor(key, cfg).finalize(message)] / [createDecryptor ..]:
    a fresh cipher instance is reset on the key and the iv, the message is
    appended to its empty buffer, and [_doFinalize] pads and processes
    (encryption) or processes and unpads (decryption). *)
Definition finalize (x : xformMode) (key iv message : WordArray) : WordArray :=
  let cipher := AES.doReset key in
  let m := CBC.create (words iv) in
  let data := WordArray_concat (WordArray_init [] 0) message in
  match x with
  | ENC_XFORM_MODE => process x cipher m (Pkcs7.pad data 4)
  | DEC_XFORM_MODE => Pkcs7.unpad (process x cipher m data)
  end.

(** [CryptoJS.AES.encrypt(message, key, {iv, mode: CBC})] for a [WordArray]
    key; the result is the [ciphertext] field of the returned
    [CipherParams]. *)
Definition AES_encrypt (message key iv : WordArray) : WordArray :=
  finalize ENC_XFORM_MODE key iv message.

(** [CryptoJS.AES.decrypt(cipherParams, key, {iv, mode: CBC})]; the first
    argument is the [ciphertext] field of the [CipherParams]. *)
Definition AES_decrypt (ciphertext key iv : WordArray) : WordArray :=
  finalize DEC_XFORM_MODE key iv ciphertext.

End Cipher.

(** ** Strings and their encodings *)

Definition jsstring : Type := list Z.

Definition is_high_surrogate (c : Z) : bool := (55296 <=? c) && (c <=? 56319).
Definition is_low_surrogate (c : Z) : bool := (56320 <=? c) && (c <=? 57343).

(** UTF-8 bytes of one code point. *)
Definition utf8_bytes (cp : Z) : list byte :=
  if cp <? 128 then [byte.of_Z cp]
  else if cp <? 2048 then
    [byte.of_Z (Z.lor 192 (Z.shiftr cp 6)); byte.of_Z (Z.lor 128 (Z.land cp 63))]
  else if cp <? 65536 then
    [byte.of_Z (Z.lor 224 (Z.shiftr cp 12));
     byte.of_Z (Z.lor 128 (Z.land (Z.shiftr cp 6) 63));
     byte.of_Z (Z.lor 128 (Z.land cp 63))]
  else
    [byte.of_Z (Z.lor 240 (Z.shiftr cp 18));
     byte.of_Z (Z.lor 128 (Z.land (Z.shiftr cp 12) 63));
     byte.of_Z (Z.lor 128 (Z.land (Z.shiftr cp 6) 63));
     byte.of_Z (Z.lor 128 (Z.land cp 63))].

(** [new TextEncoder().encode(s)]: a surrogate pair is one code point, a
    lone surrogate is replaced by U+FFFD. *)
Fixpoint TextEncoder_encode (s : jsstring) : list byte :=
  match s with
  | [] => []
  | c :: r =>
      if is_high_surrogate c then
        match r with
        | d :: r' =>
            if is_low_surrogate d then
              utf8_bytes (65536 + (c - 55296) * 1024 + (d - 56320)) ++ TextEncoder_encode r'
            else utf8_bytes 65533 ++ TextEncoder_encode r
        | [] => utf8_bytes 65533
        end
      else if is_low_surrogate c then utf8_bytes 65533 ++ TextEncoder_encode r
      else utf8_bytes c ++ TextEncoder_encode r
  end.

(** The state of the UTF-8 decoder of the Encoding standard. *)
Record utf8_decoder : Type := mkDecoder {
  code_point : Z; bytes_seen : Z; bytes_needed : Z;
  lower_boundary : Z; upper_boundary : Z }.

Definition decoder_init : utf8_decoder := mkDecoder 0 0 0 128 191.

(** A byte met while no sequence is open. *)
Definition decode_lead (b : Z) : utf8_decoder * list Z :=
  if b <=? 127 then (decoder_init, [b])
  else if (194 <=? b) && (b <=? 223) then (mkDecoder (Z.land b 31) 0 1 128 191, [])
  else if (224 <=? b) && (b <=? 239) then
    (mkDecoder (Z.land b 15) 0 2 (if b =? 224 then 160 else 128) (if b =? 237 then 159 else 191),
     [])
  else if (240 <=? b) && (b <=? 244) then
    (mkDecoder (Z.land b 7) 0 3 (if b =? 240 then 144 else 128) (if b =? 244 then 143 else 191),
     [])
  else (decoder_init, [65533]).

(** The decoder's handler for one byte: the new state and the code points
    emitted.  A byte outside the boundaries closes the open sequence with
    U+FFFD and is then handled again from the initial state. *)
Definition decode_byte (st : utf8_decoder) (b : Z) : utf8_decoder * list Z :=
  if bytes_needed st =? 0 then decode_lead b
  else if (b <? lower_boundary st) || (upper_boundary st <? b) then
    let '(st', out) := decode_lead b in (st', 65533 :: out)
  else
    let cp := Z.lor (Z.shiftl (code_point st) 6) (Z.land b 63) in
    if bytes_seen st + 1 =? bytes_needed st then (decoder_init, [cp])
    else (mkDecoder cp (bytes_seen st + 1) (bytes_needed st) 128 191, []).

Fixpoint decode_run (st : utf8_decoder) (bs : list byte) : list Z :=
  match bs with
  | [] => if bytes_needed st =? 0 then [] else [65533]
  | b :: r =>
      let '(st', out) := decode_byte st (byte.unsigned b) in
      out ++ decode_run st' r
  end.

(** UTF-16 code units of one code point. *)
Definition utf16_units (cp : Z) : list Z :=
  if cp <? 65536 then [cp]
  else [55296 + Z.shiftr (cp - 65536) 10; 56320 + Z.land (cp - 65536) 1023].

(** [new TextDecoder().decode(bytes)]: UTF-8 with replacement; a leading
    byte order mark is dropped ([ignoreBOM] is false by default). *)
Definition TextDecoder_decode (bs : list byte) : jsstring :=
  let cps := decode_run decoder_init bs in
  let cps := match cps with
             | c :: r => if c =? 65279 then r else cps
             | [] => cps
             end in
  flat_map utf16_units cps.

(** No surrogate stands alone. *)
Fixpoint well_formed (s : jsstring) : bool :=
  match s with
  | [] => true
  | c :: r =>
      if is_high_surrogate c then
        match r with
        | d :: r' => is_low_surrogate d && well_formed r'
        | [] => false
        end
      else negb (is_low_surrogate c) && well_formed r
  end.

(** [CryptoJS.enc.Latin1.parse]:
    [words[i >>> 2] |= (latin1Str.charCodeAt(i) & 0xff) << (24 - (i % 4) * 8)]. *)
Definition Latin1_parse (latin1Str : jsstring) : WordArray :=
  let n := length latin1Str in
  WordArray_init
    (for_loop n
       (fun i ws =>
          set ws (ushr i 2)
            (bor (get ws (ushr i 2))
                 (shl (band (nth (Z.to_nat i) latin1Str 0) 255) (24 - (i mod 4) * 8))))
       [])
    (Z.of_nat n).

(** Errors, told apart by their message. *)
Inductive message : Type :=
| NotValidCiphertext        (* "不是有效的密文": decryptText's two frame checks *)
| CheckKey                  (* "请检查密钥是否正确": decryptText's check after decryption *)
| InvalidArrayBufferLength  (* RangeError of [new ArrayBuffer(n)] for n < 0 *)
| URIMalformed              (* URIError of encodeURIComponent *)
| EncryptFailed (m : message). (* "加密失败: " + m: encryptText's catch block *)

Inductive result (A : Type) : Type :=
| Ok (a : A)
| Throw (m : message).
Arguments Ok {A} a.
Arguments Throw {A} m.

(** [CryptoJS.enc.Utf8.parse(s)] is
    [Latin1.parse(unescape(encodeURIComponent(s)))]: [encodeURIComponent]
    throws on a lone surrogate and otherwise escapes the UTF-8 bytes of
    [s], which [unescape] turns into one character each. *)
Definition Utf8_parse (s : jsstring) : result WordArray :=
  if well_formed s then Ok (Latin1_parse (map byte.unsigned (TextEncoder_encode s)))
  else Throw URIMalformed.

(** ** The ArrayBuffer side *)

(** [view[i] = b] on a [Uint8Array]; an index outside the view is ignored. *)
Fixpoint view_set (view : list byte) (i : nat) (b : byte) : list byte :=
  match view, i with
  | [], _ => []
  | _ :: r, O => b :: r
  | x :: r, S j => x :: view_set r j b
  end.

(** [!x] for an object [x]: every object is truthy. *)
Definition not_object {A : Type} (x : A) : bool := false.

(** ** src/encrypt.ts *)

Module Encrypt.

(** Module-level objects that outlive a call.  [MAGIC_WORDS] is a mutable
    [WordArray]; the static field [Encrypt.key] is declared but neither
    read nor written by the methods below. *)
Record globals : Type := mkGlobals { MAGIC_WORDS : WordArray }.

(** [CryptoJS.lib.WordArray.create([0x000273db], 4)] *)
Definition initial : globals := mkGlobals (WordArray_init [160731] 4).

Definition wordArrayToArrayBuffer (wordArray : WordArray) : result (list byte) :=
  let ws := words wordArray in
  let sb := sigBytes wordArray in
  (* new ArrayBuffer(sigBytes) *)
  if sb <? 0 then Throw InvalidArrayBufferLength
  else
    let buf := repeat Byte.x00 (Z.to_nat sb) in
    Ok (for_loop (Z.to_nat sb)
          (fun i view =>
             view_set view (Z.to_nat i)
               (byte.of_Z (band (ushr (get ws (ushr i 2)) (24 - (i mod 4) * 8)) 255)))
          buf).

(** The key and iv arguments shared by both methods:
    [WordArray.create(new Uint8Array(new TextEncoder().encode(key.slice(16, 48))))]
    and
    [Utf8.parse(new TextDecoder().decode(new TextEncoder().encode(key.slice(0, 16))))]. *)
Definition key_words (key : jsstring) : WordArray :=
  WordArray_create_u8 (TextEncoder_encode (slice key 16 48)).

Definition iv_words (key : jsstring) : result WordArray :=
  Utf8_parse (TextDecoder_decode (TextEncoder_encode (slice key 0 16))).

Definition encryptText (buffer : list byte) (key : jsstring) (g : globals)
  : result (list byte) * globals :=
  let try :=
    let message := WordArray_create_u8 (slice buffer 0 (length buffer)) in
    let k := key_words key in
    match iv_words key with
    | Throw m => Throw m
    | Ok iv =>
        let ciphertext := Cipher.AES_encrypt message k iv in
        wordArrayToArrayBuffer (WordArray_concat (WordArray_clone (MAGIC_WORDS g)) ciphertext)
    end in
  match try with
  | Ok frame => (Ok frame, g)
  | Throw m => (Throw (EncryptFailed m), g)
  end.

Definition decryptText (buffer : list byte) (key : jsstring) (g : globals)
  : result (list byte) * globals :=
  let try :=
    let ciphertext := WordArray_create_u8 (slice buffer 0 (length buffer)) in
    if sigBytes ciphertext <? 4 then Throw NotValidCiphertext
    else
      let magicGot := ushr (get (words ciphertext) 0) 0 in
      if negb (magicGot =? ushr (get (words (MAGIC_WORDS g)) 0) 0) then Throw NotValidCiphertext
      else
        let ciphertext :=
          WordArray_init (skipn 1 (words ciphertext))
            (sigBytes ciphertext - sigBytes (MAGIC_WORDS g)) in
        let k := key_words key in
        match iv_words key with
        | Throw m => Throw m
        | Ok iv =>
            let bytes := Cipher.AES_decrypt ciphertext k iv in
            match wordArrayToArrayBuffer bytes with
            | Throw m => Throw m
            | Ok decrypted =>
                if not_object decrypted then Throw CheckKey else Ok decrypted
            end
        end in
  match try with
  | Ok plain => (Ok plain, g)
  | Throw m => (Throw m, g)
  end.

End Encrypt.

(** ** src/encrypt.ts, object by object

    [WordArray.clamp] and [WordArray.concat] work in place and return
    their receiver, [clone] makes a new object over a copy of the words,
    and [wordArrayToArrayBuffer] fills the buffer it has allocated through
    a view.  [MAGIC_WORDS] is one [WordArray] for the lifetime of the
    module, and a caller keeps the [ArrayBuffer] it passes and the one it
    gets.  Here every array of words, every [WordArray] and every
    [ArrayBuffer] is a cell of a heap, named by its reference; a method
    takes and returns references and the heap.  A reference is opaque to
    the program, which can only follow it: where an operation makes an
    object and the array in its [words] field, the array is the cell that
    comes first.

    The typed arrays ([new Uint8Array(..)], the result of
    [TextEncoder.encode]) are read once, by [WordArray.create], in the
    expression that makes them: they are the bytes they hold.  A call of
    [CryptoJS.AES.encrypt] or [CryptoJS.AES.decrypt] with a [WordArray] key
    goes to [SerializableCipher], which takes the iv from its [cfg] and
    draws no salt; the encryptor it creates, with its buffer [_data], its
    key schedule and its mode object, is dropped when the call returns.
    The call copies the words of the message into [_data], reads the words
    of the key and of the iv, and returns a new [WordArray] over the array
    spliced from [_data]: [Cipher.AES_encrypt] and [Cipher.AES_decrypt]
    above are applied to what the three arguments hold. *)

Module Objects.

Definition ref : Type := nat.

Inductive cell : Type :=
| Words (ws : list Z)                 (* an array of words *)
| WordArrayObject (w : ref) (sb : Z)  (* a WordArray: its fields [words] and [sigBytes] *)
| ArrayBuffer (bs : list byte).

Definition heap : Type := list cell.

(** Reading a cell. *)
Definition words_at (h : heap) (r : ref) : list Z :=
  match nth_error h r with Some (Words ws) => ws | _ => [] end.

Definition get_words (h : heap) (r : ref) : ref :=
  match nth_error h r with Some (WordArrayObject w _) => w | _ => O end.

Definition get_sigBytes (h : heap) (r : ref) : Z :=
  match nth_error h r with Some (WordArrayObject _ sb) => sb | _ => 0 end.

Definition bytes_at (h : heap) (r : ref) : list byte :=
  match nth_error h r with Some (ArrayBuffer bs) => bs | _ => [] end.

(** What a [WordArray] object holds: the array behind its [words] field
    and its [sigBytes]. *)
Definition value (h : heap) (r : ref) : WordArray :=
  mkWordArray (words_at h (get_words h r)) (get_sigBytes h r).

(** Writing a cell in place. *)
Fixpoint store (h : heap) (r : ref) (c : cell) : heap :=
  match h, r with
  | [], _ => []
  | _ :: t, O => c :: t
  | x :: t, S r' => x :: store t r' c
  end.

(** A computation on the heap returns a value or throws. *)
Definition M (A : Type) : Type := heap -> result A * heap.

Definition ret {A : Type} (a : A) : M A := fun h => (Ok a, h).

Definition throw {A : Type} (m : message) : M A := fun h => (Throw m, h).

Definition bind {A B : Type} (m : M A) (k : A -> M B) : M B :=
  fun h =>
    match m h with
    | (Ok a, h') => k a h'
    | (Throw e, h') => (Throw e, h')
    end.

Notation "x <- m ;; k" := (bind m (fun x => k))
  (at level 100, m at next level, right associativity).

(** [try { body } catch (error) { handler }] *)
Definition try_catch {A : Type} (body : M A) (handler : message -> M A) : M A :=
  fun h =>
    match body h with
    | (Ok a, h') => (Ok a, h')
    | (Throw e, h') => handler e h'
    end.

Definition read {A : Type} (f : heap -> A) : M A := fun h => (Ok (f h), h).

Definition write (r : ref) (f : heap -> cell) : M unit := fun h => (Ok tt, store h r (f h)).

(** A new object. *)
Definition alloc (c : cell) : M ref := fun h => (Ok (length h), h ++ [c]).

(** [for (var i = 0; i < n; i++) body] over the heap. *)
Definition for_each (n : nat) (body : Z -> heap -> heap) : M unit :=
  fun h => (Ok tt, for_loop n body h).

(** *** lib.WordArray *)

(** [WordArray.create(words, sigBytes)]: the object keeps the array it is
    given. *)
Definition WordArray_init (ws : ref) (sb : Z) : M ref := alloc (WordArrayObject ws sb).

(** [WordArray.create(typedArray)]: a new array, filled from the bytes. *)
Definition WordArray_create_u8 (typedArray : list byte) : M ref :=
  ws <- alloc (Words (u8_words typedArray)) ;;
  WordArray_init ws (Z.of_nat (length typedArray)).

(** [clamp] masks and truncates the array behind [this.words]. *)
Definition clamp (this : ref) : M unit :=
  ws <- read (fun h => get_words h this) ;;
  write ws (fun h => Words (words (WordArray_clamp (value h this)))).

(** [clone]: [Base.clone] gives a new object with the same fields, then
    [clone.words = this.words.slice(0)]. *)
Definition clone (this : ref) : M ref :=
  ws <- read (fun h => words_at h (get_words h this)) ;;
  sb <- read (fun h => get_sigBytes h this) ;;
  copy <- alloc (Words (slice ws 0 (length ws))) ;;
  alloc (WordArrayObject copy sb).

(** [this.concat(wordArray)]: both loops write into the array behind
    [this.words]; [this.sigBytes] is updated and [this] is returned. *)
Definition concat (this that : ref) : M ref :=
  thisWords <- read (fun h => get_words h this) ;;
  thatWords <- read (fun h => get_words h that) ;;
  thisSigBytes <- read (fun h => get_sigBytes h this) ;;
  thatSigBytes <- read (fun h => get_sigBytes h that) ;;
  _ <- clamp this ;;
  _ <- (if negb (thisSigBytes mod 4 =? 0) then
          for_each (Z.to_nat thatSigBytes)
            (fun i h =>
               let thatByte :=
                 band (ushr (get (words_at h thatWords) (ushr i 2)) (24 - (i mod 4) * 8)) 255 in
               store h thisWords
                 (Words (set (words_at h thisWords) (ushr (thisSigBytes + i) 2)
                           (bor (get (words_at h thisWords) (ushr (thisSigBytes + i) 2))
                                (shl thatByte (24 - ((thisSigBytes + i) mod 4) * 8))))))
        else
          for_each (Z.to_nat (ceil_div thatSigBytes 4))
            (fun k h =>
               let j := 4 * k in
               store h thisWords
                 (Words (set (words_at h thisWords) (ushr (thisSigBytes + j) 2)
                           (get (words_at h thatWords) (ushr j 2)))))) ;;
  _ <- write this (fun h => WordArrayObject (get_words h this)
                              (get_sigBytes h this + thatSigBytes)) ;;
  ret this.

(** [CryptoJS.enc.Utf8.parse(s)]: a new [WordArray], or the URIError. *)
Definition Utf8_parse (s : jsstring) : M ref :=
  match Utf8_parse s with
  | Throw m => throw m
  | Ok w => ws <- alloc (Words (words w)) ;; WordArray_init ws (sigBytes w)
  end.

(** [CryptoJS.AES.encrypt(message, key, {iv, mode: CBC}).ciphertext] and
    [CryptoJS.AES.decrypt({ciphertext}, key, {iv, mode: CBC})]. *)
Definition AES_encrypt (message key iv : ref) : M ref :=
  ct <- read (fun h => Cipher.AES_encrypt (value h message) (value h key) (value h iv)) ;;
  ws <- alloc (Words (words ct)) ;;
  WordArray_init ws (sigBytes ct).

Definition AES_decrypt (ciphertext key iv : ref) : M ref :=
  pt <- read (fun h => Cipher.AES_decrypt (value h ciphertext) (value h key) (value h iv)) ;;
  ws <- alloc (Words (words pt)) ;;
  WordArray_init ws (sigBytes pt).

(** *** ArrayBuffer *)

(** [buffer.slice(0)]: a new buffer with the same bytes. *)
Definition ArrayBuffer_slice (buffer : ref) : M ref :=
  bs <- read (fun h => bytes_at h buffer) ;;
  alloc (ArrayBuffer (slice bs 0 (length bs))).

(** [new ArrayBuffer(n)]: [n] zero bytes, or the RangeError. *)
Definition ArrayBuffer_new (n : Z) : M ref :=
  if n <? 0 then throw InvalidArrayBufferLength
  else alloc (ArrayBuffer (repeat Byte.x00 (Z.to_nat n))).

(** *** The class [Encrypt] *)

Section Module_scope.

(** The reference held by the constant [MAGIC_WORDS]. *)
Variable MAGIC_WORDS : ref.

Definition wordArrayToArrayBuffer (wordArray : ref) : M ref :=
  ws <- read (fun h => get_words h wordArray) ;;
  sb <- read (fun h => get_sigBytes h wordArray) ;;
  buf <- ArrayBuffer_new sb ;;
  _ <- for_each (Z.to_nat sb)
         (fun i h =>
            store h buf
              (ArrayBuffer
                 (view_set (bytes_at h buf) (Z.to_nat i)
                    (byte.of_Z (band (ushr (get (words_at h ws) (ushr i 2))
                                           (24 - (i mod 4) * 8)) 255))))) ;;
  ret buf.

Definition encryptText (buffer : ref) (key : jsstring) : M ref :=
  try_catch
    (copy <- ArrayBuffer_slice buffer ;;
     view <- read (fun h => bytes_at h copy) ;;
     message <- WordArray_create_u8 view ;;
     k <- WordArray_create_u8 (TextEncoder_encode (slice key 16 48)) ;;
     iv <- Utf8_parse (TextDecoder_decode (TextEncoder_encode (slice key 0 16))) ;;
     ciphertext <- AES_encrypt message k iv ;;
     c <- clone MAGIC_WORDS ;;
     w <- concat c ciphertext ;;
     wordArrayToArrayBuffer w)
    (fun m => throw (EncryptFailed m)).

(** [content], the [CipherParams] made at the start, is an object of the
    call alone; its field [ciphertext], assigned twice, is the variable of
    that name. *)
Definition decryptText (buffer : ref) (key : jsstring) : M ref :=
  try_catch
    (copy <- ArrayBuffer_slice buffer ;;
     view <- read (fun h => bytes_at h copy) ;;
     ciphertext <- WordArray_create_u8 view ;;
     sb <- read (fun h => get_sigBytes h ciphertext) ;;
     if sb <? 4 then throw NotValidCiphertext
     else
       magicGot <- read (fun h => ushr (get (words_at h (get_words h ciphertext)) 0) 0) ;;
       magic <- read (fun h => ushr (get (words_at h (get_words h MAGIC_WORDS)) 0) 0) ;;
       if negb (magicGot =? magic) then throw NotValidCiphertext
       else
         ws <- read (fun h => words_at h (get_words h ciphertext)) ;;
         rest <- alloc (Words (skipn 1 ws)) ;;
         magicSigBytes <- read (fun h => get_sigBytes h MAGIC_WORDS) ;;
         ciphertext <- WordArray_init rest (sb - magicSigBytes) ;;
         k <- WordArray_create_u8 (TextEncoder_encode (slice key 16 48)) ;;
         iv <- Utf8_parse (TextDecoder_decode (TextEncoder_encode (slice key 0 16))) ;;
         bytes <- AES_decrypt ciphertext k iv ;;
         decrypted <- wordArrayToArrayBuffer bytes ;;
         if not_object decrypted then throw CheckKey else ret decrypted)
    (fun m => throw m).

End Module_scope.

(** [const MAGIC_WORDS = CryptoJS.lib.WordArray.create([0x000273db], 4)],
    run when the module is loaded. *)
Definition load : M ref :=
  ws <- alloc (Words [160731]) ;;
  WordArray_init ws 4.

(** A call of one of the two methods. *)
Inductive call : Type :=
| Encrypting (buffer : ref) (key : jsstring)
| Decrypting (buffer : ref) (key : jsstring).

Definition buffer_of (c : call) : ref :=
  match c with Encrypting b _ | Decrypting b _ => b end.

Definition perform (MAGIC_WORDS : ref) (c : call) : M ref :=
  match c with
  | Encrypting b k => encryptText MAGIC_WORDS b k
  | Decrypting b k => decryptText MAGIC_WORDS b k
  end.

(** The heap after a sequence of calls. *)
Definition run (MAGIC_WORDS : ref) (cs : list call) (h : heap) : heap :=
  fold_left (fun h c => snd (perform MAGIC_WORDS c h)) cs h.

End Objects.

(** ** src/unnamed/part_000: the lineage without the marker *)

Module Legacy.

Definition wordArrayToArrayBuffer := Encrypt.wordArrayToArrayBuffer.

Definition encryptText (buffer : list byte) (key : jsstring) : result (list byte) :=
  let try :=
    let message := WordArray_create_u8 (slice buffer 0 (length buffer)) in
    let k := Encrypt.key_words key in
    match Encrypt.iv_words key with
    | Throw m => Throw m
    | Ok iv => wordArrayToArrayBuffer (Cipher.AES_encrypt message k iv)
    end in
  match try with
  | Ok out => Ok out
  | Throw m => Throw (EncryptFailed m)
  end.

(** The messages of this lineage's [decryptText]. *)
Inductive decrypt_message : Type :=
| KeyCheck                              (* "解密失败，请检查密钥是否正确" *)
| Below (m : message)                   (* an error raised by the library or the platform *)
| DecryptFailed (m : decrypt_message).  (* "解密失败: " + m: decryptText's catch block *)

Inductive outcome (A : Type) : Type :=
| Returned (a : A)
| Thrown (m : decrypt_message).
Arguments Returned {A} a.
Arguments Thrown {A} m.

Definition decryptText (buffer : list byte) (key : jsstring) : outcome (list byte) :=
  let try :=
    let ciphertext := WordArray_create_u8 (slice buffer 0 (length buffer)) in
    let k := Encrypt.key_words key in
    match Encrypt.iv_words key with
    | Throw m => Thrown (Below m)
    | Ok iv =>
        let bytes := Cipher.AES_decrypt ciphertext k iv in
        match wordArrayToArrayBuffer bytes with
        | Throw m => Thrown (Below m)
        | Ok decrypted => if not_object decrypted then Thrown KeyCheck else Returned decrypted
        end
    end in
  match try with
  | Returned plain => Returned plain
  | Thrown m => Thrown (DecryptFailed m)
  end.

End Legacy.

(** ** src/main.ts and src/unnamed/part_000: the plugin

    The plugin reaches the vault and the workspace through obsidian's API.
    The model keeps what the plugin's own statements depend on: the binary
    content of each file, by path; the notices shown; the calls made to the
    workspace.  A read of a file the vault does not hold, or of [null],
    rejects, and the [await] rethrows inside the surrounding [try]; a write
    to a file that was just read succeeds.  An [async] method is modelled by
    its run from call to completion: the methods below are awaited by their
    callers in src/unnamed/part_000, and no other handler runs in between.
    [Encrypt] is the class of src/encrypt.ts, which the plugin imports by
    the module name; the same methods over the class that
    src/unnamed/part_000 holds follow in [LegacyPlugin]. *)

Module Plugin.

Record EncryptPluginSettings : Type := mkSettings {
  workingDirectory : jsstring;
  documentDirectory : jsstring;
  encryptionKey : jsstring;
  autoEncryptionDecryption : bool }.

Definition DEFAULT_SETTINGS : EncryptPluginSettings := mkSettings [] [] [] false.

(** obsidian's [TFile], with the fields the plugin reads.  The vault keeps
    one [TFile] object for each path, so that [!==] on files is a comparison
    of paths. *)
Record TFile : Type := mkTFile { path : jsstring; basename : jsstring; extension : jsstring }.

Definition Vault : Type := jsstring -> option (list byte).

(** [error.message] in the two [catch] blocks. *)
Inductive error_message : Type :=
| OfEncrypt (m : message)  (* thrown by Encrypt.encryptText or Encrypt.decryptText *)
| OfLegacy (m : Legacy.decrypt_message)  (* thrown by the older Encrypt.decryptText *)
| OfVault.                 (* a rejection of vault.readBinary *)

Inductive Notice : Type :=
| FileIsEmpty                              (* "文件为空" *)
| EncryptSucceeded (basename : jsstring)   (* `文件 ${file.basename} 加密成功` *)
| EncryptFailure (e : error_message)       (* `加密失败: ${error.message}` *)
| DecryptSucceeded (basename : jsstring)   (* `文件 ${file.basename} 解密成功` *)
| DecryptFailure (e : error_message).      (* `解密失败: ${error.message}` *)

(** Calls into the workspace and into the registered callback. *)
Inductive Call : Type :=
| OnFileOpen (file : option TFile)   (* this.onFileOpen(file) *)
| OpenFile (file : option TFile).    (* this.app.workspace.getLeaf().openFile(file) *)

(** What outlives a call: the vault, the notices and calls so far, the
    module state of src/encrypt.ts. *)
Record App : Type := mkApp {
  vault : Vault;
  notices : list Notice;
  calls : list Call;
  encrypt : Encrypt.globals }.

Definition notify (n : Notice) (a : App) : App :=
  mkApp (vault a) (notices a ++ [n]) (calls a) (encrypt a).

Definition call (c : Call) (a : App) : App :=
  mkApp (vault a) (notices a) (calls a ++ [c]) (encrypt a).

(** [await this.app.vault.readBinary(file)] *)
Definition readBinary (v : Vault) (file : option TFile) : option (list byte) :=
  match file with
  | Some f => v (path f)
  | None => None
  end.

(** [await this.app.vault.modifyBinary(file, data)] *)
Definition modifyBinary (v : Vault) (file : TFile) (data : list byte) : Vault :=
  fun p => if list_eq_dec Z.eq_dec p (path file) then Some data else v p.

(** [encryptFile(file)]; the argument is [null] when a caller's [file!]
    is. *)
Definition encryptFile (settings : EncryptPluginSettings) (file : option TFile) (a : App) : App :=
  match file, readBinary (vault a) file with
  | Some f, Some content =>
      if (length content =? 0)%nat then notify FileIsEmpty a
      else
        let '(r, g) := Encrypt.encryptText content (encryptionKey settings) (encrypt a) in
        match r with
        | Ok encryptedContent =>
            notify (EncryptSucceeded (basename f))
              (mkApp (modifyBinary (vault a) f encryptedContent) (notices a) (calls a) g)
        | Throw m =>
            notify (EncryptFailure (OfEncrypt m)) (mkApp (vault a) (notices a) (calls a) g)
        end
  | _, _ => notify (EncryptFailure OfVault) a
  end.

Definition decryptFile (settings : EncryptPluginSettings) (file : option TFile) (a : App) : App :=
  match file, readBinary (vault a) file with
  | Some f, Some content =>
      let '(r, g) := Encrypt.decryptText content (encryptionKey settings) (encrypt a) in
      match r with
      | Ok decrypted =>
          notify (DecryptSucceeded (basename f))
            (mkApp (modifyBinary (vault a) f decrypted) (notices a) (calls a) g)
      | Throw m =>
          notify (DecryptFailure (OfEncrypt m)) (mkApp (vault a) (notices a) (calls a) g)
      end
  | _, _ => notify (DecryptFailure OfVault) a
  end.

(** [String.prototype.trim]: white space and line terminators of
    ECMAScript. *)
Definition is_white_space (c : Z) : bool :=
  (c =? 9) || (c =? 10) || (c =? 11) || (c =? 12) || (c =? 13) || (c =? 32) ||
  (c =? 160) || (c =? 5760) || ((8192 <=? c) && (c <=? 8202)) ||
  (c =? 8232) || (c =? 8233) || (c =? 8239) || (c =? 8287) || (c =? 12288) || (c =? 65279).

Fixpoint trimStart (s : jsstring) : jsstring :=
  match s with
  | c :: r => if is_white_space c then trimStart r else s
  | [] => []
  end.

Definition trim (s : jsstring) : jsstring := rev (trimStart (rev (trimStart s))).

(** [s.startsWith(prefix)] *)
Fixpoint startsWith (s prefix : jsstring) {struct prefix} : bool :=
  match prefix, s with
  | [], _ => true
  | p :: prefix', c :: s' => (c =? p) && startsWith s' prefix'
  | _ :: _, [] => false
  end.

(** [getDocumentFiles()]; [files] is what [vault.getMarkdownFiles()]
    returns. *)
Definition getDocumentFiles (settings : EncryptPluginSettings) (files : list TFile)
  : list TFile :=
  let docDir := trim (documentDirectory settings) in
  if (length docDir =? 0)%nat then files
  else filter (fun file => startsWith (path file) docDir) files.

(** The plugin object: [settings], [lastActiveFile], and whether [on] has
    registered a callback in [onFileOpen]. *)
Record EncryptPlugin : Type := mkPlugin {
  settings : EncryptPluginSettings;
  lastActiveFile : option TFile;
  onFileOpen : bool }.

(** [on('file-open', callback)] *)
Definition on (p : EncryptPlugin) : EncryptPlugin :=
  mkPlugin (settings p) (lastActiveFile p) true.

(** [file !== this.lastActiveFile] is the negation of this. *)
Definition same_file (a b : option TFile) : bool :=
  match a, b with
  | None, None => true
  | Some f, Some g => if list_eq_dec Z.eq_dec (path f) (path g) then true else false
  | _, _ => false
  end.

(** The handler of the workspace's [file-open] event, as
    src/unnamed/part_000 registers it. *)
Definition on_file_open (file : option TFile) (st : EncryptPlugin * App)
  : EncryptPlugin * App :=
  let '(p, a) := st in
  let a := if onFileOpen p then call (OnFileOpen file) a else a in
  if negb (autoEncryptionDecryption (settings p)) then (p, a)
  else
    let '(p, a) :=
      if negb (same_file file (lastActiveFile p)) then
        let a := decryptFile (settings p) file a in
        let a := match lastActiveFile p with
                 | Some _ => encryptFile (settings p) (lastActiveFile p) a
                 | None => a
                 end in
        (mkPlugin (settings p) file (onFileOpen p), a)
      else (p, a) in
    (p, call (OpenFile file) a).

(** The handler of the workspace's [quit] event. *)
Definition on_quit (st : EncryptPlugin * App) : EncryptPlugin * App :=
  let '(p, a) := st in
  if negb (autoEncryptionDecryption (settings p)) then (p, a)
  else
    match lastActiveFile p with
    | Some _ => (p, encryptFile (settings p) (lastActiveFile p) a)
    | None => (p, a)
    end.

End Plugin.

(** ** src/unnamed/part_000: the same file operations over the class of
    that file, the lineage without the marker *)

Module LegacyPlugin.

Definition encryptFile (settings : Plugin.EncryptPluginSettings) (file : option Plugin.TFile)
  (a : Plugin.App) : Plugin.App :=
  match file, Plugin.readBinary (Plugin.vault a) file with
  | Some f, Some content =>
      if (length content =? 0)%nat then Plugin.notify Plugin.FileIsEmpty a
      else
        match Legacy.encryptText content (Plugin.encryptionKey settings) with
        | Ok encryptedContent =>
            Plugin.notify (Plugin.EncryptSucceeded (Plugin.basename f))
              (Plugin.mkApp (Plugin.modifyBinary (Plugin.vault a) f encryptedContent)
                 (Plugin.notices a) (Plugin.calls a) (Plugin.encrypt a))
        | Throw m => Plugin.notify (Plugin.EncryptFailure (Plugin.OfEncrypt m)) a
        end
  | _, _ => Plugin.notify (Plugin.EncryptFailure Plugin.OfVault) a
  end.

Definition decryptFile (settings : Plugin.EncryptPluginSettings) (file : option Plugin.TFile)
  (a : Plugin.App) : Plugin.App :=
  match file, Plugin.readBinary (Plugin.vault a) file with
  | Some f, Some content =>
      match Legacy.decryptText content (Plugin.encryptionKey settings) with
      | Legacy.Returned decrypted =>
          Plugin.notify (Plugin.DecryptSucceeded (Plugin.basename f))
            (Plugin.mkApp (Plugin.modifyBinary (Plugin.vault a) f decrypted)
               (Plugin.notices a) (Plugin.calls a) (Plugin.encrypt a))
      | Legacy.Thrown m => Plugin.notify (Plugin.DecryptFailure (Plugin.OfLegacy m)) a
      end
  | _, _ => Plugin.notify (Plugin.DecryptFailure Plugin.OfVault) a
  end.

End LegacyPlugin.

(** ** crypto-js: algo.SHA256 (sha256.js), lib.Hasher, enc.Hex (core.js) *)

Module SHA256.

(** [isPrime(n)]: no factor from 2 up to the square root of [n]. *)
Definition isPrime (n : Z) : bool :=
  forallb (fun factor => negb (n mod factor =? 0))
    (map (fun k => Z.of_nat k + 2) (seq 0 (Z.to_nat (Z.sqrt n - 1)))).

(** The largest [r + x] with [x < 2 ^ bits] and [(r + x) ^ 3 <= n]. *)
Fixpoint cube_root (bits : nat) (n r : Z) : Z :=
  match bits with
  | O => r
  | S b =>
      let r' := r + 2 ^ Z.of_nat b in
      if r' ^ 3 <=? n then cube_root b n r' else cube_root b n r
  end.

(** [getFractionalBits(Math.pow(n, 1 / 2))] and
    [getFractionalBits(Math.pow(n, 1 / 3))]: the first 32 bits of the
    fractional part of the root. *)
Definition fractional_bits_of_square_root (n : Z) : Z := u32 (Z.sqrt (n * 2 ^ 64)).
Definition fractional_bits_of_cube_root (n : Z) : Z := u32 (cube_root 40 (n * 2 ^ 96) 0).

(** The loop that fills [H] and [K] when the module is loaded: the walk
    over [n = 2, 3, ..] until 64 primes are met, which ends at 311. *)
Definition walk : list Z * list Z :=
  fold_left
    (fun '(H, K) n =>
       if (length K <? 64)%nat && isPrime n then
         ((if (length K <? 8)%nat then H ++ [fractional_bits_of_square_root n] else H),
          K ++ [fractional_bits_of_cube_root n])
       else (H, K))
    (map Z.of_nat (seq 2 310)) ([], []).

Definition H : list Z := Eval vm_compute in fst walk.
Definition K : list Z := Eval vm_compute in snd walk.

(** [~x] *)
Definition bnot (x : Z) : Z := u32 (Z.lnot x).

Definition registers : Type := (Z * Z * Z * Z * Z * Z * Z * Z)%type.

(** One turn of the loop of [_doProcessBlock] on the message schedule [W]
    and the working variables.  The source keeps in [W[i]] the exact sum of
    four numbers, well below 2^53, and reads it only through a bitwise
    operator or inside a sum that [| 0] reduces: the residue is kept here, as
    for every other value. *)
Definition round (M : list Z) (offset : Z) (i : Z) (st : list Z * registers)
  : list Z * registers :=
  let '(W, (a, b, c, d, e, f, g, h)) := st in
  let W :=
    if i <? 16 then set W i (bor (get M (offset + i)) 0)
    else
      let gamma0x := get W (i - 15) in
      let gamma0 := bxor (bxor (bor (shl gamma0x 25) (ushr gamma0x 7))
                               (bor (shl gamma0x 14) (ushr gamma0x 18)))
                         (ushr gamma0x 3) in
      let gamma1x := get W (i - 2) in
      let gamma1 := bxor (bxor (bor (shl gamma1x 15) (ushr gamma1x 17))
                               (bor (shl gamma1x 13) (ushr gamma1x 19)))
                         (ushr gamma1x 10) in
      set W i (u32 (gamma0 + get W (i - 7) + gamma1 + get W (i - 16))) in
  let ch := bxor (band e f) (band (bnot e) g) in
  let maj := bxor (bxor (band a b) (band a c)) (band b c) in
  let sigma0 := bxor (bxor (bor (shl a 30) (ushr a 2)) (bor (shl a 19) (ushr a 13)))
                     (bor (shl a 10) (ushr a 22)) in
  let sigma1 := bxor (bxor (bor (shl e 26) (ushr e 6)) (bor (shl e 21) (ushr e 11)))
                     (bor (shl e 7) (ushr e 25)) in
  let t1 := h + sigma1 + ch + get K i + get W i in
  let t2 := sigma0 + maj in
  (W, (u32 (t1 + t2), a, b, c, u32 (d + t1), e, f, g)).

(** [_doProcessBlock(M, offset)] on the words of [this._hash] and on [W],
    the array of the module that every call reuses. *)
Definition doProcessBlock (hash W M : list Z) (offset : Z) : list Z * list Z :=
  let '(W, (a, b, c, d, e, f, g, h)) :=
    for_loop 64 (round M offset)
      (W, (get hash 0, get hash 1, get hash 2, get hash 3,
           get hash 4, get hash 5, get hash 6, get hash 7)) in
  (set (set (set (set (set (set (set (set hash
     0 (u32 (get hash 0 + a))) 1 (u32 (get hash 1 + b))) 2 (u32 (get hash 2 + c)))
     3 (u32 (get hash 3 + d))) 4 (u32 (get hash 4 + e))) 5 (u32 (get hash 5 + f)))
     6 (u32 (get hash 6 + g))) 7 (u32 (get hash 7 + h)),
   W).

(** [x | 0] as a signed number. *)
Definition to_int32 (x : Z) : Z :=
  if u32 x <? 2 ^ 31 then u32 x else u32 x - 2 ^ 32.

(** [_process()] of a hasher, whose [_minBufferSize] is 0: every whole
    block of [_data] is processed and spliced off. *)
Definition process (hash W : list Z) (data : WordArray) : list Z * list Z * WordArray :=
  let dataWords := words data in
  let dataSigBytes := sigBytes data in
  let blockSize := 16 in
  let blockSizeBytes := blockSize * 4 in
  let nBlocksReady := Z.max (to_int32 (dataSigBytes / blockSizeBytes) - 0) 0 in
  let nWordsReady := nBlocksReady * blockSize in
  let nBytesReady := Z.min (nWordsReady * 4) dataSigBytes in
  if nWordsReady =? 0 then (hash, W, data)
  else
    let '(hash, W) :=
      for_loop (Z.to_nat nBlocksReady)
        (fun k '(hash, W) => doProcessBlock hash W dataWords (k * blockSize))
        (hash, W) in
    (hash, W, mkWordArray (skipn (Z.to_nat nWordsReady) dataWords) (dataSigBytes - nBytesReady)).

(** [_doFinalize()]: the padding bit, the length, the last blocks. *)
Definition doFinalize (hash W : list Z) (data : WordArray) (nDataBytes : Z)
  : WordArray * list Z :=
  let dataWords := words data in
  let nBitsTotal := nDataBytes * 8 in
  let nBitsLeft := sigBytes data * 8 in
  let dataWords :=
    set dataWords (ushr nBitsLeft 5)
      (bor (get dataWords (ushr nBitsLeft 5)) (shl 128 (24 - nBitsLeft mod 32))) in
  let dataWords :=
    set dataWords (shl (ushr (nBitsLeft + 64) 9) 4 + 14) (u32 (nBitsTotal / 4294967296)) in
  let dataWords :=
    set dataWords (shl (ushr (nBitsLeft + 64) 9) 4 + 15) (u32 nBitsTotal) in
  let data := mkWordArray dataWords (Z.of_nat (length dataWords) * 4) in
  let '(hash, W, _) := process hash W data in
  (mkWordArray hash 32, W).

(** [CryptoJS.SHA256(message)] for a string: a fresh hasher is reset,
    [finalize] appends the message unless it is the empty string, and
    [_doFinalize] returns [this._hash].  The result comes with [W] as the
    call leaves it. *)
Definition SHA256 (message : jsstring) (W : list Z) : result (WordArray * list Z) :=
  let hash := slice H 0 (length H) in
  let data := WordArray_init [] 0 in
  match message with
  | [] => Ok (doFinalize hash W data 0)
  | _ :: _ =>
      match Utf8_parse message with
      | Throw m => Throw m
      | Ok parsed => Ok (doFinalize hash W (WordArray_concat data parsed) (0 + sigBytes parsed))
      end
  end.

(** [(n).toString(16)] for [0 <= n < 2 ^ 32]. *)
Definition hex_digit (d : Z) : Z := if d <? 10 then 48 + d else 87 + d.

Fixpoint toString16_from (fuel : nat) (n : Z) (tail : jsstring) : jsstring :=
  match fuel with
  | O => tail
  | S fuel' =>
      let tail := hex_digit (n mod 16) :: tail in
      if n / 16 =? 0 then tail else toString16_from fuel' (n / 16) tail
  end.

Definition toString16 (n : Z) : jsstring := toString16_from 8 n [].

(** [CryptoJS.enc.Hex.stringify(wordArray)], which [toString()] of a word
    array calls. *)
Definition Hex_stringify (wordArray : WordArray) : jsstring :=
  let hexChars :=
    for_loop (Z.to_nat (sigBytes wordArray))
      (fun i hexChars =>
         let bite := band (ushr (get (words wordArray) (ushr i 2)) (24 - (i mod 4) * 8)) 255 in
         (hexChars ++ [toString16 (ushr bite 4)]) ++ [toString16 (band bite 15)])
      [] in
  concat hexChars.

End SHA256.

(** ** src/main.ts, the earlier revision in the same file

    The plugin class holds the cipher itself and reaches the key bytes
    through Node's [Buffer].  [Buffer.from(s, "utf8")] gives the UTF-8 bytes
    of [s] with U+FFFD for a lone surrogate, as [TextEncoder] does;
    [buf.toString("utf-8")] decodes with U+FFFD for what is not UTF-8 and
    keeps a byte order mark. *)

Module BufferPlugin.

Definition Buffer_from_utf8 (s : jsstring) : list byte := TextEncoder_encode s.

Definition Buffer_toString_utf8 (bs : list byte) : jsstring :=
  flat_map utf16_units (decode_run decoder_init bs).

Definition wordArrayToArrayBuffer := Encrypt.wordArrayToArrayBuffer.

Definition key_words (key : jsstring) : WordArray :=
  WordArray_create_u8 (Buffer_from_utf8 (slice key 16 48)).

Definition iv_words (key : jsstring) : result WordArray :=
  Utf8_parse (Buffer_toString_utf8 (Buffer_from_utf8 (slice key 0 16))).

Definition encryptText (buffer : list byte) (key : jsstring) : result (list byte) :=
  let try :=
    let message := WordArray_create_u8 (slice buffer 0 (length buffer)) in
    let k := key_words key in
    match iv_words key with
    | Throw m => Throw m
    | Ok iv => wordArrayToArrayBuffer (Cipher.AES_encrypt message k iv)
    end in
  match try with
  | Ok out => Ok out
  | Throw m => Throw (EncryptFailed m)
  end.

Definition decryptText (buffer : list byte) (key : jsstring) : Legacy.outcome (list byte) :=
  let try :=
    let ciphertext := WordArray_create_u8 (slice buffer 0 (length buffer)) in
    let k := key_words key in
    match iv_words key with
    | Throw m => Legacy.Thrown (Legacy.Below m)
    | Ok iv =>
        let bytes := Cipher.AES_decrypt ciphertext k iv in
        match wordArrayToArrayBuffer bytes with
        | Throw m => Legacy.Thrown (Legacy.Below m)
        | Ok decrypted =>
            if not_object decrypted then Legacy.Thrown Legacy.KeyCheck
            else Legacy.Returned decrypted
        end
    end in
  match try with
  | Legacy.Returned plain => Legacy.Returned plain
  | Legacy.Thrown m => Legacy.Thrown (Legacy.DecryptFailed m)
  end.

(** The settings tab: the two text fields of the key generator. *)
Record EncryptSettingTab : Type := mkTab { username : jsstring; password : jsstring }.

Inductive Notice : Type :=
| MissingInput   (* "未输入用户名或密码" *)
| KeyGenerated.  (* "已生成新的加密密钥" *)

(** [!s] for a string. *)
Definition not_string (s : jsstring) : bool := (length s =? 0)%nat.

(** The click handler of the key generator button.  [encryptionKey] is the
    setting before the click and [W] the array of the SHA-256 module; the
    result is the setting after the click, the notice shown, and [W].  The
    unused [randomKey] is drawn before the two digests and changes
    nothing.  An error of a digest leaves the handler before the setting
    is assigned; [saveSettings] and [display], which follow the assignment,
    are calls into obsidian that leave the setting as assigned. *)
Definition generate_key (tab : EncryptSettingTab) (encryptionKey : jsstring) (W : list Z)
  : result (jsstring * Notice * list Z) :=
  if not_string (Plugin.trim (username tab)) || not_string (Plugin.trim (password tab))
  then Ok (encryptionKey, MissingInput, W)
  else
    match SHA256.SHA256 (username tab) W with
    | Throw m => Throw m
    | Ok (digest_u, W) =>
        match SHA256.SHA256 (password tab) W with
        | Throw m => Throw m
        | Ok (digest_p, W) =>
            Ok (slice (SHA256.Hex_stringify digest_u) 0 16
                  ++ slice (SHA256.Hex_stringify digest_p) 0 64,
                KeyGenerated, W)
        end
    end.

End BufferPlugin.

(** * Auxiliary definitions for the statements and proofs *)

(** ** Bytes of a word, states of four words *)

Definition b0 (w : Z) : Z := ushr w 24.
Definition b1 (w : Z) : Z := band (ushr w 16) 255.
Definition b2 (w : Z) : Z := band (ushr w 8) 255.
Definition b3 (w : Z) : Z := band w 255.

Definition pack4 (a b c d : Z) : Z := bor (bor (bor (shl a 24) (shl b 16)) (shl c 8)) d.

Definition is_byte (x : Z) : Prop := 0 <= x < 256.

Definition get4 (M : list Z) (off : Z) : AES.state :=
  (get M off, get M (off + 1), get M (off + 2), get M (off + 3)).

Definition set4 (M : list Z) (off : Z) (s : AES.state) : list Z :=
  let '(t0, t1, t2, t3) := s in
  set (set (set (set M off t0) (off + 1) t1) (off + 2) t2) (off + 3) t3.

Definition xor_state (s k : AES.state) : AES.state :=
  let '(s0, s1, s2, s3) := s in
  let '(k0, k1, k2, k3) := k in
  (bxor s0 k0, bxor s1 k1, bxor s2 k2, bxor s3 k3).

Definition u32_state (s : AES.state) : AES.state :=
  let '(s0, s1, s2, s3) := s in (u32 s0, u32 s1, u32 s2, u32 s3).

(** The exchange of the 2nd and 4th words made by [decryptBlock]. *)
Definition sigma (s : AES.state) : AES.state :=
  let '(s0, s1, s2, s3) := s in (s0, s3, s2, s1).

(** The table part of a round and of the last round, without the key. *)
Definition mix_round (S0 S1 S2 S3 : list Z) (s : AES.state) : AES.state :=
  let '(s0, s1, s2, s3) := s in
  (bxor (bxor (bxor (get S0 (b0 s0)) (get S1 (b1 s1))) (get S2 (b2 s2))) (get S3 (b3 s3)),
   bxor (bxor (bxor (get S0 (b0 s1)) (get S1 (b1 s2))) (get S2 (b2 s3))) (get S3 (b3 s0)),
   bxor (bxor (bxor (get S0 (b0 s2)) (get S1 (b1 s3))) (get S2 (b2 s0))) (get S3 (b3 s1)),
   bxor (bxor (bxor (get S0 (b0 s3)) (get S1 (b1 s0))) (get S2 (b2 s1))) (get S3 (b3 s2))).

Definition sub_shift (SB : list Z) (s : AES.state) : AES.state :=
  let '(s0, s1, s2, s3) := s in
  (pack4 (get SB (b0 s0)) (get SB (b1 s1)) (get SB (b2 s2)) (get SB (b3 s3)),
   pack4 (get SB (b0 s1)) (get SB (b1 s2)) (get SB (b2 s3)) (get SB (b3 s0)),
   pack4 (get SB (b0 s2)) (get SB (b1 s3)) (get SB (b2 s0)) (get SB (b3 s1)),
   pack4 (get SB (b0 s3)) (get SB (b1 s0)) (get SB (b2 s1)) (get SB (b3 s2))).

(** The inverse mix-columns transform of one word, as [_doReset] applies it
    to the round keys of the inverse schedule. *)
Definition inv_mix (t : Z) : Z :=
  bxor (bxor (bxor (get AES.INV_SUB_MIX_0 (get AES.SBOX (b0 t)))
                   (get AES.INV_SUB_MIX_1 (get AES.SBOX (b1 t))))
             (get AES.INV_SUB_MIX_2 (get AES.SBOX (b2 t))))
       (get AES.INV_SUB_MIX_3 (get AES.SBOX (b3 t))).

Definition inv_mix_state (s : AES.state) : AES.state :=
  let '(s0, s1, s2, s3) := s in (inv_mix s0, inv_mix s1, inv_mix s2, inv_mix s3).

(** [_doCryptBlock] on the four words of a block. *)
Definition crypt_state (nInner : nat) (ks S0 S1 S2 S3 SB : list Z) (m : AES.state) : AES.state :=
  let '(s, r) := AES.round_loop nInner ks S0 S1 S2 S3 (xor_state m (get4 ks 0)) 4 in
  AES.final_round ks SB s r.

Definition enc_block (c : AES.instance) (m : AES.state) : AES.state :=
  crypt_state (AES._innerRounds c) (AES._keySchedule c)
    AES.SUB_MIX_0 AES.SUB_MIX_1 AES.SUB_MIX_2 AES.SUB_MIX_3 AES.SBOX m.

Definition dec_block (c : AES.instance) (m : AES.state) : AES.state :=
  sigma (crypt_state (AES._innerRounds c) (AES._invKeySchedule c)
           AES.INV_SUB_MIX_0 AES.INV_SUB_MIX_1 AES.INV_SUB_MIX_2 AES.INV_SUB_MIX_3
           AES.INV_SBOX (sigma m)).

(** All bytes [0 .. 255], for checks by evaluation. *)
Definition all_bytes : list Z := map Z.of_nat (seq 0 256).

(** A table read through the S-box, and its span over the powers of two. *)
Definition through_SBOX (T : list Z) (x : Z) : Z := get T (get AES.SBOX x).

Definition sel (x i c : Z) : Z := if Z.testbit x i then u32 c else 0.

Definition span8 (T : list Z) (x : Z) : Z :=
  bxor (sel x 0 (through_SBOX T 1))
 (bxor (sel x 1 (through_SBOX T 2))
 (bxor (sel x 2 (through_SBOX T 4))
 (bxor (sel x 3 (through_SBOX T 8))
 (bxor (sel x 4 (through_SBOX T 16))
 (bxor (sel x 5 (through_SBOX T 32))
 (bxor (sel x 6 (through_SBOX T 64))
       (sel x 7 (through_SBOX T 128)))))))).

Definition table_linear (T : list Z) : bool :=
  forallb (fun x => through_SBOX T x =? span8 T x) all_bytes.

(** The entry the inverse-schedule loop writes at [invKsRow]. *)
Definition inv_entry (keySchedule : list Z) (ksRows invKsRow : Z) : Z :=
  let ksRow := ksRows - invKsRow in
  let t := if negb (invKsRow mod 4 =? 0) then get keySchedule ksRow
           else get keySchedule (ksRow - 4) in
  if (invKsRow <? 4) || (ksRow <=? 4) then t else inv_mix t.

(** ** CBC over the blocks of an array *)

(** The block a mode object mixes into the next block. *)
Definition mix_of (m : CBC.mode) : AES.state :=
  get4 (match CBC._iv m with Some iv => iv | None => CBC._prevBlock m end) 0.

(** One block of CBC encryption / decryption at [offset], on the pair of
    the mixing block and the array. *)
Definition enc_step (c : AES.instance) (offset : Z) (st : AES.state * list Z)
  : AES.state * list Z :=
  let '(prev, ws) := st in
  let e := enc_block c (xor_state (get4 ws offset) prev) in
  (e, set4 ws offset e).

Definition dec_step (c : AES.instance) (offset : Z) (st : AES.state * list Z)
  : AES.state * list Z :=
  let '(prev, ws) := st in
  (get4 ws offset, set4 ws offset (xor_state (dec_block c (get4 ws offset)) prev)).

Definition enc_loop (c : AES.instance) (n : nat) (iv : AES.state) (ws : list Z)
  : AES.state * list Z :=
  for_loop n (fun k st => enc_step c (k * 4) st) (iv, ws).

Definition dec_loop (c : AES.instance) (n : nat) (iv : AES.state) (ws : list Z)
  : AES.state * list Z :=
  for_loop n (fun k st => dec_step c (k * 4) st) (iv, ws).

(** Every word is a 32-bit residue. *)
Definition words_ok (ws : list Z) : Prop := Forall (fun w => 0 <= w < 2 ^ 32) ws.

(** ** Word arrays as byte sequences *)

(** The byte of a buffer at [i], 0 outside it. *)
Definition B (bs : list byte) (i : Z) : Z :=
  if i <? 0 then 0 else byte.unsigned (nth (Z.to_nat i) bs Byte.x00).

(** The big-endian word made of the four bytes from [4 * j]. *)
Definition word_at (bs : list byte) (j : Z) : Z :=
  pack4 (B bs (4 * j)) (B bs (4 * j + 1)) (B bs (4 * j + 2)) (B bs (4 * j + 3)).

(** The word array of a byte sequence: big-endian, the last word padded
    with zero bytes. *)
Definition words_of (bs : list byte) : list Z :=
  map (word_at bs) (map Z.of_nat (seq 0 (Z.to_nat (ceil_div (Z.of_nat (length bs)) 4)))).

(** The byte of a word array at [i], as [wordArrayToArrayBuffer] and
    [concat] read it. *)
Definition byte_at (ws : list Z) (i : Z) : Z :=
  band (ushr (get ws (ushr i 2)) (24 - (i mod 4) * 8)) 255.

(** The first [n] bytes of a word array. *)
Definition bytes_of (ws : list Z) (n : nat) : list byte :=
  map (fun i => byte.of_Z (byte_at ws (Z.of_nat i))) (seq 0 n).

(** ** PKCS#7 on byte sequences *)

(** The number of padding bytes after [n] bytes of data. *)
Definition pad_len (n : Z) : Z := 16 - n mod 16.

(** The data followed by its padding. *)
Definition padded (P : list byte) : list byte :=
  let p := pad_len (Z.of_nat (length P)) in
  P ++ repeat (byte.of_Z p) (Z.to_nat p).

(** The ciphertext words of CBC encryption of the padded plaintext. *)
Definition cipher_words (key : WordArray) (ivw : list Z) (P : list byte) : list Z :=
  snd (enc_loop (AES.doReset key) (Z.to_nat (Z.of_nat (length (padded P)) / 16))
         (get4 ivw 0) (words_of (padded P))).

(** ** Key strings *)

(** Every code unit is an ASCII character. *)
Definition is_ascii (s : jsstring) : Prop := Forall (fun c => 0 <= c < 128) s.

(** The bytes of an ASCII string. *)
Definition ascii_bytes (s : jsstring) : list byte := map byte.of_Z s.

(** The frame marker as bytes. *)
Definition marker : list byte := [Byte.x00; Byte.x02; Byte.x73; Byte.xdb].

(** ** The two halves of decryptText *)

(** What [decryptText] does with the ciphertext once the marker is checked
    and stripped: the statements from [CryptoJS.AES.decrypt] to the end of
    the [try] block. *)
Definition after_unwrap (ciphertext : WordArray) (key : jsstring) : result (list byte) :=
  match Encrypt.iv_words key with
  | Throw m => Throw m
  | Ok iv =>
      let bytes := Cipher.AES_decrypt ciphertext (Encrypt.key_words key) iv in
      match Encrypt.wordArrayToArrayBuffer bytes with
      | Throw m => Throw m
      | Ok decrypted => if not_object decrypted then Throw CheckKey else Ok decrypted
      end
  end.

(** The frame [encryptText] builds for a plaintext, a key and an iv. *)
Definition frame_of (P : list byte) (key : jsstring) (iv : WordArray) : list byte :=
  marker ++ bytes_of (cipher_words (Encrypt.key_words key) (words iv) P) (length (padded P)).

(** ** Unicode scalar values and the decoder's open sequences *)

Definition scalar (cp : Z) : Prop := 0 <= cp < 55296 \/ 57344 <= cp <= 1114111.

(** What the decoder has accumulated inside a sequence always extends to a
    scalar value. *)
Definition decoder_ok (st : utf8_decoder) : Prop :=
  let cp := code_point st in
  let lo := lower_boundary st in
  let hi := upper_boundary st in
  bytes_needed st = 0 \/
  (128 <= lo /\ hi <= 191 /\
   ((bytes_needed st = 1 /\ bytes_seen st = 0 /\ 0 <= cp <= 31) \/
    (bytes_needed st = 2 /\ bytes_seen st = 0 /\ 0 <= cp <= 15 /\ (cp = 13 -> hi <= 159)) \/
    (bytes_needed st = 2 /\ bytes_seen st = 1 /\ 0 <= cp <= 1023 /\ ~ 864 <= cp <= 895) \/
    (bytes_needed st = 3 /\ bytes_seen st = 0 /\ 0 <= cp <= 4 /\
     (cp = 4 -> hi <= 143) /\ (cp = 0 -> 144 <= lo)) \/
    (bytes_needed st = 3 /\ bytes_seen st = 1 /\ 16 <= cp <= 271) \/
    (bytes_needed st = 3 /\ bytes_seen st = 2 /\ 1024 <= cp <= 17407))).

(** ** Objects on the heap *)

(** The heap with one more [WordArray]: its array, then the object. *)
Definition with_WordArray (h : Objects.heap) (w : WordArray) : Objects.heap :=
  h ++ [Objects.Words (words w); Objects.WordArrayObject (length h) (sigBytes w)].

(** The object at [r] and the array behind it are cells of [h]. *)
Definition lives (h : Objects.heap) (r : Objects.ref) : Prop :=
  (r < length h)%nat /\ (Objects.get_words h r < length h)%nat.

(** [h'] is [h] with new objects after it: every cell of [h] is in [h']
    what it is in [h]. *)
Definition extends (h h' : Objects.heap) : Prop := exists news, h' = h ++ news.

(** What a caller reads in the buffer it gets, or the error it catches. *)
Definition outcome (h : Objects.heap) (r : result Objects.ref) : result (list byte) :=
  match r with
  | Ok b => Ok (Objects.bytes_at h b)
  | Throw m => Throw m
  end.

(** [MAGIC_WORDS] refers to a [WordArray] of the heap. *)
Definition loaded (MAGIC_WORDS : Objects.ref) (h : Objects.heap) : Prop :=
  exists a sb ws,
    nth_error h MAGIC_WORDS = Some (Objects.WordArrayObject a sb) /\
    nth_error h a = Some (Objects.Words ws).

(** What [Encrypt] returns for a call, given the bytes of its buffer and
    what [MAGIC_WORDS] holds. *)
Definition returned (c : Objects.call) (bs : list byte) (g : WordArray) : result (list byte) :=
  match c with
  | Objects.Encrypting _ K => fst (Encrypt.encryptText bs K (Encrypt.mkGlobals g))
  | Objects.Decrypting _ K => fst (Encrypt.decryptText bs K (Encrypt.mkGlobals g))
  end.

(** ** Sample inputs *)

Module Samples.
Import String.
Local Open Scope string_scope.

(** The code units of an ASCII literal. *)
Definition str (s : string) : jsstring :=
  List.map (fun a => Z.of_N (Ascii.N_of_ascii a)) (list_ascii_of_string s).

Definition sample_key : jsstring := str "0123456789abcdefghijklmnopqrstuvwxyzABCDEFGHIJKL".

(** [sample_key] with the character at index 12 changed from [c] to [C]:
    another iv, the same cipher key. *)
Definition sample_key_iv12 : jsstring := str "0123456789abCdefghijklmnopqrstuvwxyzABCDEFGHIJKL".

(** [sample_key] with the character at index 3 changed from [3] to [X]:
    the iv differs inside an 11-byte plaintext. *)
Definition sample_key_iv3 : jsstring := str "012X456789abcdefghijklmnopqrstuvwxyzABCDEFGHIJKL".

(** Another iv and another cipher key: a key string found by search, whose
    iv undoes on the 11 bytes of [hello_world] and on byte 15 what
    decryption under its cipher key makes of the first block. *)
Definition sample_key_other : jsstring := str "c,PzzhAW0C,bcde.b7sdu2zOs69aSTTTocv8ZfPtYc63r6Ut".

(** [sample_key] with U+00E9 at index 20: 48 characters whose characters
    16..47 take 33 bytes in UTF-8. *)
Definition sample_key_e_acute : jsstring :=
  List.app (str "0123456789abcdefghij") (233 :: str "lmnopqrstuvwxyzABCDEFGHIJKL").

(** A key string too short to hold an iv and a cipher key. *)
Definition short_key : jsstring := str "short".

Definition hello_world : list byte := ascii_bytes (str "hello world").

(** A frame with the marker and one block of zero bytes. *)
Definition zero_block_frame : list byte := List.app marker (repeat Byte.x00 16).

(** Two plaintexts with the same first block. *)
Definition report_draft_1 : list byte := ascii_bytes (str "quarterly report, draft 1").
Definition report_draft_2 : list byte := ascii_bytes (str "quarterly report, draft 2").

(** A file of the vault, its settings, and a vault that holds the file in
    plaintext. *)
Definition note : Plugin.TFile :=
  Plugin.mkTFile (str "notes/today.md") (str "today") (str "md").

Definition sample_settings : Plugin.EncryptPluginSettings :=
  Plugin.mkSettings nil (str " notes/ ") sample_key true.

Definition plain_vault : Plugin.Vault :=
  fun p => if list_eq_dec Z.eq_dec p (Plugin.path note) then Some hello_world else None.

Definition plain_app : Plugin.App := Plugin.mkApp plain_vault nil nil Encrypt.initial.

(** The same vault once the file is encrypted. *)
Definition hello_world_frame : list byte :=
  match fst (Encrypt.encryptText hello_world sample_key Encrypt.initial) with
  | Ok frame => frame
  | Throw _ => nil
  end.

Definition encrypted_vault : Plugin.Vault :=
  fun p => if list_eq_dec Z.eq_dec p (Plugin.path note) then Some hello_world_frame else None.

Definition encrypted_app : Plugin.App := Plugin.mkApp encrypted_vault nil nil Encrypt.initial.

(** The plugin in automatic mode with no file open, once the view has
    registered its callback. *)
Definition sample_plugin : Plugin.EncryptPlugin :=
  Plugin.on (Plugin.mkPlugin sample_settings None false).

(** The heap once the module is loaded and a caller has made a buffer
    with the 11 bytes: [MAGIC_WORDS] is the object 1, the buffer is 2. *)
Definition sample_heap : Objects.heap :=
  snd (Objects.alloc (Objects.ArrayBuffer hello_world) (snd (Objects.load nil))).

(** Calls made on that heap between two calls that are compared. *)
Definition sample_calls : list Objects.call :=
  (Objects.Decrypting 2%nat sample_key :: Objects.Encrypting 2%nat short_key :: nil)%list.

(** Messages with their SHA-256 digests in hexadecimal notation (FIPS
    180-4, examples B.1 and the empty message; 120 times [a] takes three
    blocks). *)
Definition abc : jsstring := str "abc".
Definition digest_of_abc : jsstring :=
  str "ba7816bf8f01cfea414140de5dae2223b00361a396177a9cb410ff61f20015ad".
Definition digest_of_empty : jsstring :=
  str "e3b0c44298fc1c149afbf4c8996fb92427ae41e4649b934ca495991b7852b855".
Definition digest_of_120_a : jsstring :=
  str "2f3d335432c70b580af0e8e1b3674a7c020d683aa5f73aaaedfdc55af904c21c".

(** Two users of the key generator with one password, and the keys the
    generator gives them. *)
Definition alice : BufferPlugin.EncryptSettingTab :=
  BufferPlugin.mkTab (str "alice") (str "correct horse").

Definition bob : BufferPlugin.EncryptSettingTab :=
  BufferPlugin.mkTab (str "bob") (str "correct horse").

Definition key_of (tab : BufferPlugin.EncryptSettingTab) : jsstring :=
  match BufferPlugin.generate_key tab nil nil with
  | Ok (key, _, _) => key
  | Throw _ => nil
  end.

Definition W_after (tab : BufferPlugin.EncryptSettingTab) : list Z :=
  match BufferPlugin.generate_key tab nil nil with
  | Ok (_, _, W) => W
  | Throw _ => nil
  end.

End Samples.
Import Samples.

(** ** The unwrap step as the specification words it *)

Definition is_marker (bs : list byte) : bool :=
  match bs with
  | [a; b; c; d] =>
      (byte.unsigned a =? 0) && (byte.unsigned b =? 2) &&
      (byte.unsigned c =? 115) && (byte.unsigned d =? 219)
  | _ => false
  end.

(** FrameCodec.unwrap of the specification: fails on a frame shorter than
    4 bytes, fails when the first 4 bytes are not the marker, otherwise
    returns [frame[4:]]. *)
Definition spec_unwrap (frame : list byte) : result (list byte) :=
  if (length frame <? 4)%nat then Throw NotValidCiphertext
  else if is_marker (firstn 4 frame) then Ok (skipn 4 frame)
  else Throw NotValidCiphertext.

(** A decidable form of [is_ascii], for concrete keys. *)
Definition is_ascii_b (s : jsstring) : bool := forallb (fun c => (0 <=? c) && (c <? 128)) s.

(** ** The automatic mode of the plugin *)

(** [frame] is what [encryptFile] writes for the plaintext [plain] under
    the key string [K]. *)
Definition frame_under (K : jsstring) (plain frame : list byte) : Prop :=
  plain <> [] /\ Z.of_nat (length plain) + 20 <= 2 ^ 32 /\
  Encrypt.encryptText plain K Encrypt.initial = (Ok frame, Encrypt.initial).

(** Every file of the vault holds such a frame. *)
Definition all_encrypted (K : jsstring) (v : Plugin.Vault) : Prop :=
  forall q frame, v q = Some frame -> exists plain, frame_under K plain frame.

(** Between two events of a session that started from the vault [v0]: the
    file opened last holds its plaintext, every other file holds what it
    held at the start. *)
Definition session_invariant (s : Plugin.EncryptPluginSettings) (v0 : Plugin.Vault)
  (st : Plugin.EncryptPlugin * Plugin.App) : Prop :=
  let '(p, a) := st in
  Plugin.settings p = s /\ Plugin.encrypt a = Encrypt.initial /\
  forall q,
    match Plugin.lastActiveFile p with
    | Some l =>
        if list_eq_dec Z.eq_dec q (Plugin.path l) then
          match v0 q with
          | Some frame =>
              exists plain,
                frame_under (Plugin.encryptionKey s) plain frame /\
                Plugin.vault a q = Some plain
          | None => Plugin.vault a q = None
          end
        else Plugin.vault a q = v0 q
    | None => Plugin.vault a q = v0 q
    end.

(** ** Strings of the key generator *)

(** A digit of lower-case hexadecimal notation. *)
Definition lower_hex (c : Z) : Prop := 48 <= c <= 57 \/ 97 <= c <= 102.

(** Every element is a UTF-16 code unit. *)
Definition is_string (s : jsstring) : Prop := Forall (fun c => 0 <= c < 65536) s.

(** * Properties *)

(** ** Loops and arrays *)

Lemma for_loop_0 {S : Type} (body : Z -> S -> S) (s : S) : for_loop 0 body s = s.
Proof. reflexivity. Qed.

Lemma for_loop_S {S : Type} (n : nat) (body : Z -> S -> S) (s : S) :
  for_loop (Datatypes.S n) body s = body (Z.of_nat n) (for_loop n body s).
Proof.
  unfold for_loop. rewrite seq_S, fold_left_app. reflexivity.
Qed.

Lemma for_loop_ext {S : Type} (n : nat) (f g : Z -> S -> S) (s : S) :
  (forall i x, 0 <= i < Z.of_nat n -> f i x = g i x) ->
  for_loop n f s = for_loop n g s.
Proof.
  induction n as [|n IH]; intros H; [reflexivity|].
  rewrite !for_loop_S, IH by (intros; apply H; lia). apply H; lia.
Qed.

Lemma get_nil (i : Z) : get [] i = 0.
Proof. reflexivity. Qed.

Lemma get_neg (a : list Z) (i : Z) : i < 0 -> get a i = 0.
Proof.
  revert i; induction a as [|x a IH]; intros i Hi; simpl; [reflexivity|].
  destruct (Z.eqb_spec i 0); [lia|]. apply IH; lia.
Qed.

Lemma get_cons (x : Z) (a : list Z) (i : Z) :
  get (x :: a) i = if i =? 0 then x else get a (i - 1).
Proof. reflexivity. Qed.

Lemma get_nth (a : list Z) (n : nat) : get a (Z.of_nat n) = nth n a 0.
Proof.
  revert n; induction a as [|x a IH]; intros [|n]; try reflexivity.
  cbn [nth]. rewrite get_cons.
  destruct (Z.eqb_spec (Z.of_nat (Datatypes.S n)) 0); [lia|].
  rewrite <- IH. f_equal. lia.
Qed.

Lemma get_beyond (a : list Z) (i : Z) : Z.of_nat (length a) <= i -> get a i = 0.
Proof.
  intros H. replace i with (Z.of_nat (Z.to_nat i)) by lia.
  rewrite get_nth. apply nth_overflow. lia.
Qed.

Lemma get_app_l (a b : list Z) (i : Z) :
  i < Z.of_nat (length a) -> get (a ++ b) i = get a i.
Proof.
  intros H. destruct (Z.ltb_spec i 0) as [Hn|Hn].
  - rewrite !get_neg by lia. reflexivity.
  - replace i with (Z.of_nat (Z.to_nat i)) by lia.
    rewrite !get_nth. apply app_nth1. lia.
Qed.

Lemma get_app_r (a b : list Z) (i : Z) :
  Z.of_nat (length a) <= i -> get (a ++ b) i = get b (i - Z.of_nat (length a)).
Proof.
  intros H.
  replace i with (Z.of_nat (Z.to_nat i)) at 1 by lia.
  replace (i - Z.of_nat (length a)) with (Z.of_nat (Z.to_nat i - length a)) by lia.
  rewrite !get_nth. apply app_nth2. lia.
Qed.

Lemma length_set_nat (a : list Z) (i : nat) (v : Z) :
  length (set_nat a i v) = Nat.max (length a) (Datatypes.S i).
Proof.
  revert a; induction i as [|i IH]; intros [|x a]; simpl; try rewrite IH; simpl; lia.
Qed.

Lemma nth_set_nat (a : list Z) (i j : nat) (v : Z) :
  nth j (set_nat a i v) 0 = if Nat.eqb j i then v else nth j a 0.
Proof.
  revert a j; induction i as [|i IH]; intros [|x a] [|j]; simpl; try reflexivity.
  - destruct j; reflexivity.
  - rewrite IH. destruct (Nat.eqb j i); [reflexivity|]. destruct j; reflexivity.
  - apply IH.
Qed.

Lemma length_set (a : list Z) (i v : Z) :
  Z.of_nat (length (set a i v)) = Z.max (Z.of_nat (length a)) (Z.max i 0 + 1).
Proof. unfold set. rewrite length_set_nat. lia. Qed.

Lemma get_set (a : list Z) (i j v : Z) :
  0 <= i ->
  get (set a i v) j = if j =? i then v else get a j.
Proof.
  intros Hi. unfold set. destruct (Z.ltb_spec j 0) as [Hj|Hj].
  - rewrite !get_neg by lia. destruct (Z.eqb_spec j i); [lia|reflexivity].
  - replace j with (Z.of_nat (Z.to_nat j)) at 1 3 by lia.
    rewrite !get_nth, nth_set_nat.
    destruct (Nat.eqb_spec (Z.to_nat j) (Z.to_nat i)), (Z.eqb_spec j i); try reflexivity; lia.
Qed.

Lemma get_set_same (a : list Z) (i v : Z) : 0 <= i -> get (set a i v) i = v.
Proof. intros. rewrite get_set, Z.eqb_refl by lia. reflexivity. Qed.

Lemma get_set_other (a : list Z) (i j v : Z) : 0 <= i -> j <> i -> get (set a i v) j = get a j.
Proof. intros. rewrite get_set by lia. destruct (Z.eqb_spec j i); [lia|reflexivity]. Qed.

(** Arrays are equal when they have the same length and read alike. *)
Lemma get_ext (a b : list Z) :
  length a = length b ->
  (forall i, 0 <= i < Z.of_nat (length a) -> get a i = get b i) ->
  a = b.
Proof.
  intros Hl H. apply (nth_ext a b 0 0 Hl). intros n Hn.
  rewrite <- !get_nth. apply H. lia.
Qed.

Lemma set_snoc (a : list Z) (v : Z) : set a (Z.of_nat (length a)) v = a ++ [v].
Proof.
  unfold set. rewrite Nat2Z.id. induction a as [|x a IH]; simpl; [reflexivity|].
  rewrite IH. reflexivity.
Qed.

(** ** 32-bit operators *)

Lemma u32_range (x : Z) : 0 <= u32 x < 2 ^ 32.
Proof. unfold u32. apply Z.mod_pos_bound. lia. Qed.

Lemma u32_small (x : Z) : 0 <= x < 2 ^ 32 -> u32 x = x.
Proof. unfold u32. apply Z.mod_small. Qed.

Lemma u32_idem (x : Z) : u32 (u32 x) = u32 x.
Proof. apply u32_small, u32_range. Qed.

Lemma testbit_u32 (x i : Z) : Z.testbit (u32 x) i = (i <? 32) && Z.testbit x i.
Proof. unfold u32. apply Z.testbit_mod_pow2. lia. Qed.

Lemma bxor_range (a b : Z) : 0 <= bxor a b < 2 ^ 32.
Proof. apply u32_range. Qed.

Lemma bxor_comm (a b : Z) : bxor a b = bxor b a.
Proof. unfold bxor. rewrite Z.lxor_comm. reflexivity. Qed.

Lemma bxor_assoc (a b c : Z) : bxor (bxor a b) c = bxor a (bxor b c).
Proof. unfold bxor, u32. Z.bitblast. Qed.

Lemma bxor_u32_l (a b : Z) : bxor (u32 a) b = bxor a b.
Proof. unfold bxor, u32. Z.bitblast. Qed.

Lemma bxor_u32_r (a b : Z) : bxor a (u32 b) = bxor a b.
Proof. unfold bxor, u32. Z.bitblast. Qed.

Lemma u32_bxor (a b : Z) : u32 (bxor a b) = bxor a b.
Proof. apply u32_idem. Qed.

Lemma bxor_0_r (a : Z) : bxor a 0 = u32 a.
Proof. unfold bxor. rewrite Z.lxor_0_r. reflexivity. Qed.

Lemma bxor_0_l (a : Z) : bxor 0 a = u32 a.
Proof. unfold bxor. rewrite Z.lxor_0_l. reflexivity. Qed.

Lemma bxor_nilpotent (a : Z) : bxor a a = 0.
Proof. unfold bxor. rewrite Z.lxor_nilpotent. reflexivity. Qed.

Lemma bxor_cancel_r (a b : Z) : bxor (bxor a b) b = u32 a.
Proof. rewrite bxor_assoc, bxor_nilpotent, bxor_0_r. reflexivity. Qed.

Opaque AES.SBOX AES.INV_SBOX AES.SUB_MIX_0 AES.SUB_MIX_1 AES.SUB_MIX_2 AES.SUB_MIX_3
  AES.INV_SUB_MIX_0 AES.INV_SUB_MIX_1 AES.INV_SUB_MIX_2 AES.INV_SUB_MIX_3.

(** ** Bytes of words *)

Ltac unfold_ops :=
  unfold b0, b1, b2, b3, pack4, bor, bxor, band, shl, ushr, u32 in *;
  change (24 mod 32) with 24 in *; change (16 mod 32) with 16 in *;
  change (8 mod 32) with 8 in *; change 255 with (Z.ones 8) in *.

Ltac blast :=
  Z.bitblast;
  try (subst; repeat rewrite Z.testbit_neg_r by lia;
       repeat rewrite Z.testbit_mod_pow2 by lia;
       repeat match goal with
              | |- context [?a <? ?b] => destruct (Z.ltb_spec a b); try lia
              end;
       repeat rewrite andb_false_r; repeat rewrite orb_false_r;
       try reflexivity; try Btauto.btauto).

Lemma byte_mod (a : Z) : is_byte a -> a = a mod 2 ^ 8.
Proof. intros H. symmetry. apply Z.mod_small. exact H. Qed.

Ltac bytes_blast :=
  repeat match goal with
         | H : is_byte ?a |- _ => rewrite (byte_mod a H); clear H
         end;
  unfold_ops; blast.

Lemma b0_pack4 a b c d : is_byte a -> is_byte b -> is_byte c -> is_byte d ->
  b0 (pack4 a b c d) = a.
Proof. intros. bytes_blast. Qed.

Lemma b1_pack4 a b c d : is_byte a -> is_byte b -> is_byte c -> is_byte d ->
  b1 (pack4 a b c d) = b.
Proof. intros. bytes_blast. Qed.

Lemma b2_pack4 a b c d : is_byte a -> is_byte b -> is_byte c -> is_byte d ->
  b2 (pack4 a b c d) = c.
Proof. intros. bytes_blast. Qed.

Lemma b3_pack4 a b c d : is_byte a -> is_byte b -> is_byte c -> is_byte d ->
  b3 (pack4 a b c d) = d.
Proof. intros. bytes_blast. Qed.

Lemma pack4_bytes (w : Z) : pack4 (b0 w) (b1 w) (b2 w) (b3 w) = u32 w.
Proof. unfold_ops. blast. Qed.

Lemma pack4_xor a b c d : is_byte a -> is_byte b -> is_byte c -> is_byte d ->
  pack4 a b c d = bxor (bxor (bxor (shl a 24) (shl b 16)) (shl c 8)) d.
Proof. intros. bytes_blast. Qed.

Lemma is_byte_land (x : Z) : is_byte (band x 255).
Proof.
  unfold is_byte, band, u32. change 255 with (Z.ones 8).
  rewrite Z.land_ones by lia.
  pose proof (Z.mod_pos_bound x (2 ^ 8) ltac:(lia)).
  rewrite Z.mod_small; lia.
Qed.

Lemma is_byte_b0 (w : Z) : is_byte (b0 w).
Proof.
  unfold is_byte, b0, ushr. change (24 mod 32) with 24.
  pose proof (u32_range w). rewrite Z.shiftr_div_pow2 by lia.
  split; [apply Z.div_pos; lia | apply Z.div_lt_upper_bound; lia].
Qed.

Lemma is_byte_b1 (w : Z) : is_byte (b1 w).
Proof. apply is_byte_land. Qed.
Lemma is_byte_b2 (w : Z) : is_byte (b2 w).
Proof. apply is_byte_land. Qed.
Lemma is_byte_b3 (w : Z) : is_byte (b3 w).
Proof. apply is_byte_land. Qed.

Lemma b0_bxor (x y : Z) : b0 (bxor x y) = Z.lxor (b0 x) (b0 y).
Proof. unfold_ops. blast. Qed.
Lemma b1_bxor (x y : Z) : b1 (bxor x y) = Z.lxor (b1 x) (b1 y).
Proof. unfold_ops. blast. Qed.
Lemma b2_bxor (x y : Z) : b2 (bxor x y) = Z.lxor (b2 x) (b2 y).
Proof. unfold_ops. blast. Qed.
Lemma b3_bxor (x y : Z) : b3 (bxor x y) = Z.lxor (b3 x) (b3 y).
Proof. unfold_ops. blast. Qed.

(** ** The cipher against the FIPS-197 example vectors *)

Example aes256_fips197 :
  AES.encryptBlock
    (AES.doReset (mkWordArray [66051; 67438087; 134810123; 202182159;
                               269554195; 336926231; 404298267; 471670303] 32))
    [1122867; 1146447479; 2291772091; 3437096703] 0
  = [2393028554; 1365722559; 3942402448; 1263100041].
Proof. vm_compute. reflexivity. Qed.

Example aes128_fips197 :
  AES.encryptBlock
    (AES.doReset (mkWordArray [66051; 67438087; 134810123; 202182159] 16))
    [1122867; 1146447479; 2291772091; 3437096703] 0
  = [1774510296; 1786446896; 3637360512; 1890895194].
Proof. vm_compute. reflexivity. Qed.

(** ** The AES tables, checked by evaluation *)

Lemma in_all_bytes (x : Z) : is_byte x -> In x all_bytes.
Proof.
  intros H. unfold all_bytes. apply in_map_iff. exists (Z.to_nat x).
  split; [unfold is_byte in H; lia|]. apply in_seq. unfold is_byte in H. lia.
Qed.

Lemma forall_bytes (P : Z -> bool) :
  forallb P all_bytes = true -> forall x, is_byte x -> P x = true.
Proof. intros H x Hx. rewrite forallb_forall in H. apply H, in_all_bytes, Hx. Qed.

Lemma forall_bytes2 (P : Z -> Z -> bool) :
  forallb (fun x => forallb (P x) all_bytes) all_bytes = true ->
  forall x y, is_byte x -> is_byte y -> P x y = true.
Proof.
  intros H x y Hx Hy.
  apply (forall_bytes (P x)); [|exact Hy].
  apply (forall_bytes (fun x => forallb (P x) all_bytes)); assumption.
Qed.

Lemma SBOX_byte (x : Z) : is_byte x -> is_byte (get AES.SBOX x).
Proof.
  intros H.
  assert (C : forallb (fun x => (0 <=? get AES.SBOX x) && (get AES.SBOX x <? 256)) all_bytes = true)
    by (vm_compute; reflexivity).
  pose proof (forall_bytes _ C x H) as E. cbv beta in E.
  rewrite andb_true_iff, Z.leb_le, Z.ltb_lt in E. exact E.
Qed.

Lemma INV_SBOX_byte (x : Z) : is_byte x -> is_byte (get AES.INV_SBOX x).
Proof.
  intros H.
  assert (C : forallb (fun x => (0 <=? get AES.INV_SBOX x) && (get AES.INV_SBOX x <? 256))
                all_bytes = true)
    by (vm_compute; reflexivity).
  pose proof (forall_bytes _ C x H) as E. cbv beta in E.
  rewrite andb_true_iff, Z.leb_le, Z.ltb_lt in E. exact E.
Qed.

Lemma INV_SBOX_SBOX (x : Z) : is_byte x -> get AES.INV_SBOX (get AES.SBOX x) = x.
Proof.
  intros H.
  assert (C : forallb (fun x => get AES.INV_SBOX (get AES.SBOX x) =? x) all_bytes = true)
    by (vm_compute; reflexivity).
  pose proof (forall_bytes _ C x H) as E. cbv beta in E.
  apply Z.eqb_eq in E. exact E.
Qed.

Lemma is_byte_lxor (x y : Z) : is_byte x -> is_byte y -> is_byte (Z.lxor x y).
Proof.
  intros Hx Hy.
  assert (E : Z.lxor x y = (Z.lxor x y) mod 2 ^ 8).
  { rewrite (byte_mod x Hx), (byte_mod y Hy). clear. blast. }
  rewrite E. apply Z.mod_pos_bound. lia.
Qed.

(** Each inverse table, read through the S-box, is linear over xor: it is
    the span of its values at the eight powers of two. *)
Lemma sel_lxor (x y i c : Z) : sel (Z.lxor x y) i c = bxor (sel x i c) (sel y i c).
Proof.
  unfold sel. rewrite Z.lxor_spec.
  destruct (Z.testbit x i), (Z.testbit y i); cbn [xorb];
    rewrite ?bxor_nilpotent, ?bxor_0_r, ?bxor_0_l, ?u32_idem; reflexivity.
Qed.

Lemma span8_linear (T : list Z) (x y : Z) :
  span8 T (Z.lxor x y) = bxor (span8 T x) (span8 T y).
Proof.
  unfold span8. rewrite !sel_lxor.
  generalize (sel x 0 (through_SBOX T 1)) (sel x 1 (through_SBOX T 2))
    (sel x 2 (through_SBOX T 4)) (sel x 3 (through_SBOX T 8))
    (sel x 4 (through_SBOX T 16)) (sel x 5 (through_SBOX T 32))
    (sel x 6 (through_SBOX T 64)) (sel x 7 (through_SBOX T 128))
    (sel y 0 (through_SBOX T 1)) (sel y 1 (through_SBOX T 2))
    (sel y 2 (through_SBOX T 4)) (sel y 3 (through_SBOX T 8))
    (sel y 4 (through_SBOX T 16)) (sel y 5 (through_SBOX T 32))
    (sel y 6 (through_SBOX T 64)) (sel y 7 (through_SBOX T 128)).
  intros. unfold bxor, u32. Z.bitblast.
Qed.

Lemma table_linear_spec (T : list Z) :
  table_linear T = true ->
  forall x y, is_byte x -> is_byte y ->
    get T (get AES.SBOX (Z.lxor x y)) = bxor (get T (get AES.SBOX x)) (get T (get AES.SBOX y)).
Proof.
  intros C x y Hx Hy. unfold table_linear in C.
  pose proof (forall_bytes _ C) as E. cbv beta in E.
  assert (E' : forall z, is_byte z -> get T (get AES.SBOX z) = span8 T z).
  { intros z Hz. apply Z.eqb_eq, (E z Hz). }
  rewrite !E' by auto using is_byte_lxor.
  apply span8_linear.
Qed.

Lemma INV_SUB_MIX_0_linear : table_linear AES.INV_SUB_MIX_0 = true.
Proof. vm_compute. reflexivity. Qed.
Lemma INV_SUB_MIX_1_linear : table_linear AES.INV_SUB_MIX_1 = true.
Proof. vm_compute. reflexivity. Qed.
Lemma INV_SUB_MIX_2_linear : table_linear AES.INV_SUB_MIX_2 = true.
Proof. vm_compute. reflexivity. Qed.
Lemma INV_SUB_MIX_3_linear : table_linear AES.INV_SUB_MIX_3 = true.
Proof. vm_compute. reflexivity. Qed.

Lemma inv_mix_linear (x y : Z) : inv_mix (bxor x y) = bxor (inv_mix x) (inv_mix y).
Proof.
  unfold inv_mix.
  rewrite b0_bxor, b1_bxor, b2_bxor, b3_bxor.
  rewrite (table_linear_spec _ INV_SUB_MIX_0_linear) by apply is_byte_b0.
  rewrite (table_linear_spec _ INV_SUB_MIX_1_linear) by apply is_byte_b1.
  rewrite (table_linear_spec _ INV_SUB_MIX_2_linear) by apply is_byte_b2.
  rewrite (table_linear_spec _ INV_SUB_MIX_3_linear) by apply is_byte_b3.
  generalize (get AES.INV_SUB_MIX_0 (get AES.SBOX (b0 x))) (get AES.INV_SUB_MIX_0 (get AES.SBOX (b0 y)))
             (get AES.INV_SUB_MIX_1 (get AES.SBOX (b1 x))) (get AES.INV_SUB_MIX_1 (get AES.SBOX (b1 y)))
             (get AES.INV_SUB_MIX_2 (get AES.SBOX (b2 x))) (get AES.INV_SUB_MIX_2 (get AES.SBOX (b2 y)))
             (get AES.INV_SUB_MIX_3 (get AES.SBOX (b3 x))) (get AES.INV_SUB_MIX_3 (get AES.SBOX (b3 y))).
  intros. unfold bxor, u32. Z.bitblast.
Qed.

(** The inverse mix of a forward table entry is the S-box byte in place. *)
Lemma inv_mix_SUB_MIX (a : Z) : is_byte a ->
  inv_mix (get AES.SUB_MIX_0 a) = shl (get AES.SBOX a) 24 /\
  inv_mix (get AES.SUB_MIX_1 a) = shl (get AES.SBOX a) 16 /\
  inv_mix (get AES.SUB_MIX_2 a) = shl (get AES.SBOX a) 8 /\
  inv_mix (get AES.SUB_MIX_3 a) = get AES.SBOX a.
Proof.
  intros H.
  assert (C : forallb (fun a =>
     (inv_mix (get AES.SUB_MIX_0 a) =? shl (get AES.SBOX a) 24) &&
     (inv_mix (get AES.SUB_MIX_1 a) =? shl (get AES.SBOX a) 16) &&
     (inv_mix (get AES.SUB_MIX_2 a) =? shl (get AES.SBOX a) 8) &&
     (inv_mix (get AES.SUB_MIX_3 a) =? get AES.SBOX a)) all_bytes = true)
    by (vm_compute; reflexivity).
  pose proof (forall_bytes _ C a H) as E. cbv beta in E.
  rewrite !andb_true_iff, !Z.eqb_eq in E. tauto.
Qed.

(** ** One round and its inverse *)

Create HintDb bytes.
#[local] Hint Resolve is_byte_b0 is_byte_b1 is_byte_b2 is_byte_b3 SBOX_byte INV_SBOX_byte : bytes.

Lemma round_body_spec (ks S0 S1 S2 S3 : list Z) (s : AES.state) (r : Z) :
  AES.round_body ks S0 S1 S2 S3 s r = (xor_state (mix_round S0 S1 S2 S3 s) (get4 ks r), r + 4).
Proof. destruct s as [[[s0 s1] s2] s3]. reflexivity. Qed.

Lemma final_round_spec (ks SB : list Z) (s : AES.state) (r : Z) :
  AES.final_round ks SB s r = xor_state (sub_shift SB s) (get4 ks r).
Proof. destruct s as [[[s0 s1] s2] s3]. reflexivity. Qed.

Lemma inv_mix_mix (a b c d : Z) :
  is_byte a -> is_byte b -> is_byte c -> is_byte d ->
  inv_mix (bxor (bxor (bxor (get AES.SUB_MIX_0 a) (get AES.SUB_MIX_1 b)) (get AES.SUB_MIX_2 c))
                (get AES.SUB_MIX_3 d))
  = pack4 (get AES.SBOX a) (get AES.SBOX b) (get AES.SBOX c) (get AES.SBOX d).
Proof.
  intros Ha Hb Hc Hd. rewrite !inv_mix_linear.
  destruct (inv_mix_SUB_MIX a Ha) as (-> & _).
  destruct (inv_mix_SUB_MIX b Hb) as (_ & -> & _).
  destruct (inv_mix_SUB_MIX c Hc) as (_ & _ & -> & _).
  destruct (inv_mix_SUB_MIX d Hd) as (_ & _ & _ & ->).
  symmetry. apply pack4_xor; auto with bytes.
Qed.

Lemma inv_mix_mix_round (s : AES.state) :
  inv_mix_state (mix_round AES.SUB_MIX_0 AES.SUB_MIX_1 AES.SUB_MIX_2 AES.SUB_MIX_3 s)
  = sub_shift AES.SBOX s.
Proof.
  destruct s as [[[s0 s1] s2] s3]. unfold mix_round, inv_mix_state, sub_shift.
  rewrite !inv_mix_mix by auto with bytes. reflexivity.
Qed.

Lemma mix_round_inv_sub_shift (y : AES.state) :
  mix_round AES.INV_SUB_MIX_0 AES.INV_SUB_MIX_1 AES.INV_SUB_MIX_2 AES.INV_SUB_MIX_3
    (sigma (sub_shift AES.SBOX y))
  = sigma (inv_mix_state y).
Proof.
  destruct y as [[[y0 y1] y2] y3]. unfold sub_shift, sigma, mix_round, inv_mix_state, inv_mix.
  rewrite !b0_pack4, !b1_pack4, !b2_pack4, !b3_pack4 by auto with bytes.
  reflexivity.
Qed.

Lemma sub_shift_inv (s : AES.state) :
  sub_shift AES.INV_SBOX (sigma (sub_shift AES.SBOX s)) = sigma (u32_state s).
Proof.
  destruct s as [[[s0 s1] s2] s3]. unfold sub_shift at 1. unfold sub_shift, sigma, u32_state.
  rewrite !b0_pack4, !b1_pack4, !b2_pack4, !b3_pack4 by auto with bytes.
  rewrite !INV_SBOX_SBOX by auto with bytes.
  rewrite !pack4_bytes. reflexivity.
Qed.

Lemma inv_mix_state_xor (s k : AES.state) :
  inv_mix_state (xor_state s k) = xor_state (inv_mix_state s) (inv_mix_state k).
Proof.
  destruct s as [[[s0 s1] s2] s3], k as [[[k0 k1] k2] k3].
  unfold xor_state, inv_mix_state. rewrite !inv_mix_linear. reflexivity.
Qed.

Lemma sigma_xor (s k : AES.state) : sigma (xor_state s k) = xor_state (sigma s) (sigma k).
Proof. destruct s as [[[s0 s1] s2] s3], k as [[[k0 k1] k2] k3]. reflexivity. Qed.

Lemma sigma_sigma (s : AES.state) : sigma (sigma s) = s.
Proof. destruct s as [[[s0 s1] s2] s3]. reflexivity. Qed.

Lemma sigma_u32 (s : AES.state) : sigma (u32_state s) = u32_state (sigma s).
Proof. destruct s as [[[s0 s1] s2] s3]. reflexivity. Qed.

Lemma xor_state_cancel (s k : AES.state) : xor_state (xor_state s k) k = u32_state s.
Proof.
  destruct s as [[[s0 s1] s2] s3], k as [[[k0 k1] k2] k3].
  unfold xor_state, u32_state. rewrite !bxor_cancel_r. reflexivity.
Qed.

Lemma u32_pack4 (a b c d : Z) : u32 (pack4 a b c d) = pack4 a b c d.
Proof. unfold pack4, bor. apply u32_idem. Qed.

Lemma u32_sub_shift (SB : list Z) (s : AES.state) :
  u32_state (sub_shift SB s) = sub_shift SB s.
Proof.
  destruct s as [[[s0 s1] s2] s3]. unfold sub_shift, u32_state.
  rewrite !u32_pack4. reflexivity.
Qed.

Lemma u32_xor_state (s k : AES.state) : u32_state (xor_state s k) = xor_state s k.
Proof.
  destruct s as [[[s0 s1] s2] s3], k as [[[k0 k1] k2] k3].
  unfold xor_state, u32_state. rewrite !u32_bxor. reflexivity.
Qed.

(** A decryption round undoes an encryption round, on the exchanged,
    substituted states. *)
Lemma round_inverse (s k : AES.state) :
  xor_state
    (mix_round AES.INV_SUB_MIX_0 AES.INV_SUB_MIX_1 AES.INV_SUB_MIX_2 AES.INV_SUB_MIX_3
       (sigma (sub_shift AES.SBOX
          (xor_state (mix_round AES.SUB_MIX_0 AES.SUB_MIX_1 AES.SUB_MIX_2 AES.SUB_MIX_3 s) k))))
    (sigma (inv_mix_state k))
  = sigma (sub_shift AES.SBOX s).
Proof.
  rewrite mix_round_inv_sub_shift, inv_mix_state_xor, inv_mix_mix_round.
  rewrite <- sigma_xor, xor_state_cancel, u32_sub_shift. reflexivity.
Qed.

Lemma round_loop_S_r (n : nat) (ks S0 S1 S2 S3 : list Z) (s : AES.state) (r : Z) :
  AES.round_loop (S n) ks S0 S1 S2 S3 s r =
  let '(s', r') := AES.round_loop n ks S0 S1 S2 S3 s r in
  AES.round_body ks S0 S1 S2 S3 s' r'.
Proof.
  revert s r; induction n as [|n IH]; intros s r.
  - cbn [AES.round_loop]. destruct (AES.round_body ks S0 S1 S2 S3 s r). reflexivity.
  - change (AES.round_loop (S (S n)) ks S0 S1 S2 S3 s r)
      with (let '(s', r') := AES.round_body ks S0 S1 S2 S3 s r in
            AES.round_loop (S n) ks S0 S1 S2 S3 s' r').
    rewrite round_body_spec. cbv zeta iota beta. rewrite IH.
    cbn [AES.round_loop]. rewrite round_body_spec. reflexivity.
Qed.

Lemma round_loop_row (n : nat) (ks S0 S1 S2 S3 : list Z) (s : AES.state) (r : Z) :
  snd (AES.round_loop n ks S0 S1 S2 S3 s r) = r + 4 * Z.of_nat n.
Proof.
  revert s r; induction n as [|n IH]; intros s r.
  - cbn. lia.
  - cbn [AES.round_loop]. rewrite round_body_spec. rewrite IH. lia.
Qed.

(** The inner rounds of decryption, run on the inverse schedule, walk the
    states of encryption backwards. *)
Lemma round_loop_inverse (n : nat) (ks iks : list Z) :
  forall (s : AES.state) (re rd : Z),
  (forall j, 0 <= j < Z.of_nat n ->
     get4 iks (rd + 4 * j) = sigma (inv_mix_state (get4 ks (re + 4 * (Z.of_nat n - 1 - j))))) ->
  fst (AES.round_loop n iks AES.INV_SUB_MIX_0 AES.INV_SUB_MIX_1 AES.INV_SUB_MIX_2
         AES.INV_SUB_MIX_3
         (sigma (sub_shift AES.SBOX
            (fst (AES.round_loop n ks AES.SUB_MIX_0 AES.SUB_MIX_1 AES.SUB_MIX_2
                    AES.SUB_MIX_3 s re))))
         rd)
  = sigma (sub_shift AES.SBOX s).
Proof.
  induction n as [|n IH]; intros s re rd H.
  - reflexivity.
  - rewrite round_loop_S_r.
    cbn [AES.round_loop]. rewrite (round_body_spec ks).
    set (s1 := xor_state _ (get4 ks re)).
    pose proof (IH s1 (re + 4) rd) as IH1.
    pose proof (round_loop_row n iks AES.INV_SUB_MIX_0 AES.INV_SUB_MIX_1 AES.INV_SUB_MIX_2
                  AES.INV_SUB_MIX_3
                  (sigma (sub_shift AES.SBOX
                     (fst (AES.round_loop n ks AES.SUB_MIX_0 AES.SUB_MIX_1 AES.SUB_MIX_2
                             AES.SUB_MIX_3 s1 (re + 4))))) rd) as Hrow.
    destruct (AES.round_loop n iks _ _ _ _ _ rd) as [u r'].
    cbn [fst snd] in IH1, Hrow. subst r'.
    rewrite IH1.
    + rewrite round_body_spec. cbn [fst].
      rewrite (H (Z.of_nat n)) by lia.
      replace (re + 4 * (Z.of_nat (S n) - 1 - Z.of_nat n)) with re by lia.
      apply round_inverse.
    + intros j Hj. rewrite (H j) by lia.
      replace (re + 4 * (Z.of_nat (S n) - 1 - j)) with (re + 4 + 4 * (Z.of_nat n - 1 - j)) by lia.
      reflexivity.
Qed.

(** ** The inverse key schedule *)

Lemma for_loop_build (h : Z -> Z) (n : nat) :
  for_loop n (fun i l => set l i (h i)) [] = map h (map Z.of_nat (seq 0 n)).
Proof.
  induction n as [|n IH]; [reflexivity|].
  rewrite for_loop_S, IH, seq_S, !map_app. cbn [map Nat.add].
  rewrite <- set_snoc. rewrite !length_map, length_seq. reflexivity.
Qed.

Lemma get_map_seq (h : Z -> Z) (n : nat) (i : Z) :
  0 <= i < Z.of_nat n -> get (map h (map Z.of_nat (seq 0 n))) i = h i.
Proof.
  intros Hi. replace i with (Z.of_nat (Z.to_nat i)) at 1 by lia.
  rewrite get_nth, map_map.
  rewrite (nth_indep _ 0 (h (Z.of_nat 0))) by (rewrite length_map, length_seq; lia).
  rewrite (map_nth (fun x => h (Z.of_nat x))), seq_nth by lia.
  f_equal. lia.
Qed.

Lemma inv_key_schedule_step_eq (ks : list Z) (R i : Z) (l : list Z) :
  AES.inv_key_schedule_step ks R i l = set l i (inv_entry ks R i).
Proof.
  unfold AES.inv_key_schedule_step, inv_entry.
  destruct ((i <? 4) || (R - i <=? 4)); reflexivity.
Qed.

Lemma get_inv_key_schedule (ks : list Z) (R i : Z) :
  0 <= i < R -> get (AES.inv_key_schedule ks R) i = inv_entry ks R i.
Proof.
  intros Hi. unfold AES.inv_key_schedule.
  rewrite (for_loop_ext _ _ (fun i l => set l i (inv_entry ks R i)))
    by (intros; apply inv_key_schedule_step_eq).
  rewrite for_loop_build. apply get_map_seq. lia.
Qed.

Ltac mod4 :=
  match goal with
  | |- context [(?a mod 4 =? 0)] =>
      let E := fresh "E" in
      destruct (Z.eqb_spec (a mod 4) 0) as [E|E];
      [try (exfalso; Z.div_mod_to_equations; lia) | try (exfalso; Z.div_mod_to_equations; lia)]
  end.

Ltac cmp :=
  repeat match goal with
         | |- context [?a <? ?b] => destruct (Z.ltb_spec a b); try lia
         | |- context [?a <=? ?b] => destruct (Z.leb_spec a b); try lia
         end.

Lemma inv_entry_first (ks : list Z) (N : Z) :
  1 <= N ->
  (inv_entry ks (4 * (N + 1)) 0, inv_entry ks (4 * (N + 1)) 1,
   inv_entry ks (4 * (N + 1)) 2, inv_entry ks (4 * (N + 1)) 3)
  = sigma (get4 ks (4 * N)).
Proof.
  intros HN. unfold inv_entry, get4, sigma.
  change (0 mod 4 =? 0) with true. change (1 mod 4 =? 0) with false.
  change (2 mod 4 =? 0) with false. change (3 mod 4 =? 0) with false.
  change (0 <? 4) with true. change (1 <? 4) with true.
  change (2 <? 4) with true. change (3 <? 4) with true.
  cbn [negb orb].
  replace (4 * (N + 1) - 0 - 4) with (4 * N) by lia.
  replace (4 * (N + 1) - 1) with (4 * N + 3) by lia.
  replace (4 * (N + 1) - 2) with (4 * N + 2) by lia.
  replace (4 * (N + 1) - 3) with (4 * N + 1) by lia.
  reflexivity.
Qed.

Lemma inv_entry_last (ks : list Z) (N : Z) :
  1 <= N ->
  (inv_entry ks (4 * (N + 1)) (4 * N), inv_entry ks (4 * (N + 1)) (4 * N + 1),
   inv_entry ks (4 * (N + 1)) (4 * N + 2), inv_entry ks (4 * (N + 1)) (4 * N + 3))
  = sigma (get4 ks 0).
Proof.
  intros HN. unfold inv_entry, get4, sigma.
  repeat mod4. cbn [negb]. cmp. rewrite !orb_true_r.
  replace (4 * (N + 1) - 4 * N - 4) with 0 by lia.
  replace (4 * (N + 1) - (4 * N + 1)) with (0 + 3) by lia.
  replace (4 * (N + 1) - (4 * N + 2)) with (0 + 2) by lia.
  replace (4 * (N + 1) - (4 * N + 3)) with (0 + 1) by lia.
  reflexivity.
Qed.

Lemma inv_entry_middle (ks : list Z) (N r : Z) :
  1 <= r <= N - 1 ->
  (inv_entry ks (4 * (N + 1)) (4 * r), inv_entry ks (4 * (N + 1)) (4 * r + 1),
   inv_entry ks (4 * (N + 1)) (4 * r + 2), inv_entry ks (4 * (N + 1)) (4 * r + 3))
  = sigma (inv_mix_state (get4 ks (4 * (N - r)))).
Proof.
  intros Hr. unfold inv_entry, get4, sigma, inv_mix_state.
  repeat mod4. cbn [negb]. cmp. cbn [orb].
  replace (4 * (N + 1) - 4 * r - 4) with (4 * (N - r)) by lia.
  replace (4 * (N + 1) - (4 * r + 1)) with (4 * (N - r) + 3) by lia.
  replace (4 * (N + 1) - (4 * r + 2)) with (4 * (N - r) + 2) by lia.
  replace (4 * (N + 1) - (4 * r + 3)) with (4 * (N - r) + 1) by lia.
  reflexivity.
Qed.

(** ** A block, encrypted then decrypted *)

Lemma get4_inv_key_schedule (ks : list Z) (N j : Z) :
  0 <= j <= N ->
  get4 (AES.inv_key_schedule ks (4 * (N + 1))) (4 * j) =
  (inv_entry ks (4 * (N + 1)) (4 * j), inv_entry ks (4 * (N + 1)) (4 * j + 1),
   inv_entry ks (4 * (N + 1)) (4 * j + 2), inv_entry ks (4 * (N + 1)) (4 * j + 3)).
Proof.
  intros Hj. unfold get4. rewrite !get_inv_key_schedule by lia. reflexivity.
Qed.

Lemma crypt_inverse (n : nat) (ks : list Z) (m : AES.state) :
  let N := Z.of_nat n + 1 in
  let iks := AES.inv_key_schedule ks (4 * (N + 1)) in
  sigma (crypt_state n iks AES.INV_SUB_MIX_0 AES.INV_SUB_MIX_1 AES.INV_SUB_MIX_2
           AES.INV_SUB_MIX_3 AES.INV_SBOX
           (sigma (crypt_state n ks AES.SUB_MIX_0 AES.SUB_MIX_1 AES.SUB_MIX_2
                     AES.SUB_MIX_3 AES.SBOX m)))
  = u32_state m.
Proof.
  intros N iks. unfold crypt_state.
  pose proof (round_loop_row n ks AES.SUB_MIX_0 AES.SUB_MIX_1 AES.SUB_MIX_2 AES.SUB_MIX_3
                (xor_state m (get4 ks 0)) 4) as Hre.
  pose proof (round_loop_inverse n ks iks (xor_state m (get4 ks 0)) 4 4) as Hinv.
  destruct (AES.round_loop n ks _ _ _ _ (xor_state m (get4 ks 0)) 4) as [se re].
  cbn [fst snd] in Hre, Hinv. subst re.
  rewrite final_round_spec, sigma_xor.
  replace (4 + 4 * Z.of_nat n) with (4 * N) by (unfold N; lia).
  assert (H0 : get4 iks 0 = sigma (get4 ks (4 * N))).
  { change 0 with (4 * 0) at 1. unfold iks. rewrite get4_inv_key_schedule by lia.
    apply inv_entry_first. lia. }
  rewrite H0, xor_state_cancel, <- sigma_u32, u32_sub_shift.
  pose proof (round_loop_row n iks AES.INV_SUB_MIX_0 AES.INV_SUB_MIX_1 AES.INV_SUB_MIX_2
                AES.INV_SUB_MIX_3 (sigma (sub_shift AES.SBOX se)) 4) as Hrd.
  destruct (AES.round_loop n iks _ _ _ _ (sigma (sub_shift AES.SBOX se)) 4) as [ue rd].
  cbn [fst snd] in Hrd, Hinv. subst rd.
  rewrite Hinv.
  - rewrite final_round_spec, sub_shift_inv.
    replace (4 + 4 * Z.of_nat n) with (4 * N) by (unfold N; lia).
    assert (HN : get4 iks (4 * N) = sigma (get4 ks 0)).
    { unfold iks. rewrite get4_inv_key_schedule by lia. apply inv_entry_last. lia. }
    rewrite HN, <- sigma_xor, sigma_sigma, u32_xor_state. apply xor_state_cancel.
  - intros j Hj.
    replace (4 + 4 * j) with (4 * (j + 1)) by lia.
    unfold iks. rewrite get4_inv_key_schedule by lia.
    rewrite inv_entry_middle by lia.
    replace (4 * (N - (j + 1))) with (4 + 4 * (Z.of_nat n - 1 - j)) by (unfold N; lia).
    reflexivity.
Qed.

Lemma inner_rounds_aligned (sb : Z) :
  0 <= sb -> sb mod 4 = 0 -> Z.of_nat (AES.inner_rounds sb) + 1 = sb / 4 + 6.
Proof.
  intros H0 H4. unfold AES.inner_rounds, ceil_div.
  Z.div_mod_to_equations. lia.
Qed.

(** Decrypting an encrypted block gives the block back, for every key whose
    length is a multiple of four bytes. *)
Lemma dec_enc_block (key : WordArray) (m : AES.state) :
  0 <= sigBytes key -> sigBytes key mod 4 = 0 ->
  dec_block (AES.doReset key) (enc_block (AES.doReset key) m) = u32_state m.
Proof.
  intros H0 H4. unfold dec_block, enc_block, AES.doReset.
  cbn [AES._innerRounds AES._keySchedule AES._invKeySchedule].
  pose proof (inner_rounds_aligned _ H0 H4) as E.
  replace (sigBytes key + 28) with (4 * (Z.of_nat (AES.inner_rounds (sigBytes key)) + 1 + 1))
    by (rewrite E; Z.div_mod_to_equations; lia).
  apply crypt_inverse.
Qed.

(** ** Blocks inside arrays *)

Lemma doCryptBlock_spec (n : nat) (M : list Z) (off : Z) (ks S0 S1 S2 S3 SB : list Z) :
  AES.doCryptBlock n M off ks S0 S1 S2 S3 SB
  = set4 M off (crypt_state n ks S0 S1 S2 S3 SB (get4 M off)).
Proof.
  unfold AES.doCryptBlock, crypt_state, get4, xor_state.
  replace (0 + 1) with 1 by reflexivity. replace (0 + 2) with 2 by reflexivity.
  replace (0 + 3) with 3 by reflexivity.
  destruct (AES.round_loop n ks S0 S1 S2 S3 _ 4) as [s r].
  destruct (AES.final_round ks SB s r) as [[[t0 t1] t2] t3]. reflexivity.
Qed.

Lemma encryptBlock_spec (c : AES.instance) (M : list Z) (off : Z) :
  AES.encryptBlock c M off = set4 M off (enc_block c (get4 M off)).
Proof. apply doCryptBlock_spec. Qed.

Lemma get4_set4 (M : list Z) (off : Z) (s : AES.state) :
  0 <= off -> get4 (set4 M off s) off = s.
Proof.
  intros H. destruct s as [[[t0 t1] t2] t3]. unfold get4, set4.
  repeat (rewrite get_set by lia;
          match goal with |- context [?a =? ?b] =>
            destruct (Z.eqb_spec a b); try lia end).
  reflexivity.
Qed.

Lemma get_set4_other (M : list Z) (off j : Z) (s : AES.state) :
  0 <= off -> (j < off \/ off + 4 <= j) -> get (set4 M off s) j = get M j.
Proof.
  intros H Hj. destruct s as [[[t0 t1] t2] t3]. unfold set4.
  rewrite !get_set_other by lia. reflexivity.
Qed.

Lemma length_set4 (M : list Z) (off : Z) (s : AES.state) :
  0 <= off ->
  Z.of_nat (length (set4 M off s)) = Z.max (Z.of_nat (length M)) (off + 4).
Proof.
  intros H. destruct s as [[[t0 t1] t2] t3]. unfold set4.
  rewrite !length_set. lia.
Qed.

Lemma set4_set4 (M : list Z) (off : Z) (s t : AES.state) :
  0 <= off -> set4 (set4 M off s) off t = set4 M off t.
Proof.
  intros H. apply get_ext.
  - apply Nat2Z.inj. rewrite !length_set4 by lia. lia.
  - intros i Hi.
    destruct (Z.ltb_spec i off); [rewrite !get_set4_other by lia; reflexivity|].
    destruct (Z.leb_spec (off + 4) i); [rewrite !get_set4_other by lia; reflexivity|].
    destruct t as [[[t0 t1] t2] t3]. unfold set4 at 1 3.
    repeat (rewrite get_set by lia;
            match goal with |- context [?a =? ?b] =>
              destruct (Z.eqb_spec a b); try lia end); try reflexivity.
Qed.

Ltac eqb_cases :=
  repeat match goal with
         | |- context [?a =? ?b] => destruct (Z.eqb_spec a b); try lia
         end.

Lemma get4_set4_other (M : list Z) (off off' : Z) (s : AES.state) :
  0 <= off -> (off' + 4 <= off \/ off + 4 <= off') ->
  get4 (set4 M off s) off' = get4 M off'.
Proof.
  intros H H'. unfold get4. rewrite !get_set4_other by lia. reflexivity.
Qed.

Lemma get4_ext (a b : list Z) (n : nat) :
  length a = (4 * n)%nat -> length b = (4 * n)%nat ->
  (forall j, 0 <= j < Z.of_nat n -> get4 a (4 * j) = get4 b (4 * j)) ->
  a = b.
Proof.
  intros Ha Hb H. apply get_ext; [lia|].
  intros i Hi. pose proof (H (i / 4) ltac:(Z.div_mod_to_equations; lia)) as E.
  unfold get4 in E. injection E as E0 E1 E2 E3.
  assert (C : i = 4 * (i / 4) \/ i = 4 * (i / 4) + 1 \/ i = 4 * (i / 4) + 2 \/ i = 4 * (i / 4) + 3)
    by (Z.div_mod_to_equations; lia).
  destruct C as [C|[C|[C|C]]]; rewrite C; assumption.
Qed.

Lemma swap13_spec (M : list Z) (off : Z) :
  0 <= off ->
  get4 (AES.swap13 M off) off = sigma (get4 M off) /\
  (forall j, j < off \/ off + 4 <= j -> get (AES.swap13 M off) j = get M j) /\
  Z.of_nat (length (AES.swap13 M off)) = Z.max (Z.of_nat (length M)) (off + 4).
Proof.
  intros H. unfold AES.swap13, get4, sigma. repeat split.
  - rewrite !get_set by lia. eqb_cases. reflexivity.
  - intros j Hj. rewrite !get_set_other by lia. reflexivity.
  - rewrite !length_set. lia.
Qed.

Lemma decryptBlock_spec (c : AES.instance) (M : list Z) (off : Z) :
  0 <= off ->
  AES.decryptBlock c M off = set4 M off (dec_block c (get4 M off)).
Proof.
  intros H. unfold AES.decryptBlock. rewrite doCryptBlock_spec.
  destruct (swap13_spec M off H) as (E1 & E2 & E3).
  rewrite E1. fold (crypt_state (AES._innerRounds c) (AES._invKeySchedule c)
    AES.INV_SUB_MIX_0 AES.INV_SUB_MIX_1 AES.INV_SUB_MIX_2 AES.INV_SUB_MIX_3 AES.INV_SBOX
    (sigma (get4 M off))).
  set (t := crypt_state _ _ _ _ _ _ _ _).
  destruct (swap13_spec (set4 (AES.swap13 M off) off t) off H) as (F1 & F2 & F3).
  unfold dec_block. fold t.
  apply get_ext.
  - apply Nat2Z.inj. rewrite F3, !length_set4, E3 by lia. lia.
  - intros i Hi.
    destruct (Z.ltb_spec i off) as [Hlt|Hge];
      [|destruct (Z.leb_spec (off + 4) i) as [Hle|Hin]].
    + rewrite F2, !get_set4_other, E2 by lia. reflexivity.
    + rewrite F2, !get_set4_other, E2 by lia. reflexivity.
    + rewrite get4_set4 in F1 by lia.
      pose proof (get4_set4 M off (sigma t) H) as G.
      pose proof (eq_trans F1 (eq_sym G)) as G'.
      unfold get4 in G'. injection G' as G0 G1 G2 G3.
      assert (C : i = off \/ i = off + 1 \/ i = off + 2 \/ i = off + 3) by lia.
      destruct C as [C|[C|[C|C]]]; rewrite C; assumption.
Qed.

(** ** The CBC loops *)

Lemma get_firstn (l : list Z) (n : nat) (i : Z) :
  i < Z.of_nat n -> get (firstn n l) i = get l i.
Proof.
  intros H. destruct (Z.ltb_spec i 0); [rewrite !get_neg by lia; reflexivity|].
  replace i with (Z.of_nat (Z.to_nat i)) by lia.
  rewrite !get_nth, nth_firstn.
  destruct (Nat.ltb_spec (Z.to_nat i) n); [reflexivity|lia].
Qed.

Lemma get_skipn (l : list Z) (n : nat) (i : Z) :
  0 <= i -> get (skipn n l) i = get l (Z.of_nat n + i).
Proof.
  intros H. replace i with (Z.of_nat (Z.to_nat i)) by lia.
  rewrite <- Nat2Z.inj_add, !get_nth. apply nth_skipn.
Qed.

Lemma get4_slice (l : list Z) (off : Z) :
  0 <= off -> get4 (slice l (Z.to_nat off) (Z.to_nat (off + 4))) 0 = get4 l off.
Proof.
  intros H. unfold slice, get4.
  replace (Z.to_nat (off + 4) - Z.to_nat off)%nat with 4%nat by lia.
  rewrite !get_firstn, !get_skipn by lia.
  rewrite Z2Nat.id by lia. rewrite Z.add_0_r. reflexivity.
Qed.

Lemma xorBlock_spec (m : CBC.mode) (ws : list Z) (off : Z) :
  0 <= off ->
  CBC.xorBlock m ws off 4 =
  (CBC.mkMode None (CBC._prevBlock m), set4 ws off (xor_state (get4 ws off) (mix_of m))).
Proof.
  intros H. unfold CBC.xorBlock, mix_of.
  assert (L : forall block,
    for_loop (Z.to_nat 4)
      (fun i ws0 => set ws0 (off + i) (bxor (get ws0 (off + i)) (get block i))) ws
    = set4 ws off (xor_state (get4 ws off) (get4 block 0))).
  { intros block. change (Z.to_nat 4) with 4%nat.
    rewrite !for_loop_S, for_loop_0. unfold set4, xor_state, get4.
    change (Z.of_nat 0) with 0. change (Z.of_nat 1) with 1.
    change (Z.of_nat 2) with 2. change (Z.of_nat 3) with 3.
    rewrite Z.add_0_r. rewrite !get_set_other by lia. reflexivity. }
  destruct m as [[iv|] p]; cbn [CBC._iv CBC._prevBlock]; rewrite L; reflexivity.
Qed.

Lemma Encryptor_processBlock_spec (c : AES.instance) (m : CBC.mode) (ws : list Z) (off : Z) :
  0 <= off ->
  let '(m', ws') := CBC.Encryptor_processBlock c m ws off in
  (mix_of m', ws') = enc_step c off (mix_of m, ws).
Proof.
  intros H. unfold CBC.Encryptor_processBlock, enc_step.
  rewrite xorBlock_spec by lia. rewrite encryptBlock_spec.
  rewrite get4_set4, set4_set4 by lia.
  unfold mix_of at 1. cbn [CBC._iv CBC._prevBlock].
  rewrite get4_slice, get4_set4 by lia. reflexivity.
Qed.

Lemma Decryptor_processBlock_spec (c : AES.instance) (m : CBC.mode) (ws : list Z) (off : Z) :
  0 <= off ->
  let '(m', ws') := CBC.Decryptor_processBlock c m ws off in
  (mix_of m', ws') = dec_step c off (mix_of m, ws).
Proof.
  intros H. unfold CBC.Decryptor_processBlock, dec_step.
  rewrite decryptBlock_spec by lia. rewrite xorBlock_spec by lia.
  rewrite get4_set4, set4_set4 by lia.
  unfold mix_of at 1. cbn [CBC._iv CBC._prevBlock].
  rewrite get4_slice by lia. reflexivity.
Qed.

Lemma for_loop_sim {S T : Type} (R : S -> T -> Prop) (f : Z -> S -> S) (g : Z -> T -> T)
  (n : nat) (s : S) (t : T) :
  (forall i a b, 0 <= i < Z.of_nat n -> R a b -> R (f i a) (g i b)) ->
  R s t -> R (for_loop n f s) (for_loop n g t).
Proof.
  induction n as [|n IH]; intros Hstep H0; [exact H0|].
  rewrite !for_loop_S. apply Hstep; [lia|]. apply IH; [|exact H0].
  intros; apply Hstep; [lia|assumption].
Qed.

Lemma process_loop_enc (c : AES.instance) (n : nat) (m : CBC.mode) (ws : list Z) :
  snd (for_loop n (fun k '(m, ws) => CBC.Encryptor_processBlock c m ws (k * 4)) (m, ws))
  = snd (enc_loop c n (mix_of m) ws).
Proof.
  unfold enc_loop.
  pose proof (for_loop_sim (fun (a : CBC.mode * list Z) (b : AES.state * list Z) =>
                              (mix_of (fst a), snd a) = b)
                (fun k '(m, ws) => CBC.Encryptor_processBlock c m ws (k * 4))
                (fun k st => enc_step c (k * 4) st) n (m, ws) (mix_of m, ws)) as Hs.
  cbv beta in Hs. rewrite <- Hs; [reflexivity| |reflexivity].
  intros i [m1 w1] b Hi <-. cbn [fst snd].
  pose proof (Encryptor_processBlock_spec c m1 w1 (i * 4) ltac:(lia)) as E.
  destruct (CBC.Encryptor_processBlock c m1 w1 (i * 4)) as [m2 w2]. exact E.
Qed.

Lemma process_loop_dec (c : AES.instance) (n : nat) (m : CBC.mode) (ws : list Z) :
  snd (for_loop n (fun k '(m, ws) => CBC.Decryptor_processBlock c m ws (k * 4)) (m, ws))
  = snd (dec_loop c n (mix_of m) ws).
Proof.
  unfold dec_loop.
  pose proof (for_loop_sim (fun (a : CBC.mode * list Z) (b : AES.state * list Z) =>
                              (mix_of (fst a), snd a) = b)
                (fun k '(m, ws) => CBC.Decryptor_processBlock c m ws (k * 4))
                (fun k st => dec_step c (k * 4) st) n (m, ws) (mix_of m, ws)) as Hs.
  cbv beta in Hs. rewrite <- Hs; [reflexivity| |reflexivity].
  intros i [m1 w1] b Hi <-. cbn [fst snd].
  pose proof (Decryptor_processBlock_spec c m1 w1 (i * 4) ltac:(lia)) as E.
  destruct (CBC.Decryptor_processBlock c m1 w1 (i * 4)) as [m2 w2]. exact E.
Qed.

(** What the encryption loop has done after [n] blocks. *)
Lemma enc_loop_inv (c : AES.instance) (iv : AES.state) (ws : list Z) (n : nat) :
  let '(prev, ws') := enc_loop c n iv ws in
  Z.of_nat (length ws') = Z.max (Z.of_nat (length ws)) (4 * Z.of_nat n) /\
  (forall i, 4 * Z.of_nat n <= i -> get ws' i = get ws i) /\
  (forall j, 0 <= j < Z.of_nat n ->
     get4 ws' (4 * j) =
     enc_block c (xor_state (get4 ws (4 * j)) (if j =? 0 then iv else get4 ws' (4 * (j - 1))))) /\
  prev = (if Z.of_nat n =? 0 then iv else get4 ws' (4 * (Z.of_nat n - 1))).
Proof.
  induction n as [|n IH].
  - cbn. repeat split; try lia.
  - unfold enc_loop in *. rewrite for_loop_S.
    destruct (for_loop n _ (iv, ws)) as [prev w]. destruct IH as (L & B & C & D).
    unfold enc_step. rewrite Nat2Z.inj_succ.
    replace (Z.of_nat n * 4) with (4 * Z.of_nat n) by lia.
    assert (G : get4 w (4 * Z.of_nat n) = get4 ws (4 * Z.of_nat n)).
    { unfold get4. rewrite !B by lia. reflexivity. }
    repeat split.
    + rewrite length_set4 by lia. lia.
    + intros i Hi. rewrite get_set4_other by lia. apply B. lia.
    + intros j Hj. destruct (Z.eq_dec j (Z.of_nat n)) as [->|Hne].
      * rewrite get4_set4 by lia. rewrite G. f_equal. f_equal.
        rewrite D. destruct (Z.eqb_spec (Z.of_nat n) 0); [reflexivity|].
        rewrite get4_set4_other by lia. reflexivity.
      * rewrite get4_set4_other by lia. rewrite C by lia.
        destruct (Z.eqb_spec j 0); [reflexivity|].
        rewrite get4_set4_other by lia. reflexivity.
    + destruct (Z.eqb_spec (Z.succ (Z.of_nat n)) 0); [lia|].
      replace (Z.succ (Z.of_nat n) - 1) with (Z.of_nat n) by lia.
      rewrite get4_set4 by lia. reflexivity.
Qed.

Lemma dec_loop_inv (c : AES.instance) (iv : AES.state) (ws : list Z) (n : nat) :
  let '(prev, ws') := dec_loop c n iv ws in
  Z.of_nat (length ws') = Z.max (Z.of_nat (length ws)) (4 * Z.of_nat n) /\
  (forall i, 4 * Z.of_nat n <= i -> get ws' i = get ws i) /\
  (forall j, 0 <= j < Z.of_nat n ->
     get4 ws' (4 * j) =
     xor_state (dec_block c (get4 ws (4 * j)))
       (if j =? 0 then iv else get4 ws (4 * (j - 1)))) /\
  prev = (if Z.of_nat n =? 0 then iv else get4 ws (4 * (Z.of_nat n - 1))).
Proof.
  induction n as [|n IH].
  - cbn. repeat split; try lia.
  - unfold dec_loop in *. rewrite for_loop_S.
    destruct (for_loop n _ (iv, ws)) as [prev w]. destruct IH as (L & B & C & D).
    unfold dec_step. rewrite Nat2Z.inj_succ.
    replace (Z.of_nat n * 4) with (4 * Z.of_nat n) by lia.
    assert (G : get4 w (4 * Z.of_nat n) = get4 ws (4 * Z.of_nat n)).
    { unfold get4. rewrite !B by lia. reflexivity. }
    repeat split.
    + rewrite length_set4 by lia. lia.
    + intros i Hi. rewrite get_set4_other by lia. apply B. lia.
    + intros j Hj. destruct (Z.eq_dec j (Z.of_nat n)) as [->|Hne].
      * rewrite get4_set4 by lia. rewrite G, D. reflexivity.
      * rewrite get4_set4_other by lia. apply C. lia.
    + destruct (Z.eqb_spec (Z.succ (Z.of_nat n)) 0); [lia|].
      replace (Z.succ (Z.of_nat n) - 1) with (Z.of_nat n) by lia.
      exact G.
Qed.

Lemma get_map_u32 (ws : list Z) (i : Z) : get (map u32 ws) i = u32 (get ws i).
Proof.
  revert i; induction ws as [|w ws IH]; intros i; [reflexivity|].
  cbn [map]. rewrite !get_cons. destruct (i =? 0); [reflexivity|apply IH].
Qed.

Lemma map_u32_ok (ws : list Z) : words_ok ws -> map u32 ws = ws.
Proof.
  intros H. induction H as [|w ws Hw _ IH]; [reflexivity|].
  cbn [map]. rewrite IH, u32_small by exact Hw. reflexivity.
Qed.

(** CBC decryption undoes CBC encryption over whole blocks, whenever the
    block cipher is inverted by its decryption. *)
Lemma cbc_roundtrip (c : AES.instance) (iv : AES.state) (ws : list Z) (n : nat) :
  (forall m, dec_block c (enc_block c m) = u32_state m) ->
  length ws = (4 * n)%nat ->
  snd (dec_loop c n iv (snd (enc_loop c n iv ws))) = map u32 ws.
Proof.
  intros Hinv Hlen.
  pose proof (enc_loop_inv c iv ws n) as He.
  destruct (enc_loop c n iv ws) as [pe cs]. destruct He as (Le & _ & Ce & _).
  pose proof (dec_loop_inv c iv cs n) as Hd. cbn [snd].
  destruct (dec_loop c n iv cs) as [pd ds]. destruct Hd as (Ld & _ & Cd & _). cbn [snd].
  apply (get4_ext _ _ n); [lia | rewrite length_map; exact Hlen |].
  intros j Hj. rewrite (Cd j Hj), (Ce j Hj), Hinv, u32_xor_state, xor_state_cancel.
  unfold u32_state, get4. rewrite !get_map_u32. reflexivity.
Qed.

(** ** Word arrays and byte sequences *)

Lemma ceil_div_4 (n : Z) : 0 <= n -> ceil_div n 4 = (n + 3) / 4.
Proof. intros H. unfold ceil_div. Z.div_mod_to_equations. lia. Qed.

Lemma ushr_2 (i : Z) : 0 <= i < 2 ^ 32 -> ushr i 2 = i / 4.
Proof.
  intros H. unfold ushr. rewrite u32_small by exact H.
  change (2 mod 32) with 2. rewrite Z.shiftr_div_pow2 by lia. reflexivity.
Qed.

Lemma B_range (bs : list byte) (i : Z) : is_byte (B bs i).
Proof.
  unfold B, is_byte. destruct (i <? 0); [lia|].
  pose proof (byte.unsigned_range (nth (Z.to_nat i) bs Byte.x00)). lia.
Qed.

Lemma B_beyond (bs : list byte) (i : Z) : Z.of_nat (length bs) <= i -> B bs i = 0.
Proof.
  intros H. unfold B. destruct (Z.ltb_spec i 0); [reflexivity|].
  rewrite nth_overflow by lia. reflexivity.
Qed.

Lemma B_app_l (a b : list byte) (i : Z) : i < Z.of_nat (length a) -> B (a ++ b) i = B a i.
Proof.
  intros H. unfold B. destruct (Z.ltb_spec i 0); [reflexivity|].
  rewrite app_nth1 by lia. reflexivity.
Qed.

Lemma B_app_r (a b : list byte) (i : Z) :
  Z.of_nat (length a) <= i -> B (a ++ b) i = B b (i - Z.of_nat (length a)).
Proof.
  intros H. unfold B. destruct (Z.ltb_spec i 0); [lia|].
  destruct (Z.ltb_spec (i - Z.of_nat (length a)) 0); [lia|].
  rewrite app_nth2 by lia. do 2 f_equal. lia.
Qed.

Lemma pack4_0 : pack4 0 0 0 0 = 0.
Proof. reflexivity. Qed.

Lemma pack4_range (a b c d : Z) : 0 <= pack4 a b c d < 2 ^ 32.
Proof. unfold pack4, bor. apply u32_range. Qed.

Lemma word_at_beyond (bs : list byte) (j : Z) :
  Z.of_nat (length bs) <= 4 * j -> word_at bs j = 0.
Proof.
  intros H. unfold word_at. rewrite !B_beyond by lia. reflexivity.
Qed.

Lemma length_words_of (bs : list byte) :
  Z.of_nat (length (words_of bs)) = (Z.of_nat (length bs) + 3) / 4.
Proof.
  unfold words_of. rewrite !length_map, length_seq, ceil_div_4 by lia.
  apply Z2Nat.id. Z.div_mod_to_equations. lia.
Qed.

Lemma get_words_of (bs : list byte) (j : Z) : 0 <= j -> get (words_of bs) j = word_at bs j.
Proof.
  intros Hj. destruct (Z.ltb_spec j ((Z.of_nat (length bs) + 3) / 4)) as [H|H].
  - unfold words_of. apply get_map_seq. rewrite ceil_div_4 by lia.
    rewrite Z2Nat.id by (Z.div_mod_to_equations; lia). lia.
  - rewrite get_beyond by (rewrite length_words_of; lia).
    symmetry. apply word_at_beyond. Z.div_mod_to_equations. lia.
Qed.

Lemma words_of_ok (bs : list byte) : words_ok (words_of bs).
Proof.
  unfold words_ok, words_of. apply Forall_forall. intros w Hw.
  apply in_map_iff in Hw. destruct Hw as (j & Hj & _). subst w.
  unfold word_at. apply pack4_range.
Qed.

(** The four bytes of a word, by position. *)
Lemma byte_of_word (w i : Z) :
  0 <= i ->
  band (ushr w (24 - (i mod 4) * 8)) 255 =
  (if i mod 4 =? 0 then b0 w else if i mod 4 =? 1 then b1 w
   else if i mod 4 =? 2 then b2 w else b3 w).
Proof.
  intros H.
  assert (C : i mod 4 = 0 \/ i mod 4 = 1 \/ i mod 4 = 2 \/ i mod 4 = 3)
    by (Z.div_mod_to_equations; lia).
  destruct C as [C|[C|[C|C]]]; rewrite C.
  - change (24 - 0 * 8) with 24. cbn [Z.eqb]. unfold_ops. blast.
  - reflexivity.
  - reflexivity.
  - change (24 - 3 * 8) with 0. cbv [Z.eqb Pos.eqb].
    unfold b3, band, ushr, u32. change (0 mod 32) with 0. rewrite Z.shiftr_0_r.
    change 255 with (Z.ones 8). blast.
Qed.

Lemma byte_at_words_of (bs : list byte) (i : Z) :
  0 <= i < 2 ^ 32 -> byte_at (words_of bs) i = B bs i.
Proof.
  intros H. unfold byte_at. rewrite ushr_2 by exact H.
  rewrite get_words_of by (Z.div_mod_to_equations; lia).
  rewrite byte_of_word by lia. unfold word_at.
  assert (C : i mod 4 = 0 \/ i mod 4 = 1 \/ i mod 4 = 2 \/ i mod 4 = 3)
    by (Z.div_mod_to_equations; lia).
  pose proof (Z.div_mod i 4 ltac:(lia)) as E.
  destruct C as [C|[C|[C|C]]]; rewrite C in *; cbv [Z.eqb Pos.eqb];
    [rewrite b0_pack4 | rewrite b1_pack4 | rewrite b2_pack4 | rewrite b3_pack4];
    auto using B_range; f_equal; lia.
Qed.

Lemma bor_pack_0 (b : Z) : is_byte b -> bor 0 (shl b 24) = pack4 b 0 0 0.
Proof. intros. bytes_blast. Qed.
Lemma bor_pack_1 (x b : Z) : is_byte x -> is_byte b ->
  bor (pack4 x 0 0 0) (shl b 16) = pack4 x b 0 0.
Proof. intros. bytes_blast. Qed.
Lemma bor_pack_2 (x y b : Z) : is_byte x -> is_byte y -> is_byte b ->
  bor (pack4 x y 0 0) (shl b 8) = pack4 x y b 0.
Proof. intros. bytes_blast. Qed.
Lemma bor_pack_3 (x y z b : Z) : is_byte x -> is_byte y -> is_byte z -> is_byte b ->
  bor (pack4 x y z 0) (shl b 0) = pack4 x y z b.
Proof.
  intros. unfold shl. change (0 mod 32) with 0. rewrite Z.shiftl_0_r. bytes_blast.
Qed.

Lemma B_snoc (a : list byte) (b : byte) (i : Z) :
  i = Z.of_nat (length a) -> B (a ++ [b]) i = byte.unsigned b.
Proof.
  intros ->. unfold B. destruct (Z.ltb_spec (Z.of_nat (length a)) 0); [lia|].
  rewrite Nat2Z.id, app_nth2, Nat.sub_diag by lia. reflexivity.
Qed.

Ltac B_simpl a b :=
  repeat match goal with
         | |- context [B (a ++ [b]) ?i] =>
             first [ rewrite (B_snoc a b i) by lia
                   | rewrite (B_app_l a [b] i) by lia
                   | rewrite (B_beyond (a ++ [b]) i) by (rewrite length_app; cbn [length]; lia) ]
         | |- context [B a ?i] => rewrite (B_beyond a i) by lia
         end.

(** Appending one byte to a word array, as the byte loops do. *)
Lemma words_of_snoc (a : list byte) (b : byte) (v k : Z) :
  v = byte.unsigned b ->
  k = Z.of_nat (length a) ->
  set (words_of a) (k / 4) (bor (get (words_of a) (k / 4)) (shl v (24 - (k mod 4) * 8)))
  = words_of (a ++ [b]).
Proof.
  intros -> Hkd.
  assert (Hk : 0 <= k) by lia.
  assert (Hq : 0 <= k / 4) by (Z.div_mod_to_equations; lia).
  pose proof (byte.unsigned_range b) as Hb. change (is_byte (byte.unsigned b)) in Hb.
  apply get_ext.
  - apply Nat2Z.inj. rewrite length_set, !length_words_of, length_app. cbn [length].
    replace (Z.of_nat (length a + 1)) with (k + 1) by lia. rewrite <- Hkd.
    Z.div_mod_to_equations. lia.
  - intros j Hj. rewrite length_set, length_words_of, <- Hkd in Hj.
    rewrite get_set by lia. rewrite !get_words_of by lia.
    destruct (Z.eqb_spec j (k / 4)) as [->|Hne].
    + unfold word_at.
      assert (C : k mod 4 = 0 \/ k mod 4 = 1 \/ k mod 4 = 2 \/ k mod 4 = 3)
        by (Z.div_mod_to_equations; lia).
      pose proof (Z.div_mod k 4 ltac:(lia)) as E.
      destruct C as [C|[C|[C|C]]]; rewrite C in *; B_simpl a b.
      * rewrite pack4_0. apply bor_pack_0, Hb.
      * apply bor_pack_1; auto using B_range.
      * apply bor_pack_2; auto using B_range.
      * apply bor_pack_3; auto using B_range.
    + unfold word_at. rewrite !B_app_l by (Z.div_mod_to_equations; lia).
      reflexivity.
Qed.

Lemma firstn_S_nth {A : Type} (l : list A) (k : nat) (d : A) :
  (k < length l)%nat -> firstn (S k) l = firstn k l ++ [nth k l d].
Proof.
  revert k; induction l as [|x l IH]; intros k H; [cbn in H; lia|].
  destruct k as [|k]; [reflexivity|].
  change (firstn (S (S k)) (x :: l)) with (x :: firstn (S k) l).
  rewrite (IH k) by (cbn in H; lia). reflexivity.
Qed.

(** The packing loop shared by [WordArray.create] on a [Uint8Array] and by
    [Latin1.parse]. *)
Lemma pack_loop (f : Z -> Z) (bs : list byte) (n : nat) :
  (forall i, 0 <= i < Z.of_nat n -> f i = byte.unsigned (nth (Z.to_nat i) bs Byte.x00)) ->
  (n <= length bs)%nat -> Z.of_nat n <= 2 ^ 32 ->
  for_loop n
    (fun i ws => set ws (ushr i 2) (bor (get ws (ushr i 2)) (shl (f i) (24 - (i mod 4) * 8))))
    []
  = words_of (firstn n bs).
Proof.
  induction n as [|n IH]; intros Hf Hn Hb; [reflexivity|].
  rewrite for_loop_S, IH by (try (intros; apply Hf); lia).
  rewrite ushr_2 by lia.
  rewrite (firstn_S_nth bs n Byte.x00) by lia.
  apply words_of_snoc.
  - rewrite Hf, Nat2Z.id by lia. reflexivity.
  - rewrite length_firstn. lia.
Qed.

Lemma u8_words_spec (bs : list byte) :
  Z.of_nat (length bs) <= 2 ^ 32 -> u8_words bs = words_of bs.
Proof.
  intros H. unfold u8_words.
  rewrite (pack_loop _ bs (length bs)) by (try reflexivity; lia).
  rewrite firstn_all. reflexivity.
Qed.

Lemma WordArray_create_u8_spec (bs : list byte) :
  Z.of_nat (length bs) <= 2 ^ 32 ->
  WordArray_create_u8 bs = mkWordArray (words_of bs) (Z.of_nat (length bs)).
Proof.
  intros H. unfold WordArray_create_u8, WordArray_init. rewrite u8_words_spec by exact H.
  reflexivity.
Qed.

Lemma Latin1_parse_bytes (bs : list byte) :
  Z.of_nat (length bs) <= 2 ^ 32 ->
  Latin1_parse (map byte.unsigned bs) = mkWordArray (words_of bs) (Z.of_nat (length bs)).
Proof.
  intros H. unfold Latin1_parse, WordArray_init. rewrite length_map.
  rewrite (pack_loop _ bs (length bs)); [rewrite firstn_all; reflexivity| |lia|lia].
  intros i Hi. change 0 with (byte.unsigned Byte.x00) at 1. rewrite map_nth.
  unfold band, u32. change 255 with (Z.ones 8). rewrite Z.land_ones by lia.
  pose proof (byte.unsigned_range (nth (Z.to_nat i) bs Byte.x00)).
  rewrite (Z.mod_small _ (2 ^ 8)) by lia. apply Z.mod_small. lia.
Qed.

(** ** clamp and concat *)

Lemma clamp_aligned (ws : list Z) :
  4 * Z.of_nat (length ws) < 2 ^ 32 ->
  WordArray_clamp (mkWordArray ws (4 * Z.of_nat (length ws)))
  = mkWordArray ws (4 * Z.of_nat (length ws)).
Proof.
  intros H. unfold WordArray_clamp. cbn [words sigBytes]. f_equal.
  rewrite ushr_2 by lia. rewrite ceil_div_4 by lia.
  replace (4 * Z.of_nat (length ws) / 4) with (Z.of_nat (length ws))
    by (Z.div_mod_to_equations; lia).
  replace ((4 * Z.of_nat (length ws) + 3) / 4) with (Z.of_nat (length ws))
    by (Z.div_mod_to_equations; lia).
  rewrite set_snoc, Nat2Z.id, firstn_app, firstn_all, Nat.sub_diag. cbn [firstn].
  apply app_nil_r.
Qed.

Lemma mask_1 (x : Z) : is_byte x ->
  band (pack4 x 0 0 0) (shl 4294967295 24) = pack4 x 0 0 0.
Proof. intros. change 4294967295 with (Z.ones 32). bytes_blast. Qed.
Lemma mask_2 (x y : Z) : is_byte x -> is_byte y ->
  band (pack4 x y 0 0) (shl 4294967295 16) = pack4 x y 0 0.
Proof. intros. change 4294967295 with (Z.ones 32). bytes_blast. Qed.
Lemma mask_3 (x y z : Z) : is_byte x -> is_byte y -> is_byte z ->
  band (pack4 x y z 0) (shl 4294967295 8) = pack4 x y z 0.
Proof. intros. change 4294967295 with (Z.ones 32). bytes_blast. Qed.

Lemma clamp_words_of (bs : list byte) :
  Z.of_nat (length bs) < 2 ^ 32 ->
  WordArray_clamp (mkWordArray (words_of bs) (Z.of_nat (length bs)))
  = mkWordArray (words_of bs) (Z.of_nat (length bs)).
Proof.
  intros H. unfold WordArray_clamp. cbn [words sigBytes]. f_equal.
  set (n := Z.of_nat (length bs)) in *.
  assert (Hn : 0 <= n) by (unfold n; lia).
  rewrite ushr_2 by lia. rewrite ceil_div_4 by lia.
  assert (Hq : 0 <= n / 4) by (Z.div_mod_to_equations; lia).
  apply get_ext.
  - apply Nat2Z.inj. rewrite length_firstn, Nat2Z.inj_min, length_set, length_words_of.
    fold n. rewrite Z2Nat.id by (Z.div_mod_to_equations; lia). lia.
  - intros j Hj.
    rewrite length_firstn, Nat2Z.inj_min, length_set, length_words_of in Hj. fold n in Hj.
    rewrite Z2Nat.id in Hj by (Z.div_mod_to_equations; lia).
    rewrite get_firstn by (rewrite Z2Nat.id by (Z.div_mod_to_equations; lia); lia).
    rewrite get_set by lia. destruct (Z.eqb_spec j (n / 4)) as [->|Hne]; [|reflexivity].
    rewrite get_words_of by lia. unfold word_at.
    assert (C : n mod 4 = 1 \/ n mod 4 = 2 \/ n mod 4 = 3)
      by (Z.div_mod_to_equations; lia).
    pose proof (Z.div_mod n 4 ltac:(lia)) as E.
    destruct C as [C|[C|C]]; rewrite C in *.
    + rewrite (B_beyond bs (4 * (n / 4) + 1)), (B_beyond bs (4 * (n / 4) + 2)),
        (B_beyond bs (4 * (n / 4) + 3)) by (fold n; lia).
      apply mask_1, B_range.
    + rewrite (B_beyond bs (4 * (n / 4) + 2)), (B_beyond bs (4 * (n / 4) + 3)) by (fold n; lia).
      apply mask_2; apply B_range.
    + rewrite (B_beyond bs (4 * (n / 4) + 3)) by (fold n; lia).
      apply mask_3; apply B_range.
Qed.

(** [concat] onto a receiver that ends on a word boundary appends the
    argument's words. *)
Lemma concat_aligned (ws tw : list Z) (tsb : Z) :
  0 <= tsb ->
  4 * Z.of_nat (length ws) + tsb <= 2 ^ 32 ->
  4 * Z.of_nat (length ws) < 2 ^ 32 ->
  (tsb + 3) / 4 <= Z.of_nat (length tw) ->
  WordArray_concat (mkWordArray ws (4 * Z.of_nat (length ws))) (mkWordArray tw tsb)
  = mkWordArray (ws ++ firstn (Z.to_nat ((tsb + 3) / 4)) tw) (4 * Z.of_nat (length ws) + tsb).
Proof.
  intros Ht Hb Hb' Hq. unfold WordArray_concat.
  rewrite clamp_aligned by lia. cbn [words sigBytes].
  replace (4 * Z.of_nat (length ws) mod 4 =? 0) with true
    by (symmetry; apply Z.eqb_eq; Z.div_mod_to_equations; lia).
  cbn [negb]. f_equal. rewrite ceil_div_4 by lia.
  assert (L : forall k : nat, Z.of_nat k <= (tsb + 3) / 4 ->
    for_loop k (fun k ws0 => set ws0 (ushr (4 * Z.of_nat (length ws) + 4 * k) 2)
                               (get tw (ushr (4 * k) 2))) ws
    = ws ++ firstn k tw).
  { induction k as [|k IH]; intros Hk.
    - rewrite for_loop_0. cbn [firstn]. symmetry. apply app_nil_r.
    - rewrite for_loop_S, IH by lia.
      rewrite !ushr_2 by (Z.div_mod_to_equations; lia).
      replace ((4 * Z.of_nat (length ws) + 4 * Z.of_nat k) / 4)
        with (Z.of_nat (length (ws ++ firstn k tw)))
        by (rewrite length_app, length_firstn; Z.div_mod_to_equations; lia).
      rewrite set_snoc.
      replace (4 * Z.of_nat k / 4) with (Z.of_nat k) by (Z.div_mod_to_equations; lia).
      rewrite get_nth, (firstn_S_nth tw k 0) by lia.
      rewrite app_assoc. reflexivity. }
  apply L. rewrite Z2Nat.id by (Z.div_mod_to_equations; lia). lia.
Qed.

(** ** Padding *)

Lemma pad_len_range (n : Z) : 1 <= pad_len n <= 16.
Proof. unfold pad_len. Z.div_mod_to_equations. lia. Qed.

Lemma pad_len_total (n : Z) : (n + pad_len n) mod 16 = 0.
Proof. unfold pad_len. Z.div_mod_to_equations. lia. Qed.

Lemma length_padded (P : list byte) :
  Z.of_nat (length (padded P)) = Z.of_nat (length P) + pad_len (Z.of_nat (length P)).
Proof.
  unfold padded. rewrite length_app, repeat_length.
  pose proof (pad_len_range (Z.of_nat (length P))). lia.
Qed.

Lemma unsigned_of_Z_byte (x : Z) : is_byte x -> byte.unsigned (byte.of_Z x) = x.
Proof. intros H. rewrite byte.unsigned_of_Z. apply Z.mod_small. exact H. Qed.

Lemma get_repeat (w : Z) (q : nat) (i : Z) : 0 <= i < Z.of_nat q -> get (repeat w q) i = w.
Proof.
  intros H. replace i with (Z.of_nat (Z.to_nat i)) by lia. rewrite get_nth.
  apply nth_repeat_lt. lia.
Qed.

Lemma B_repeat (b : byte) (m : nat) (i : Z) :
  0 <= i < Z.of_nat m -> B (repeat b m) i = byte.unsigned b.
Proof.
  intros H. unfold B. destruct (Z.ltb_spec i 0); [lia|].
  rewrite nth_repeat_lt by lia. reflexivity.
Qed.

Lemma padding_words (w : Z) (q : nat) :
  for_loop q (fun _ pw => pw ++ [w]) [] = repeat w q.
Proof.
  induction q as [|q IH]; [reflexivity|].
  rewrite for_loop_S, IH. symmetry. apply repeat_cons.
Qed.

Lemma byte_at_padding (p : Z) (q : nat) (i : Z) :
  is_byte p -> 0 <= i < 4 * Z.of_nat q -> i < 2 ^ 32 ->
  byte_at (repeat (pack4 p p p p) q) i = p.
Proof.
  intros Hp Hi Hb. unfold byte_at. rewrite ushr_2 by lia.
  rewrite get_repeat by (Z.div_mod_to_equations; lia).
  rewrite byte_of_word by lia.
  destruct (i mod 4 =? 0); [apply b0_pack4; assumption|].
  destruct (i mod 4 =? 1); [apply b1_pack4; assumption|].
  destruct (i mod 4 =? 2); [apply b2_pack4; assumption|apply b3_pack4; assumption].
Qed.

Lemma repeat_snoc {A : Type} (x : A) (n : nat) : repeat x (S n) = repeat x n ++ [x].
Proof. apply repeat_cons. Qed.

(** [Pkcs7.pad] appends the padding bytes to the data. *)
Lemma pad_spec (P : list byte) :
  Z.of_nat (length P) + 16 < 2 ^ 32 ->
  Pkcs7.pad (mkWordArray (words_of P) (Z.of_nat (length P))) 4
  = mkWordArray (words_of (padded P)) (Z.of_nat (length (padded P))).
Proof.
  intros Hb. unfold Pkcs7.pad. cbn [sigBytes]. change (4 * 4) with 16.
  set (n := Z.of_nat (length P)) in *.
  fold (pad_len n). pose proof (pad_len_range n) as Hp.
  set (p := pad_len n) in *.
  assert (Hpb : is_byte p) by (unfold is_byte; lia).
  fold (pack4 p p p p). unfold WordArray_init.
  rewrite padding_words, ceil_div_4 by lia.
  rewrite length_padded. fold n p. unfold padded. fold n p.
  assert (Hn : 0 <= n) by (unfold n; lia).
  destruct (Z.eq_dec (n mod 4) 0) as [Ha|Hu].
  - (* the data ends on a word boundary: whole words are copied *)
    assert (Hlen : n = 4 * Z.of_nat (length (words_of P))).
    { rewrite length_words_of. fold n. Z.div_mod_to_equations. lia. }
    assert (Hp4 : p mod 4 = 0).
    { pose proof (pad_len_total n). fold p in H. Z.div_mod_to_equations. lia. }
    replace (mkWordArray (words_of P) n)
      with (mkWordArray (words_of P) (4 * Z.of_nat (length (words_of P))))
      by (rewrite <- Hlen; reflexivity).
    rewrite concat_aligned;
      rewrite ?repeat_length, <- ?Hlen;
      try (rewrite Z2Nat.id by (Z.div_mod_to_equations; lia)); try lia.
    f_equal. rewrite firstn_all2 by (rewrite repeat_length; lia).
    apply get_ext.
    + apply Nat2Z.inj. rewrite length_app, repeat_length, Nat2Z.inj_add, !length_words_of.
      rewrite length_app, repeat_length, Nat2Z.inj_add. fold n.
      rewrite !Z2Nat.id by (Z.div_mod_to_equations; lia).
      Z.div_mod_to_equations. lia.
    + intros j Hj. rewrite length_app, repeat_length, Nat2Z.inj_add, length_words_of in Hj.
      fold n in Hj. rewrite Z2Nat.id in Hj by (Z.div_mod_to_equations; lia).
      rewrite (get_words_of (P ++ _)) by lia. unfold word_at.
      destruct (Z.ltb_spec j (n / 4)) as [Hlt|Hge].
      * rewrite get_app_l by (rewrite length_words_of; fold n; Z.div_mod_to_equations; lia).
        rewrite get_words_of by lia. unfold word_at.
        rewrite !B_app_l by (fold n; Z.div_mod_to_equations; lia). reflexivity.
      * rewrite get_app_r by (rewrite length_words_of; fold n; Z.div_mod_to_equations; lia).
        rewrite get_repeat
          by (rewrite length_words_of; fold n;
              rewrite Z2Nat.id by (Z.div_mod_to_equations; lia);
              Z.div_mod_to_equations; lia).
        rewrite !B_app_r by (fold n; Z.div_mod_to_equations; lia).
        rewrite !B_repeat by (fold n; Z.div_mod_to_equations; lia).
        rewrite unsigned_of_Z_byte by exact Hpb. reflexivity.
  - (* the data ends inside a word: bytes are copied one by one *)
    unfold WordArray_concat. rewrite clamp_words_of by (fold n; lia).
    cbn [words sigBytes].
    destruct (Z.eqb_spec (n mod 4) 0) as [?|_]; [contradiction|]. cbn [negb].
    f_equal.
    assert (L : forall i : nat, Z.of_nat i <= p ->
      for_loop i
        (fun i ws =>
           set ws (ushr (n + i) 2)
             (bor (get ws (ushr (n + i) 2))
                (shl (band (ushr (get (repeat (pack4 p p p p) (Z.to_nat ((p + 3) / 4)))
                                      (ushr i 2)) (24 - (i mod 4) * 8)) 255)
                   (24 - ((n + i) mod 4) * 8))))
        (words_of P)
      = words_of (P ++ repeat (byte.of_Z p) i)).
    { induction i as [|i IH]; intros Hi.
      - rewrite for_loop_0. cbn [repeat]. rewrite app_nil_r. reflexivity.
      - rewrite for_loop_S, IH by lia.
        fold (byte_at (repeat (pack4 p p p p) (Z.to_nat ((p + 3) / 4))) (Z.of_nat i)).
        rewrite byte_at_padding;
          try (rewrite Z2Nat.id by (Z.div_mod_to_equations; lia));
          try (Z.div_mod_to_equations; lia); try assumption.
        rewrite ushr_2 by lia. rewrite repeat_snoc, app_assoc.
        apply words_of_snoc.
        + symmetry. apply unsigned_of_Z_byte, Hpb.
        + rewrite length_app, repeat_length. unfold n. lia. }
    apply L. lia.
Qed.

(** ** From word arrays back to bytes *)

Lemma slice_all {A : Type} (l : list A) : slice l 0 (length l) = l.
Proof. unfold slice. rewrite Nat.sub_0_r. cbn [skipn]. apply firstn_all. Qed.

Lemma view_set_app (a : list byte) (x b : byte) (r : list byte) (k : nat) :
  k = length a -> view_set (a ++ x :: r) k b = a ++ b :: r.
Proof.
  intros ->. induction a as [|y a IH]; [reflexivity|]. cbn. rewrite IH. reflexivity.
Qed.

Lemma view_loop (f : Z -> byte) (n : nat) :
  for_loop n (fun i view => view_set view (Z.to_nat i) (f i)) (repeat Byte.x00 n)
  = map (fun i => f (Z.of_nat i)) (seq 0 n).
Proof.
  assert (L : forall k : nat, (k <= n)%nat ->
    for_loop k (fun i view => view_set view (Z.to_nat i) (f i)) (repeat Byte.x00 n)
    = map (fun i => f (Z.of_nat i)) (seq 0 k) ++ repeat Byte.x00 (n - k)).
  { induction k as [|k IH]; intros Hk.
    - rewrite for_loop_0, Nat.sub_0_r. reflexivity.
    - rewrite for_loop_S, IH by lia.
      replace (n - k)%nat with (S (n - S k)) by lia. cbn [repeat].
      rewrite Nat2Z.id.
      rewrite view_set_app by (rewrite length_map, length_seq; reflexivity).
      rewrite seq_S, map_app, <- app_assoc. reflexivity. }
  rewrite L, Nat.sub_diag by lia. apply app_nil_r.
Qed.

Lemma wordArrayToArrayBuffer_spec (ws : list Z) (sb : Z) :
  0 <= sb ->
  Encrypt.wordArrayToArrayBuffer (mkWordArray ws sb) = Ok (bytes_of ws (Z.to_nat sb)).
Proof.
  intros H. unfold Encrypt.wordArrayToArrayBuffer. cbn [words sigBytes].
  destruct (Z.ltb_spec sb 0); [lia|]. f_equal.
  apply (view_loop (fun i => byte.of_Z (byte_at ws i))).
Qed.

Lemma length_bytes_of (ws : list Z) (n : nat) : length (bytes_of ws n) = n.
Proof. unfold bytes_of. rewrite length_map, length_seq. reflexivity. Qed.

Lemma nth_map_seq {A : Type} (g : nat -> A) (n i : nat) (d : A) :
  (i < n)%nat -> nth i (map g (seq 0 n)) d = g i.
Proof.
  intros H.
  rewrite (nth_indep _ d (g 0%nat)) by (rewrite length_map, length_seq; exact H).
  rewrite (map_nth g (seq 0 n) 0%nat i), seq_nth by exact H. reflexivity.
Qed.

Lemma nth_bytes_of (ws : list Z) (n i : nat) :
  (i < n)%nat -> nth i (bytes_of ws n) Byte.x00 = byte.of_Z (byte_at ws (Z.of_nat i)).
Proof. intros H. unfold bytes_of. rewrite nth_map_seq by exact H. reflexivity. Qed.

Lemma B_bytes_of (ws : list Z) (n : nat) (i : Z) :
  0 <= i < Z.of_nat n -> B (bytes_of ws n) i = byte_at ws i.
Proof.
  intros H. unfold B. destruct (Z.ltb_spec i 0); [lia|].
  rewrite nth_bytes_of by lia. rewrite Z2Nat.id by lia.
  apply unsigned_of_Z_byte. unfold byte_at. apply is_byte_land.
Qed.

Lemma bytes_of_words_of (bs : list byte) (n : nat) :
  (n <= length bs)%nat -> Z.of_nat n <= 2 ^ 32 ->
  bytes_of (words_of bs) n = firstn n bs.
Proof.
  intros Hn Hb. apply (nth_ext _ _ Byte.x00 Byte.x00).
  - rewrite length_bytes_of, length_firstn. lia.
  - intros i Hi. rewrite length_bytes_of in Hi.
    rewrite nth_bytes_of, byte_at_words_of by lia.
    rewrite nth_firstn. destruct (Nat.ltb_spec i n); [|lia].
    unfold B. destruct (Z.ltb_spec (Z.of_nat i) 0); [lia|].
    rewrite Nat2Z.id. apply byte.of_Z_unsigned.
Qed.

Lemma byte_at_word (ws : list Z) (j : Z) :
  0 <= j -> 4 * j + 3 < 2 ^ 32 ->
  byte_at ws (4 * j) = b0 (get ws j) /\ byte_at ws (4 * j + 1) = b1 (get ws j) /\
  byte_at ws (4 * j + 2) = b2 (get ws j) /\ byte_at ws (4 * j + 3) = b3 (get ws j).
Proof.
  intros Hj Hb. unfold byte_at. rewrite !ushr_2, !byte_of_word by lia.
  replace (4 * j / 4) with j by (Z.div_mod_to_equations; lia).
  replace ((4 * j + 1) / 4) with j by (Z.div_mod_to_equations; lia).
  replace ((4 * j + 2) / 4) with j by (Z.div_mod_to_equations; lia).
  replace ((4 * j + 3) / 4) with j by (Z.div_mod_to_equations; lia).
  replace (4 * j mod 4) with 0 by (Z.div_mod_to_equations; lia).
  replace ((4 * j + 1) mod 4) with 1 by (Z.div_mod_to_equations; lia).
  replace ((4 * j + 2) mod 4) with 2 by (Z.div_mod_to_equations; lia).
  replace ((4 * j + 3) mod 4) with 3 by (Z.div_mod_to_equations; lia).
  repeat split.
Qed.

Lemma get_ok (ws : list Z) (i : Z) : words_ok ws -> 0 <= get ws i < 2 ^ 32.
Proof.
  intros H. revert i. induction H as [|w ws Hw _ IH]; intros i.
  - rewrite get_nil. lia.
  - rewrite get_cons. destruct (i =? 0); [exact Hw|apply IH].
Qed.

Lemma words_of_bytes_of (ws : list Z) :
  words_ok ws -> 4 * Z.of_nat (length ws) <= 2 ^ 32 ->
  words_of (bytes_of ws (4 * length ws)) = ws.
Proof.
  intros Hok Hb. apply get_ext.
  - apply Nat2Z.inj. rewrite length_words_of, length_bytes_of.
    Z.div_mod_to_equations. lia.
  - intros j Hj. rewrite length_words_of, length_bytes_of in Hj.
    assert (Hj' : 0 <= j < Z.of_nat (length ws)) by (Z.div_mod_to_equations; lia).
    rewrite get_words_of by lia. unfold word_at.
    rewrite !B_bytes_of by lia.
    destruct (byte_at_word ws j) as (-> & -> & -> & ->); try lia.
    rewrite pack4_bytes. apply u32_small, get_ok, Hok.
Qed.

Lemma words_ok_get (ws : list Z) :
  (forall i, 0 <= i < Z.of_nat (length ws) -> 0 <= get ws i < 2 ^ 32) -> words_ok ws.
Proof.
  intros H. apply Forall_forall. intros w Hw.
  destruct (In_nth _ _ 0 Hw) as (i & Hi & <-). rewrite <- get_nth. apply H. lia.
Qed.

(** ** The cipher pipeline *)

Lemma ceil_div_16 (nb : Z) : ceil_div (16 * nb) (4 * 4) = nb.
Proof. unfold ceil_div. Z.div_mod_to_equations. lia. Qed.

Lemma enc_loop_length (c : AES.instance) (n : nat) (iv : AES.state) (ws : list Z) :
  length ws = (4 * n)%nat -> length (snd (enc_loop c n iv ws)) = (4 * n)%nat.
Proof.
  intros H. pose proof (enc_loop_inv c iv ws n) as I.
  destruct (enc_loop c n iv ws) as [p w]. destruct I as (L & _). cbn [snd]. lia.
Qed.

Lemma dec_loop_length (c : AES.instance) (n : nat) (iv : AES.state) (ws : list Z) :
  length ws = (4 * n)%nat -> length (snd (dec_loop c n iv ws)) = (4 * n)%nat.
Proof.
  intros H. pose proof (dec_loop_inv c iv ws n) as I.
  destruct (dec_loop c n iv ws) as [p w]. destruct I as (L & _). cbn [snd]. lia.
Qed.

Lemma xor_state_ok (s k : AES.state) :
  let '(a, b, c, d) := xor_state s k in
  0 <= a < 2 ^ 32 /\ 0 <= b < 2 ^ 32 /\ 0 <= c < 2 ^ 32 /\ 0 <= d < 2 ^ 32.
Proof.
  destruct s as [[[s0 s1] s2] s3], k as [[[k0 k1] k2] k3]. unfold xor_state.
  repeat split; apply bxor_range.
Qed.

Lemma enc_block_ok (c : AES.instance) (m : AES.state) :
  let '(a, b, c, d) := enc_block c m in
  0 <= a < 2 ^ 32 /\ 0 <= b < 2 ^ 32 /\ 0 <= c < 2 ^ 32 /\ 0 <= d < 2 ^ 32.
Proof.
  unfold enc_block, crypt_state.
  destruct (AES.round_loop _ _ _ _ _ _ _ 4) as [s r].
  rewrite final_round_spec. apply xor_state_ok.
Qed.

Lemma enc_loop_ok (c : AES.instance) (n : nat) (iv : AES.state) (ws : list Z) :
  length ws = (4 * n)%nat -> words_ok (snd (enc_loop c n iv ws)).
Proof.
  intros H. pose proof (enc_loop_inv c iv ws n) as I.
  destruct (enc_loop c n iv ws) as [p w]. destruct I as (L & _ & C & _). cbn [snd].
  apply words_ok_get. intros i Hi.
  pose proof (C (i / 4) ltac:(Z.div_mod_to_equations; lia)) as E.
  pose proof (enc_block_ok c (xor_state (get4 ws (4 * (i / 4)))
                (if i / 4 =? 0 then iv else get4 w (4 * (i / 4 - 1))))) as O.
  rewrite <- E in O. unfold get4 in O. destruct O as (O0 & O1 & O2 & O3).
  assert (K : i = 4 * (i / 4) \/ i = 4 * (i / 4) + 1 \/ i = 4 * (i / 4) + 2 \/ i = 4 * (i / 4) + 3)
    by (Z.div_mod_to_equations; lia).
  destruct K as [K|[K|[K|K]]]; rewrite K; assumption.
Qed.

Lemma process_enc_spec (c : AES.instance) (m : CBC.mode) (ws : list Z) (nb : nat) :
  (1 <= nb)%nat -> length ws = (4 * nb)%nat ->
  Cipher.process Cipher.ENC_XFORM_MODE c m (mkWordArray ws (16 * Z.of_nat nb))
  = mkWordArray (snd (enc_loop c nb (mix_of m) ws)) (16 * Z.of_nat nb).
Proof.
  intros Hnb Hlen. unfold Cipher.process. cbv zeta. cbn [words sigBytes].
  rewrite ceil_div_16. destruct (Z.eqb_spec (Z.of_nat nb * 4) 0); [lia|].
  rewrite Nat2Z.id.
  pose proof (process_loop_enc c nb m ws) as E.
  destruct (for_loop nb _ (m, ws)) as [m' ws']. cbn [snd] in E. subst ws'.
  unfold WordArray_init. f_equal.
  - apply firstn_all2. rewrite enc_loop_length by exact Hlen. lia.
  - lia.
Qed.

Lemma process_dec_spec (c : AES.instance) (m : CBC.mode) (ws : list Z) (nb : nat) :
  (1 <= nb)%nat -> length ws = (4 * nb)%nat ->
  Cipher.process Cipher.DEC_XFORM_MODE c m (mkWordArray ws (16 * Z.of_nat nb))
  = mkWordArray (snd (dec_loop c nb (mix_of m) ws)) (16 * Z.of_nat nb).
Proof.
  intros Hnb Hlen. unfold Cipher.process. cbv zeta. cbn [words sigBytes].
  rewrite ceil_div_16. destruct (Z.eqb_spec (Z.of_nat nb * 4) 0); [lia|].
  rewrite Nat2Z.id.
  pose proof (process_loop_dec c nb m ws) as E.
  destruct (for_loop nb _ (m, ws)) as [m' ws']. cbn [snd] in E. subst ws'.
  unfold WordArray_init. f_equal.
  - apply firstn_all2. rewrite dec_loop_length by exact Hlen. lia.
  - lia.
Qed.

(** Appending to the empty buffer of a fresh cipher copies the message. *)
Lemma append_to_empty (ws : list Z) (sb : Z) :
  0 <= sb <= 2 ^ 32 -> Z.of_nat (length ws) = (sb + 3) / 4 ->
  WordArray_concat (WordArray_init [] 0) (mkWordArray ws sb) = mkWordArray ws sb.
Proof.
  intros Hsb Hlen. unfold WordArray_init.
  change 0 with (4 * Z.of_nat (@length Z [])).
  rewrite concat_aligned by (cbn [length]; lia). cbn [length app].
  rewrite firstn_all2 by lia. reflexivity.
Qed.

Lemma blocks_of_padded (P : list byte) :
  exists nb : nat,
    (1 <= nb)%nat /\ Z.of_nat (length (padded P)) = 16 * Z.of_nat nb /\
    length (words_of (padded P)) = (4 * nb)%nat /\
    nb = Z.to_nat (Z.of_nat (length (padded P)) / 16).
Proof.
  pose proof (length_padded P) as L.
  pose proof (pad_len_range (Z.of_nat (length P))) as R.
  pose proof (pad_len_total (Z.of_nat (length P))) as T. rewrite <- L in T.
  exists (Z.to_nat (Z.of_nat (length (padded P)) / 16)).
  repeat split.
  - Z.div_mod_to_equations. lia.
  - rewrite Z2Nat.id by (Z.div_mod_to_equations; lia). Z.div_mod_to_equations. lia.
  - apply Nat2Z.inj. rewrite length_words_of, Nat2Z.inj_mul.
    rewrite Z2Nat.id by (Z.div_mod_to_equations; lia). Z.div_mod_to_equations. lia.
Qed.

Lemma AES_encrypt_spec (P : list byte) (key iv : WordArray) :
  Z.of_nat (length P) + 16 < 2 ^ 32 ->
  Cipher.AES_encrypt (mkWordArray (words_of P) (Z.of_nat (length P))) key iv
  = mkWordArray (cipher_words key (words iv) P) (Z.of_nat (length (padded P))).
Proof.
  intros Hb. unfold Cipher.AES_encrypt, Cipher.finalize.
  rewrite append_to_empty by (rewrite ?length_words_of; lia).
  rewrite pad_spec by exact Hb.
  destruct (blocks_of_padded P) as (nb & H1 & HN & HL & Hnb).
  rewrite HN, process_enc_spec by assumption.
  unfold cipher_words. rewrite <- Hnb. reflexivity.
Qed.

Lemma AES_decrypt_spec (P : list byte) (key iv : WordArray) :
  Z.of_nat (length P) + 16 < 2 ^ 32 ->
  0 <= sigBytes key -> sigBytes key mod 4 = 0 ->
  Cipher.AES_decrypt
    (mkWordArray (cipher_words key (words iv) P) (Z.of_nat (length (padded P)))) key iv
  = mkWordArray (words_of (padded P)) (Z.of_nat (length P)).
Proof.
  intros Hb Hk0 Hk4. unfold Cipher.AES_decrypt, Cipher.finalize.
  destruct (blocks_of_padded P) as (nb & H1 & HN & HL & Hnb).
  pose proof (length_padded P) as LP.
  pose proof (pad_len_range (Z.of_nat (length P))) as R.
  unfold cipher_words. rewrite <- Hnb.
  set (c := AES.doReset key).
  set (W := words_of (padded P)) in *.
  set (C := snd (enc_loop c nb (get4 (words iv) 0) W)).
  assert (LC : length C = (4 * nb)%nat) by (apply enc_loop_length, HL).
  rewrite append_to_empty
    by (rewrite ?LC; try split; try lia; Z.div_mod_to_equations; lia).
  rewrite HN, process_dec_spec by assumption.
  change (mix_of (CBC.create (words iv))) with (get4 (words iv) 0).
  unfold C. rewrite cbc_roundtrip;
    [|intros m; apply dec_enc_block; assumption|exact HL].
  rewrite map_u32_ok by apply words_of_ok.
  unfold Pkcs7.unpad. cbn [words sigBytes]. f_equal.
  set (N := Z.of_nat nb) in *.
  rewrite ushr_2 by lia.
  replace ((16 * N - 1) / 4) with (4 * N - 1) by (Z.div_mod_to_equations; lia).
  fold (b3 (get W (4 * N - 1))).
  destruct (byte_at_word W (4 * N - 1)) as (_ & _ & _ & <-); try lia.
  unfold W. rewrite byte_at_words_of by lia.
  unfold padded. rewrite B_app_r by lia.
  rewrite B_repeat by lia.
  rewrite unsigned_of_Z_byte by (unfold is_byte; lia). lia.
Qed.

(** ** Strings *)

Lemma ascii_not_surrogate (c : Z) :
  0 <= c < 128 -> is_high_surrogate c = false /\ is_low_surrogate c = false.
Proof.
  intros H. unfold is_high_surrogate, is_low_surrogate.
  destruct (Z.leb_spec 55296 c); [lia|]. destruct (Z.leb_spec 56320 c); [lia|].
  split; reflexivity.
Qed.

Lemma encode_ascii (s : jsstring) : is_ascii s -> TextEncoder_encode s = ascii_bytes s.
Proof.
  intros H. induction H as [|c s Hc _ IH]; [reflexivity|].
  cbn [TextEncoder_encode ascii_bytes map].
  destruct (ascii_not_surrogate c Hc) as (-> & ->).
  unfold utf8_bytes. destruct (Z.ltb_spec c 128); [|lia].
  rewrite IH. reflexivity.
Qed.

Lemma decode_run_ascii (s : jsstring) :
  is_ascii s -> decode_run decoder_init (ascii_bytes s) = s.
Proof.
  intros H. induction H as [|c s Hc _ IH]; [reflexivity|].
  cbn [ascii_bytes map decode_run]. unfold decode_byte at 1.
  cbn [bytes_needed decoder_init]. cbn [Z.eqb].
  rewrite unsigned_of_Z_byte by (unfold is_byte; lia).
  unfold decode_lead. destruct (Z.leb_spec c 127); [|lia].
  cbn [app]. f_equal. exact IH.
Qed.

Lemma utf16_ascii (s : jsstring) : is_ascii s -> flat_map utf16_units s = s.
Proof.
  intros H. induction H as [|c s Hc _ IH]; [reflexivity|].
  change (flat_map utf16_units (c :: s)) with (utf16_units c ++ flat_map utf16_units s).
  rewrite IH. unfold utf16_units. destruct (Z.ltb_spec c 65536); [|lia]. reflexivity.
Qed.

Lemma decode_ascii (s : jsstring) : is_ascii s -> TextDecoder_decode (ascii_bytes s) = s.
Proof.
  intros H. unfold TextDecoder_decode. rewrite decode_run_ascii by exact H.
  destruct H as [|c s Hc Hs]; [reflexivity|].
  destruct (Z.eqb_spec c 65279); [lia|].
  apply utf16_ascii. constructor; assumption.
Qed.

Lemma well_formed_ascii (s : jsstring) : is_ascii s -> well_formed s = true.
Proof.
  intros H. induction H as [|c s Hc _ IH]; [reflexivity|].
  cbn [well_formed]. destruct (ascii_not_surrogate c Hc) as (-> & ->).
  exact IH.
Qed.

Lemma is_ascii_slice (s : jsstring) (a b : nat) : is_ascii s -> is_ascii (slice s a b).
Proof.
  intros H. unfold slice, is_ascii in *.
  rewrite <- (firstn_skipn a s) in H. apply Forall_app in H. destruct H as [_ H].
  rewrite <- (firstn_skipn (b - a) (skipn a s)) in H. apply Forall_app in H. tauto.
Qed.

Lemma length_slice {A : Type} (s : list A) (a b : nat) :
  (b <= length s)%nat -> length (slice s a b) = (b - a)%nat.
Proof. intros H. unfold slice. rewrite length_firstn, length_skipn. lia. Qed.

Lemma key_words_ascii (K : jsstring) :
  is_ascii K -> (48 <= length K)%nat ->
  Encrypt.key_words K = mkWordArray (words_of (ascii_bytes (slice K 16 48))) 32.
Proof.
  intros HK HL. unfold Encrypt.key_words.
  rewrite encode_ascii by (apply is_ascii_slice, HK).
  rewrite WordArray_create_u8_spec;
    unfold ascii_bytes; rewrite length_map, length_slice by lia; [reflexivity|].
  cbn. lia.
Qed.

Lemma iv_words_ascii (K : jsstring) :
  is_ascii K -> (16 <= length K)%nat ->
  Encrypt.iv_words K = Ok (mkWordArray (words_of (ascii_bytes (slice K 0 16))) 16).
Proof.
  intros HK HL. unfold Encrypt.iv_words.
  pose proof (is_ascii_slice K 0 16 HK) as HS.
  rewrite encode_ascii, decode_ascii by exact HS.
  unfold Utf8_parse. rewrite well_formed_ascii, encode_ascii by exact HS.
  rewrite Latin1_parse_bytes;
    unfold ascii_bytes; rewrite length_map, length_slice by lia; [reflexivity|].
  cbn. lia.
Qed.

(** ** encryptText and decryptText *)

Lemma byte_at_cons (w : Z) (ws : list Z) (i : Z) :
  4 <= i < 2 ^ 32 -> byte_at (w :: ws) i = byte_at ws (i - 4).
Proof.
  intros H. unfold byte_at. rewrite !ushr_2 by lia. rewrite get_cons.
  destruct (Z.eqb_spec (i / 4) 0); [Z.div_mod_to_equations; lia|].
  replace ((i - 4) / 4) with (i / 4 - 1) by (Z.div_mod_to_equations; lia).
  replace ((i - 4) mod 4) with (i mod 4) by (Z.div_mod_to_equations; lia).
  reflexivity.
Qed.

Lemma bytes_of_cons (w : Z) (ws : list Z) (m : nat) :
  4 + Z.of_nat m <= 2 ^ 32 ->
  bytes_of (w :: ws) (4 + m)
  = [byte.of_Z (b0 w); byte.of_Z (b1 w); byte.of_Z (b2 w); byte.of_Z (b3 w)] ++ bytes_of ws m.
Proof.
  intros Hb. apply (nth_ext _ _ Byte.x00 Byte.x00).
  - rewrite length_app, !length_bytes_of. reflexivity.
  - intros i Hi. rewrite length_bytes_of in Hi. rewrite nth_bytes_of by exact Hi.
    destruct (byte_at_word (w :: ws) 0) as (E0 & E1 & E2 & E3); try lia.
    change (get (w :: ws) 0) with w in *.
    destruct i as [|[|[|[|i]]]]; cbn [nth app];
      [rewrite <- E0|rewrite <- E1|rewrite <- E2|rewrite <- E3|]; try reflexivity.
    rewrite nth_bytes_of by lia. rewrite byte_at_cons by lia.
    do 2 f_equal. lia.
Qed.

Lemma marker_bytes :
  [byte.of_Z (b0 160731); byte.of_Z (b1 160731); byte.of_Z (b2 160731); byte.of_Z (b3 160731)]
  = marker.
Proof. reflexivity. Qed.

Lemma length_cipher_words (key : WordArray) (ivw : list Z) (P : list byte) :
  4 * Z.of_nat (length (cipher_words key ivw P)) = Z.of_nat (length (padded P)).
Proof.
  destruct (blocks_of_padded P) as (nb & H1 & HN & HL & Hnb).
  unfold cipher_words. rewrite <- Hnb, enc_loop_length by exact HL. lia.
Qed.

Lemma cipher_words_ok (key : WordArray) (ivw : list Z) (P : list byte) :
  words_ok (cipher_words key ivw P).
Proof.
  destruct (blocks_of_padded P) as (nb & H1 & HN & HL & Hnb).
  unfold cipher_words. rewrite <- Hnb. apply enc_loop_ok, HL.
Qed.

Lemma concat_marker (C : list Z) (N : Z) :
  0 <= N -> 4 + N <= 2 ^ 32 -> 4 * Z.of_nat (length C) = N ->
  WordArray_concat (WordArray_clone (Encrypt.MAGIC_WORDS Encrypt.initial)) (mkWordArray C N)
  = mkWordArray (160731 :: C) (4 + N).
Proof.
  intros H0 Hb HL. cbn [Encrypt.MAGIC_WORDS Encrypt.initial].
  unfold WordArray_clone, WordArray_init. cbn [words sigBytes]. rewrite slice_all.
  change 4 with (4 * Z.of_nat (length [160731])) at 1.
  rewrite concat_aligned by (cbn [length]; try lia; Z.div_mod_to_equations; lia).
  rewrite firstn_all2 by (Z.div_mod_to_equations; lia). reflexivity.
Qed.

(** The frame [encryptText] returns, for any key whose iv parses. *)
Lemma encryptText_frame (P : list byte) (K : jsstring) (iv : WordArray) :
  Z.of_nat (length P) + 20 <= 2 ^ 32 ->
  Encrypt.iv_words K = Ok iv ->
  Encrypt.encryptText P K Encrypt.initial = (Ok (frame_of P K iv), Encrypt.initial).
Proof.
  intros Hb Hiv. unfold Encrypt.encryptText. rewrite Hiv, slice_all.
  rewrite WordArray_create_u8_spec by lia.
  rewrite AES_encrypt_spec by lia.
  pose proof (length_cipher_words (Encrypt.key_words K) (words iv) P) as LC.
  pose proof (length_padded P) as LP.
  pose proof (pad_len_range (Z.of_nat (length P))) as R.
  rewrite concat_marker by lia.
  rewrite wordArrayToArrayBuffer_spec by lia.
  replace (Z.to_nat (4 + Z.of_nat (length (padded P)))) with (4 + length (padded P))%nat by lia.
  rewrite bytes_of_cons by lia. rewrite marker_bytes. reflexivity.
Qed.

Lemma Legacy_encryptText_spec (P : list byte) (K : jsstring) (iv : WordArray) :
  Z.of_nat (length P) + 20 <= 2 ^ 32 ->
  Encrypt.iv_words K = Ok iv ->
  Legacy.encryptText P K
  = Ok (bytes_of (cipher_words (Encrypt.key_words K) (words iv) P) (length (padded P))).
Proof.
  intros Hb Hiv. unfold Legacy.encryptText, Legacy.wordArrayToArrayBuffer.
  rewrite Hiv, slice_all.
  rewrite WordArray_create_u8_spec by lia.
  rewrite AES_encrypt_spec by lia.
  rewrite wordArrayToArrayBuffer_spec by lia. rewrite Nat2Z.id. reflexivity.
Qed.

Lemma length_frame_of (P : list byte) (K : jsstring) (iv : WordArray) :
  Z.of_nat (length (frame_of P K iv)) = 4 + 16 * (Z.of_nat (length P) / 16 + 1).
Proof.
  unfold frame_of, marker. rewrite length_app, length_bytes_of, Nat2Z.inj_add, length_padded.
  cbn [length]. unfold pad_len. Z.div_mod_to_equations. lia.
Qed.

(** The words of a frame are the marker word and the ciphertext words. *)
Lemma frame_words (P : list byte) (K : jsstring) (iv : WordArray) :
  Z.of_nat (length P) + 20 <= 2 ^ 32 ->
  words_of (frame_of P K iv) = 160731 :: cipher_words (Encrypt.key_words K) (words iv) P.
Proof.
  intros Hb. unfold frame_of.
  set (C := cipher_words (Encrypt.key_words K) (words iv) P).
  pose proof (length_cipher_words (Encrypt.key_words K) (words iv) P) as LC. fold C in LC.
  pose proof (length_padded P) as LP.
  pose proof (pad_len_range (Z.of_nat (length P))) as R.
  rewrite <- marker_bytes, <- bytes_of_cons by lia.
  replace (4 + length (padded P))%nat with (4 * length (cons 160731%Z C))%nat
    by (cbn [length]; lia).
  apply words_of_bytes_of.
  - constructor; [lia|apply cipher_words_ok].
  - cbn [length]. lia.
Qed.

(** Decrypting the frame of a plaintext gives the plaintext back, for every
    key whose derived cipher key is a whole number of words. *)
Lemma decryptText_frame (P : list byte) (K : jsstring) (iv : WordArray) :
  Z.of_nat (length P) + 20 <= 2 ^ 32 ->
  Encrypt.iv_words K = Ok iv ->
  sigBytes (Encrypt.key_words K) mod 4 = 0 ->
  Encrypt.decryptText (frame_of P K iv) K Encrypt.initial = (Ok P, Encrypt.initial).
Proof.
  intros Hb Hiv Hk. unfold Encrypt.decryptText. rewrite slice_all.
  pose proof (length_frame_of P K iv) as LF.
  pose proof (length_padded P) as LP.
  pose proof (pad_len_range (Z.of_nat (length P))) as R.
  assert (LF' : Z.of_nat (length (frame_of P K iv)) = 4 + Z.of_nat (length (padded P))).
  { unfold frame_of, marker. rewrite length_app, length_bytes_of. cbn [length]. lia. }
  rewrite WordArray_create_u8_spec by lia.
  cbn [words sigBytes]. rewrite frame_words by exact Hb.
  destruct (Z.ltb_spec (Z.of_nat (length (frame_of P K iv))) 4); [lia|].
  cbn [Encrypt.MAGIC_WORDS Encrypt.initial WordArray_init words sigBytes get skipn].
  change (negb (ushr 160731 0 =? ushr 160731 0)) with false. cbv iota.
  rewrite Hiv. unfold WordArray_init.
  replace (Z.of_nat (length (frame_of P K iv)) - 4) with (Z.of_nat (length (padded P))) by lia.
  rewrite AES_decrypt_spec; try lia.
  - rewrite wordArrayToArrayBuffer_spec by lia.
    rewrite Nat2Z.id, bytes_of_words_of.
    + unfold padded. rewrite firstn_app, firstn_all, Nat.sub_diag. cbn [firstn not_object].
      rewrite app_nil_r. reflexivity.
    + unfold padded. rewrite length_app. lia.
    + lia.
  - unfold Encrypt.key_words, WordArray_create_u8, WordArray_init. cbn [sigBytes]. lia.
Qed.

(** ** The decoder yields well-formed strings *)

Lemma land_low (b k : Z) : 0 <= k -> Z.land b (Z.ones k) = b mod 2 ^ k.
Proof. intros. apply Z.land_ones. assumption. Qed.

Lemma continuation (cp b : Z) :
  0 <= cp -> 128 <= b <= 191 ->
  Z.lor (Z.shiftl cp 6) (Z.land b 63) = cp * 64 + (b - 128).
Proof.
  intros Hc Hb. change 63 with (Z.ones 6). rewrite Z.land_ones by lia.
  rewrite Z.shiftl_mul_pow2 by lia.
  replace (b mod 2 ^ 6) with (b - 128) by (Z.div_mod_to_equations; lia).
  rewrite Z.or_to_plus; [reflexivity|].
  replace (b - 128) with ((b - 128) mod 2 ^ 6) by (apply Z.mod_small; lia).
  rewrite <- Z.shiftl_mul_pow2 by lia. blast.
Qed.

Lemma decode_lead_ok (b : Z) :
  0 <= b < 256 ->
  decoder_ok (fst (decode_lead b)) /\ Forall scalar (snd (decode_lead b)).
Proof.
  intros Hb. unfold decode_lead.
  change (Z.land b 31) with (Z.land b (Z.ones 5)).
  change (Z.land b 15) with (Z.land b (Z.ones 4)).
  change (Z.land b 7) with (Z.land b (Z.ones 3)).
  rewrite !land_low by lia.
  destruct (Z.leb_spec b 127).
  { split; [left; reflexivity|]. constructor; [left; lia|constructor]. }
  destruct ((194 <=? b) && (b <=? 223)) eqn:E2.
  { apply andb_true_iff in E2. destruct E2 as [L U]. apply Z.leb_le in L, U.
    split; [|constructor]. right. cbn.
    repeat split; try lia. left. repeat split; Z.div_mod_to_equations; lia. }
  destruct ((224 <=? b) && (b <=? 239)) eqn:E3.
  { apply andb_true_iff in E3. destruct E3 as [L U]. apply Z.leb_le in L, U.
    split; [|constructor]. right. cbn.
    destruct (Z.eqb_spec b 224), (Z.eqb_spec b 237);
      (repeat split; try lia; right; left; repeat split;
       try (intros; Z.div_mod_to_equations; lia)). }
  destruct ((240 <=? b) && (b <=? 244)) eqn:E4.
  { apply andb_true_iff in E4. destruct E4 as [L U]. apply Z.leb_le in L, U.
    split; [|constructor]. right. cbn.
    destruct (Z.eqb_spec b 240), (Z.eqb_spec b 244);
      (repeat split; try lia; right; right; right; left; repeat split;
       try (intros; Z.div_mod_to_equations; lia)). }
  split; [left; reflexivity|]. constructor; [right; lia|constructor].
Qed.

Lemma decode_byte_ok (st : utf8_decoder) (b : Z) :
  0 <= b < 256 -> decoder_ok st ->
  decoder_ok (fst (decode_byte st b)) /\ Forall scalar (snd (decode_byte st b)).
Proof.
  intros Hb Hst. unfold decode_byte.
  destruct (Z.eqb_spec (bytes_needed st) 0) as [E0|N0]; [apply decode_lead_ok, Hb|].
  destruct ((b <? lower_boundary st) || (upper_boundary st <? b)) eqn:Eb.
  { pose proof (decode_lead_ok b Hb) as [A1 A2].
    destruct (decode_lead b) as [st' out]. cbn [fst snd] in *.
    split; [exact A1|]. constructor; [right; lia|exact A2]. }
  apply orb_false_iff in Eb. destruct Eb as [L U].
  apply Z.ltb_ge in L, U.
  destruct Hst as [?|(Hlo & Hhi & Hst)]; [contradiction|].
  assert (Hcp : 0 <= code_point st) by (destruct Hst as [H|[H|[H|[H|[H|H]]]]]; lia).
  rewrite continuation by lia.
  destruct Hst as [H|[H|[H|[H|[H|H]]]]];
    repeat match goal with H : _ /\ _ |- _ => destruct H end;
    match goal with
    | Hn : bytes_needed st = _, Hs : bytes_seen st = _ |- _ => rewrite Hn, Hs
    end;
    match goal with
    | |- context [?a + 1 =? ?c] =>
        let v := eval compute in (a + 1 =? c) in change (a + 1 =? c) with v
    end; cbn [fst snd].
  all: first
    [ split; [left; reflexivity | constructor; [unfold scalar; lia | constructor]]
    | split; [right; cbn; lia | constructor] ].
Qed.

Lemma decode_run_ok (bs : list byte) (st : utf8_decoder) :
  decoder_ok st -> Forall scalar (decode_run st bs).
Proof.
  revert st; induction bs as [|b bs IH]; intros st Hst.
  - cbn [decode_run]. destruct (bytes_needed st =? 0); [constructor|].
    constructor; [right; lia|constructor].
  - cbn [decode_run].
    pose proof (decode_byte_ok st (byte.unsigned b) (byte.unsigned_range b) Hst) as [A1 A2].
    destruct (decode_byte st (byte.unsigned b)) as [st' out]. cbn [fst snd] in *.
    apply Forall_app. split; [exact A2|apply IH, A1].
Qed.

Lemma utf16_well_formed (cps : list Z) :
  Forall scalar cps -> well_formed (flat_map utf16_units cps) = true.
Proof.
  intros H. induction H as [|cp cps Hcp _ IH]; [reflexivity|].
  change (flat_map utf16_units (cp :: cps)) with (utf16_units cp ++ flat_map utf16_units cps).
  unfold utf16_units. destruct (Z.ltb_spec cp 65536) as [Hs|Hl].
  - cbn [app well_formed]. unfold is_high_surrogate, is_low_surrogate.
    destruct Hcp as [Hcp|Hcp].
    + destruct (Z.leb_spec 55296 cp); [lia|]. destruct (Z.leb_spec 56320 cp); [lia|].
      cbn [andb negb]. exact IH.
    + destruct (Z.leb_spec 55296 cp); [|lia]. destruct (Z.leb_spec cp 56319); [lia|].
      destruct (Z.leb_spec 56320 cp); [|lia]. destruct (Z.leb_spec cp 57343); [lia|].
      cbn [andb negb]. exact IH.
  - destruct Hcp as [Hcp|Hcp]; [lia|].
    cbn [app well_formed]. unfold is_high_surrogate, is_low_surrogate.
    rewrite Z.shiftr_div_pow2 by lia. change 1023 with (Z.ones 10).
    rewrite Z.land_ones by lia.
    destruct (Z.leb_spec 55296 (55296 + (cp - 65536) / 2 ^ 10));
      [|Z.div_mod_to_equations; lia].
    destruct (Z.leb_spec (55296 + (cp - 65536) / 2 ^ 10) 56319);
      [|Z.div_mod_to_equations; lia].
    destruct (Z.leb_spec 56320 (56320 + (cp - 65536) mod 2 ^ 10));
      [|Z.div_mod_to_equations; lia].
    destruct (Z.leb_spec (56320 + (cp - 65536) mod 2 ^ 10) 57343);
      [|Z.div_mod_to_equations; lia].
    cbn [andb]. exact IH.
Qed.

Lemma TextDecoder_well_formed (bs : list byte) : well_formed (TextDecoder_decode bs) = true.
Proof.
  unfold TextDecoder_decode. apply utf16_well_formed.
  pose proof (decode_run_ok bs decoder_init (or_introl eq_refl)) as H.
  destruct (decode_run decoder_init bs) as [|c r]; [constructor|].
  destruct (c =? 65279); [inversion H; assumption|exact H].
Qed.

(** The iv argument always parses: the string it is built from has been
    through [TextEncoder] and [TextDecoder]. *)
Lemma iv_words_total (K : jsstring) :
  exists iv, Encrypt.iv_words K = Ok iv.
Proof.
  unfold Encrypt.iv_words, Utf8_parse. rewrite TextDecoder_well_formed. eauto.
Qed.

(** ** The frame checks of decryptText *)

Lemma decryptText_short (buf : list byte) (K : jsstring) (g : Encrypt.globals) :
  (length buf < 4)%nat ->
  Encrypt.decryptText buf K g = (Throw NotValidCiphertext, g).
Proof.
  intros H. unfold Encrypt.decryptText. rewrite slice_all.
  unfold WordArray_create_u8, WordArray_init. cbn [sigBytes].
  destruct (Z.ltb_spec (Z.of_nat (length buf)) 4); [reflexivity|lia].
Qed.

Lemma ushr_0 (w : Z) : ushr w 0 = u32 w.
Proof. unfold ushr. change (0 mod 32) with 0. apply Z.shiftr_0_r. Qed.

Lemma B_nth (bs : list byte) (i : nat) : B bs (Z.of_nat i) = byte.unsigned (nth i bs Byte.x00).
Proof.
  unfold B. destruct (Z.ltb_spec (Z.of_nat i) 0); [lia|]. rewrite Nat2Z.id. reflexivity.
Qed.

(** The first word of a buffer is the marker word exactly when its first
    four bytes are the marker. *)
Lemma first_word_marker (buf : list byte) :
  (4 <= length buf)%nat ->
  word_at buf 0 = 160731 <-> firstn 4 buf = marker.
Proof.
  intros H. destruct buf as [|a [|b [|c [|d r]]]]; try (cbn in H; lia).
  unfold word_at. change (4 * 0) with (Z.of_nat 0). change (Z.of_nat 0 + 1) with (Z.of_nat 1).
  change (Z.of_nat 0 + 2) with (Z.of_nat 2). change (Z.of_nat 0 + 3) with (Z.of_nat 3).
  rewrite !B_nth. cbn [nth firstn]. unfold marker.
  pose proof (byte.unsigned_range a) as Ha. pose proof (byte.unsigned_range b) as Hb.
  pose proof (byte.unsigned_range c) as Hc. pose proof (byte.unsigned_range d) as Hd.
  split.
  - intros E.
    pose proof (b0_pack4 _ _ _ _ Ha Hb Hc Hd) as E0.
    pose proof (b1_pack4 _ _ _ _ Ha Hb Hc Hd) as E1.
    pose proof (b2_pack4 _ _ _ _ Ha Hb Hc Hd) as E2.
    pose proof (b3_pack4 _ _ _ _ Ha Hb Hc Hd) as E3.
    rewrite E in E0, E1, E2, E3.
    rewrite (byte.unsigned_inj a Byte.x00) by (rewrite <- E0; reflexivity).
    rewrite (byte.unsigned_inj b Byte.x02) by (rewrite <- E1; reflexivity).
    rewrite (byte.unsigned_inj c Byte.x73) by (rewrite <- E2; reflexivity).
    rewrite (byte.unsigned_inj d Byte.xdb) by (rewrite <- E3; reflexivity).
    reflexivity.
  - intros E. injection E as -> -> -> ->. reflexivity.
Qed.

Lemma B_skipn (bs : list byte) (k : nat) (i : Z) :
  0 <= i -> B (skipn k bs) i = B bs (Z.of_nat k + i).
Proof.
  intros H. unfold B. destruct (Z.ltb_spec i 0); [lia|].
  destruct (Z.ltb_spec (Z.of_nat k + i) 0); [lia|].
  rewrite nth_skipn. do 2 f_equal. lia.
Qed.

Lemma skipn_words_of (buf : list byte) :
  (4 <= length buf)%nat -> skipn 1 (words_of buf) = words_of (skipn 4 buf).
Proof.
  intros H. apply get_ext.
  - apply Nat2Z.inj. rewrite length_skipn, Nat2Z.inj_sub, !length_words_of, length_skipn.
    + rewrite Nat2Z.inj_sub by lia. Z.div_mod_to_equations. lia.
    + apply Nat2Z.inj_le. rewrite length_words_of. Z.div_mod_to_equations. lia.
  - intros j Hj. rewrite get_skipn, !get_words_of by lia.
    unfold word_at. rewrite !B_skipn by lia.
    replace (4 * (Z.of_nat 1 + j)) with (Z.of_nat 4 + 4 * j) by lia.
    rewrite !Z.add_assoc. reflexivity.
Qed.

Lemma magic_word : ushr (get (words (Encrypt.MAGIC_WORDS Encrypt.initial)) 0) 0 = 160731.
Proof. reflexivity. Qed.

Lemma decryptText_bad_marker (buf : list byte) (K : jsstring) :
  (4 <= length buf)%nat -> Z.of_nat (length buf) <= 2 ^ 32 ->
  firstn 4 buf <> marker ->
  Encrypt.decryptText buf K Encrypt.initial = (Throw NotValidCiphertext, Encrypt.initial).
Proof.
  intros H4 Hb Hm. unfold Encrypt.decryptText. rewrite slice_all.
  rewrite WordArray_create_u8_spec by exact Hb. cbn [words sigBytes].
  destruct (Z.ltb_spec (Z.of_nat (length buf)) 4); [lia|].
  rewrite get_words_of, ushr_0 by lia.
  rewrite u32_small by (unfold word_at; apply pack4_range).
  rewrite magic_word.
  destruct (Z.eqb_spec (word_at buf 0) 160731) as [E|E]; [|reflexivity].
  apply first_word_marker in E; [contradiction|exact H4].
Qed.

Lemma decryptText_unwrap (buf : list byte) (K : jsstring) :
  (4 <= length buf)%nat -> Z.of_nat (length buf) <= 2 ^ 32 ->
  firstn 4 buf = marker ->
  Encrypt.decryptText buf K Encrypt.initial
  = (after_unwrap (WordArray_create_u8 (skipn 4 buf)) K, Encrypt.initial).
Proof.
  intros H4 Hb Hm. unfold Encrypt.decryptText. rewrite slice_all.
  rewrite !WordArray_create_u8_spec by (rewrite ?length_skipn; lia). cbn [words sigBytes].
  destruct (Z.ltb_spec (Z.of_nat (length buf)) 4); [lia|].
  rewrite get_words_of, ushr_0 by lia.
  rewrite u32_small by (unfold word_at; apply pack4_range).
  rewrite magic_word.
  apply first_word_marker in Hm; [|exact H4]. rewrite Hm.
  change (negb (160731 =? 160731)) with false. cbv iota.
  cbn [Encrypt.MAGIC_WORDS Encrypt.initial WordArray_init sigBytes].
  rewrite skipn_words_of by exact H4.
  replace (Z.of_nat (length buf) - 4) with (Z.of_nat (length (skipn 4 buf)))
    by (rewrite length_skipn; lia).
  unfold after_unwrap.
  destruct (Encrypt.iv_words K) as [iv|m]; [|reflexivity].
  destruct (Encrypt.wordArrayToArrayBuffer _) as [d|m]; reflexivity.
Qed.

(** The only errors [decryptText] raises. *)
Lemma decryptText_errors (buf : list byte) (K : jsstring) (g : Encrypt.globals) :
  (exists plain, fst (Encrypt.decryptText buf K g) = Ok plain) \/
  fst (Encrypt.decryptText buf K g) = Throw NotValidCiphertext \/
  fst (Encrypt.decryptText buf K g) = Throw InvalidArrayBufferLength.
Proof.
  unfold Encrypt.decryptText.
  destruct (sigBytes _ <? 4); [right; left; reflexivity|].
  destruct (negb _); [right; left; reflexivity|].
  destruct (iv_words_total K) as [iv ->].
  unfold Encrypt.wordArrayToArrayBuffer.
  destruct (sigBytes _ <? 0); [right; right; reflexivity|].
  left. eexists. reflexivity.
Qed.

(** ** encryptText never fails *)

Lemma length_view_set (v : list byte) (i : nat) (b : byte) : length (view_set v i b) = length v.
Proof.
  revert i; induction v as [|x v IH]; intros i; [reflexivity|].
  destruct i; cbn [view_set length]; [reflexivity|]. rewrite IH. reflexivity.
Qed.

Lemma length_wordArrayToArrayBuffer (w : WordArray) (b : list byte) :
  Encrypt.wordArrayToArrayBuffer w = Ok b -> Z.of_nat (length b) = sigBytes w.
Proof.
  unfold Encrypt.wordArrayToArrayBuffer. destruct (Z.ltb_spec (sigBytes w) 0); [discriminate|].
  intros E. injection E as <-.
  assert (L : forall k (v : list byte),
    length (for_loop k (fun i view => view_set view (Z.to_nat i)
              (byte.of_Z (band (ushr (get (words w) (ushr i 2)) (24 - i mod 4 * 8)) 255))) v)
    = length v).
  { induction k as [|k IH]; intros v; [reflexivity|].
    rewrite for_loop_S, length_view_set. apply IH. }
  rewrite L, repeat_length. lia.
Qed.

Lemma sigBytes_process (x : Cipher.xformMode) (c : AES.instance) (m : CBC.mode) (d : WordArray) :
  sigBytes d mod 16 = 0 -> sigBytes (Cipher.process x c m d) = sigBytes d.
Proof.
  intros H. unfold Cipher.process. cbv zeta.
  assert (E : Z.min (ceil_div (sigBytes d) (4 * 4) * 4 * 4) (sigBytes d) = sigBytes d)
    by (unfold ceil_div; Z.div_mod_to_equations; lia).
  destruct (_ =? 0); [exact E|].
  destruct (for_loop _ _ _) as [m' ws]. exact E.
Qed.

Lemma sigBytes_AES_encrypt (message key iv : WordArray) :
  sigBytes (Cipher.AES_encrypt message key iv)
  = sigBytes message + pad_len (sigBytes message).
Proof.
  unfold Cipher.AES_encrypt, Cipher.finalize.
  rewrite sigBytes_process.
  - unfold Pkcs7.pad, WordArray_concat, WordArray_init, pad_len. cbn [sigBytes].
    change (4 * 4) with 16. rewrite !Z.add_0_l. reflexivity.
  - unfold Pkcs7.pad, WordArray_concat, WordArray_init. cbn [sigBytes].
    change (4 * 4) with 16. rewrite !Z.add_0_l. Z.div_mod_to_equations. lia.
Qed.

(** [encryptText] returns a frame for every buffer and every key string. *)
Lemma encryptText_total (P : list byte) (K : jsstring) :
  exists frame,
    Encrypt.encryptText P K Encrypt.initial = (Ok frame, Encrypt.initial) /\
    Z.of_nat (length frame) = 4 + 16 * (Z.of_nat (length P) / 16 + 1).
Proof.
  unfold Encrypt.encryptText. destruct (iv_words_total K) as [iv ->].
  rewrite slice_all.
  set (ct := Cipher.AES_encrypt _ _ _).
  assert (Hct : sigBytes ct = Z.of_nat (length P) + pad_len (Z.of_nat (length P))).
  { unfold ct. rewrite sigBytes_AES_encrypt. reflexivity. }
  pose proof (pad_len_range (Z.of_nat (length P))) as R.
  set (w := WordArray_concat _ ct).
  assert (Hw : sigBytes w = 4 + sigBytes ct) by reflexivity.
  destruct (Encrypt.wordArrayToArrayBuffer w) as [frame|m] eqn:E.
  - exists frame. split; [reflexivity|].
    apply length_wordArrayToArrayBuffer in E. rewrite E, Hw, Hct.
    unfold pad_len. Z.div_mod_to_equations. lia.
  - unfold Encrypt.wordArrayToArrayBuffer in E.
    destruct (Z.ltb_spec (sigBytes w) 0); [lia|discriminate].
Qed.

Lemma encryptText_globals (P : list byte) (K : jsstring) (g : Encrypt.globals) :
  snd (Encrypt.encryptText P K g) = g.
Proof.
  unfold Encrypt.encryptText.
  destruct (Encrypt.iv_words K) as [iv|m]; [|reflexivity].
  destruct (Encrypt.wordArrayToArrayBuffer _); reflexivity.
Qed.

Lemma decryptText_globals (buf : list byte) (K : jsstring) (g : Encrypt.globals) :
  snd (Encrypt.decryptText buf K g) = g.
Proof.
  unfold Encrypt.decryptText.
  destruct (sigBytes _ <? 4); [reflexivity|].
  destruct (negb _); [reflexivity|].
  destruct (Encrypt.iv_words K) as [iv|m]; [|reflexivity].
  destruct (Encrypt.wordArrayToArrayBuffer _); reflexivity.
Qed.

(** ** Decrypting under another iv *)

Lemma AES_decrypt_words (C : list Z) (nb : nat) (key iv : WordArray) :
  (1 <= nb)%nat -> length C = (4 * nb)%nat -> 16 * Z.of_nat nb <= 2 ^ 32 ->
  Cipher.AES_decrypt (mkWordArray C (16 * Z.of_nat nb)) key iv
  = Pkcs7.unpad
      (mkWordArray (snd (dec_loop (AES.doReset key) nb (get4 (words iv) 0) C))
         (16 * Z.of_nat nb)).
Proof.
  intros H1 HL Hb. unfold Cipher.AES_decrypt, Cipher.finalize.
  rewrite append_to_empty by (try split; try lia; Z.div_mod_to_equations; lia).
  rewrite process_dec_spec by assumption. reflexivity.
Qed.

Lemma get4_ok (W : list Z) (off : Z) : words_ok W -> u32_state (get4 W off) = get4 W off.
Proof.
  intros H. unfold get4, u32_state. rewrite !u32_small by (apply get_ok, H). reflexivity.
Qed.

(** CBC decryption under the same cipher key and another iv restores every
    block but the first, which comes back mixed with both ivs. *)
Lemma dec_other_iv (c : AES.instance) (iv1 iv2 : AES.state) (W : list Z) (nb : nat) :
  (forall m, dec_block c (enc_block c m) = u32_state m) ->
  length W = (4 * nb)%nat -> (1 <= nb)%nat -> words_ok W ->
  let D := snd (dec_loop c nb iv2 (snd (enc_loop c nb iv1 W))) in
  get4 D 0 = xor_state (xor_state (get4 W 0) iv1) iv2 /\
  (forall j, 1 <= j < Z.of_nat nb -> get4 D (4 * j) = get4 W (4 * j)).
Proof.
  intros Hinv HL H1 Hok D. unfold D.
  pose proof (enc_loop_inv c iv1 W nb) as He.
  destruct (enc_loop c nb iv1 W) as [pe C]. destruct He as (_ & _ & Ce & _). cbn [snd].
  pose proof (dec_loop_inv c iv2 C nb) as Hd.
  destruct (dec_loop c nb iv2 C) as [pd D']. destruct Hd as (_ & _ & Cd & _). cbn [snd].
  split.
  - change 0 with (4 * 0) at 1. rewrite Cd by lia. cbn [Z.eqb].
    rewrite (Ce 0) by lia. cbn [Z.eqb]. change (4 * 0) with 0.
    rewrite Hinv, u32_xor_state. reflexivity.
  - intros j Hj. rewrite Cd by lia. destruct (Z.eqb_spec j 0); [lia|].
    rewrite (Ce j) by lia. destruct (Z.eqb_spec j 0); [lia|].
    rewrite Hinv, u32_xor_state, xor_state_cancel. apply get4_ok, Hok.
Qed.

Lemma byte_at_get (D W : list Z) (i : Z) :
  0 <= i < 2 ^ 32 -> get D (i / 4) = get W (i / 4) -> byte_at D i = byte_at W i.
Proof. intros Hi E. unfold byte_at. rewrite !ushr_2, E by lia. reflexivity. Qed.

Lemma byte_at_bxor3 (D W X Y : list Z) (i : Z) :
  0 <= i < 2 ^ 32 ->
  get D (i / 4) = bxor (bxor (get W (i / 4)) (get X (i / 4))) (get Y (i / 4)) ->
  byte_at D i = Z.lxor (Z.lxor (byte_at W i) (byte_at X i)) (byte_at Y i).
Proof.
  intros Hi E. unfold byte_at. rewrite !ushr_2, E, !byte_of_word by lia.
  destruct (i mod 4 =? 0); [rewrite !b0_bxor; reflexivity|].
  destruct (i mod 4 =? 1); [rewrite !b1_bxor; reflexivity|].
  destruct (i mod 4 =? 2); [rewrite !b2_bxor; reflexivity|].
  rewrite !b3_bxor; reflexivity.
Qed.

Lemma lxor_cancel (x a b : Z) : Z.lxor (Z.lxor x a) b = x -> a = b.
Proof.
  intros E. apply Z.lxor_eq.
  assert (F : Z.lxor a b = Z.lxor x (Z.lxor (Z.lxor x a) b)).
  { rewrite !Z.lxor_assoc, <- (Z.lxor_assoc x x), Z.lxor_nilpotent, Z.lxor_0_l. reflexivity. }
  rewrite F, E. apply Z.lxor_nilpotent.
Qed.

Lemma B_ascii_bytes (s : jsstring) (i : nat) :
  is_ascii s -> (i < length s)%nat -> B (ascii_bytes s) (Z.of_nat i) = nth i s 0.
Proof.
  intros Hs Hi. rewrite B_nth. unfold ascii_bytes.
  change Byte.x00 with (byte.of_Z 0). rewrite map_nth.
  apply unsigned_of_Z_byte. unfold is_ascii in Hs. rewrite Forall_forall in Hs.
  pose proof (Hs (nth i s 0) (nth_In _ _ Hi)). unfold is_byte. lia.
Qed.

Lemma nth_slice_0 (s : jsstring) (n i : nat) :
  (i < n)%nat -> nth i (slice s 0 n) 0 = nth i s 0.
Proof.
  intros H. unfold slice. cbn [skipn]. rewrite Nat.sub_0_r, nth_firstn.
  destruct (Nat.ltb_spec i n); [reflexivity|lia].
Qed.

Lemma decryptText_of_frame (P : list byte) (K1 K2 : jsstring) (iv1 : WordArray) :
  Z.of_nat (length P) + 20 <= 2 ^ 32 ->
  Encrypt.decryptText (frame_of P K1 iv1) K2 Encrypt.initial
  = (after_unwrap
       (mkWordArray (cipher_words (Encrypt.key_words K1) (words iv1) P)
          (Z.of_nat (length (padded P)))) K2,
     Encrypt.initial).
Proof.
  intros Hb.
  pose proof (length_frame_of P K1 iv1) as LF.
  pose proof (length_padded P) as LP.
  pose proof (pad_len_range (Z.of_nat (length P))) as R.
  pose proof (length_cipher_words (Encrypt.key_words K1) (words iv1) P) as LC.
  assert (LF' : Z.of_nat (length (frame_of P K1 iv1)) = 4 + Z.of_nat (length (padded P))).
  { unfold frame_of, marker. rewrite length_app, length_bytes_of. cbn [length]. lia. }
  rewrite decryptText_unwrap by (try reflexivity; lia).
  do 2 f_equal. unfold frame_of, marker. cbn [app skipn].
  rewrite WordArray_create_u8_spec by (rewrite length_bytes_of; lia).
  rewrite length_bytes_of. f_equal.
  replace (length (padded P)) with (4 * length (cipher_words (Encrypt.key_words K1) (words iv1) P))%nat
    by lia.
  apply words_of_bytes_of; [apply cipher_words_ok|lia].
Qed.

(** With the same cipher key and an iv that differs inside the plaintext
    or in its last byte, decryption never gives the plaintext back. *)
Lemma other_iv_not_plaintext (P : list byte) (K1 K2 : jsstring) (i : nat) :
  is_ascii K1 -> is_ascii K2 -> length K1 = 48%nat -> length K2 = 48%nat ->
  Z.of_nat (length P) + 20 <= 2 ^ 32 ->
  slice K1 16 48 = slice K2 16 48 ->
  (i < 16)%nat -> (i < length P \/ i = 15)%nat -> nth i K1 0 <> nth i K2 0 ->
  fst (Encrypt.decryptText
         (frame_of P K1 (mkWordArray (words_of (ascii_bytes (slice K1 0 16))) 16))
         K2 Encrypt.initial) <> Ok P.
Proof.
  intros A1 A2 L1 L2 Hb Hkey Hi Hpos Hne.
  set (iv1 := mkWordArray (words_of (ascii_bytes (slice K1 0 16))) 16).
  set (iv2 := mkWordArray (words_of (ascii_bytes (slice K2 0 16))) 16).
  assert (Hiv2 : Encrypt.iv_words K2 = Ok iv2) by (apply iv_words_ascii; [assumption|lia]).
  assert (Hk : Encrypt.key_words K2 = Encrypt.key_words K1)
    by (unfold Encrypt.key_words; rewrite Hkey; reflexivity).
  assert (Hks : sigBytes (Encrypt.key_words K1) = 32)
    by (rewrite key_words_ascii by (try assumption; lia); reflexivity).
  rewrite decryptText_of_frame by exact Hb. cbn [fst].
  unfold after_unwrap. rewrite Hiv2, Hk.
  destruct (blocks_of_padded P) as (nb & H1 & HN & HL & Hnb).
  pose proof (length_padded P) as LP.
  pose proof (pad_len_range (Z.of_nat (length P))) as R.
  unfold cipher_words. rewrite <- Hnb. rewrite HN.
  set (c := AES.doReset (Encrypt.key_words K1)).
  set (W := words_of (padded P)) in *.
  rewrite AES_decrypt_words by (try assumption; try (apply enc_loop_length, HL); lia).
  fold c.
  destruct (dec_other_iv c (get4 (words iv1) 0) (get4 (words iv2) 0) W nb) as (D0 & Dj);
    try assumption.
  { intros m. apply dec_enc_block; rewrite Hks; [lia|reflexivity]. }
  { apply words_of_ok. }
  set (D := snd (dec_loop c nb (get4 (words iv2) 0)
                   (snd (enc_loop c nb (get4 (words iv1) 0) W)))) in *.
  (* the word of [D] that holds byte [i] *)
  assert (Hw : forall k, 0 <= k < 16 ->
    byte_at D k = Z.lxor (Z.lxor (byte_at W k) (byte_at (words iv1) k)) (byte_at (words iv2) k)).
  { intros k Hk16. apply byte_at_bxor3; [lia|].
    unfold get4, xor_state in D0. change (0 + 1) with 1 in D0.
    change (0 + 2) with 2 in D0. change (0 + 3) with 3 in D0.
    injection D0 as E0 E1 E2 E3.
    assert (C : k / 4 = 0 \/ k / 4 = 1 \/ k / 4 = 2 \/ k / 4 = 3)
      by (Z.div_mod_to_equations; lia).
    destruct C as [C | [C | [C | C]]]; rewrite C; assumption. }
  assert (Hiv : forall k : nat, (k < 16)%nat ->
    byte_at (words iv1) (Z.of_nat k) = nth k K1 0 /\
    byte_at (words iv2) (Z.of_nat k) = nth k K2 0).
  { intros k Hk16. unfold iv1, iv2. cbn [words].
    rewrite !byte_at_words_of by lia.
    rewrite !B_ascii_bytes by (try (apply is_ascii_slice; assumption);
                               rewrite length_slice; lia).
    rewrite !nth_slice_0 by lia. split; reflexivity. }
  unfold Pkcs7.unpad. cbn [words sigBytes].
  set (N := Z.of_nat nb) in *.
  set (p' := byte_at D (16 * N - 1)).
  set (q := 16 * N - band (get D (ushr (16 * N - 1) 2)) 255).
  assert (Hq : q = 16 * N - p').
  { unfold q, p'. f_equal. rewrite ushr_2 by lia.
    replace ((16 * N - 1) / 4) with (4 * N - 1) by (Z.div_mod_to_equations; lia).
    destruct (byte_at_word D (4 * N - 1)) as (_ & _ & _ & Hlast); try lia.
    replace (4 * (4 * N - 1) + 3) with (16 * N - 1) in Hlast by lia.
    rewrite Hlast. reflexivity. }
  clearbody q.
  destruct (Z.ltb_spec q 0) as [Hneg | Hnn].
  { unfold Encrypt.wordArrayToArrayBuffer. cbn [sigBytes].
    destruct (Z.ltb_spec q 0); [discriminate|lia]. }
  rewrite wordArrayToArrayBuffer_spec by lia.
  cbv beta iota delta [not_object]. intros E. injection E as E.
  assert (Hlen : 16 * N - p' = Z.of_nat (length P)).
  { apply (f_equal (@length byte)) in E. rewrite length_bytes_of in E. lia. }
  destruct (Hiv i Hi) as (I1 & I2).
  destruct (Nat.lt_ge_cases i (length P)) as [Hin | Hout].
  - (* the ivs differ at a byte of the plaintext *)
    apply (f_equal (fun l => byte.unsigned (nth i l Byte.x00))) in E.
    rewrite nth_bytes_of in E by lia.
    rewrite unsigned_of_Z_byte in E by (unfold byte_at; apply is_byte_land).
    rewrite Hw in E by lia.
    unfold W in E. rewrite byte_at_words_of in E by lia.
    unfold padded in E. rewrite B_app_l in E by lia.
    rewrite B_nth, I1, I2 in E.
    apply lxor_cancel in E. contradiction.
  - (* the ivs differ at byte 15 and the plaintext is shorter than a block *)
    assert (i = 15%nat) by lia. subst i.
    assert (Hn : N = 1) by (unfold pad_len in *; Z.div_mod_to_equations; lia).
    assert (Hp : p' = pad_len (Z.of_nat (length P))) by lia.
    unfold p' in Hp. rewrite Hn in Hp. change (16 * 1 - 1) with (Z.of_nat 15) in Hp.
    rewrite Hw in Hp by lia.
    unfold W in Hp. rewrite byte_at_words_of in Hp by lia.
    unfold padded in Hp. rewrite B_app_r, B_repeat in Hp by lia.
    rewrite unsigned_of_Z_byte in Hp by (unfold is_byte; lia).
    rewrite I1, I2 in Hp. apply lxor_cancel in Hp. contradiction.
Qed.

(** ** The outcomes of decryption *)

Lemma sigBytes_process_any (x : Cipher.xformMode) (c : AES.instance) (m : CBC.mode)
  (d : WordArray) :
  0 <= sigBytes d -> sigBytes (Cipher.process x c m d) = sigBytes d.
Proof.
  intros H. unfold Cipher.process.
  assert (E : Z.min (ceil_div (sigBytes d) (4 * 4) * 4 * 4) (sigBytes d) = sigBytes d).
  { unfold ceil_div. Z.div_mod_to_equations. lia. }
  destruct (_ =? 0); [exact E|].
  destruct (for_loop _ _ _) as [m' ws]. exact E.
Qed.

Lemma sigBytes_AES_decrypt (ct key iv : WordArray) :
  0 <= sigBytes ct ->
  sigBytes ct - 255 <= sigBytes (Cipher.AES_decrypt ct key iv) <= sigBytes ct.
Proof.
  intros H. unfold Cipher.AES_decrypt, Cipher.finalize, Pkcs7.unpad. cbn [sigBytes].
  rewrite sigBytes_process_any
    by (unfold WordArray_concat, WordArray_init; cbn [sigBytes]; lia).
  unfold WordArray_concat, WordArray_init. cbn [sigBytes].
  match goal with |- context [band ?a 255] => pose proof (is_byte_land a) as R end.
  unfold is_byte in R. lia.
Qed.

Lemma after_unwrap_length (ct : WordArray) (K : jsstring) (out : list byte) :
  0 <= sigBytes ct -> after_unwrap ct K = Ok out ->
  sigBytes ct - 255 <= Z.of_nat (length out) <= sigBytes ct.
Proof.
  intros H E. unfold after_unwrap in E.
  destruct (Encrypt.iv_words K) as [iv|m]; [|discriminate].
  destruct (Encrypt.wordArrayToArrayBuffer _) as [b|m] eqn:Eb; [|discriminate].
  cbv beta iota delta [not_object] in E. injection E as <-.
  apply length_wordArrayToArrayBuffer in Eb. rewrite Eb.
  apply sigBytes_AES_decrypt, H.
Qed.

Lemma after_unwrap_outcomes (ct : WordArray) (K : jsstring) :
  (exists out, after_unwrap ct K = Ok out) \/
  after_unwrap ct K = Throw InvalidArrayBufferLength.
Proof.
  unfold after_unwrap. destruct (iv_words_total K) as [iv ->].
  unfold Encrypt.wordArrayToArrayBuffer.
  destruct (_ <? 0); [right; reflexivity|left; eexists; reflexivity].
Qed.

Lemma bytes_of_ext (A C : list Z) (n : nat) :
  (forall i, 0 <= i < Z.of_nat n -> byte_at A i = byte_at C i) ->
  bytes_of A n = bytes_of C n.
Proof.
  intros H. unfold bytes_of. apply map_ext_in. intros i Hi.
  apply in_seq in Hi. rewrite H by lia. reflexivity.
Qed.

(** Whatever the two key strings, a frame decrypted under another key
    gives a buffer or the RangeError of the buffer allocation, and the
    latter only when the ciphertext is shorter than 255 bytes. *)
Lemma decrypt_frame_outcomes (P : list byte) (K1 K2 : jsstring) (iv1 : WordArray) :
  Z.of_nat (length P) + 20 <= 2 ^ 32 ->
  let r := fst (Encrypt.decryptText (frame_of P K1 iv1) K2 Encrypt.initial) in
  (exists out,
     r = Ok out /\
     (Z.of_nat (length (frame_of P K1 iv1)) - 259 <= Z.of_nat (length out)
      <= Z.of_nat (length (frame_of P K1 iv1)) - 4)) \/
  (r = Throw InvalidArrayBufferLength /\ (length P < 240)%nat).
Proof.
  intros Hb r. unfold r. clear r.
  rewrite decryptText_of_frame by exact Hb. cbn [fst].
  pose proof (length_frame_of P K1 iv1) as LF.
  set (ct := mkWordArray _ _).
  assert (Hct : sigBytes ct = 16 * (Z.of_nat (length P) / 16 + 1)).
  { unfold ct. cbn [sigBytes]. rewrite length_padded. unfold pad_len.
    Z.div_mod_to_equations. lia. }
  unfold after_unwrap. destruct (iv_words_total K2) as [iv2 ->].
  pose proof (sigBytes_AES_decrypt ct (Encrypt.key_words K2) iv2 ltac:(lia)) as R.
  destruct (Encrypt.wordArrayToArrayBuffer _) as [out|m] eqn:E.
  - left. exists out. cbv beta iota delta [not_object]. split; [reflexivity|].
    apply length_wordArrayToArrayBuffer in E. lia.
  - right. unfold Encrypt.wordArrayToArrayBuffer in E.
    destruct (Z.ltb_spec (sigBytes (Cipher.AES_decrypt ct (Encrypt.key_words K2) iv2)) 0)
      as [Hneg|]; [|discriminate].
    injection E as <-. split; [reflexivity|].
    Z.div_mod_to_equations. lia.
Qed.

(** With the same cipher key and ivs that agree on the bytes of the
    plaintext in the first block and on byte 15, decryption gives the
    plaintext back. *)
Lemma agreeing_iv_returns_plaintext (P : list byte) (K1 K2 : jsstring) :
  is_ascii K1 -> is_ascii K2 -> length K1 = 48%nat -> length K2 = 48%nat ->
  Z.of_nat (length P) + 20 <= 2 ^ 32 ->
  slice K1 16 48 = slice K2 16 48 ->
  (forall i, (i < 16)%nat -> (i < length P \/ i = 15)%nat -> nth i K1 0 = nth i K2 0) ->
  fst (Encrypt.decryptText
         (frame_of P K1 (mkWordArray (words_of (ascii_bytes (slice K1 0 16))) 16))
         K2 Encrypt.initial) = Ok P.
Proof.
  intros A1 A2 L1 L2 Hb Hkey Hagree.
  set (iv1 := mkWordArray (words_of (ascii_bytes (slice K1 0 16))) 16).
  set (iv2 := mkWordArray (words_of (ascii_bytes (slice K2 0 16))) 16).
  assert (Hiv2 : Encrypt.iv_words K2 = Ok iv2) by (apply iv_words_ascii; [assumption|lia]).
  assert (Hk : Encrypt.key_words K2 = Encrypt.key_words K1)
    by (unfold Encrypt.key_words; rewrite Hkey; reflexivity).
  assert (Hks : sigBytes (Encrypt.key_words K1) = 32)
    by (rewrite key_words_ascii by (try assumption; lia); reflexivity).
  rewrite decryptText_of_frame by exact Hb. cbn [fst].
  unfold after_unwrap. rewrite Hiv2, Hk.
  destruct (blocks_of_padded P) as (nb & H1 & HN & HL & Hnb).
  pose proof (length_padded P) as LP.
  pose proof (pad_len_range (Z.of_nat (length P))) as R.
  unfold cipher_words. rewrite <- Hnb. rewrite HN.
  set (c := AES.doReset (Encrypt.key_words K1)).
  set (W := words_of (padded P)) in *.
  rewrite AES_decrypt_words by (try assumption; try (apply enc_loop_length, HL); lia).
  fold c.
  destruct (dec_other_iv c (get4 (words iv1) 0) (get4 (words iv2) 0) W nb) as (D0 & Dj);
    try assumption.
  { intros m. apply dec_enc_block; rewrite Hks; [lia|reflexivity]. }
  { apply words_of_ok. }
  set (D := snd (dec_loop c nb (get4 (words iv2) 0)
                   (snd (enc_loop c nb (get4 (words iv1) 0) W)))) in *.
  assert (Hw : forall k, 0 <= k < 16 ->
    byte_at D k = Z.lxor (Z.lxor (byte_at W k) (byte_at (words iv1) k)) (byte_at (words iv2) k)).
  { intros k Hk16. apply byte_at_bxor3; [lia|].
    unfold get4, xor_state in D0. change (0 + 1) with 1 in D0.
    change (0 + 2) with 2 in D0. change (0 + 3) with 3 in D0.
    injection D0 as E0 E1 E2 E3.
    assert (C : k / 4 = 0 \/ k / 4 = 1 \/ k / 4 = 2 \/ k / 4 = 3)
      by (Z.div_mod_to_equations; lia).
    destruct C as [C | [C | [C | C]]]; rewrite C; assumption. }
  assert (Hiv : forall k : nat, (k < 16)%nat ->
    byte_at (words iv1) (Z.of_nat k) = nth k K1 0 /\
    byte_at (words iv2) (Z.of_nat k) = nth k K2 0).
  { intros k Hk16. unfold iv1, iv2. cbn [words].
    rewrite !byte_at_words_of by lia.
    rewrite !B_ascii_bytes by (try (apply is_ascii_slice; assumption);
                               rewrite length_slice; lia).
    rewrite !nth_slice_0 by lia. split; reflexivity. }
  (* a byte of [D] where the keys agree is the byte of [W] *)
  assert (Hsame : forall k : nat, (k < 16)%nat -> (k < length P \/ k = 15)%nat ->
    byte_at D (Z.of_nat k) = byte_at W (Z.of_nat k)).
  { intros k Hk16 Hpos. rewrite Hw by lia. destruct (Hiv k Hk16) as (-> & ->).
    rewrite (Hagree k Hk16 Hpos).
    rewrite Z.lxor_assoc, Z.lxor_nilpotent, Z.lxor_0_r. reflexivity. }
  assert (Hrest : forall k, 16 <= k < 16 * Z.of_nat nb -> byte_at D k = byte_at W k).
  { intros k Hk'. apply byte_at_get; [lia|].
    assert (J : 1 <= k / 16 < Z.of_nat nb) by (Z.div_mod_to_equations; lia).
    pose proof (Dj (k / 16) J) as E. unfold get4 in E. injection E as E0 E1 E2 E3.
    assert (C : k / 4 = 4 * (k / 16) \/ k / 4 = 4 * (k / 16) + 1 \/
                k / 4 = 4 * (k / 16) + 2 \/ k / 4 = 4 * (k / 16) + 3)
      by (Z.div_mod_to_equations; lia).
    destruct C as [C | [C | [C | C]]]; rewrite C; assumption. }
  assert (Hall : forall k, 0 <= k < 16 * Z.of_nat nb ->
            (k < Z.of_nat (length P) \/ k = 16 * Z.of_nat nb - 1) ->
            byte_at D k = byte_at W k).
  { intros k Hk' Hin. destruct (Z.lt_ge_cases k 16) as [Hlt | Hge].
    - replace k with (Z.of_nat (Z.to_nat k)) by lia. apply Hsame; [lia|].
      destruct Hin as [Hin | Hin]; [left; lia|].
      right. unfold pad_len in *. Z.div_mod_to_equations. lia.
    - apply Hrest. lia. }
  unfold Pkcs7.unpad. cbn [words sigBytes].
  set (N := Z.of_nat nb) in *.
  set (p' := byte_at D (16 * N - 1)).
  set (q := 16 * N - band (get D (ushr (16 * N - 1) 2)) 255).
  assert (Hq : q = 16 * N - p').
  { unfold q, p'. f_equal. rewrite ushr_2 by lia.
    replace ((16 * N - 1) / 4) with (4 * N - 1) by (Z.div_mod_to_equations; lia).
    destruct (byte_at_word D (4 * N - 1)) as (_ & _ & _ & Hlast); try lia.
    replace (4 * (4 * N - 1) + 3) with (16 * N - 1) in Hlast by lia.
    rewrite Hlast. reflexivity. }
  clearbody q.
  assert (Hp : p' = pad_len (Z.of_nat (length P))).
  { unfold p'. rewrite Hall by lia.
    unfold W. rewrite byte_at_words_of by lia.
    unfold padded. rewrite B_app_r by lia. rewrite B_repeat by lia.
    apply unsigned_of_Z_byte. unfold is_byte. lia. }
  assert (Hqn : q = Z.of_nat (length P)) by lia.
  rewrite wordArrayToArrayBuffer_spec by lia.
  cbv beta iota delta [not_object]. f_equal.
  rewrite Hqn, Nat2Z.id.
  rewrite (bytes_of_ext D W).
  - unfold W. rewrite bytes_of_words_of.
    + unfold padded. rewrite firstn_app, Nat.sub_diag, firstn_O, app_nil_r.
      apply firstn_all.
    + unfold padded. rewrite length_app. lia.
    + lia.
  - intros i Hi. apply Hall; lia.
Qed.

(** ** The engine, object by object *)

(** *** Cells of the heap *)

Lemma length_store (h : Objects.heap) (r : Objects.ref) (c : Objects.cell) :
  length (Objects.store h r c) = length h.
Proof.
  revert r. induction h as [|x t IH]; intros [|r]; cbn [Objects.store length];
    try rewrite IH; reflexivity.
Qed.

Lemma cell_store_same (h : Objects.heap) (r : Objects.ref) (c : Objects.cell) :
  (r < length h)%nat -> nth_error (Objects.store h r c) r = Some c.
Proof.
  revert r. induction h as [|x t IH]; intros [|r] H; cbn [length] in H; try lia.
  - reflexivity.
  - cbn [Objects.store nth_error]. apply IH. lia.
Qed.

Lemma cell_store_other (h : Objects.heap) (r r' : Objects.ref) (c : Objects.cell) :
  r' <> r -> nth_error (Objects.store h r c) r' = nth_error h r'.
Proof.
  revert r r'. induction h as [|x t IH]; intros [|r] [|r'] H;
    cbn [Objects.store nth_error]; try reflexivity; try congruence.
  apply IH. congruence.
Qed.

Lemma store_store (h : Objects.heap) (r : Objects.ref) (c c' : Objects.cell) :
  Objects.store (Objects.store h r c) r c' = Objects.store h r c'.
Proof.
  revert r. induction h as [|x t IH]; intros [|r]; cbn [Objects.store];
    try rewrite IH; reflexivity.
Qed.

Lemma store_same (h : Objects.heap) (r : Objects.ref) (c : Objects.cell) :
  nth_error h r = Some c -> Objects.store h r c = h.
Proof.
  revert r. induction h as [|x t IH]; intros [|r] H; cbn [Objects.store nth_error] in *;
    try discriminate.
  - injection H as ->. reflexivity.
  - rewrite IH by exact H. reflexivity.
Qed.

Lemma store_new (h l : Objects.heap) (k : nat) (c : Objects.cell) :
  Objects.store (h ++ l) (length h + k)%nat c = h ++ Objects.store l k c.
Proof.
  induction h as [|x t IH]; cbn [app length Nat.add Objects.store]; [reflexivity|].
  rewrite IH. reflexivity.
Qed.

Lemma cell_new (h l : Objects.heap) (k : nat) :
  nth_error (h ++ l) (length h + k)%nat = nth_error l k.
Proof.
  rewrite nth_error_app2 by lia. f_equal. lia.
Qed.

Lemma cell_old (h l : Objects.heap) (r : Objects.ref) :
  (r < length h)%nat -> nth_error (h ++ l) r = nth_error h r.
Proof. intros H. apply nth_error_app1, H. Qed.

Lemma store_words (h l : Objects.heap) (a c : Objects.cell) :
  Objects.store (h ++ a :: l) (length h) c = h ++ c :: l.
Proof. rewrite <- (Nat.add_0_r (length h)) at 1. apply store_new. Qed.

Lemma store_object (h l : Objects.heap) (a b c : Objects.cell) :
  Objects.store (h ++ a :: b :: l) (S (length h)) c = h ++ a :: c :: l.
Proof. rewrite <- (Nat.add_1_r (length h)) at 1. apply store_new. Qed.

(** A loop that writes one cell, and reads the others as they were. *)
Lemma for_loop_store {X : Type} (mk : X -> Objects.cell) (n : nat) (t : Objects.ref)
  (h : Objects.heap) (body : Z -> Objects.heap -> Objects.heap) (vbody : Z -> X -> X) (x0 : X) :
  (forall i x, body i (Objects.store h t (mk x)) = Objects.store h t (mk (vbody i x))) ->
  nth_error h t = Some (mk x0) ->
  for_loop n body h = Objects.store h t (mk (for_loop n vbody x0)).
Proof.
  intros Hb H0. induction n as [|n IH].
  - rewrite !for_loop_0. symmetry. apply store_same, H0.
  - rewrite !for_loop_S, IH. apply Hb.
Qed.

(** *** Objects that live in a heap keep what they hold when it grows *)

Lemma lives_app (h l : Objects.heap) (r : Objects.ref) : lives h r -> lives (h ++ l) r.
Proof.
  intros [H1 H2]. unfold lives, Objects.get_words. rewrite cell_old by exact H1.
  rewrite length_app. unfold Objects.get_words in H2. lia.
Qed.

Lemma value_app (h l : Objects.heap) (r : Objects.ref) :
  lives h r -> Objects.value (h ++ l) r = Objects.value h r.
Proof.
  intros [H1 H2]. unfold Objects.value, Objects.words_at, Objects.get_words, Objects.get_sigBytes.
  rewrite !(cell_old h l r H1). unfold Objects.get_words in H2.
  rewrite cell_old by exact H2. reflexivity.
Qed.

Lemma bytes_at_app (h l : Objects.heap) (r : Objects.ref) :
  (r < length h)%nat -> Objects.bytes_at (h ++ l) r = Objects.bytes_at h r.
Proof. intros H. unfold Objects.bytes_at. rewrite cell_old by exact H. reflexivity. Qed.

Lemma length_with_WordArray (h : Objects.heap) (w : WordArray) :
  length (with_WordArray h w) = S (S (length h)).
Proof. unfold with_WordArray. rewrite length_app. cbn [length]. lia. Qed.

Lemma cell_words (h l : Objects.heap) (c : Objects.cell) :
  nth_error (h ++ c :: l) (length h) = Some c.
Proof. rewrite <- (Nat.add_0_r (length h)), cell_new. reflexivity. Qed.

Lemma cell_object (h l : Objects.heap) (a c : Objects.cell) :
  nth_error (h ++ a :: c :: l) (S (length h)) = Some c.
Proof. rewrite <- (Nat.add_1_r (length h)), cell_new. reflexivity. Qed.

Lemma lives_new (h : Objects.heap) (w : WordArray) : lives (with_WordArray h w) (S (length h)).
Proof.
  unfold lives. rewrite length_with_WordArray. unfold Objects.get_words, with_WordArray.
  rewrite cell_object. lia.
Qed.

Lemma value_new (h : Objects.heap) (w : WordArray) :
  Objects.value (with_WordArray h w) (S (length h)) = w.
Proof.
  unfold Objects.value, Objects.words_at, Objects.get_words, Objects.get_sigBytes, with_WordArray.
  rewrite cell_object, cell_words. destruct w. reflexivity.
Qed.

(** *** The methods of [WordArray] *)

Lemma new_WordArray (h : Objects.heap) (w : WordArray) :
  Objects.bind (Objects.alloc (Objects.Words (words w)))
    (fun ws => Objects.WordArray_init ws (sigBytes w)) h
  = (Ok (S (length h)), with_WordArray h w).
Proof.
  unfold Objects.bind, Objects.WordArray_init, Objects.alloc, with_WordArray.
  rewrite length_app, <- app_assoc. cbn [length app]. rewrite Nat.add_1_r. reflexivity.
Qed.

Lemma WordArray_create_u8_object (bs : list byte) (h : Objects.heap) :
  Objects.WordArray_create_u8 bs h = (Ok (S (length h)), with_WordArray h (WordArray_create_u8 bs)).
Proof. apply (new_WordArray h (WordArray_create_u8 bs)). Qed.

Lemma Utf8_parse_object (s : jsstring) (h : Objects.heap) :
  Objects.Utf8_parse s h
  = match Utf8_parse s with
    | Ok w => (Ok (S (length h)), with_WordArray h w)
    | Throw m => (Throw m, h)
    end.
Proof.
  unfold Objects.Utf8_parse. destruct (Utf8_parse s) as [w|m]; [|reflexivity].
  apply new_WordArray.
Qed.

Lemma AES_encrypt_object (message key iv : Objects.ref) (h : Objects.heap) :
  Objects.AES_encrypt message key iv h
  = (Ok (S (length h)),
     with_WordArray h
       (Cipher.AES_encrypt (Objects.value h message) (Objects.value h key) (Objects.value h iv))).
Proof.
  unfold Objects.AES_encrypt. unfold Objects.bind at 1. unfold Objects.read.
  apply new_WordArray.
Qed.

Lemma AES_decrypt_object (ciphertext key iv : Objects.ref) (h : Objects.heap) :
  Objects.AES_decrypt ciphertext key iv h
  = (Ok (S (length h)),
     with_WordArray h
       (Cipher.AES_decrypt (Objects.value h ciphertext) (Objects.value h key)
          (Objects.value h iv))).
Proof.
  unfold Objects.AES_decrypt. unfold Objects.bind at 1. unfold Objects.read.
  apply new_WordArray.
Qed.

Lemma clone_object (this : Objects.ref) (h : Objects.heap) :
  Objects.clone this h
  = (Ok (S (length h)), with_WordArray h (WordArray_clone (Objects.value h this))).
Proof.
  unfold Objects.clone. unfold Objects.bind at 1 2. unfold Objects.read.
  apply (new_WordArray h (WordArray_clone (Objects.value h this))).
Qed.

(** [concat] on a receiver that has its array to itself. *)
Lemma concat_object (h : Objects.heap) (w : WordArray) (that : Objects.ref) :
  lives h that ->
  Objects.concat (S (length h)) that (with_WordArray h w)
  = (Ok (S (length h)), with_WordArray h (WordArray_concat w (Objects.value h that))).
Proof.
  intros Hthat. pose proof Hthat as [T1 T2].
  unfold Objects.concat, Objects.clamp, Objects.write, Objects.for_each, Objects.ret.
  unfold Objects.bind, Objects.read.
  rewrite value_new.
  assert (Gw : Objects.get_words (with_WordArray h w) (S (length h)) = length h).
  { unfold Objects.get_words, with_WordArray. rewrite cell_object. reflexivity. }
  assert (Gs : Objects.get_sigBytes (with_WordArray h w) (S (length h)) = sigBytes w).
  { unfold Objects.get_sigBytes, with_WordArray. rewrite cell_object. reflexivity. }
  assert (Tw : Objects.get_words (with_WordArray h w) that = Objects.get_words h that).
  { unfold Objects.get_words, with_WordArray. rewrite cell_old by exact T1. reflexivity. }
  assert (Ts : Objects.get_sigBytes (with_WordArray h w) that = sigBytes (Objects.value h that)).
  { unfold Objects.get_sigBytes, with_WordArray. rewrite cell_old by exact T1. reflexivity. }
  rewrite Gw, Gs, Tw, Ts.
  set (tw := Objects.get_words h that) in *.
  set (thatWords := words (Objects.value h that)).
  set (tsb := sigBytes (Objects.value h that)).
  (* the heap once the receiver is clamped *)
  set (cw := words (WordArray_clamp w)).
  assert (Hc : Objects.store (with_WordArray h w) (length h) (Objects.Words cw)
               = h ++ [Objects.Words cw; Objects.WordArrayObject (length h) (sigBytes w)]).
  { unfold with_WordArray. apply store_words. }
  rewrite Hc.
  set (h1 := h ++ [Objects.Words cw; Objects.WordArrayObject (length h) (sigBytes w)]).
  assert (Hcell : nth_error h1 (length h) = Some (Objects.Words cw)) by apply cell_words.
  assert (Hlen : (length h < length h1)%nat).
  { unfold h1. rewrite length_app. cbn [length]. lia. }
  assert (Rthis : forall x,
    Objects.words_at (Objects.store h1 (length h) (Objects.Words x)) (length h) = x).
  { intros x. unfold Objects.words_at. rewrite cell_store_same by exact Hlen. reflexivity. }
  assert (Rthat : forall x, Objects.words_at (Objects.store h1 (length h) (Objects.Words x)) tw
                            = thatWords).
  { intros x. unfold Objects.words_at. rewrite cell_store_other by lia.
    unfold h1. rewrite cell_old by exact T2. reflexivity. }
  assert (Hfin : forall ws',
    Objects.store (Objects.store h1 (length h) (Objects.Words ws')) (S (length h))
      (Objects.WordArrayObject
         (Objects.get_words (Objects.store h1 (length h) (Objects.Words ws')) (S (length h)))
         (Objects.get_sigBytes (Objects.store h1 (length h) (Objects.Words ws')) (S (length h))
          + tsb))
    = with_WordArray h (mkWordArray ws' (sigBytes w + tsb))).
  { intros ws'. unfold Objects.get_words, Objects.get_sigBytes.
    rewrite !cell_store_other by lia. unfold h1. rewrite cell_object.
    rewrite store_words, store_object. reflexivity. }
  unfold WordArray_concat. fold cw. fold thatWords. fold tsb.
  destruct (negb (sigBytes w mod 4 =? 0)).
  - rewrite (for_loop_store Objects.Words _ (length h) h1 _
               (fun i ws =>
                  let thatByte := band (ushr (get thatWords (ushr i 2)) (24 - (i mod 4) * 8)) 255 in
                  set ws (ushr (sigBytes w + i) 2)
                    (bor (get ws (ushr (sigBytes w + i) 2))
                         (shl thatByte (24 - ((sigBytes w + i) mod 4) * 8)))) cw).
    + rewrite Hfin. reflexivity.
    + intros i x. cbv zeta. rewrite Rthis, Rthat, store_store. reflexivity.
    + exact Hcell.
  - rewrite (for_loop_store Objects.Words _ (length h) h1 _
               (fun k ws =>
                  let j := 4 * k in
                  set ws (ushr (sigBytes w + j) 2) (get thatWords (ushr j 2))) cw).
    + rewrite Hfin. reflexivity.
    + intros i x. cbv zeta. rewrite Rthis, Rthat, store_store. reflexivity.
    + exact Hcell.
Qed.

Lemma lives_old (h : Objects.heap) (w : WordArray) (r : Objects.ref) :
  lives h r -> lives (with_WordArray h w) r.
Proof. apply lives_app. Qed.

Lemma value_old (h : Objects.heap) (w : WordArray) (r : Objects.ref) :
  lives h r -> Objects.value (with_WordArray h w) r = Objects.value h r.
Proof. apply value_app. Qed.

(** *** Sequencing *)

Lemma bind_ok {A B : Type} (m : Objects.M A) (k : A -> Objects.M B) (h h' : Objects.heap) (a : A) :
  m h = (Ok a, h') -> Objects.bind m k h = k a h'.
Proof. intros E. unfold Objects.bind. rewrite E. reflexivity. Qed.

Lemma bind_throw {A B : Type} (m : Objects.M A) (k : A -> Objects.M B) (h h' : Objects.heap)
  (e : message) :
  m h = (Throw e, h') -> Objects.bind m k h = (Throw e, h').
Proof. intros E. unfold Objects.bind. rewrite E. reflexivity. Qed.

Lemma bind_alloc {B : Type} (c : Objects.cell) (k : Objects.ref -> Objects.M B)
  (h : Objects.heap) :
  Objects.bind (Objects.alloc c) k h = k (length h) (h ++ [c]).
Proof. reflexivity. Qed.

Lemma bind_read {A B : Type} (f : Objects.heap -> A) (k : A -> Objects.M B) (h : Objects.heap) :
  Objects.bind (Objects.read f) k h = k (f h) h.
Proof. reflexivity. Qed.

(** *** Buffers *)

Lemma ArrayBuffer_slice_object (buffer : Objects.ref) (h : Objects.heap) :
  Objects.ArrayBuffer_slice buffer h
  = (Ok (length h), h ++ [Objects.ArrayBuffer (Objects.bytes_at h buffer)]).
Proof.
  unfold Objects.ArrayBuffer_slice. rewrite bind_read, slice_all. reflexivity.
Qed.

Lemma bytes_at_new (h : Objects.heap) (bs : list byte) :
  Objects.bytes_at (h ++ [Objects.ArrayBuffer bs]) (length h) = bs.
Proof. unfold Objects.bytes_at. rewrite cell_words. reflexivity. Qed.

Lemma wordArrayToArrayBuffer_object (wordArray : Objects.ref) (h : Objects.heap) :
  lives h wordArray ->
  Objects.wordArrayToArrayBuffer wordArray h
  = match Encrypt.wordArrayToArrayBuffer (Objects.value h wordArray) with
    | Ok bs => (Ok (length h), h ++ [Objects.ArrayBuffer bs])
    | Throw m => (Throw m, h)
    end.
Proof.
  intros [L1 L2]. unfold Objects.wordArrayToArrayBuffer, Encrypt.wordArrayToArrayBuffer.
  rewrite !bind_read. unfold Objects.value. cbn [words sigBytes].
  set (ws := Objects.get_words h wordArray) in *.
  set (sb := Objects.get_sigBytes h wordArray).
  unfold Objects.ArrayBuffer_new. destruct (sb <? 0); [reflexivity|].
  unfold Objects.bind, Objects.alloc, Objects.for_each, Objects.ret.
  set (h1 := h ++ [Objects.ArrayBuffer (repeat Byte.x00 (Z.to_nat sb))]).
  assert (Hlen : (length h < length h1)%nat).
  { unfold h1. rewrite length_app. cbn [length]. lia. }
  rewrite (for_loop_store Objects.ArrayBuffer _ (length h) h1 _
             (fun i view =>
                view_set view (Z.to_nat i)
                  (byte.of_Z (band (ushr (get (Objects.words_at h ws) (ushr i 2))
                                         (24 - (i mod 4) * 8)) 255)))
             (repeat Byte.x00 (Z.to_nat sb))).
  - unfold h1. rewrite store_words. reflexivity.
  - intros i x. rewrite store_store. do 3 f_equal.
    + unfold Objects.bytes_at. rewrite cell_store_same by exact Hlen. reflexivity.
    + unfold Objects.words_at. rewrite cell_store_other by lia.
      unfold h1. rewrite cell_old by exact L2. reflexivity.
  - apply cell_words.
Qed.

(** *** The two methods *)

Ltac alive :=
  repeat first [ assumption | apply lives_new | apply lives_old | apply lives_app ].

Lemma extends_refl (h : Objects.heap) : extends h h.
Proof. exists []. symmetry. apply app_nil_r. Qed.

Lemma extends_app_r (h g l : Objects.heap) : extends h g -> extends h (g ++ l).
Proof. intros [n ->]. exists (n ++ l). symmetry. apply app_assoc. Qed.

Lemma extends_with_r (h g : Objects.heap) (w : WordArray) :
  extends h g -> extends h (with_WordArray g w).
Proof. apply extends_app_r. Qed.

Lemma extends_trans (h g k : Objects.heap) : extends h g -> extends g k -> extends h k.
Proof. intros E [n ->]. apply extends_app_r, E. Qed.

Lemma extends_length (h g : Objects.heap) : extends h g -> (length h <= length g)%nat.
Proof. intros [n ->]. rewrite length_app. lia. Qed.

Lemma extends_lives (h g : Objects.heap) (r : Objects.ref) :
  extends h g -> lives h r -> lives g r.
Proof. intros [n ->]. apply lives_app. Qed.

Lemma extends_value (h g : Objects.heap) (r : Objects.ref) :
  extends h g -> lives h r -> Objects.value g r = Objects.value h r.
Proof. intros [n ->]. apply value_app. Qed.

Lemma extends_bytes_at (h g : Objects.heap) (r : Objects.ref) :
  extends h g -> (r < length h)%nat -> Objects.bytes_at g r = Objects.bytes_at h r.
Proof. intros [n ->]. apply bytes_at_app. Qed.

Ltac grows :=
  repeat first [ apply extends_app_r | apply extends_with_r ]; apply extends_refl.

(** [encryptText] on the heap returns what [Encrypt.encryptText] returns
    on what the buffer and [MAGIC_WORDS] hold, in a new buffer, and leaves
    every object it found as it was. *)
Lemma encryptText_object (magic buffer : Objects.ref) (K : jsstring) (h : Objects.heap) :
  lives h magic ->
  exists r h',
    Objects.encryptText magic buffer K h = (r, h') /\
    extends h h' /\
    outcome h' r
    = fst (Encrypt.encryptText (Objects.bytes_at h buffer) K
             (Encrypt.mkGlobals (Objects.value h magic))) /\
    (forall f, r = Ok f -> (length h <= f < length h')%nat).
Proof.
  intros Hm.
  unfold Objects.encryptText, Objects.try_catch, Encrypt.encryptText.
  cbn [Encrypt.MAGIC_WORDS fst].
  rewrite (bind_ok _ _ _ _ _ (ArrayBuffer_slice_object buffer h)).
  rewrite bind_read, bytes_at_new.
  set (bs := Objects.bytes_at h buffer).
  set (h1 := h ++ [Objects.ArrayBuffer bs]).
  rewrite (bind_ok _ _ _ _ _ (WordArray_create_u8_object bs h1)).
  rewrite slice_all.
  set (msg := WordArray_create_u8 bs).
  set (h2 := with_WordArray h1 msg).
  rewrite (bind_ok _ _ _ _ _ (WordArray_create_u8_object _ h2)).
  fold (Encrypt.key_words K).
  set (kw := Encrypt.key_words K).
  set (h3 := with_WordArray h2 kw).
  assert (G3 : extends h h3) by (unfold h3, h2, h1; grows).
  unfold Encrypt.iv_words.
  pose proof (Utf8_parse_object (TextDecoder_decode (TextEncoder_encode (slice K 0 16))) h3) as Eiv.
  destruct (Utf8_parse (TextDecoder_decode (TextEncoder_encode (slice K 0 16)))) as [ivw|m].
  2:{ rewrite (bind_throw _ _ _ _ _ Eiv).
      exists (Throw (EncryptFailed m)), h3.
      split; [reflexivity|]. split; [exact G3|]. split; [reflexivity|discriminate]. }
  rewrite (bind_ok _ _ _ _ _ Eiv). clear Eiv.
  set (h4 := with_WordArray h3 ivw).
  rewrite (bind_ok _ _ _ _ _ (AES_encrypt_object _ _ _ h4)).
  assert (Vm : Objects.value h4 (S (length h1)) = msg).
  { unfold h4, h3. rewrite !value_old by alive. apply value_new. }
  assert (Vk : Objects.value h4 (S (length h2)) = kw).
  { unfold h4. rewrite !value_old by alive. apply value_new. }
  assert (Vi : Objects.value h4 (S (length h3)) = ivw) by apply value_new.
  rewrite Vm, Vk, Vi.
  set (ct := Cipher.AES_encrypt msg kw ivw).
  set (h5 := with_WordArray h4 ct).
  assert (G5 : extends h h5) by (unfold h5, h4; apply extends_with_r, extends_with_r, G3).
  rewrite (bind_ok _ _ _ _ _ (clone_object magic h5)).
  rewrite (extends_value h h5 magic G5 Hm).
  set (g := Objects.value h magic).
  rewrite (bind_ok _ _ _ _ _ (concat_object h5 (WordArray_clone g) (S (length h4))
                                ltac:(apply lives_new))).
  assert (Vc : Objects.value h5 (S (length h4)) = ct) by apply value_new.
  rewrite Vc.
  set (w := WordArray_concat (WordArray_clone g) ct).
  rewrite wordArrayToArrayBuffer_object by apply lives_new. rewrite value_new.
  set (h6 := with_WordArray h5 w).
  assert (G6 : extends h h6) by (apply extends_with_r, G5).
  destruct (Encrypt.wordArrayToArrayBuffer w) as [frame|m].
  - exists (Ok (length h6)), (h6 ++ [Objects.ArrayBuffer frame]).
    split; [reflexivity|]. split; [apply extends_app_r, G6|]. split.
    + cbn [outcome]. rewrite bytes_at_new. reflexivity.
    + intros f E. injection E as <-. apply extends_length in G6.
      rewrite length_app. cbn [length]. lia.
  - exists (Throw (EncryptFailed m)), h6.
    split; [reflexivity|]. split; [exact G6|]. split; [reflexivity|discriminate].
Qed.

Lemma WordArray_init_object (h : Objects.heap) (ws : list Z) (sb : Z) :
  Objects.WordArray_init (length h) sb (h ++ [Objects.Words ws])
  = (Ok (S (length h)), with_WordArray h (mkWordArray ws sb)).
Proof.
  unfold Objects.WordArray_init, Objects.alloc, with_WordArray.
  rewrite length_app, <- app_assoc. cbn [length app words sigBytes].
  rewrite Nat.add_1_r. reflexivity.
Qed.

(** [decryptText] on the heap, likewise. *)
Lemma decryptText_object (magic buffer : Objects.ref) (K : jsstring) (h : Objects.heap) :
  lives h magic ->
  exists r h',
    Objects.decryptText magic buffer K h = (r, h') /\
    extends h h' /\
    outcome h' r
    = fst (Encrypt.decryptText (Objects.bytes_at h buffer) K
             (Encrypt.mkGlobals (Objects.value h magic))) /\
    (forall f, r = Ok f -> (length h <= f < length h')%nat).
Proof.
  intros Hm.
  unfold Objects.decryptText, Objects.try_catch, Encrypt.decryptText.
  cbn [Encrypt.MAGIC_WORDS fst].
  rewrite (bind_ok _ _ _ _ _ (ArrayBuffer_slice_object buffer h)).
  rewrite bind_read, bytes_at_new.
  set (bs := Objects.bytes_at h buffer).
  set (h1 := h ++ [Objects.ArrayBuffer bs]).
  rewrite (bind_ok _ _ _ _ _ (WordArray_create_u8_object bs h1)).
  rewrite slice_all.
  set (c0 := WordArray_create_u8 bs).
  set (h2 := with_WordArray h1 c0).
  assert (G2 : extends h h2) by (unfold h2, h1; grows).
  rewrite bind_read.
  change (Objects.get_sigBytes h2 (S (length h1)))
    with (sigBytes (Objects.value h2 (S (length h1)))).
  assert (V0 : Objects.value h2 (S (length h1)) = c0) by apply value_new.
  rewrite V0.
  destruct (sigBytes c0 <? 4).
  { exists (Throw NotValidCiphertext), h2.
    split; [reflexivity|]. split; [exact G2|]. split; [reflexivity|discriminate]. }
  rewrite !bind_read.
  change (Objects.words_at h2 (Objects.get_words h2 (S (length h1))))
    with (words (Objects.value h2 (S (length h1)))).
  change (Objects.words_at h2 (Objects.get_words h2 magic))
    with (words (Objects.value h2 magic)).
  rewrite V0, (extends_value h h2 magic G2 Hm).
  set (g := Objects.value h magic).
  destruct (negb (ushr (get (words c0) 0) 0 =? ushr (get (words g) 0) 0)).
  { exists (Throw NotValidCiphertext), h2.
    split; [reflexivity|]. split; [exact G2|]. split; [reflexivity|discriminate]. }
  rewrite bind_read.
  change (Objects.words_at h2 (Objects.get_words h2 (S (length h1))))
    with (words (Objects.value h2 (S (length h1)))).
  rewrite V0.
  rewrite bind_alloc.
  rewrite bind_read.
  change (Objects.get_sigBytes (h2 ++ [Objects.Words (skipn 1 (words c0))]) magic)
    with (sigBytes (Objects.value (h2 ++ [Objects.Words (skipn 1 (words c0))]) magic)).
  rewrite (extends_value h _ magic (extends_app_r _ _ _ G2) Hm). fold g.
  rewrite (bind_ok _ _ _ _ _ (WordArray_init_object h2 _ _)).
  set (ct := mkWordArray (skipn 1 (words c0)) (sigBytes c0 - sigBytes g)).
  change (WordArray_init (skipn 1 (words c0)) (sigBytes c0 - sigBytes g)) with ct.
  set (h3 := with_WordArray h2 ct).
  rewrite (bind_ok _ _ _ _ _ (WordArray_create_u8_object _ h3)).
  fold (Encrypt.key_words K).
  set (kw := Encrypt.key_words K).
  set (h4 := with_WordArray h3 kw).
  assert (G4 : extends h h4) by (unfold h4, h3; apply extends_with_r, extends_with_r, G2).
  unfold Encrypt.iv_words.
  pose proof (Utf8_parse_object (TextDecoder_decode (TextEncoder_encode (slice K 0 16))) h4) as Eiv.
  destruct (Utf8_parse (TextDecoder_decode (TextEncoder_encode (slice K 0 16)))) as [ivw|m].
  2:{ rewrite (bind_throw _ _ _ _ _ Eiv).
      exists (Throw m), h4.
      split; [reflexivity|]. split; [exact G4|]. split; [reflexivity|discriminate]. }
  rewrite (bind_ok _ _ _ _ _ Eiv). clear Eiv.
  set (h5 := with_WordArray h4 ivw).
  rewrite (bind_ok _ _ _ _ _ (AES_decrypt_object _ _ _ h5)).
  assert (Vc : Objects.value h5 (S (length h2)) = ct).
  { unfold h5, h4. rewrite !value_old by alive. apply value_new. }
  assert (Vk : Objects.value h5 (S (length h3)) = kw).
  { unfold h5. rewrite !value_old by alive. apply value_new. }
  assert (Vi : Objects.value h5 (S (length h4)) = ivw) by apply value_new.
  rewrite Vc, Vk, Vi.
  set (pt := Cipher.AES_decrypt ct kw ivw).
  set (h6 := with_WordArray h5 pt).
  assert (G6 : extends h h6) by (unfold h6, h5; apply extends_with_r, extends_with_r, G4).
  pose proof (wordArrayToArrayBuffer_object (S (length h5)) h6 (lives_new h5 pt)) as Eb.
  assert (Vp : Objects.value h6 (S (length h5)) = pt) by apply value_new.
  rewrite Vp in Eb.
  destruct (Encrypt.wordArrayToArrayBuffer pt) as [out|m].
  - rewrite (bind_ok _ _ _ _ _ Eb). cbv beta iota delta [not_object].
    exists (Ok (length h6)), (h6 ++ [Objects.ArrayBuffer out]).
    split; [reflexivity|]. split; [apply extends_app_r, G6|]. split.
    + cbn [outcome]. rewrite bytes_at_new. reflexivity.
    + intros f E. injection E as <-. apply extends_length in G6.
      rewrite length_app. cbn [length]. lia.
  - rewrite (bind_throw _ _ _ _ _ Eb).
    exists (Throw m), h6.
    split; [reflexivity|]. split; [exact G6|]. split; [reflexivity|discriminate].
Qed.


(** *** Calls, one after another *)

Lemma loaded_lives (magic : Objects.ref) (h : Objects.heap) : loaded magic h -> lives h magic.
Proof.
  intros (a & sb & ws & H1 & H2). unfold lives, Objects.get_words. rewrite H1. split.
  - apply nth_error_Some. rewrite H1. discriminate.
  - apply nth_error_Some. rewrite H2. discriminate.
Qed.

Lemma perform_object (magic : Objects.ref) (c : Objects.call) (h : Objects.heap) :
  lives h magic ->
  exists r h',
    Objects.perform magic c h = (r, h') /\
    extends h h' /\
    outcome h' r = returned c (Objects.bytes_at h (Objects.buffer_of c)) (Objects.value h magic) /\
    (forall f, r = Ok f -> (length h <= f < length h')%nat).
Proof.
  intros Hm. destruct c as [b K | b K]; cbn [Objects.perform returned Objects.buffer_of].
  - apply encryptText_object, Hm.
  - apply decryptText_object, Hm.
Qed.

Lemma run_extends (magic : Objects.ref) (cs : list Objects.call) (h : Objects.heap) :
  lives h magic -> extends h (Objects.run magic cs h).
Proof.
  revert h. induction cs as [|c cs IH]; intros h Hm; [apply extends_refl|].
  unfold Objects.run. cbn [fold_left]. fold (Objects.run magic cs).
  destruct (perform_object magic c h Hm) as (r & h' & E & G & _). rewrite E. cbn [snd].
  apply (extends_trans h h'); [exact G|]. apply IH. apply (extends_lives h h'); assumption.
Qed.

Lemma outcome_extends (h g : Objects.heap) (r : result Objects.ref) :
  extends h g -> (forall f, r = Ok f -> (f < length h)%nat) -> outcome g r = outcome h r.
Proof.
  intros G F. destruct r as [f|m]; [|reflexivity]. cbn [outcome]. f_equal.
  apply extends_bytes_at; [exact G|]. apply F. reflexivity.
Qed.

(** Two calls that [Encrypt] answers alike, with any calls between them. *)
Lemma calls_agree (magic : Objects.ref) (h : Objects.heap) (c c' : Objects.call)
  (between : list Objects.call) :
  lives h magic ->
  (Objects.buffer_of c < length h)%nat -> (Objects.buffer_of c' < length h)%nat ->
  (forall g, returned c' (Objects.bytes_at h (Objects.buffer_of c')) g
             = returned c (Objects.bytes_at h (Objects.buffer_of c)) g) ->
  let '(r1, h1) := Objects.perform magic c h in
  let '(r2, h2) := Objects.perform magic c' (Objects.run magic between h1) in
  outcome h1 r1 = returned c (Objects.bytes_at h (Objects.buffer_of c)) (Objects.value h magic) /\
  outcome h2 r2 = outcome h1 r1 /\
  outcome h2 r1 = outcome h1 r1 /\
  exists news, h2 = h ++ news.
Proof.
  intros Hm Hb Hb' Hsame.
  destruct (perform_object magic c h Hm) as (r1 & h1 & E1 & G1 & O1 & F1). rewrite E1.
  pose proof (extends_lives _ _ _ G1 Hm) as Hm1.
  pose proof (run_extends magic between h1 Hm1) as G2.
  set (hb := Objects.run magic between h1) in *.
  pose proof (extends_lives _ _ _ G2 Hm1) as Hm2.
  destruct (perform_object magic c' hb Hm2) as (r2 & h2 & E2 & G3 & O2 & F2). rewrite E2.
  pose proof (extends_trans _ _ _ G1 G2) as G02.
  split; [exact O1|]. split; [|split].
  - rewrite O1, O2, <- Hsame. f_equal.
    + apply extends_bytes_at; assumption.
    + apply extends_value; assumption.
  - apply outcome_extends; [exact (extends_trans _ _ _ G2 G3)|].
    intros f Ef. apply F1 in Ef. lia.
  - exact (extends_trans _ _ _ G02 G3).
Qed.

(** The heap the module starts from, and the frame of the sample on it:
    the bytes are those of [Encrypt.encryptText]. *)
Example objects_sample :
  Objects.load [] = (Ok 1%nat, [Objects.Words [160731]; Objects.WordArrayObject 0%nat 4]) /\
  outcome (snd (Objects.perform 1%nat (Objects.Encrypting 2%nat sample_key) sample_heap))
    (fst (Objects.perform 1%nat (Objects.Encrypting 2%nat sample_key) sample_heap))
  = Ok hello_world_frame.
Proof. split; vm_compute; reflexivity. Qed.

(** [concat] writes to its receiver: called on [MAGIC_WORDS] itself, it
    leaves the marker with 15 bytes more. *)
Example concat_writes_its_receiver :
  let h := snd (Objects.WordArray_create_u8 hello_world (snd (Objects.load []))) in
  Objects.value h 1%nat = WordArray_init [160731] 4 /\
  sigBytes (Objects.value (snd (Objects.concat 1%nat 3%nat h)) 1%nat) = 15.
Proof. split; vm_compute; reflexivity. Qed.

(** ** Helpers for the claims *)

Lemma is_ascii_b_spec (s : jsstring) : is_ascii_b s = true -> is_ascii s.
Proof.
  unfold is_ascii_b, is_ascii. rewrite forallb_forall, Forall_forall.
  intros H c Hc. specialize (H c Hc). apply andb_true_iff in H.
  destruct H as [H1 H2]. apply Z.leb_le in H1. apply Z.ltb_lt in H2. lia.
Qed.

Lemma is_marker_spec (bs : list byte) : is_marker bs = true <-> bs = marker.
Proof.
  split.
  - destruct bs as [|a [|b [|c [|d [|e r]]]]]; try discriminate. cbn [is_marker].
    rewrite !andb_true_iff, !Z.eqb_eq. intros (((Ha & Hb) & Hc) & Hd).
    unfold marker. f_equal; [|f_equal; [|f_equal; [|f_equal]]];
      apply byte.unsigned_inj; assumption.
  - intros ->. reflexivity.
Qed.

Lemma decryptText_spec_unwrap (buf : list byte) (K : jsstring) :
  Z.of_nat (length buf) <= 2 ^ 32 ->
  Encrypt.decryptText buf K Encrypt.initial
  = (match spec_unwrap buf with
     | Ok ciphertext => after_unwrap (WordArray_create_u8 ciphertext) K
     | Throw m => Throw m
     end, Encrypt.initial).
Proof.
  intros Hb. unfold spec_unwrap.
  destruct (Nat.ltb_spec (length buf) 4) as [Hs | Hl].
  - apply decryptText_short, Hs.
  - destruct (is_marker (firstn 4 buf)) eqn:E.
    + apply is_marker_spec in E. apply decryptText_unwrap; assumption.
    + apply decryptText_bad_marker; try assumption.
      intros F. apply is_marker_spec in F. congruence.
Qed.

Lemma after_unwrap_empty (K : jsstring) : after_unwrap (WordArray_create_u8 []) K = Ok [].
Proof.
  unfold after_unwrap. destruct (iv_words_total K) as [iv ->].
  reflexivity.
Qed.

(** * The claims *)

(** C1 (round trip).  For every plaintext buffer [P], empty or not, and every
    ASCII key string [K] of at least 48 characters, [encryptText P K] returns
    a frame and [decryptText] of that frame under [K] returns exactly [P].
    The buffer is below 2^32 - 20 bytes, the range in which the 32-bit index
    arithmetic ([i >>> 2]) of the word arrays is exact. *)
Theorem round_trip (P : list byte) (K : jsstring) :
  is_ascii K -> (48 <= length K)%nat -> Z.of_nat (length P) + 20 <= 2 ^ 32 ->
  exists frame,
    Encrypt.encryptText P K Encrypt.initial = (Ok frame, Encrypt.initial) /\
    Encrypt.decryptText frame K Encrypt.initial = (Ok P, Encrypt.initial).
Proof.
  intros HK HL Hb.
  pose proof (iv_words_ascii K HK ltac:(lia)) as Hiv.
  eexists. split.
  - apply encryptText_frame; eassumption.
  - apply decryptText_frame; [exact Hb|exact Hiv|].
    rewrite key_words_ascii by assumption. reflexivity.
Qed.

Lemma round_trip_witness :
  is_ascii sample_key /\ (48 <= length sample_key)%nat /\
  Z.of_nat (length hello_world) + 20 <= 2 ^ 32 /\
  exists frame,
    Encrypt.encryptText hello_world sample_key Encrypt.initial = (Ok frame, Encrypt.initial) /\
    Encrypt.decryptText frame sample_key Encrypt.initial = (Ok hello_world, Encrypt.initial).
Proof.
  assert (H1 : is_ascii sample_key) by (apply is_ascii_b_spec; vm_compute; reflexivity).
  assert (H2 : (48 <= length sample_key)%nat) by (vm_compute; lia).
  assert (H3 : Z.of_nat (length hello_world) + 20 <= 2 ^ 32) by (vm_compute; discriminate).
  exact (conj H1 (conj H2 (conj H3 (round_trip hello_world sample_key H1 H2 H3)))).
Defined.

(** C2, as the code has it.  No length check on the derived iv or key
    exists: for every buffer and every key string, whatever the byte lengths
    of the derived iv and key, [encryptText] completes and returns a frame of
    4 + 16 * (len / 16 + 1) bytes, and [decryptText] raises nothing but the
    invalid-frame error of its two checks and the RangeError of
    [new ArrayBuffer]. *)
Theorem no_key_derivation_error (P buf : list byte) (K : jsstring) :
  (exists frame,
     Encrypt.encryptText P K Encrypt.initial = (Ok frame, Encrypt.initial) /\
     Z.of_nat (length frame) = 4 + 16 * (Z.of_nat (length P) / 16 + 1)) /\
  ((exists plain, fst (Encrypt.decryptText buf K Encrypt.initial) = Ok plain) \/
   fst (Encrypt.decryptText buf K Encrypt.initial) = Throw NotValidCiphertext \/
   fst (Encrypt.decryptText buf K Encrypt.initial) = Throw InvalidArrayBufferLength).
Proof. split; [apply encryptText_total|apply decryptText_errors]. Qed.

(** C2 fails on the code: a 48-character key whose characters 16..47 take 33
    bytes in UTF-8 is accepted by [encryptText], which returns a frame; a
    5-character key (iv of 5 bytes, key of 0 bytes) is accepted by both
    methods, which return buffers computed from that material. *)
Lemma key_derivation_is_silent :
  length sample_key_e_acute = 48%nat /\
  length (TextEncoder_encode (slice sample_key_e_acute 16 48)) = 33%nat /\
  Encrypt.encryptText hello_world sample_key_e_acute Encrypt.initial
  = (Ok (map byte.of_Z [0; 2; 115; 219; 244; 248; 130; 87; 142; 4; 217; 92; 174; 145; 195; 63;
                        115; 32; 107; 238]), Encrypt.initial) /\
  length (TextEncoder_encode (slice short_key 0 16)) = 5%nat /\
  length (TextEncoder_encode (slice short_key 16 48)) = 0%nat /\
  Encrypt.encryptText hello_world short_key Encrypt.initial
  = (Ok (map byte.of_Z [0; 2; 115; 219; 83; 18; 154; 91; 106; 112; 196; 116; 234; 188; 152; 223;
                        60; 199; 72; 29]), Encrypt.initial) /\
  Encrypt.decryptText
    (map byte.of_Z [0; 2; 115; 219; 83; 18; 154; 91; 106; 112; 196; 116; 234; 188; 152; 223;
                    60; 199; 72; 29]) short_key Encrypt.initial
  = (Ok hello_world, Encrypt.initial).
Proof.
  split; [vm_compute; reflexivity|].
  split; [vm_compute; reflexivity|].
  split; [vm_compute; reflexivity|].
  split; [vm_compute; reflexivity|].
  split; [vm_compute; reflexivity|].
  split; vm_compute; reflexivity.
Qed.

(** C3 (frame validation).  [decryptText] is the unwrap step of the
    specification followed by the cipher: a buffer shorter than 4 bytes and
    a buffer whose first 4 bytes are not 00 02 73 DB raise the invalid-frame
    error, and otherwise exactly the bytes from offset 4 onward are turned
    into the word array handed to AES decryption. *)
Theorem frame_validation (buf : list byte) (K : jsstring) :
  Z.of_nat (length buf) <= 2 ^ 32 ->
  Encrypt.decryptText buf K Encrypt.initial
  = (match spec_unwrap buf with
     | Ok ciphertext => after_unwrap (WordArray_create_u8 ciphertext) K
     | Throw m => Throw m
     end, Encrypt.initial).
Proof. apply decryptText_spec_unwrap. Qed.

Lemma frame_validation_witness :
  Z.of_nat (length [Byte.x00; Byte.x02]) <= 2 ^ 32 /\
  Encrypt.decryptText [Byte.x00; Byte.x02] sample_key Encrypt.initial
  = (Throw NotValidCiphertext, Encrypt.initial).
Proof.
  assert (H : Z.of_nat (length [Byte.x00; Byte.x02]) <= 2 ^ 32) by (vm_compute; discriminate).
  exact (conj H (frame_validation [Byte.x00; Byte.x02] sample_key H)).
Defined.

(** C4 (frame shape).  For every plaintext [P] and every 48-character ASCII
    key [K], [encryptText P K] returns the marker 00 02 73 DB followed by a
    ciphertext of 16 * ceil((len P + 1) / 16) bytes, so at least 20 bytes in
    all; for the 11 bytes of "hello world" the frame has 20 bytes, starts
    with the marker, and [decryptText] of it under [K] returns the 11
    bytes. *)
Theorem frame_shape (P : list byte) (K : jsstring) :
  is_ascii K -> length K = 48%nat -> Z.of_nat (length P) + 20 <= 2 ^ 32 ->
  (exists ct,
     Encrypt.encryptText P K Encrypt.initial = (Ok (marker ++ ct), Encrypt.initial) /\
     Z.of_nat (length ct) = 16 * ceil_div (Z.of_nat (length P) + 1) 16 /\
     (20 <= length (marker ++ ct))%nat) /\
  (exists ct,
     Encrypt.encryptText hello_world K Encrypt.initial = (Ok (marker ++ ct), Encrypt.initial) /\
     length (marker ++ ct) = 20%nat /\
     Encrypt.decryptText (marker ++ ct) K Encrypt.initial = (Ok hello_world, Encrypt.initial)).
Proof.
  intros HK HL Hb.
  pose proof (iv_words_ascii K HK ltac:(lia)) as Hiv.
  split.
  - eexists. split; [apply encryptText_frame; eassumption|].
    pose proof (length_padded P) as LP. unfold pad_len in LP.
    rewrite length_app, length_bytes_of. cbn [length marker]. unfold ceil_div.
    split; Z.div_mod_to_equations; lia.
  - assert (Hh : Z.of_nat (length hello_world) + 20 <= 2 ^ 32) by (vm_compute; discriminate).
    eexists. split; [apply encryptText_frame; eassumption|]. split.
    + pose proof (length_frame_of hello_world K
                    (mkWordArray (words_of (ascii_bytes (slice K 0 16))) 16)) as LF.
      unfold frame_of in LF. change (Z.of_nat (length hello_world)) with 11 in LF.
      change (4 + 16 * (11 / 16 + 1)) with 20 in LF. lia.
    + apply decryptText_frame; [exact Hh|exact Hiv|].
      rewrite key_words_ascii by (try assumption; lia). reflexivity.
Qed.

Lemma frame_shape_witness :
  is_ascii sample_key /\ length sample_key = 48%nat /\
  Z.of_nat (length hello_world) + 20 <= 2 ^ 32 /\
  exists ct,
    Encrypt.encryptText hello_world sample_key Encrypt.initial
    = (Ok (marker ++ ct), Encrypt.initial) /\
    length (marker ++ ct) = 20%nat /\
    Encrypt.decryptText (marker ++ ct) sample_key Encrypt.initial
    = (Ok hello_world, Encrypt.initial).
Proof.
  assert (H1 : is_ascii sample_key) by (apply is_ascii_b_spec; vm_compute; reflexivity).
  assert (H2 : length sample_key = 48%nat) by (vm_compute; reflexivity).
  assert (H3 : Z.of_nat (length hello_world) + 20 <= 2 ^ 32) by (vm_compute; discriminate).
  exact (conj H1 (conj H2 (conj H3 (proj2 (frame_shape hello_world sample_key H1 H2 H3))))).
Defined.




(** Sharing the cipher key is not what makes this possible: a key string
    that differs from [sample_key] in 12 of the 16 characters of the iv and
    in its whole cipher key also decrypts the frame of the 11-byte
    plaintext to the plaintext. *)
Example another_cipher_key_returns_plaintext :
  is_ascii sample_key_other /\ length sample_key_other = 48%nat /\
  slice sample_key 16 48 <> slice sample_key_other 16 48 /\
  slice sample_key 0 16 <> slice sample_key_other 0 16 /\
  Encrypt.decryptText
    (map byte.of_Z [0; 2; 115; 219; 154; 4; 254; 91; 140; 72; 188; 54; 115; 226; 199; 114;
                    195; 69; 166; 140]) sample_key_other Encrypt.initial
  = (Ok hello_world, Encrypt.initial).
Proof.
  split; [apply is_ascii_b_spec; vm_compute; reflexivity|].
  split; [vm_compute; reflexivity|].
  split; [vm_compute; discriminate|].
  split; [vm_compute; discriminate|].
  vm_compute. reflexivity.
Qed.

(** C6 (the marker is the only difference).  For every plaintext and every
    key string, the frame of [encryptText] in src/encrypt.ts is the 4 marker
    bytes followed by the output of [encryptText] in src/unnamed/part_000 on
    the same arguments. *)
Theorem marker_is_the_only_difference (P : list byte) (K : jsstring) :
  Z.of_nat (length P) + 20 <= 2 ^ 32 ->
  exists out,
    Legacy.encryptText P K = Ok out /\
    Encrypt.encryptText P K Encrypt.initial = (Ok (marker ++ out), Encrypt.initial).
Proof.
  intros Hb. destruct (iv_words_total K) as [iv Hiv].
  eexists. split.
  - apply Legacy_encryptText_spec; eassumption.
  - rewrite (encryptText_frame P K iv) by assumption. reflexivity.
Qed.

Lemma marker_is_the_only_difference_witness :
  Z.of_nat (length hello_world) + 20 <= 2 ^ 32 /\
  exists out,
    Legacy.encryptText hello_world sample_key = Ok out /\
    Encrypt.encryptText hello_world sample_key Encrypt.initial
    = (Ok (marker ++ out), Encrypt.initial).
Proof.
  assert (H : Z.of_nat (length hello_world) + 20 <= 2 ^ 32) by (vm_compute; discriminate).
  exact (conj H (marker_is_the_only_difference hello_world sample_key H)).
Defined.

(** C7 (determinism).  With [MAGIC_WORDS] on the heap and the plaintext
    [P] in two buffers of the heap, which may be one: a call of
    [encryptText] on the first with the key string [K], then any calls of
    the two methods, then a call of [encryptText] on the second with [K].
    The second result holds the same bytes, or is the same error, as the
    first, namely what [Encrypt.encryptText] gives for [P], [K] and what
    [MAGIC_WORDS] held at the start; the first result still holds its
    bytes; and the heap at the end is the heap at the start with new
    objects after it, so that no object that existed, [MAGIC_WORDS] and
    the two buffers included, has been written to.  The same holds of
    [decryptText].  [concat] works in place: it is the [clone] before it
    that keeps [MAGIC_WORDS], from which every frame starts, as it was; the
    iv is made from the key string at every call. *)
Theorem deterministic (MAGIC_WORDS : Objects.ref) (h : Objects.heap) (P : list byte)
  (K : jsstring) (b b' : Objects.ref) (between : list Objects.call) :
  loaded MAGIC_WORDS h ->
  nth_error h b = Some (Objects.ArrayBuffer P) ->
  nth_error h b' = Some (Objects.ArrayBuffer P) ->
  (let '(r1, h1) := Objects.encryptText MAGIC_WORDS b K h in
   let '(r2, h2) :=
     Objects.encryptText MAGIC_WORDS b' K (Objects.run MAGIC_WORDS between h1) in
   outcome h1 r1
   = fst (Encrypt.encryptText P K (Encrypt.mkGlobals (Objects.value h MAGIC_WORDS))) /\
   outcome h2 r2 = outcome h1 r1 /\
   outcome h2 r1 = outcome h1 r1 /\
   exists news, h2 = h ++ news) /\
  (let '(r1, h1) := Objects.decryptText MAGIC_WORDS b K h in
   let '(r2, h2) :=
     Objects.decryptText MAGIC_WORDS b' K (Objects.run MAGIC_WORDS between h1) in
   outcome h1 r1
   = fst (Encrypt.decryptText P K (Encrypt.mkGlobals (Objects.value h MAGIC_WORDS))) /\
   outcome h2 r2 = outcome h1 r1 /\
   outcome h2 r1 = outcome h1 r1 /\
   exists news, h2 = h ++ news).
Proof.
  intros HL Hb Hb'.
  pose proof (loaded_lives _ _ HL) as Hm.
  assert (B : Objects.bytes_at h b = P) by (unfold Objects.bytes_at; rewrite Hb; reflexivity).
  assert (B' : Objects.bytes_at h b' = P) by (unfold Objects.bytes_at; rewrite Hb'; reflexivity).
  assert (L : (b < length h)%nat) by (apply nth_error_Some; rewrite Hb; discriminate).
  assert (L' : (b' < length h)%nat) by (apply nth_error_Some; rewrite Hb'; discriminate).
  split.
  - pose proof (calls_agree MAGIC_WORDS h (Objects.Encrypting b K) (Objects.Encrypting b' K)
                  between Hm L L') as A.
    cbn [Objects.perform Objects.buffer_of returned] in A. rewrite B, B' in A.
    exact (A (fun _ => eq_refl)).
  - pose proof (calls_agree MAGIC_WORDS h (Objects.Decrypting b K) (Objects.Decrypting b' K)
                  between Hm L L') as A.
    cbn [Objects.perform Objects.buffer_of returned] in A. rewrite B, B' in A.
    exact (A (fun _ => eq_refl)).
Qed.

Lemma deterministic_witness :
  (let '(r1, h1) := Objects.encryptText 1%nat 2%nat sample_key sample_heap in
   let '(r2, h2) :=
     Objects.encryptText 1%nat 2%nat sample_key
       (Objects.run 1%nat sample_calls h1) in
   outcome h1 r1
   = fst (Encrypt.encryptText hello_world sample_key
            (Encrypt.mkGlobals (Objects.value sample_heap 1%nat))) /\
   outcome h2 r2 = outcome h1 r1 /\
   outcome h2 r1 = outcome h1 r1 /\
   exists news, h2 = sample_heap ++ news) /\
  (let '(r1, h1) := Objects.decryptText 1%nat 2%nat sample_key sample_heap in
   let '(r2, h2) :=
     Objects.decryptText 1%nat 2%nat sample_key
       (Objects.run 1%nat sample_calls h1) in
   outcome h1 r1
   = fst (Encrypt.decryptText hello_world sample_key
            (Encrypt.mkGlobals (Objects.value sample_heap 1%nat))) /\
   outcome h2 r2 = outcome h1 r1 /\
   outcome h2 r1 = outcome h1 r1 /\
   exists news, h2 = sample_heap ++ news).
Proof.
  apply (deterministic 1%nat sample_heap hello_world sample_key 2%nat 2%nat sample_calls).
  - exists O, 4, [160731]. split; reflexivity.
  - reflexivity.
  - reflexivity.
Defined.

(** C8, as the code has it.  The branch that raises the check-key error is
    never taken, and AES decryption itself raises nothing: whatever the
    buffer and the key, [decryptText] returns a buffer, or raises the
    invalid-frame error of its two checks, or raises the RangeError that
    [new ArrayBuffer] throws inside [wordArrayToArrayBuffer] when unpadding
    has left a negative [sigBytes]. *)
Theorem check_key_unreachable (buf : list byte) (K : jsstring) (g : Encrypt.globals) :
  fst (Encrypt.decryptText buf K g) <> Throw CheckKey /\
  ((exists plain, fst (Encrypt.decryptText buf K g) = Ok plain) \/
   fst (Encrypt.decryptText buf K g) = Throw NotValidCiphertext \/
   fst (Encrypt.decryptText buf K g) = Throw InvalidArrayBufferLength).
Proof.
  pose proof (decryptText_errors buf K g) as H. split; [|exact H].
  destruct H as [[plain E] | [E | E]]; rewrite E; discriminate.
Qed.

(** C8 fails on the code: on the marker followed by one block of zero bytes
    both frame checks pass and AES decryption completes, with [sigBytes]
    16 - 51; [wordArrayToArrayBuffer] then throws instead of returning a
    buffer, and that RangeError is what [decryptText] raises. *)
Lemma range_error_after_decryption :
  spec_unwrap zero_block_frame = Ok (repeat Byte.x00 16) /\
  Encrypt.iv_words sample_key
  = Ok (mkWordArray [808530483; 875902519; 943284578; 1667523942] 16) /\
  Cipher.AES_decrypt (WordArray_create_u8 (repeat Byte.x00 16)) (Encrypt.key_words sample_key)
    (mkWordArray [808530483; 875902519; 943284578; 1667523942] 16)
  = mkWordArray [414531584; 543477813; 953380956; 3349136691] (-35) /\
  Encrypt.wordArrayToArrayBuffer (mkWordArray [414531584; 543477813; 953380956; 3349136691] (-35))
  = Throw InvalidArrayBufferLength /\
  Encrypt.decryptText zero_block_frame sample_key Encrypt.initial
  = (Throw InvalidArrayBufferLength, Encrypt.initial).
Proof.
  split; [vm_compute; reflexivity|].
  split; [vm_compute; reflexivity|].
  split; [vm_compute; reflexivity|].
  split; vm_compute; reflexivity.
Qed.

(** C9 (a marker-only frame passes validation).  On the 4-byte buffer
    00 02 73 DB the unwrap step succeeds with an empty ciphertext, which
    goes to AES decryption, and [decryptText] returns the empty buffer for
    every key; yet every frame [encryptText] returns has at least 20
    bytes. *)
Theorem marker_only_frame_passes (P : list byte) (K K' : jsstring) :
  spec_unwrap marker = Ok [] /\
  Encrypt.decryptText marker K Encrypt.initial
  = (after_unwrap (WordArray_create_u8 []) K, Encrypt.initial) /\
  Encrypt.decryptText marker K Encrypt.initial = (Ok [], Encrypt.initial) /\
  exists frame,
    Encrypt.encryptText P K' Encrypt.initial = (Ok frame, Encrypt.initial) /\
    (20 <= length frame)%nat.
Proof.
  assert (E : Encrypt.decryptText marker K Encrypt.initial
              = (after_unwrap (WordArray_create_u8 []) K, Encrypt.initial)).
  { rewrite decryptText_spec_unwrap by (vm_compute; discriminate). reflexivity. }
  split; [reflexivity|]. split; [exact E|]. split.
  - rewrite E, after_unwrap_empty. reflexivity.
  - destruct (encryptText_total P K') as (frame & E1 & E2).
    exists frame. split; [exact E1|]. Z.div_mod_to_equations. lia.
Qed.

(** C10 (zero-length plaintext).  For every 48-character ASCII key, on the
    empty buffer [encryptText] returns a frame of 20 bytes, the marker and
    the encryption of one block made of 16 padding bytes 0x10, and
    [decryptText] of that frame under the same key returns the empty
    buffer. *)
Theorem empty_plaintext (K : jsstring) :
  is_ascii K -> length K = 48%nat ->
  padded [] = repeat Byte.x10 16 /\
  exists iv,
    Encrypt.iv_words K = Ok iv /\
    Encrypt.encryptText [] K Encrypt.initial = (Ok (frame_of [] K iv), Encrypt.initial) /\
    length (frame_of [] K iv) = 20%nat /\
    firstn 4 (frame_of [] K iv) = marker /\
    Encrypt.decryptText (frame_of [] K iv) K Encrypt.initial = (Ok [], Encrypt.initial).
Proof.
  intros HK HL.
  pose proof (iv_words_ascii K HK ltac:(lia)) as Hiv.
  assert (Hb : Z.of_nat (@length byte []) + 20 <= 2 ^ 32) by (vm_compute; discriminate).
  split; [reflexivity|]. eexists. split; [exact Hiv|].
  split; [apply encryptText_frame; assumption|]. split; [|split].
  - pose proof (length_frame_of [] K (mkWordArray (words_of (ascii_bytes (slice K 0 16))) 16))
      as LF.
    change (4 + 16 * (Z.of_nat (@length byte []) / 16 + 1)) with 20 in LF. lia.
  - reflexivity.
  - apply decryptText_frame; [exact Hb|exact Hiv|].
    rewrite key_words_ascii by (try assumption; lia). reflexivity.
Qed.

Lemma empty_plaintext_witness :
  is_ascii sample_key /\ length sample_key = 48%nat /\
  exists iv,
    Encrypt.iv_words sample_key = Ok iv /\
    Encrypt.encryptText [] sample_key Encrypt.initial
    = (Ok (frame_of [] sample_key iv), Encrypt.initial) /\
    length (frame_of [] sample_key iv) = 20%nat /\
    firstn 4 (frame_of [] sample_key iv) = marker /\
    Encrypt.decryptText (frame_of [] sample_key iv) sample_key Encrypt.initial
    = (Ok [], Encrypt.initial).
Proof.
  assert (H1 : is_ascii sample_key) by (apply is_ascii_b_spec; vm_compute; reflexivity).
  assert (H2 : length sample_key = 48%nat) by (vm_compute; reflexivity).
  exact (conj H1 (conj H2 (proj2 (empty_plaintext sample_key H1 H2)))).
Defined.

(** * Further properties of the engine *)

(** ** Buffers and word arrays *)

(** X1.  A buffer of at most 2^32 bytes turned into a word array by
    [WordArray.create] and back by [wordArrayToArrayBuffer] is the same
    buffer. *)
Theorem buffer_survives_word_array (bs : list byte) :
  Z.of_nat (length bs) <= 2 ^ 32 ->
  Encrypt.wordArrayToArrayBuffer (WordArray_create_u8 bs) = Ok bs.
Proof.
  intros Hb. rewrite WordArray_create_u8_spec by exact Hb.
  rewrite wordArrayToArrayBuffer_spec by lia. rewrite Nat2Z.id.
  rewrite bytes_of_words_of by lia. rewrite firstn_all. reflexivity.
Qed.

Lemma buffer_survives_word_array_witness :
  Z.of_nat (length hello_world) <= 2 ^ 32 /\
  Encrypt.wordArrayToArrayBuffer (WordArray_create_u8 hello_world) = Ok hello_world.
Proof.
  split; [vm_compute; discriminate|].
  apply (buffer_survives_word_array hello_world). vm_compute. discriminate.
Defined.

(** ** The key string *)

Lemma slice_firstn {A : Type} (l : list A) (a b n : nat) :
  (b <= n)%nat -> slice (firstn n l) a b = slice l a b.
Proof.
  intros H. unfold slice.
  destruct (Nat.le_gt_cases a b) as [Hab|Hab].
  - rewrite !firstn_skipn_comm. rewrite firstn_firstn.
    replace (Nat.min (a + (b - a)) n) with (a + (b - a))%nat by lia. reflexivity.
  - replace (b - a)%nat with 0%nat by lia. reflexivity.
Qed.

Lemma key_words_firstn (K : jsstring) :
  Encrypt.key_words (firstn 48 K) = Encrypt.key_words K.
Proof. unfold Encrypt.key_words. rewrite slice_firstn by lia. reflexivity. Qed.

Lemma iv_words_firstn (K : jsstring) :
  Encrypt.iv_words (firstn 48 K) = Encrypt.iv_words K.
Proof. unfold Encrypt.iv_words. rewrite slice_firstn by lia. reflexivity. Qed.

Lemma encryptText_firstn (P : list byte) (K : jsstring) (g : Encrypt.globals) :
  Encrypt.encryptText P (firstn 48 K) g = Encrypt.encryptText P K g.
Proof. unfold Encrypt.encryptText. rewrite key_words_firstn, iv_words_firstn. reflexivity. Qed.

Lemma decryptText_firstn (buf : list byte) (K : jsstring) (g : Encrypt.globals) :
  Encrypt.decryptText buf (firstn 48 K) g = Encrypt.decryptText buf K g.
Proof. unfold Encrypt.decryptText. rewrite key_words_firstn, iv_words_firstn. reflexivity. Qed.

(** X2.  [encryptText] and [decryptText] read the first 48 code units of the
    key string and nothing after them: two key strings that agree there give
    the same results on every input. *)
Theorem key_read_up_to_48 (P buf : list byte) (K1 K2 : jsstring) (g : Encrypt.globals) :
  firstn 48 K1 = firstn 48 K2 ->
  Encrypt.encryptText P K1 g = Encrypt.encryptText P K2 g /\
  Encrypt.decryptText buf K1 g = Encrypt.decryptText buf K2 g.
Proof.
  intros E. split.
  - rewrite <- (encryptText_firstn P K1), <- (encryptText_firstn P K2), E. reflexivity.
  - rewrite <- (decryptText_firstn buf K1), <- (decryptText_firstn buf K2), E. reflexivity.
Qed.

Lemma key_read_up_to_48_witness :
  Encrypt.encryptText hello_world (sample_key ++ [33]) Encrypt.initial
  = Encrypt.encryptText hello_world sample_key Encrypt.initial /\
  Encrypt.decryptText marker (sample_key ++ [33]) Encrypt.initial
  = Encrypt.decryptText marker sample_key Encrypt.initial.
Proof.
  apply (key_read_up_to_48 hello_world marker (sample_key ++ [33]) sample_key Encrypt.initial).
  reflexivity.
Defined.

(** ** Round trips for every key with whole cipher-key words *)

Lemma frame_round_trip (P : list byte) (K : jsstring) :
  Z.of_nat (length P) + 20 <= 2 ^ 32 ->
  sigBytes (Encrypt.key_words K) mod 4 = 0 ->
  exists frame,
    Encrypt.encryptText P K Encrypt.initial = (Ok frame, Encrypt.initial) /\
    Encrypt.decryptText frame K Encrypt.initial = (Ok P, Encrypt.initial).
Proof.
  intros Hb Hk. destruct (iv_words_total K) as [iv Hiv].
  exists (frame_of P K iv). split.
  - apply encryptText_frame; assumption.
  - apply decryptText_frame; assumption.
Qed.

Lemma slice_short {A : Type} (l : list A) (a b : nat) :
  (length l <= a)%nat -> slice l a b = [].
Proof. intros H. unfold slice. rewrite skipn_all2 by exact H. apply firstn_nil. Qed.

Lemma key_words_short (K : jsstring) :
  (length K <= 16)%nat -> Encrypt.key_words K = WordArray_init [] 0.
Proof. intros H. unfold Encrypt.key_words. rewrite slice_short by exact H. reflexivity. Qed.

(** X3.  A key string of at most 16 code units, the empty default included,
    leaves no cipher-key bytes: AES runs on the empty key for every such
    string, and decryption under the same string still returns the plaintext
    (buffers below 2^32 - 20 bytes). *)
Theorem short_keys_share_one_cipher_key (P : list byte) (K : jsstring) :
  (length K <= 16)%nat ->
  Z.of_nat (length P) + 20 <= 2 ^ 32 ->
  Encrypt.key_words K = WordArray_init [] 0 /\
  exists frame,
    Encrypt.encryptText P K Encrypt.initial = (Ok frame, Encrypt.initial) /\
    Encrypt.decryptText frame K Encrypt.initial = (Ok P, Encrypt.initial).
Proof.
  intros HK Hb. split; [apply key_words_short, HK|].
  apply frame_round_trip; [exact Hb|]. rewrite key_words_short by exact HK. reflexivity.
Qed.

Lemma short_keys_share_one_cipher_key_witness :
  Encrypt.key_words short_key = WordArray_init [] 0 /\
  exists frame,
    Encrypt.encryptText hello_world short_key Encrypt.initial = (Ok frame, Encrypt.initial) /\
    Encrypt.decryptText frame short_key Encrypt.initial = (Ok hello_world, Encrypt.initial).
Proof.
  apply (short_keys_share_one_cipher_key hello_world short_key).
  - apply Nat.leb_le. reflexivity.
  - vm_compute. discriminate.
Defined.

(** ** What decryption can return *)

(** X4.  What [decryptText] returns is shorter than its input by the 4 marker
    bytes and by the count read from the last decrypted byte, between 0 and
    255. *)
Theorem decrypted_length (buf out : list byte) (K : jsstring) :
  fst (Encrypt.decryptText buf K Encrypt.initial) = Ok out ->
  Z.of_nat (length buf) - 259 <= Z.of_nat (length out) <= Z.of_nat (length buf) - 4.
Proof.
  unfold Encrypt.decryptText. rewrite slice_all. cbn [sigBytes WordArray_create_u8 WordArray_init].
  destruct (Z.ltb_spec (Z.of_nat (length buf)) 4) as [|H4]; [discriminate|].
  destruct (negb _); [discriminate|].
  cbn [Encrypt.MAGIC_WORDS Encrypt.initial sigBytes WordArray_init].
  intros E.
  assert (A : after_unwrap (mkWordArray (skipn 1 (words (WordArray_create_u8 buf)))
                              (Z.of_nat (length buf) - 4)) K = Ok out).
  { unfold after_unwrap. unfold WordArray_create_u8, WordArray_init. cbn [words].
    destruct (Encrypt.iv_words K) as [iv|m]; [|discriminate].
    destruct (Encrypt.wordArrayToArrayBuffer _) as [b|m]; [|discriminate].
    cbv beta iota delta [not_object] in *. cbn [fst] in E. exact E. }
  apply after_unwrap_length in A; cbn [sigBytes] in *; lia.
Qed.

Lemma decrypted_length_witness :
  Z.of_nat (length hello_world_frame) - 259 <= Z.of_nat (length hello_world)
  <= Z.of_nat (length hello_world_frame) - 4.
Proof.
  apply (decrypted_length hello_world_frame hello_world sample_key).
  vm_compute. reflexivity.
Defined.

(** X5.  A frame made by [encryptText] under any key string passes both frame
    checks of [decryptText] under any other key string; the outcome is a
    buffer or the RangeError of the buffer allocation, never the invalid-
    ciphertext error (plaintexts below 2^32 - 20 bytes). *)
Theorem another_key_passes_the_frame_check (P : list byte) (K1 K2 : jsstring) :
  Z.of_nat (length P) + 20 <= 2 ^ 32 ->
  exists frame,
    Encrypt.encryptText P K1 Encrypt.initial = (Ok frame, Encrypt.initial) /\
    fst (Encrypt.decryptText frame K2 Encrypt.initial) <> Throw NotValidCiphertext /\
    ((exists out, fst (Encrypt.decryptText frame K2 Encrypt.initial) = Ok out) \/
     fst (Encrypt.decryptText frame K2 Encrypt.initial) = Throw InvalidArrayBufferLength).
Proof.
  intros Hb. destruct (iv_words_total K1) as [iv Hiv].
  exists (frame_of P K1 iv). split; [apply encryptText_frame; assumption|].
  rewrite decryptText_of_frame by exact Hb. cbn [fst].
  destruct (after_unwrap_outcomes
              (mkWordArray (cipher_words (Encrypt.key_words K1) (words iv) P)
                 (Z.of_nat (length (padded P)))) K2) as [[out E]|E]; rewrite E.
  - split; [discriminate|]. left. exists out. reflexivity.
  - split; [discriminate|]. right. reflexivity.
Qed.

Lemma another_key_passes_the_frame_check_witness :
  exists frame,
    Encrypt.encryptText hello_world sample_key Encrypt.initial = (Ok frame, Encrypt.initial) /\
    fst (Encrypt.decryptText frame short_key Encrypt.initial) <> Throw NotValidCiphertext /\
    ((exists out, fst (Encrypt.decryptText frame short_key Encrypt.initial) = Ok out) \/
     fst (Encrypt.decryptText frame short_key Encrypt.initial) = Throw InvalidArrayBufferLength).
Proof.
  apply (another_key_passes_the_frame_check hello_world sample_key short_key).
  vm_compute. discriminate.
Defined.

(** ** Chaining *)

Lemma B_firstn (l : list byte) (n : nat) (i : Z) :
  i < Z.of_nat n -> B (firstn n l) i = B l i.
Proof.
  intros H. unfold B. destruct (Z.ltb_spec i 0); [reflexivity|].
  rewrite nth_firstn. destruct (Nat.ltb_spec (Z.to_nat i) n); [reflexivity|lia].
Qed.

Lemma firstn_seq_0 (m n : nat) : (m <= n)%nat -> firstn m (seq 0 n) = seq 0 m.
Proof.
  intros H. replace n with (m + (n - m))%nat by lia. rewrite seq_app.
  rewrite firstn_app, length_seq, Nat.sub_diag, firstn_O, app_nil_r.
  apply firstn_all2. rewrite length_seq. lia.
Qed.

Lemma firstn_bytes_of (ws : list Z) (n m : nat) :
  (m <= n)%nat -> firstn m (bytes_of ws n) = bytes_of ws m.
Proof.
  intros H. unfold bytes_of. rewrite firstn_map, firstn_seq_0 by exact H. reflexivity.
Qed.

Lemma get4_get (A C : list Z) (j i : Z) :
  get4 A (4 * j) = get4 C (4 * j) -> i / 4 = j -> get A i = get C i.
Proof.
  intros E Hj. unfold get4 in E. injection E as E0 E1 E2 E3.
  assert (R : i = 4 * j \/ i = 4 * j + 1 \/ i = 4 * j + 2 \/ i = 4 * j + 3)
    by (Z.div_mod_to_equations; lia).
  destruct R as [-> | [-> | [-> | ->]]]; assumption.
Qed.

(** The first [k] ciphertext blocks depend on the first [k] blocks only. *)
Lemma enc_loop_prefix (c : AES.instance) (iv : AES.state) (W1 W2 : list Z) (n1 n2 k : nat) :
  (k <= n1)%nat -> (k <= n2)%nat ->
  (forall j, 0 <= j < Z.of_nat k -> get4 W1 (4 * j) = get4 W2 (4 * j)) ->
  forall j, 0 <= j < Z.of_nat k ->
    get4 (snd (enc_loop c n1 iv W1)) (4 * j) = get4 (snd (enc_loop c n2 iv W2)) (4 * j).
Proof.
  intros H1 H2 HW.
  pose proof (enc_loop_inv c iv W1 n1) as I1.
  pose proof (enc_loop_inv c iv W2 n2) as I2.
  destruct (enc_loop c n1 iv W1) as [p1 C1]. destruct (enc_loop c n2 iv W2) as [p2 C2].
  destruct I1 as (_ & _ & E1 & _). destruct I2 as (_ & _ & E2 & _). cbn [snd].
  intros j Hj. replace j with (Z.of_nat (Z.to_nat j)) in * by lia.
  generalize dependent (Z.to_nat j). clear j. intros m.
  induction m as [|m IH]; intros Hm.
  - rewrite E1, E2 by lia. cbn [Z.of_nat Z.eqb]. rewrite HW by lia. reflexivity.
  - rewrite E1, E2 by lia.
    destruct (Z.eqb_spec (Z.of_nat (S m)) 0); [lia|].
    replace (Z.of_nat (S m) - 1) with (Z.of_nat m) by lia.
    rewrite IH, HW by lia. reflexivity.
Qed.

Lemma firstn_frame_of (P : list byte) (K : jsstring) (iv : WordArray) (k : nat) :
  (16 * k <= length (padded P))%nat ->
  firstn (4 + 16 * k) (frame_of P K iv)
  = marker ++ bytes_of (cipher_words (Encrypt.key_words K) (words iv) P) (16 * k).
Proof.
  intros H. unfold frame_of.
  change (4 + 16 * k)%nat with (length marker + 16 * k)%nat.
  rewrite firstn_app_2, firstn_bytes_of by exact H. reflexivity.
Qed.

Lemma get4_padded (P : list byte) (n : nat) (j : Z) :
  0 <= j -> 16 * j + 15 < Z.of_nat n -> (n <= length P)%nat ->
  get4 (words_of (padded P)) (4 * j)
  = (word_at (firstn n P) (4 * j), word_at (firstn n P) (4 * j + 1),
     word_at (firstn n P) (4 * j + 2), word_at (firstn n P) (4 * j + 3)).
Proof.
  intros Hj Hn HP. unfold get4. rewrite !get_words_of by lia.
  unfold word_at, padded. rewrite !B_app_l, !B_firstn by lia. reflexivity.
Qed.

(** X6.  Under one key string, two plaintexts that agree on their first [k]
    blocks of 16 bytes have frames that agree on their first [4 + 16 k] bytes:
    the iv is derived from the key and never varies (plaintexts below 2^32 -
    20 bytes). *)
Theorem equal_beginnings_give_equal_frames (P1 P2 : list byte) (K : jsstring) (k : nat) :
  Z.of_nat (length P1) + 20 <= 2 ^ 32 ->
  Z.of_nat (length P2) + 20 <= 2 ^ 32 ->
  (16 * k <= length P1)%nat -> (16 * k <= length P2)%nat ->
  firstn (16 * k) P1 = firstn (16 * k) P2 ->
  exists frame1 frame2,
    Encrypt.encryptText P1 K Encrypt.initial = (Ok frame1, Encrypt.initial) /\
    Encrypt.encryptText P2 K Encrypt.initial = (Ok frame2, Encrypt.initial) /\
    firstn (4 + 16 * k) frame1 = firstn (4 + 16 * k) frame2.
Proof.
  intros B1 B2 L1 L2 E. destruct (iv_words_total K) as [iv Hiv].
  exists (frame_of P1 K iv), (frame_of P2 K iv).
  split; [apply encryptText_frame; assumption|].
  split; [apply encryptText_frame; assumption|].
  pose proof (length_padded P1) as LP1. pose proof (length_padded P2) as LP2.
  pose proof (pad_len_range (Z.of_nat (length P1))) as R1.
  pose proof (pad_len_range (Z.of_nat (length P2))) as R2.
  rewrite !firstn_frame_of by lia. f_equal.
  apply bytes_of_ext. intros i Hi. apply byte_at_get; [lia|].
  apply (get4_get _ _ (i / 4 / 4)); [|reflexivity].
  unfold cipher_words.
  apply (enc_loop_prefix _ _ _ _ _ _ k).
  - apply Nat2Z.inj_le. rewrite Z2Nat.id by (Z.div_mod_to_equations; lia).
    Z.div_mod_to_equations. lia.
  - apply Nat2Z.inj_le. rewrite Z2Nat.id by (Z.div_mod_to_equations; lia).
    Z.div_mod_to_equations. lia.
  - intros j Hj. rewrite (get4_padded P1 (16 * k)), (get4_padded P2 (16 * k)) by lia.
    rewrite E. reflexivity.
  - Z.div_mod_to_equations. lia.
Qed.

Lemma equal_beginnings_give_equal_frames_witness :
  exists frame1 frame2,
    Encrypt.encryptText report_draft_1 sample_key Encrypt.initial
    = (Ok frame1, Encrypt.initial) /\
    Encrypt.encryptText report_draft_2 sample_key Encrypt.initial
    = (Ok frame2, Encrypt.initial) /\
    firstn (4 + 16 * 1) frame1 = firstn (4 + 16 * 1) frame2.
Proof.
  apply (equal_beginnings_give_equal_frames report_draft_1 report_draft_2 sample_key 1).
  - vm_compute. discriminate.
  - vm_compute. discriminate.
  - apply Nat.leb_le. reflexivity.
  - apply Nat.leb_le. reflexivity.
  - reflexivity.
Defined.

(** ** Decrypting under another iv *)

Lemma sigBytes_key_words (K : jsstring) :
  sigBytes (Encrypt.key_words K) = Z.of_nat (length (TextEncoder_encode (slice K 16 48))).
Proof. reflexivity. Qed.

Lemma nth_B (l : list byte) (i : nat) : nth i l Byte.x00 = byte.of_Z (B l (Z.of_nat i)).
Proof. rewrite B_nth, byte.of_Z_unsigned. reflexivity. Qed.

Lemma skipn_ext (a b : list byte) (k : nat) :
  length a = length b ->
  (forall i, Z.of_nat k <= i < Z.of_nat (length a) -> B a i = B b i) ->
  skipn k a = skipn k b.
Proof.
  intros HL H. apply (nth_ext _ _ Byte.x00 Byte.x00).
  - rewrite !length_skipn, HL. reflexivity.
  - intros n Hn. rewrite length_skipn in Hn. rewrite !nth_skipn, !nth_B.
    rewrite H by lia. reflexivity.
Qed.

(** Decryption of a frame under another iv and the same cipher key. *)
Lemma decrypt_other_iv (P : list byte) (K1 K2 : jsstring) (iv1 iv2 : WordArray) :
  Z.of_nat (length P) + 20 <= 2 ^ 32 ->
  (16 <= length P)%nat ->
  Encrypt.key_words K2 = Encrypt.key_words K1 ->
  sigBytes (Encrypt.key_words K1) mod 4 = 0 ->
  Encrypt.iv_words K1 = Ok iv1 -> Encrypt.iv_words K2 = Ok iv2 ->
  exists out,
    Encrypt.decryptText (frame_of P K1 iv1) K2 Encrypt.initial = (Ok out, Encrypt.initial) /\
    length out = length P /\
    skipn 16 out = skipn 16 P /\
    (forall i, 0 <= i < 16 ->
       B out i = Z.lxor (Z.lxor (B P i) (byte_at (words iv1) i)) (byte_at (words iv2) i)).
Proof.
  intros Hb H16 Hk Hk4 Hiv1 Hiv2.
  rewrite decryptText_of_frame by exact Hb.
  unfold after_unwrap. rewrite Hiv2, Hk.
  destruct (blocks_of_padded P) as (nb & H1 & HN & HL & Hnb).
  pose proof (length_padded P) as LP.
  pose proof (pad_len_range (Z.of_nat (length P))) as R.
  unfold cipher_words. rewrite <- Hnb. rewrite HN.
  set (c := AES.doReset (Encrypt.key_words K1)).
  set (W := words_of (padded P)) in *.
  rewrite AES_decrypt_words by (try assumption; try (apply enc_loop_length, HL); lia).
  fold c.
  destruct (dec_other_iv c (get4 (words iv1) 0) (get4 (words iv2) 0) W nb) as (D0 & Dj);
    try assumption.
  { intros m. apply dec_enc_block; [|exact Hk4]. rewrite sigBytes_key_words. lia. }
  { apply words_of_ok. }
  set (D := snd (dec_loop c nb (get4 (words iv2) 0)
                   (snd (enc_loop c nb (get4 (words iv1) 0) W)))) in *.
  set (N := Z.of_nat nb) in *.
  assert (HN2 : 2 <= N) by lia.
  assert (Hw : forall k, 0 <= k < 16 ->
    byte_at D k = Z.lxor (Z.lxor (byte_at W k) (byte_at (words iv1) k)) (byte_at (words iv2) k)).
  { intros k Hk16. apply byte_at_bxor3; [lia|].
    unfold get4, xor_state in D0. change (0 + 1) with 1 in D0.
    change (0 + 2) with 2 in D0. change (0 + 3) with 3 in D0.
    injection D0 as E0 E1 E2 E3.
    assert (C : k / 4 = 0 \/ k / 4 = 1 \/ k / 4 = 2 \/ k / 4 = 3)
      by (Z.div_mod_to_equations; lia).
    destruct C as [C | [C | [C | C]]]; rewrite C; assumption. }
  assert (Hr : forall k, 16 <= k < 16 * N -> byte_at D k = byte_at W k).
  { intros k Hk16. apply byte_at_get; [lia|].
    apply (get4_get _ _ (k / 4 / 4)); [|reflexivity].
    apply Dj. Z.div_mod_to_equations. lia. }
  assert (HW : forall k, 0 <= k < Z.of_nat (length P) -> byte_at W k = B P k).
  { intros k Hk'. unfold W. rewrite byte_at_words_of by lia.
    unfold padded. apply B_app_l. lia. }
  unfold Pkcs7.unpad. cbn [words sigBytes].
  set (q := 16 * N - band (get D (ushr (16 * N - 1) 2)) 255).
  assert (Hq : q = Z.of_nat (length P)).
  { unfold q. rewrite ushr_2 by lia.
    replace ((16 * N - 1) / 4) with (4 * N - 1) by (Z.div_mod_to_equations; lia).
    destruct (byte_at_word D (4 * N - 1)) as (_ & _ & _ & Hlast); try lia.
    replace (4 * (4 * N - 1) + 3) with (16 * N - 1) in Hlast by lia.
    unfold b3 in Hlast. rewrite <- Hlast, Hr by lia.
    unfold W. rewrite byte_at_words_of by lia.
    unfold padded. rewrite B_app_r, B_repeat by lia.
    rewrite unsigned_of_Z_byte by (unfold is_byte; lia). lia. }
  clearbody q. subst q.
  rewrite wordArrayToArrayBuffer_spec by lia. rewrite Nat2Z.id.
  cbv beta iota delta [not_object].
  exists (bytes_of D (length P)). split; [reflexivity|].
  split; [apply length_bytes_of|]. split.
  - apply skipn_ext; [apply length_bytes_of|].
    intros i Hi. rewrite length_bytes_of in Hi.
    rewrite B_bytes_of, Hr, HW by lia. reflexivity.
  - intros i Hi. rewrite B_bytes_of, Hw, HW by lia. reflexivity.
Qed.

(** X7.  When two key strings agree on the code units 16..47 and these encode
    to whole words, a plaintext of at least 16 bytes (and below 2^32 - 20)
    encrypted under the first and decrypted under the second comes back with
    its length and every byte from the 17th on; each of the first 16 bytes is
    the plaintext byte mixed with the corresponding bytes of both ivs. *)
Theorem another_iv_garbles_the_first_block_only (P : list byte) (K1 K2 : jsstring) :
  Z.of_nat (length P) + 20 <= 2 ^ 32 ->
  (16 <= length P)%nat ->
  slice K1 16 48 = slice K2 16 48 ->
  Z.of_nat (length (TextEncoder_encode (slice K1 16 48))) mod 4 = 0 ->
  exists frame out iv1 iv2,
    Encrypt.encryptText P K1 Encrypt.initial = (Ok frame, Encrypt.initial) /\
    Encrypt.decryptText frame K2 Encrypt.initial = (Ok out, Encrypt.initial) /\
    Encrypt.iv_words K1 = Ok iv1 /\ Encrypt.iv_words K2 = Ok iv2 /\
    length out = length P /\
    skipn 16 out = skipn 16 P /\
    (forall i, 0 <= i < 16 ->
       B out i = Z.lxor (Z.lxor (B P i) (byte_at (words iv1) i)) (byte_at (words iv2) i)).
Proof.
  intros Hb H16 Hs Hk4.
  destruct (iv_words_total K1) as [iv1 Hiv1]. destruct (iv_words_total K2) as [iv2 Hiv2].
  destruct (decrypt_other_iv P K1 K2 iv1 iv2) as (out & Hd & Hrest); try assumption.
  { unfold Encrypt.key_words. rewrite Hs. reflexivity. }
  exists (frame_of P K1 iv1), out, iv1, iv2.
  split; [apply encryptText_frame; assumption|]. split; [exact Hd|].
  split; [exact Hiv1|]. split; [exact Hiv2|]. exact Hrest.
Qed.

Lemma another_iv_garbles_the_first_block_only_witness :
  exists frame out iv1 iv2,
    Encrypt.encryptText report_draft_1 sample_key Encrypt.initial
    = (Ok frame, Encrypt.initial) /\
    Encrypt.decryptText frame sample_key_iv3 Encrypt.initial = (Ok out, Encrypt.initial) /\
    Encrypt.iv_words sample_key = Ok iv1 /\ Encrypt.iv_words sample_key_iv3 = Ok iv2 /\
    length out = length report_draft_1 /\
    skipn 16 out = skipn 16 report_draft_1 /\
    (forall i, 0 <= i < 16 ->
       B out i
       = Z.lxor (Z.lxor (B report_draft_1 i) (byte_at (words iv1) i)) (byte_at (words iv2) i)).
Proof.
  apply (another_iv_garbles_the_first_block_only report_draft_1 sample_key sample_key_iv3).
  - vm_compute. discriminate.
  - apply Nat.leb_le. reflexivity.
  - reflexivity.
  - reflexivity.
Defined.

(** * The lineage without the marker *)

Lemma firstn_padded (P : list byte) : firstn (length P) (padded P) = P.
Proof.
  unfold padded. rewrite firstn_app, Nat.sub_diag, firstn_O, app_nil_r. apply firstn_all.
Qed.

Lemma Legacy_decryptText_spec (P : list byte) (K : jsstring) (iv : WordArray) :
  Z.of_nat (length P) + 20 <= 2 ^ 32 ->
  Encrypt.iv_words K = Ok iv ->
  sigBytes (Encrypt.key_words K) mod 4 = 0 ->
  Legacy.decryptText
    (bytes_of (cipher_words (Encrypt.key_words K) (words iv) P) (length (padded P))) K
  = Legacy.Returned P.
Proof.
  intros Hb Hiv Hk. unfold Legacy.decryptText, Legacy.wordArrayToArrayBuffer.
  rewrite Hiv, slice_all.
  pose proof (length_cipher_words (Encrypt.key_words K) (words iv) P) as LC.
  pose proof (length_padded P) as LP.
  pose proof (pad_len_range (Z.of_nat (length P))) as R.
  rewrite WordArray_create_u8_spec by (rewrite length_bytes_of; lia).
  rewrite length_bytes_of.
  replace (words_of (bytes_of (cipher_words (Encrypt.key_words K) (words iv) P)
                       (length (padded P))))
    with (cipher_words (Encrypt.key_words K) (words iv) P).
  2:{ replace (length (padded P))
        with (4 * length (cipher_words (Encrypt.key_words K) (words iv) P))%nat by lia.
      symmetry. apply words_of_bytes_of; [apply cipher_words_ok|lia]. }
  rewrite AES_decrypt_spec by (try assumption; rewrite ?sigBytes_key_words; lia).
  rewrite wordArrayToArrayBuffer_spec by lia. rewrite Nat2Z.id.
  rewrite bytes_of_words_of by lia. rewrite firstn_padded.
  reflexivity.
Qed.

(** X8.  In the lineage without the marker, [decryptText] returns the
    plaintext from what [encryptText] made of it under the same key string,
    for every key string whose code units 16..47 encode to whole words
    (plaintexts below 2^32 - 20 bytes). *)
Theorem legacy_round_trip (P : list byte) (K : jsstring) :
  Z.of_nat (length P) + 20 <= 2 ^ 32 ->
  Z.of_nat (length (TextEncoder_encode (slice K 16 48))) mod 4 = 0 ->
  exists out,
    Legacy.encryptText P K = Ok out /\
    Legacy.decryptText out K = Legacy.Returned P.
Proof.
  intros Hb Hk. destruct (iv_words_total K) as [iv Hiv].
  eexists. split.
  - apply Legacy_encryptText_spec; eassumption.
  - apply Legacy_decryptText_spec; assumption.
Qed.

Lemma legacy_round_trip_witness :
  exists out,
    Legacy.encryptText hello_world sample_key = Ok out /\
    Legacy.decryptText out sample_key = Legacy.Returned hello_world.
Proof.
  apply (legacy_round_trip hello_world sample_key).
  - vm_compute. discriminate.
  - reflexivity.
Defined.

(** X9.  The two lineages read each other's files once the marker is added or
    removed, for every key string whose code units 16..47 encode to whole
    words and every plaintext below 2^32 - 20 bytes: the current frame is the
    marker followed by the older frame, the current [decryptText] returns the
    plaintext from it, and the older [decryptText] returns the plaintext from
    the current frame without its first 4 bytes. *)
Theorem frames_of_both_lineages (P : list byte) (K : jsstring) :
  Z.of_nat (length P) + 20 <= 2 ^ 32 ->
  Z.of_nat (length (TextEncoder_encode (slice K 16 48))) mod 4 = 0 ->
  exists out,
    Legacy.encryptText P K = Ok out /\
    Encrypt.encryptText P K Encrypt.initial = (Ok (marker ++ out), Encrypt.initial) /\
    Encrypt.decryptText (marker ++ out) K Encrypt.initial = (Ok P, Encrypt.initial) /\
    Legacy.decryptText (skipn 4 (marker ++ out)) K = Legacy.Returned P.
Proof.
  intros Hb Hk. destruct (iv_words_total K) as [iv Hiv].
  eexists. split; [apply Legacy_encryptText_spec; eassumption|].
  split; [apply encryptText_frame; assumption|].
  split; [apply decryptText_frame; assumption|].
  apply Legacy_decryptText_spec; assumption.
Qed.

Lemma frames_of_both_lineages_witness :
  exists out,
    Legacy.encryptText hello_world sample_key = Ok out /\
    Encrypt.encryptText hello_world sample_key Encrypt.initial
    = (Ok (marker ++ out), Encrypt.initial) /\
    Encrypt.decryptText (marker ++ out) sample_key Encrypt.initial
    = (Ok hello_world, Encrypt.initial) /\
    Legacy.decryptText (skipn 4 (marker ++ out)) sample_key = Legacy.Returned hello_world.
Proof.
  apply (frames_of_both_lineages hello_world sample_key).
  - vm_compute. discriminate.
  - reflexivity.
Defined.

(** What the older [decryptText] can do with a buffer. *)
Lemma Legacy_decryptText_outcomes (buf : list byte) (K : jsstring) :
  (exists out,
     Legacy.decryptText buf K = Legacy.Returned out /\
     Z.of_nat (length buf) - 255 <= Z.of_nat (length out) <= Z.of_nat (length buf)) \/
  (Legacy.decryptText buf K
   = Legacy.Thrown (Legacy.DecryptFailed (Legacy.Below InvalidArrayBufferLength)) /\
   (length buf < 255)%nat).
Proof.
  unfold Legacy.decryptText, Legacy.wordArrayToArrayBuffer.
  destruct (iv_words_total K) as [iv ->]. rewrite slice_all.
  set (ct := WordArray_create_u8 buf).
  assert (Hct : sigBytes ct = Z.of_nat (length buf)) by reflexivity.
  pose proof (sigBytes_AES_decrypt ct (Encrypt.key_words K) iv ltac:(lia)) as S.
  destruct (Encrypt.wordArrayToArrayBuffer _) as [b|m] eqn:E.
  - left. exists b. cbv beta iota delta [not_object]. split; [reflexivity|].
    apply length_wordArrayToArrayBuffer in E. lia.
  - right. unfold Encrypt.wordArrayToArrayBuffer in E.
    destruct (Z.ltb_spec (sigBytes (Cipher.AES_decrypt ct (Encrypt.key_words K) iv)) 0)
      as [Hn|]; [|discriminate].
    injection E as <-. split; [reflexivity|]. lia.
Qed.

(** X10.  The older [decryptText] has no way to refuse a buffer.  It returns a
    buffer shorter than its input by at most 255 bytes, or it fails with the
    RangeError of the buffer allocation under the prefix of its [catch] block,
    and this only on inputs shorter than 255 bytes. *)
Theorem legacy_decryptText_accepts (buf : list byte) (K : jsstring) :
  (exists out,
     Legacy.decryptText buf K = Legacy.Returned out /\
     Z.of_nat (length buf) - 255 <= Z.of_nat (length out) <= Z.of_nat (length buf)) \/
  (Legacy.decryptText buf K
   = Legacy.Thrown (Legacy.DecryptFailed (Legacy.Below InvalidArrayBufferLength)) /\
   (length buf < 255)%nat).
Proof. apply Legacy_decryptText_outcomes. Qed.

(** * The plugin's file operations *)

Lemma modifyBinary_same (v : Plugin.Vault) (f : Plugin.TFile) (data : list byte) :
  Plugin.modifyBinary v f data (Plugin.path f) = Some data.
Proof.
  unfold Plugin.modifyBinary.
  destruct (list_eq_dec Z.eq_dec (Plugin.path f) (Plugin.path f)); [reflexivity|contradiction].
Qed.

Lemma modifyBinary_other (v : Plugin.Vault) (f : Plugin.TFile) (data : list byte) (q : jsstring) :
  q <> Plugin.path f -> Plugin.modifyBinary v f data q = v q.
Proof.
  intros H. unfold Plugin.modifyBinary.
  destruct (list_eq_dec Z.eq_dec q (Plugin.path f)); [contradiction|reflexivity].
Qed.

(** [encryptFile] on a readable file that is not empty. *)
Lemma encryptFile_writes (s : Plugin.EncryptPluginSettings) (f : Plugin.TFile) (a : Plugin.App)
  (content frame : list byte) :
  Plugin.vault a (Plugin.path f) = Some content ->
  content <> [] ->
  Plugin.encrypt a = Encrypt.initial ->
  Encrypt.encryptText content (Plugin.encryptionKey s) Encrypt.initial
  = (Ok frame, Encrypt.initial) ->
  Plugin.encryptFile s (Some f) a
  = Plugin.mkApp (Plugin.modifyBinary (Plugin.vault a) f frame)
      (Plugin.notices a ++ [Plugin.EncryptSucceeded (Plugin.basename f)])
      (Plugin.calls a) Encrypt.initial.
Proof.
  intros Hv Hne Hg He. unfold Plugin.encryptFile, Plugin.readBinary. rewrite Hv.
  destruct content as [|b r]; [contradiction|]. cbn [length Nat.eqb].
  rewrite Hg, He. reflexivity.
Qed.

(** [decryptFile] on a readable file that [decryptText] accepts. *)
Lemma decryptFile_writes (s : Plugin.EncryptPluginSettings) (f : Plugin.TFile) (a : Plugin.App)
  (content plain : list byte) :
  Plugin.vault a (Plugin.path f) = Some content ->
  Plugin.encrypt a = Encrypt.initial ->
  Encrypt.decryptText content (Plugin.encryptionKey s) Encrypt.initial
  = (Ok plain, Encrypt.initial) ->
  Plugin.decryptFile s (Some f) a
  = Plugin.mkApp (Plugin.modifyBinary (Plugin.vault a) f plain)
      (Plugin.notices a ++ [Plugin.DecryptSucceeded (Plugin.basename f)])
      (Plugin.calls a) Encrypt.initial.
Proof.
  intros Hv Hg Hd. unfold Plugin.decryptFile, Plugin.readBinary. rewrite Hv, Hg, Hd.
  reflexivity.
Qed.

(** [decryptFile] on a readable file that [decryptText] refuses. *)
Lemma decryptFile_refuses (s : Plugin.EncryptPluginSettings) (f : Plugin.TFile) (a : Plugin.App)
  (content : list byte) (m : message) :
  Plugin.vault a (Plugin.path f) = Some content ->
  Plugin.encrypt a = Encrypt.initial ->
  Encrypt.decryptText content (Plugin.encryptionKey s) Encrypt.initial
  = (Throw m, Encrypt.initial) ->
  Plugin.decryptFile s (Some f) a
  = Plugin.mkApp (Plugin.vault a)
      (Plugin.notices a ++ [Plugin.DecryptFailure (Plugin.OfEncrypt m)])
      (Plugin.calls a) Encrypt.initial.
Proof.
  intros Hv Hg Hd. unfold Plugin.decryptFile, Plugin.readBinary. rewrite Hv, Hg, Hd.
  reflexivity.
Qed.

(** X11.  On a file the vault can read, [encryptFile] never shows a failure,
    whatever the key setting, the empty default included.  An empty file is
    left as it is with the notice that it is empty; any other content is
    replaced by a frame of [4 + 16 (n / 16 + 1)] bytes, with the notice of
    success. *)
Theorem encryptFile_never_fails_on_a_readable_file
  (s : Plugin.EncryptPluginSettings) (f : Plugin.TFile) (a : Plugin.App) (content : list byte) :
  Plugin.vault a (Plugin.path f) = Some content ->
  Plugin.encrypt a = Encrypt.initial ->
  (content = [] /\
   Plugin.vault (Plugin.encryptFile s (Some f) a) = Plugin.vault a /\
   Plugin.notices (Plugin.encryptFile s (Some f) a) = Plugin.notices a ++ [Plugin.FileIsEmpty]) \/
  (content <> [] /\
   exists frame,
     Plugin.vault (Plugin.encryptFile s (Some f) a)
     = Plugin.modifyBinary (Plugin.vault a) f frame /\
     Z.of_nat (length frame) = 4 + 16 * (Z.of_nat (length content) / 16 + 1) /\
     Plugin.notices (Plugin.encryptFile s (Some f) a)
     = Plugin.notices a ++ [Plugin.EncryptSucceeded (Plugin.basename f)]).
Proof.
  intros Hv Hg. destruct content as [|b r].
  - left. unfold Plugin.encryptFile, Plugin.readBinary. rewrite Hv. cbn.
    repeat split; reflexivity.
  - right. split; [discriminate|].
    destruct (encryptText_total (b :: r) (Plugin.encryptionKey s)) as (frame & He & Hl).
    exists frame. rewrite (encryptFile_writes s f a (b :: r) frame) by (assumption || discriminate).
    cbn [Plugin.vault Plugin.notices]. repeat split. exact Hl.
Qed.

Lemma encryptFile_never_fails_on_a_readable_file_witness :
  (hello_world = [] /\
   Plugin.vault (Plugin.encryptFile Plugin.DEFAULT_SETTINGS (Some note) plain_app)
   = Plugin.vault plain_app /\
   Plugin.notices (Plugin.encryptFile Plugin.DEFAULT_SETTINGS (Some note) plain_app)
   = Plugin.notices plain_app ++ [Plugin.FileIsEmpty]) \/
  (hello_world <> [] /\
   exists frame,
     Plugin.vault (Plugin.encryptFile Plugin.DEFAULT_SETTINGS (Some note) plain_app)
     = Plugin.modifyBinary (Plugin.vault plain_app) note frame /\
     Z.of_nat (length frame) = 4 + 16 * (Z.of_nat (length hello_world) / 16 + 1) /\
     Plugin.notices (Plugin.encryptFile Plugin.DEFAULT_SETTINGS (Some note) plain_app)
     = Plugin.notices plain_app ++ [Plugin.EncryptSucceeded (Plugin.basename note)]).
Proof.
  apply (encryptFile_never_fails_on_a_readable_file Plugin.DEFAULT_SETTINGS note plain_app
           hello_world).
  - reflexivity.
  - reflexivity.
Defined.

(** X12.  [decryptFile] leaves a file that does not begin with the marker
    exactly as it is, files shorter than 4 bytes included; all it does is show
    the invalid-ciphertext notice (files of at most 2^32 bytes). *)
Theorem decryptFile_leaves_a_file_without_marker
  (s : Plugin.EncryptPluginSettings) (f : Plugin.TFile) (a : Plugin.App) (content : list byte) :
  Plugin.vault a (Plugin.path f) = Some content ->
  Plugin.encrypt a = Encrypt.initial ->
  Z.of_nat (length content) <= 2 ^ 32 ->
  firstn 4 content <> marker ->
  Plugin.decryptFile s (Some f) a
  = Plugin.notify (Plugin.DecryptFailure (Plugin.OfEncrypt NotValidCiphertext)) a.
Proof.
  intros Hv Hg Hb Hm.
  rewrite (decryptFile_refuses s f a content NotValidCiphertext); try assumption.
  - unfold Plugin.notify. rewrite Hg. reflexivity.
  - destruct (Nat.lt_ge_cases (length content) 4).
    + apply decryptText_short. assumption.
    + apply decryptText_bad_marker; assumption.
Qed.

Lemma decryptFile_leaves_a_file_without_marker_witness :
  Plugin.decryptFile sample_settings (Some note) plain_app
  = Plugin.notify (Plugin.DecryptFailure (Plugin.OfEncrypt NotValidCiphertext)) plain_app.
Proof.
  apply (decryptFile_leaves_a_file_without_marker sample_settings note plain_app hello_world).
  - reflexivity.
  - reflexivity.
  - vm_compute. discriminate.
  - vm_compute. discriminate.
Defined.

(** X13.  [decryptFile] after [encryptFile] on a file that is not empty gives
    every file of the vault the content it had, and shows the two notices of
    success, for every key setting whose code units 16..47 encode to whole
    words (files below 2^32 - 20 bytes). *)
Theorem decryptFile_undoes_encryptFile
  (s : Plugin.EncryptPluginSettings) (f : Plugin.TFile) (a : Plugin.App) (content : list byte) :
  Plugin.vault a (Plugin.path f) = Some content ->
  content <> [] ->
  Z.of_nat (length content) + 20 <= 2 ^ 32 ->
  Z.of_nat (length (TextEncoder_encode (slice (Plugin.encryptionKey s) 16 48))) mod 4 = 0 ->
  Plugin.encrypt a = Encrypt.initial ->
  let a' := Plugin.decryptFile s (Some f) (Plugin.encryptFile s (Some f) a) in
  (forall q, Plugin.vault a' q = Plugin.vault a q) /\
  Plugin.notices a'
  = Plugin.notices a ++ [Plugin.EncryptSucceeded (Plugin.basename f);
                         Plugin.DecryptSucceeded (Plugin.basename f)] /\
  Plugin.encrypt a' = Encrypt.initial.
Proof.
  intros Hv Hne Hb Hk Hg a'. subst a'.
  destruct (frame_round_trip content (Plugin.encryptionKey s) Hb Hk) as (frame & He & Hd).
  rewrite (encryptFile_writes s f a content frame) by assumption.
  rewrite (decryptFile_writes s f _ frame content);
    [|cbn [Plugin.vault]; apply modifyBinary_same|reflexivity|exact Hd].
  cbn [Plugin.vault Plugin.notices Plugin.encrypt]. split; [|split].
  - intros q. destruct (list_eq_dec Z.eq_dec q (Plugin.path f)) as [->|Hq].
    + rewrite modifyBinary_same. symmetry. exact Hv.
    + rewrite !modifyBinary_other by exact Hq. reflexivity.
  - rewrite <- app_assoc. reflexivity.
  - reflexivity.
Qed.

Lemma decryptFile_undoes_encryptFile_witness :
  (forall q,
     Plugin.vault (Plugin.decryptFile sample_settings (Some note)
                     (Plugin.encryptFile sample_settings (Some note) plain_app)) q
     = Plugin.vault plain_app q) /\
  Plugin.notices (Plugin.decryptFile sample_settings (Some note)
                    (Plugin.encryptFile sample_settings (Some note) plain_app))
  = Plugin.notices plain_app ++ [Plugin.EncryptSucceeded (Plugin.basename note);
                                 Plugin.DecryptSucceeded (Plugin.basename note)] /\
  Plugin.encrypt (Plugin.decryptFile sample_settings (Some note)
                    (Plugin.encryptFile sample_settings (Some note) plain_app))
  = Encrypt.initial.
Proof.
  apply (decryptFile_undoes_encryptFile sample_settings note plain_app hello_world).
  - reflexivity.
  - discriminate.
  - vm_compute. discriminate.
  - reflexivity.
  - reflexivity.
Defined.

(** ** Encrypting again what was decrypted *)

Lemma frame_under_decrypt (K : jsstring) (plain frame : list byte) :
  sigBytes (Encrypt.key_words K) mod 4 = 0 ->
  frame_under K plain frame ->
  Encrypt.decryptText frame K Encrypt.initial = (Ok plain, Encrypt.initial).
Proof.
  intros Hk (Hne & Hb & He). destruct (iv_words_total K) as [iv Hiv].
  rewrite (encryptText_frame plain K iv Hb Hiv) in He. injection He as <-.
  apply decryptText_frame; assumption.
Qed.

(** X14.  [encryptFile] after [decryptFile] on a file that holds the frame of
    a plaintext that is not empty writes the very bytes the file held and
    shows the two notices of success: the iv comes from the key, so a file
    that was opened and closed is byte for byte what it was (every key setting
    whose code units 16..47 encode to whole words, plaintexts below 2^32 - 20
    bytes). *)
Theorem encryptFile_undoes_decryptFile
  (s : Plugin.EncryptPluginSettings) (f : Plugin.TFile) (a : Plugin.App)
  (plain frame : list byte) :
  Plugin.vault a (Plugin.path f) = Some frame ->
  plain <> [] ->
  Z.of_nat (length plain) + 20 <= 2 ^ 32 ->
  Encrypt.encryptText plain (Plugin.encryptionKey s) Encrypt.initial
  = (Ok frame, Encrypt.initial) ->
  Z.of_nat (length (TextEncoder_encode (slice (Plugin.encryptionKey s) 16 48))) mod 4 = 0 ->
  Plugin.encrypt a = Encrypt.initial ->
  let a' := Plugin.encryptFile s (Some f) (Plugin.decryptFile s (Some f) a) in
  (forall q, Plugin.vault a' q = Plugin.vault a q) /\
  Plugin.notices a'
  = Plugin.notices a ++ [Plugin.DecryptSucceeded (Plugin.basename f);
                         Plugin.EncryptSucceeded (Plugin.basename f)].
Proof.
  intros Hv Hne Hb He Hk Hg a'. subst a'.
  rewrite (decryptFile_writes s f a frame plain Hv Hg)
    by (apply frame_under_decrypt; [exact Hk|repeat split; assumption]).
  rewrite (encryptFile_writes s f _ plain frame);
    [|cbn [Plugin.vault]; apply modifyBinary_same|exact Hne|reflexivity|exact He].
  cbn [Plugin.vault Plugin.notices]. split.
  - intros q. destruct (list_eq_dec Z.eq_dec q (Plugin.path f)) as [->|Hq].
    + rewrite modifyBinary_same. symmetry. exact Hv.
    + rewrite !modifyBinary_other by exact Hq. reflexivity.
  - rewrite <- app_assoc. reflexivity.
Qed.

Lemma encryptFile_undoes_decryptFile_witness :
  (forall q,
     Plugin.vault (Plugin.encryptFile sample_settings (Some note)
                     (Plugin.decryptFile sample_settings (Some note) encrypted_app)) q
     = Plugin.vault encrypted_app q) /\
  Plugin.notices (Plugin.encryptFile sample_settings (Some note)
                    (Plugin.decryptFile sample_settings (Some note) encrypted_app))
  = Plugin.notices encrypted_app ++ [Plugin.DecryptSucceeded (Plugin.basename note);
                                     Plugin.EncryptSucceeded (Plugin.basename note)].
Proof.
  apply (encryptFile_undoes_decryptFile sample_settings note encrypted_app
           hello_world hello_world_frame).
  - reflexivity.
  - discriminate.
  - vm_compute. discriminate.
  - vm_compute. reflexivity.
  - reflexivity.
  - reflexivity.
Defined.

(** ** Repeated encryption *)

Lemma frame_of_not_nil (P : list byte) (K : jsstring) (iv : WordArray) : frame_of P K iv <> [].
Proof. unfold frame_of, marker. discriminate. Qed.

Lemma length_frame_of_le (P : list byte) (K : jsstring) (iv : WordArray) :
  Z.of_nat (length (frame_of P K iv)) <= Z.of_nat (length P) + 20.
Proof. rewrite length_frame_of. Z.div_mod_to_equations. lia. Qed.

Lemma encryptFile_iter (s : Plugin.EncryptPluginSettings) (f : Plugin.TFile) (iv : WordArray)
  (n : nat) (a : Plugin.App) (content : list byte) :
  Encrypt.iv_words (Plugin.encryptionKey s) = Ok iv ->
  Plugin.vault a (Plugin.path f) = Some content ->
  content <> [] ->
  Z.of_nat (length content) + 20 * Z.of_nat n <= 2 ^ 32 ->
  Plugin.encrypt a = Encrypt.initial ->
  let F := fun c => frame_of c (Plugin.encryptionKey s) iv in
  let a' := Nat.iter n (Plugin.encryptFile s (Some f)) a in
  Plugin.vault a' (Plugin.path f) = Some (Nat.iter n F content) /\
  (forall q, q <> Plugin.path f -> Plugin.vault a' q = Plugin.vault a q) /\
  Plugin.encrypt a' = Encrypt.initial /\
  Nat.iter n F content <> [] /\
  Z.of_nat (length (Nat.iter n F content)) <= Z.of_nat (length content) + 20 * Z.of_nat n.
Proof.
  intros Hiv Hv Hne Hb Hg F a'. subst a'. induction n as [|n IH].
  - cbn [Nat.iter nat_rect]. split; [exact Hv|]. split; [intros; reflexivity|].
    split; [exact Hg|]. split; [exact Hne|lia].
  - destruct IH as (V & O & G & NE & L); [lia|].
    rewrite !Nat.iter_succ.
    change (F (Nat.iter n F content))
      with (frame_of (Nat.iter n F content) (Plugin.encryptionKey s) iv).
    set (c := Nat.iter n F content) in *. clearbody c.
    rewrite (encryptFile_writes s f _ c (frame_of c (Plugin.encryptionKey s) iv) V NE G)
      by (apply encryptText_frame; [lia|exact Hiv]).
    cbn [Plugin.vault Plugin.encrypt]. split; [apply modifyBinary_same|].
    split; [intros q Hq; rewrite modifyBinary_other by exact Hq; apply O, Hq|].
    split; [reflexivity|]. split; [apply frame_of_not_nil|].
    pose proof (length_frame_of_le c (Plugin.encryptionKey s) iv). lia.
Qed.

Lemma decryptFile_iter (s : Plugin.EncryptPluginSettings) (f : Plugin.TFile) (iv : WordArray)
  (n : nat) (content : list byte) :
  Encrypt.iv_words (Plugin.encryptionKey s) = Ok iv ->
  sigBytes (Encrypt.key_words (Plugin.encryptionKey s)) mod 4 = 0 ->
  Z.of_nat (length content) + 20 * Z.of_nat n <= 2 ^ 32 ->
  let F := fun c => frame_of c (Plugin.encryptionKey s) iv in
  forall a : Plugin.App,
    Plugin.vault a (Plugin.path f) = Some (Nat.iter n F content) ->
    Plugin.encrypt a = Encrypt.initial ->
    let a' := Nat.iter n (Plugin.decryptFile s (Some f)) a in
    Plugin.vault a' (Plugin.path f) = Some content /\
    (forall q, q <> Plugin.path f -> Plugin.vault a' q = Plugin.vault a q).
Proof.
  intros Hiv Hk Hb F. induction n as [|n IH]; intros a Hv Hg a'; subst a'.
  - cbn [Nat.iter nat_rect] in *. split; [exact Hv|]. intros; reflexivity.
  - rewrite Nat.iter_succ_r. rewrite Nat.iter_succ in Hv.
    assert (L : Z.of_nat (length (Nat.iter n F content))
                <= Z.of_nat (length content) + 20 * Z.of_nat n).
    { clear. induction n as [|n IHn]; [cbn [Nat.iter nat_rect]; lia|].
      rewrite Nat.iter_succ.
      change (F (Nat.iter n F content))
        with (frame_of (Nat.iter n F content) (Plugin.encryptionKey s) iv).
      pose proof (length_frame_of_le (Nat.iter n F content) (Plugin.encryptionKey s) iv).
      lia. }
    change (F (Nat.iter n F content))
      with (frame_of (Nat.iter n F content) (Plugin.encryptionKey s) iv) in Hv.
    specialize (IH ltac:(lia)).
    set (c := Nat.iter n F content) in *. clearbody c.
    rewrite (decryptFile_writes s f a _ c Hv Hg)
      by (apply decryptText_frame; [lia|exact Hiv|exact Hk]).
    destruct (IH (Plugin.mkApp (Plugin.modifyBinary (Plugin.vault a) f c)
                   (Plugin.notices a ++ [Plugin.DecryptSucceeded (Plugin.basename f)])
                   (Plugin.calls a) Encrypt.initial)) as (V & O);
      [apply modifyBinary_same|reflexivity|].
    split; [exact V|]. intros q Hq. rewrite O by exact Hq.
    cbn [Plugin.vault]. apply modifyBinary_other, Hq.
Qed.

(** X15.  [encryptFile] does not look whether a file is encrypted already, it
    wraps it once more; [n] runs of [decryptFile] after [n] runs of
    [encryptFile] on a file that is not empty give every file of the vault the
    content it had, for every key setting whose code units 16..47 encode to
    whole words (content below 2^32 - 20 n bytes). *)
Theorem as_many_decryptions_as_encryptions
  (s : Plugin.EncryptPluginSettings) (f : Plugin.TFile) (a : Plugin.App) (content : list byte)
  (n : nat) :
  Plugin.vault a (Plugin.path f) = Some content ->
  content <> [] ->
  Z.of_nat (length content) + 20 * Z.of_nat n <= 2 ^ 32 ->
  Z.of_nat (length (TextEncoder_encode (slice (Plugin.encryptionKey s) 16 48))) mod 4 = 0 ->
  Plugin.encrypt a = Encrypt.initial ->
  forall q,
    Plugin.vault (Nat.iter n (Plugin.decryptFile s (Some f))
                    (Nat.iter n (Plugin.encryptFile s (Some f)) a)) q
    = Plugin.vault a q.
Proof.
  intros Hv Hne Hb Hk Hg q.
  destruct (iv_words_total (Plugin.encryptionKey s)) as [iv Hiv].
  destruct (encryptFile_iter s f iv n a content Hiv Hv Hne Hb Hg) as (V & O & G & _ & _).
  destruct (decryptFile_iter s f iv n content Hiv Hk Hb _ V G) as (V' & O').
  destruct (list_eq_dec Z.eq_dec q (Plugin.path f)) as [->|Hq].
  - rewrite V'. symmetry. exact Hv.
  - rewrite O', O by exact Hq. reflexivity.
Qed.

Lemma as_many_decryptions_as_encryptions_witness :
  Plugin.vault (Nat.iter 2 (Plugin.decryptFile sample_settings (Some note))
                  (Nat.iter 2 (Plugin.encryptFile sample_settings (Some note)) plain_app))
    (Plugin.path note)
  = Plugin.vault plain_app (Plugin.path note).
Proof.
  apply (as_many_decryptions_as_encryptions sample_settings note plain_app hello_world 2).
  - reflexivity.
  - discriminate.
  - vm_compute. discriminate.
  - reflexivity.
  - reflexivity.
Defined.

(** ** The automatic mode *)

Lemma vault_call (c : Plugin.Call) (a : Plugin.App) :
  Plugin.vault (Plugin.call c a) = Plugin.vault a /\
  Plugin.encrypt (Plugin.call c a) = Plugin.encrypt a.
Proof. split; reflexivity. Qed.

Lemma same_file_false (f l : Plugin.TFile) :
  Plugin.same_file (Some f) (Some l) = false -> Plugin.path f <> Plugin.path l.
Proof.
  unfold Plugin.same_file.
  destruct (list_eq_dec Z.eq_dec (Plugin.path f) (Plugin.path l)); [discriminate|].
  intros _. assumption.
Qed.

Lemma same_file_true (x y : option Plugin.TFile) :
  Plugin.same_file x y = true ->
  match x, y with
  | Some f, Some l => Plugin.path f = Plugin.path l
  | None, None => True
  | _, _ => False
  end.
Proof.
  unfold Plugin.same_file. destruct x as [f|], y as [l|]; try discriminate; [|trivial].
  destruct (list_eq_dec Z.eq_dec (Plugin.path f) (Plugin.path l)); [trivial|discriminate].
Qed.

(** [decryptFile] on a file that holds what it held at the start. *)
Lemma decryptFile_in_session (s : Plugin.EncryptPluginSettings) (v0 : Plugin.Vault)
  (file : option Plugin.TFile) (a : Plugin.App) :
  sigBytes (Encrypt.key_words (Plugin.encryptionKey s)) mod 4 = 0 ->
  all_encrypted (Plugin.encryptionKey s) v0 ->
  Plugin.encrypt a = Encrypt.initial ->
  (forall f, file = Some f -> Plugin.vault a (Plugin.path f) = v0 (Plugin.path f)) ->
  let a' := Plugin.decryptFile s file a in
  Plugin.encrypt a' = Encrypt.initial /\
  match file with
  | Some f =>
      (forall q, q <> Plugin.path f -> Plugin.vault a' q = Plugin.vault a q) /\
      match v0 (Plugin.path f) with
      | Some frame =>
          exists plain,
            frame_under (Plugin.encryptionKey s) plain frame /\
            Plugin.vault a' (Plugin.path f) = Some plain
      | None => Plugin.vault a' (Plugin.path f) = None
      end
  | None => forall q, Plugin.vault a' q = Plugin.vault a q
  end.
Proof.
  intros Hk Hall Hg Hv a'. subst a'. destruct file as [f|].
  - specialize (Hv f eq_refl). destruct (v0 (Plugin.path f)) as [frame|] eqn:E0.
    + destruct (Hall _ _ E0) as (plain & Hfu).
      rewrite (decryptFile_writes s f a frame plain Hv Hg)
        by (apply frame_under_decrypt; assumption).
      cbn [Plugin.vault Plugin.encrypt]. split; [reflexivity|]. split.
      * intros q Hq. apply modifyBinary_other, Hq.
      * exists plain. split; [exact Hfu|apply modifyBinary_same].
    + unfold Plugin.decryptFile, Plugin.readBinary. rewrite Hv.
      cbn [Plugin.notify Plugin.vault Plugin.encrypt]. split; [exact Hg|].
      split; [reflexivity|exact Hv].
  - cbn. split; [exact Hg|reflexivity].
Qed.

(** [encryptFile] on the file opened last. *)
Lemma encryptFile_in_session (s : Plugin.EncryptPluginSettings) (v0 : Plugin.Vault)
  (l : Plugin.TFile) (a : Plugin.App) :
  Plugin.encrypt a = Encrypt.initial ->
  match v0 (Plugin.path l) with
  | Some frame =>
      exists plain,
        frame_under (Plugin.encryptionKey s) plain frame /\
        Plugin.vault a (Plugin.path l) = Some plain
  | None => Plugin.vault a (Plugin.path l) = None
  end ->
  let a' := Plugin.encryptFile s (Some l) a in
  Plugin.encrypt a' = Encrypt.initial /\
  Plugin.vault a' (Plugin.path l) = v0 (Plugin.path l) /\
  (forall q, q <> Plugin.path l -> Plugin.vault a' q = Plugin.vault a q).
Proof.
  intros Hg Hl a'. subst a'. destruct (v0 (Plugin.path l)) as [frame|].
  - destruct Hl as (plain & (Hne & Hb & He) & Hv).
    rewrite (encryptFile_writes s l a plain frame Hv Hne Hg He).
    cbn [Plugin.vault Plugin.encrypt]. split; [reflexivity|].
    split; [apply modifyBinary_same|]. intros q Hq. apply modifyBinary_other, Hq.
  - unfold Plugin.encryptFile, Plugin.readBinary. rewrite Hl.
    cbn [Plugin.notify Plugin.vault Plugin.encrypt]. split; [exact Hg|].
    split; [exact Hl|reflexivity].
Qed.

Lemma session_step (s : Plugin.EncryptPluginSettings) (v0 : Plugin.Vault)
  (file : option Plugin.TFile) (st : Plugin.EncryptPlugin * Plugin.App) :
  Plugin.autoEncryptionDecryption s = true ->
  sigBytes (Encrypt.key_words (Plugin.encryptionKey s)) mod 4 = 0 ->
  all_encrypted (Plugin.encryptionKey s) v0 ->
  session_invariant s v0 st ->
  session_invariant s v0 (Plugin.on_file_open file st).
Proof.
  intros Hauto Hk Hall. destruct st as [p a]. intros (Hs & Hg & Hv).
  unfold Plugin.on_file_open. rewrite Hs, Hauto. cbn [negb].
  set (a1 := if Plugin.onFileOpen p then Plugin.call (Plugin.OnFileOpen file) a else a).
  assert (H1 : Plugin.vault a1 = Plugin.vault a /\ Plugin.encrypt a1 = Plugin.encrypt a)
    by (unfold a1; destruct (Plugin.onFileOpen p); split; reflexivity).
  destruct H1 as (V1 & G1). clearbody a1.
  destruct (Plugin.same_file file (Plugin.lastActiveFile p)) eqn:Esame; cbn [negb].
  - (* the file that is open already *)
    unfold session_invariant.
    cbn [Plugin.call Plugin.vault Plugin.encrypt].
    rewrite V1, G1. split; [exact Hs|]. split; [exact Hg|exact Hv].
  - (* another file *)
    assert (Hfresh : forall f, file = Some f ->
              Plugin.vault a1 (Plugin.path f) = v0 (Plugin.path f)).
    { intros f ->. rewrite V1. specialize (Hv (Plugin.path f)).
      destruct (Plugin.lastActiveFile p) as [l|]; [|exact Hv].
      apply same_file_false in Esame.
      destruct (list_eq_dec Z.eq_dec (Plugin.path f) (Plugin.path l)); [contradiction|exact Hv]. }
    pose proof (decryptFile_in_session s v0 file a1 Hk Hall
                  ltac:(rewrite G1; exact Hg) Hfresh) as HD.
    cbv zeta in HD. set (a2 := Plugin.decryptFile s file a1) in *.
    destruct HD as (G2 & HD). clearbody a2.
    unfold session_invariant. cbn [Plugin.settings Plugin.lastActiveFile].
    cbn [Plugin.call Plugin.vault Plugin.encrypt].
    destruct (Plugin.lastActiveFile p) as [l|] eqn:El.
    + (* a file was open: it is encrypted again *)
      assert (Hl : match v0 (Plugin.path l) with
                   | Some frame =>
                       exists plain,
                         frame_under (Plugin.encryptionKey s) plain frame /\
                         Plugin.vault a2 (Plugin.path l) = Some plain
                   | None => Plugin.vault a2 (Plugin.path l) = None
                   end).
      { pose proof (Hv (Plugin.path l)) as Hvl.
        destruct (list_eq_dec Z.eq_dec (Plugin.path l) (Plugin.path l)); [|contradiction].
        assert (E : Plugin.vault a2 (Plugin.path l) = Plugin.vault a (Plugin.path l)).
        { destruct file as [f|].
          - destruct HD as (HO & _). rewrite HO, V1; [reflexivity|].
            apply same_file_false in Esame. congruence.
          - rewrite HD, V1. reflexivity. }
        rewrite E. exact Hvl. }
      pose proof (encryptFile_in_session s v0 l a2 G2 Hl) as HE. cbv zeta in HE.
      set (a3 := Plugin.encryptFile s (Some l) a2) in *.
      destruct HE as (G3 & V3 & O3). clearbody a3.
      split; [reflexivity|]. split; [exact G3|]. intros q.
      destruct file as [f|].
      * destruct HD as (HO & HF). apply same_file_false in Esame.
        destruct (list_eq_dec Z.eq_dec q (Plugin.path f)) as [->|Hqf].
        -- rewrite O3 by exact Esame. exact HF.
        -- destruct (list_eq_dec Z.eq_dec q (Plugin.path l)) as [->|Hql];
             [exact V3|].
           rewrite O3, HO, V1 by assumption. specialize (Hv q).
           destruct (list_eq_dec Z.eq_dec q (Plugin.path l)); [contradiction|exact Hv].
      * destruct (list_eq_dec Z.eq_dec q (Plugin.path l)) as [->|Hql]; [exact V3|].
        rewrite O3, HD, V1 by assumption. specialize (Hv q).
        destruct (list_eq_dec Z.eq_dec q (Plugin.path l)); [contradiction|exact Hv].
    + (* no file was open *)
      split; [reflexivity|]. split; [exact G2|]. intros q.
      destruct file as [f|].
      * destruct HD as (HO & HF).
        destruct (list_eq_dec Z.eq_dec q (Plugin.path f)) as [->|Hqf]; [exact HF|].
        rewrite HO, V1 by assumption. apply Hv.
      * discriminate Esame.
Qed.

Lemma session_quit (s : Plugin.EncryptPluginSettings) (v0 : Plugin.Vault)
  (st : Plugin.EncryptPlugin * Plugin.App) :
  Plugin.autoEncryptionDecryption s = true ->
  session_invariant s v0 st ->
  forall q, Plugin.vault (snd (Plugin.on_quit st)) q = v0 q.
Proof.
  intros Hauto. destruct st as [p a]. intros (Hs & Hg & Hv) q.
  unfold Plugin.on_quit. rewrite Hs, Hauto. cbn [negb].
  destruct (Plugin.lastActiveFile p) as [l|]; [|apply Hv]. cbn [snd].
  assert (Hl : match v0 (Plugin.path l) with
               | Some frame =>
                   exists plain,
                     frame_under (Plugin.encryptionKey s) plain frame /\
                     Plugin.vault a (Plugin.path l) = Some plain
               | None => Plugin.vault a (Plugin.path l) = None
               end).
  { pose proof (Hv (Plugin.path l)) as Hvl.
    destruct (list_eq_dec Z.eq_dec (Plugin.path l) (Plugin.path l)); [exact Hvl|contradiction]. }
  destruct (encryptFile_in_session s v0 l a Hg Hl) as (_ & V3 & O3).
  destruct (list_eq_dec Z.eq_dec q (Plugin.path l)) as [->|Hql]; [exact V3|].
  rewrite O3 by exact Hql. specialize (Hv q).
  destruct (list_eq_dec Z.eq_dec q (Plugin.path l)); [contradiction|exact Hv].
Qed.

(** X16.  The automatic mode, with every event handled to its end before the
    next, and a key setting whose code units 16..47 encode to whole words.
    From a vault in which every file holds the frame of a plaintext that is
    not empty (and below 2^32 - 20 bytes), and with no file open, after any
    sequence of [file-open] events the file opened last holds its plaintext
    and every other file holds the frame it held at the start; after the
    [quit] event every file holds the frame it held at the start. *)
Theorem automatic_mode_session (p0 : Plugin.EncryptPlugin) (a0 : Plugin.App)
  (events : list (option Plugin.TFile)) :
  Plugin.autoEncryptionDecryption (Plugin.settings p0) = true ->
  Z.of_nat (length (TextEncoder_encode
                      (slice (Plugin.encryptionKey (Plugin.settings p0)) 16 48))) mod 4 = 0 ->
  Plugin.lastActiveFile p0 = None ->
  Plugin.encrypt a0 = Encrypt.initial ->
  all_encrypted (Plugin.encryptionKey (Plugin.settings p0)) (Plugin.vault a0) ->
  let st := fold_left (fun st file => Plugin.on_file_open file st) events (p0, a0) in
  session_invariant (Plugin.settings p0) (Plugin.vault a0) st /\
  forall q, Plugin.vault (snd (Plugin.on_quit st)) q = Plugin.vault a0 q.
Proof.
  intros Hauto Hk Hlast Hg Hall st.
  assert (I : session_invariant (Plugin.settings p0) (Plugin.vault a0) st).
  { subst st.
    assert (I0 : session_invariant (Plugin.settings p0) (Plugin.vault a0) (p0, a0)).
    { unfold session_invariant. rewrite Hlast. split; [reflexivity|]. split; [exact Hg|].
      intros; reflexivity. }
    generalize dependent (p0, a0). intros st0.
    set (s := Plugin.settings p0) in *. set (v0 := Plugin.vault a0) in *.
    clearbody s v0. revert st0.
    induction events as [|file events IH]; intros st0 I0; [exact I0|].
    cbn [fold_left]. apply IH. apply session_step; assumption. }
  split; [exact I|]. apply (session_quit (Plugin.settings p0)); assumption.
Qed.

Lemma automatic_mode_session_witness :
  session_invariant sample_settings encrypted_vault
    (fold_left (fun st file => Plugin.on_file_open file st) [Some note; None; Some note]
       (sample_plugin, encrypted_app)) /\
  forall q,
    Plugin.vault
      (snd (Plugin.on_quit
              (fold_left (fun st file => Plugin.on_file_open file st)
                 [Some note; None; Some note] (sample_plugin, encrypted_app)))) q
    = encrypted_vault q.
Proof.
  apply (automatic_mode_session sample_plugin encrypted_app [Some note; None; Some note]).
  - reflexivity.
  - reflexivity.
  - reflexivity.
  - reflexivity.
  - intros q frame. cbn [Plugin.vault encrypted_app]. unfold encrypted_vault.
    destruct (list_eq_dec Z.eq_dec q (Plugin.path note)); [|discriminate].
    intros E. injection E as <-. exists hello_world.
    split; [discriminate|]. split; [vm_compute; discriminate|].
    vm_compute. reflexivity.
Defined.

(** ** The document list *)

Lemma startsWith_spec (s prefix : jsstring) :
  Plugin.startsWith s prefix = true <-> exists rest, s = prefix ++ rest.
Proof.
  revert s. induction prefix as [|p prefix IH]; intros s.
  - split; [intros _; exists s; reflexivity|]. intros _. destruct s; reflexivity.
  - destruct s as [|c s]; cbn [Plugin.startsWith].
    + split; [discriminate|]. intros (rest & E). discriminate E.
    + rewrite andb_true_iff, Z.eqb_eq, IH. split.
      * intros (-> & rest & ->). exists rest. reflexivity.
      * intros (rest & E). injection E as -> ->. split; [reflexivity|]. exists rest. reflexivity.
Qed.

Lemma trimStart_blank (s : jsstring) :
  forallb Plugin.is_white_space s = true -> Plugin.trimStart s = [].
Proof.
  induction s as [|c s IH]; [reflexivity|]. cbn [forallb Plugin.trimStart].
  rewrite andb_true_iff. intros (-> & H). apply IH, H.
Qed.

Lemma trim_blank (s : jsstring) :
  forallb Plugin.is_white_space s = true -> Plugin.trim s = [].
Proof. intros H. unfold Plugin.trim. rewrite (trimStart_blank s H). reflexivity. Qed.

(** X17.  [getDocumentFiles] lists a file of the vault exactly when its path
    begins with the directory setting stripped of surrounding white space, as
    a plain prefix of the path; a setting of white space only lists every
    file. *)
Theorem getDocumentFiles_lists (s : Plugin.EncryptPluginSettings) (files : list Plugin.TFile) :
  (forallb Plugin.is_white_space (Plugin.documentDirectory s) = true ->
   Plugin.getDocumentFiles s files = files) /\
  (forall f,
     In f (Plugin.getDocumentFiles s files) <->
     In f files /\
     exists rest, Plugin.path f = Plugin.trim (Plugin.documentDirectory s) ++ rest).
Proof.
  unfold Plugin.getDocumentFiles. split.
  - intros H. rewrite trim_blank by exact H. reflexivity.
  - intros f. destruct (Plugin.trim (Plugin.documentDirectory s)) as [|c d] eqn:E.
    + cbn [length Nat.eqb app]. split; [|tauto].
      intros H. split; [exact H|]. exists (Plugin.path f). reflexivity.
    + cbn [length Nat.eqb]. rewrite filter_In, startsWith_spec. reflexivity.
Qed.

(** ** The file operations over the lineage without the marker *)

(** X18.  Over the class without the marker, [decryptFile] has no way to tell
    a file that was never encrypted: every readable file of at least 255 bytes
    is replaced by what decryption makes of it, with the notice of success. *)
Theorem legacy_decryptFile_overwrites
  (s : Plugin.EncryptPluginSettings) (f : Plugin.TFile) (a : Plugin.App) (content : list byte) :
  Plugin.vault a (Plugin.path f) = Some content ->
  (255 <= length content)%nat ->
  exists out,
    Legacy.decryptText content (Plugin.encryptionKey s) = Legacy.Returned out /\
    Z.of_nat (length content) - 255 <= Z.of_nat (length out) <= Z.of_nat (length content) /\
    Plugin.vault (LegacyPlugin.decryptFile s (Some f) a)
    = Plugin.modifyBinary (Plugin.vault a) f out /\
    Plugin.notices (LegacyPlugin.decryptFile s (Some f) a)
    = Plugin.notices a ++ [Plugin.DecryptSucceeded (Plugin.basename f)].
Proof.
  intros Hv Hl.
  destruct (Legacy_decryptText_outcomes content (Plugin.encryptionKey s))
    as [(out & E & Hout)|(_ & Hshort)]; [|lia].
  exists out. split; [exact E|]. split; [exact Hout|].
  unfold LegacyPlugin.decryptFile, Plugin.readBinary. rewrite Hv, E.
  split; reflexivity.
Qed.

Lemma legacy_decryptFile_overwrites_witness :
  exists out,
    Legacy.decryptText (repeat Byte.x20 300) (Plugin.encryptionKey sample_settings)
    = Legacy.Returned out /\
    Z.of_nat (length (repeat Byte.x20 300)) - 255 <= Z.of_nat (length out)
    <= Z.of_nat (length (repeat Byte.x20 300)) /\
    Plugin.vault (LegacyPlugin.decryptFile sample_settings (Some note)
                    (Plugin.mkApp (fun _ => Some (repeat Byte.x20 300)) [] [] Encrypt.initial))
    = Plugin.modifyBinary (fun _ => Some (repeat Byte.x20 300)) note out /\
    Plugin.notices (LegacyPlugin.decryptFile sample_settings (Some note)
                      (Plugin.mkApp (fun _ => Some (repeat Byte.x20 300)) [] [] Encrypt.initial))
    = [] ++ [Plugin.DecryptSucceeded (Plugin.basename note)].
Proof.
  apply (legacy_decryptFile_overwrites sample_settings note
           (Plugin.mkApp (fun _ => Some (repeat Byte.x20 300)) [] [] Encrypt.initial)
           (repeat Byte.x20 300)).
  - reflexivity.
  - apply Nat.leb_le. reflexivity.
Defined.

(** X19.  Over the class without the marker too, [decryptFile] after
    [encryptFile] on a file that is not empty gives every file of the vault
    the content it had and shows the two notices of success, for every key
    setting whose code units 16..47 encode to whole words (files below 2^32 -
    20 bytes). *)
Theorem legacy_decryptFile_undoes_encryptFile
  (s : Plugin.EncryptPluginSettings) (f : Plugin.TFile) (a : Plugin.App) (content : list byte) :
  Plugin.vault a (Plugin.path f) = Some content ->
  content <> [] ->
  Z.of_nat (length content) + 20 <= 2 ^ 32 ->
  Z.of_nat (length (TextEncoder_encode (slice (Plugin.encryptionKey s) 16 48))) mod 4 = 0 ->
  let a' := LegacyPlugin.decryptFile s (Some f) (LegacyPlugin.encryptFile s (Some f) a) in
  (forall q, Plugin.vault a' q = Plugin.vault a q) /\
  Plugin.notices a'
  = Plugin.notices a ++ [Plugin.EncryptSucceeded (Plugin.basename f);
                         Plugin.DecryptSucceeded (Plugin.basename f)].
Proof.
  intros Hv Hne Hb Hk a'. subst a'.
  destruct (iv_words_total (Plugin.encryptionKey s)) as [iv Hiv].
  pose proof (Legacy_encryptText_spec content _ iv Hb Hiv) as He.
  pose proof (Legacy_decryptText_spec content _ iv Hb Hiv Hk) as Hd.
  unfold LegacyPlugin.encryptFile, Plugin.readBinary. rewrite Hv.
  destruct content as [|b r]; [contradiction|]. cbn [length Nat.eqb]. rewrite He.
  set (out := bytes_of _ _) in *. clearbody out.
  unfold LegacyPlugin.decryptFile, Plugin.readBinary.
  cbn [Plugin.notify Plugin.vault Plugin.notices Plugin.calls Plugin.encrypt].
  rewrite modifyBinary_same, Hd.
  cbn [Plugin.notify Plugin.vault Plugin.notices Plugin.calls Plugin.encrypt]. split.
  - intros q. destruct (list_eq_dec Z.eq_dec q (Plugin.path f)) as [->|Hq].
    + rewrite modifyBinary_same. symmetry. exact Hv.
    + rewrite !modifyBinary_other by exact Hq. reflexivity.
  - rewrite <- app_assoc. reflexivity.
Qed.

Lemma legacy_decryptFile_undoes_encryptFile_witness :
  (forall q,
     Plugin.vault (LegacyPlugin.decryptFile sample_settings (Some note)
                     (LegacyPlugin.encryptFile sample_settings (Some note) plain_app)) q
     = Plugin.vault plain_app q) /\
  Plugin.notices (LegacyPlugin.decryptFile sample_settings (Some note)
                    (LegacyPlugin.encryptFile sample_settings (Some note) plain_app))
  = Plugin.notices plain_app ++ [Plugin.EncryptSucceeded (Plugin.basename note);
                                 Plugin.DecryptSucceeded (Plugin.basename note)].
Proof.
  apply (legacy_decryptFile_undoes_encryptFile sample_settings note plain_app hello_world).
  - reflexivity.
  - discriminate.
  - vm_compute. discriminate.
  - reflexivity.
Defined.

(** * The revision that reads the key through Buffer *)

Lemma Buffer_iv_words_ascii (K : jsstring) :
  is_ascii K -> BufferPlugin.iv_words K = Encrypt.iv_words K.
Proof.
  intros H. unfold BufferPlugin.iv_words, Encrypt.iv_words,
    BufferPlugin.Buffer_toString_utf8, BufferPlugin.Buffer_from_utf8.
  pose proof (is_ascii_slice K 0 16 H) as Hs.
  rewrite encode_ascii, decode_ascii, decode_run_ascii, utf16_ascii by assumption.
  reflexivity.
Qed.

Lemma Buffer_encryptText_eq (P : list byte) (K : jsstring) :
  BufferPlugin.iv_words K = Encrypt.iv_words K ->
  BufferPlugin.encryptText P K = Legacy.encryptText P K.
Proof.
  intros E. unfold BufferPlugin.encryptText, Legacy.encryptText. rewrite E. reflexivity.
Qed.

Lemma Buffer_decryptText_eq (buf : list byte) (K : jsstring) :
  BufferPlugin.iv_words K = Encrypt.iv_words K ->
  BufferPlugin.decryptText buf K = Legacy.decryptText buf K.
Proof.
  intros E. unfold BufferPlugin.decryptText, Legacy.decryptText. rewrite E. reflexivity.
Qed.

(** ** One code point through the encoder and the decoder *)

Lemma lor_high (C x k : Z) :
  0 <= k -> 0 <= x < 2 ^ k -> 0 <= C -> C mod 2 ^ k = 0 -> Z.lor C x = C + x.
Proof.
  intros Hk Hx HC Hm.
  destruct (Z.eq_dec x 0) as [->|Hx0]; [rewrite Z.lor_0_r; lia|].
  apply Z.or_to_plus.
  apply Z.bits_inj'. intros i Hi. rewrite Z.land_spec, Z.bits_0.
  destruct (Z.lt_ge_cases i k).
  - replace C with (2 ^ k * (C / 2 ^ k)) by (Z.div_mod_to_equations; lia).
    rewrite Z.mul_comm, Z.mul_pow2_bits_low by lia. reflexivity.
  - rewrite (Z.bits_above_log2 x i); [apply andb_false_r|lia|].
    apply Z.lt_le_trans with k; [|lia]. apply Z.log2_lt_pow2; lia.
Qed.

Lemma land_mask (b k : Z) (m : Z) : 0 <= k -> m = Z.ones k -> Z.land b m = b mod 2 ^ k.
Proof. intros Hk ->. apply land_low, Hk. Qed.

Lemma decode_run_cons (st : utf8_decoder) (b : byte) (r : list byte) :
  decode_run st (b :: r)
  = snd (decode_byte st (byte.unsigned b)) ++ decode_run (fst (decode_byte st (byte.unsigned b))) r.
Proof. cbn [decode_run]. destruct (decode_byte st (byte.unsigned b)). reflexivity. Qed.

Lemma decode_byte_lead (b : Z) : decode_byte decoder_init b = decode_lead b.
Proof. reflexivity. Qed.

Lemma decode_byte_continue (cp seen needed lo hi b : Z) :
  needed <> 0 -> lo <= b <= hi ->
  decode_byte (mkDecoder cp seen needed lo hi) b
  = (if seen + 1 =? needed then (decoder_init, [Z.lor (Z.shiftl cp 6) (Z.land b 63)])
     else (mkDecoder (Z.lor (Z.shiftl cp 6) (Z.land b 63)) (seen + 1) needed 128 191, [])).
Proof.
  intros Hn Hb. unfold decode_byte. cbn [bytes_needed lower_boundary upper_boundary
                                          code_point bytes_seen].
  destruct (Z.eqb_spec needed 0); [contradiction|].
  destruct (Z.ltb_spec b lo); [lia|]. destruct (Z.ltb_spec hi b); [lia|]. reflexivity.
Qed.

Lemma decode_byte_last (cp seen needed lo hi b : Z) :
  needed <> 0 -> lo <= b <= hi -> seen + 1 = needed ->
  decode_byte (mkDecoder cp seen needed lo hi) b
  = (decoder_init, [Z.lor (Z.shiftl cp 6) (Z.land b 63)]).
Proof.
  intros Hn Hb Hl. rewrite decode_byte_continue by assumption.
  destruct (Z.eqb_spec (seen + 1) needed); [reflexivity|contradiction].
Qed.

Lemma decode_byte_more (cp seen needed lo hi b : Z) :
  needed <> 0 -> lo <= b <= hi -> seen + 1 <> needed ->
  decode_byte (mkDecoder cp seen needed lo hi) b
  = (mkDecoder (Z.lor (Z.shiftl cp 6) (Z.land b 63)) (seen + 1) needed 128 191, []).
Proof.
  intros Hn Hb Hl. rewrite decode_byte_continue by assumption.
  destruct (Z.eqb_spec (seen + 1) needed); [contradiction|reflexivity].
Qed.

Ltac by_cases :=
  repeat match goal with
         | |- context [?a <=? ?b] => destruct (Z.leb_spec a b); try lia
         | |- context [?a <? ?b] => destruct (Z.ltb_spec a b); try lia
         | |- context [?a =? ?b] => destruct (Z.eqb_spec a b); try lia
         end.

Lemma decode_lead_1 (b : Z) : b <= 127 -> decode_lead b = (decoder_init, [b]).
Proof. intros H. unfold decode_lead. destruct (Z.leb_spec b 127); [reflexivity|lia]. Qed.

Lemma decode_lead_2 (b : Z) :
  194 <= b <= 223 -> decode_lead b = (mkDecoder (Z.land b 31) 0 1 128 191, []).
Proof.
  intros H. unfold decode_lead. destruct (Z.leb_spec b 127); [lia|].
  destruct (Z.leb_spec 194 b); [|lia]. destruct (Z.leb_spec b 223); [|lia]. reflexivity.
Qed.

Lemma decode_lead_3 (b : Z) :
  224 <= b <= 239 ->
  decode_lead b
  = (mkDecoder (Z.land b 15) 0 2 (if b =? 224 then 160 else 128)
       (if b =? 237 then 159 else 191), []).
Proof.
  intros H. unfold decode_lead. destruct (Z.leb_spec b 127); [lia|].
  destruct (Z.leb_spec 194 b); [|lia]. destruct (Z.leb_spec b 223); [lia|]. cbn [andb].
  destruct (Z.leb_spec 224 b); [|lia]. destruct (Z.leb_spec b 239); [|lia]. reflexivity.
Qed.

Lemma decode_lead_4 (b : Z) :
  240 <= b <= 244 ->
  decode_lead b
  = (mkDecoder (Z.land b 7) 0 3 (if b =? 240 then 144 else 128)
       (if b =? 244 then 143 else 191), []).
Proof.
  intros H. unfold decode_lead. destruct (Z.leb_spec b 127); [lia|].
  destruct (Z.leb_spec 194 b); [|lia]. destruct (Z.leb_spec b 223); [lia|]. cbn [andb].
  destruct (Z.leb_spec 224 b); [|lia]. destruct (Z.leb_spec b 239); [lia|]. cbn [andb].
  destruct (Z.leb_spec 240 b); [|lia]. destruct (Z.leb_spec b 244); [|lia]. reflexivity.
Qed.

Ltac dm := Z.div_mod_to_equations; lia.

(** The bytes [utf8_bytes] writes for a scalar value are read back as that
    value. *)
Lemma decode_one (cp : Z) (rest : list byte) :
  scalar cp ->
  decode_run decoder_init (utf8_bytes cp ++ rest) = cp :: decode_run decoder_init rest.
Proof.
  intros Hs. unfold scalar in Hs. unfold utf8_bytes.
  assert (S6 : Z.shiftr cp 6 = cp / 64) by (rewrite Z.shiftr_div_pow2 by lia; reflexivity).
  assert (S12 : Z.shiftr cp 12 = cp / 4096) by (rewrite Z.shiftr_div_pow2 by lia; reflexivity).
  assert (S18 : Z.shiftr cp 18 = cp / 262144) by (rewrite Z.shiftr_div_pow2 by lia; reflexivity).
  assert (M : forall x, Z.land x 63 = x mod 64)
    by (intros x; apply (land_mask x 6); [lia|reflexivity]).
  destruct (Z.ltb_spec cp 128); [|destruct (Z.ltb_spec cp 2048); [|destruct (Z.ltb_spec cp 65536)]].
  - (* one byte *)
    cbn [app]. rewrite decode_run_cons, decode_byte_lead.
    rewrite unsigned_of_Z_byte by (unfold is_byte; lia).
    rewrite decode_lead_1 by lia. reflexivity.
  - (* two bytes *)
    cbn [app]. rewrite S6, M.
    rewrite (lor_high 192 (cp / 64) 5), (lor_high 128 (cp mod 64) 6)
      by (try reflexivity; dm).
    rewrite !decode_run_cons, decode_byte_lead.
    rewrite !unsigned_of_Z_byte by (unfold is_byte; dm).
    rewrite decode_lead_2 by dm. cbn [fst snd app].
    rewrite decode_byte_last by dm. cbn [fst snd app].
    f_equal. rewrite (land_mask _ 5) by (try reflexivity; lia).
    rewrite continuation by dm. dm.
  - (* three bytes *)
    cbn [app]. rewrite S6, S12, !M.
    rewrite (lor_high 224 (cp / 4096) 4), (lor_high 128 (cp / 64 mod 64) 6),
      (lor_high 128 (cp mod 64) 6)
      by (try reflexivity; dm).
    rewrite !decode_run_cons, decode_byte_lead.
    rewrite !unsigned_of_Z_byte by (unfold is_byte; dm).
    rewrite decode_lead_3 by dm. cbn [fst snd app].
    rewrite decode_byte_more by (try discriminate; by_cases; dm).
    cbn [fst snd app].
    rewrite decode_byte_last by dm.
    cbn [fst snd app].
    f_equal. rewrite (land_mask _ 4) by (try reflexivity; lia).
    rewrite (continuation (_ mod 2 ^ 4)) by dm.
    rewrite continuation by dm. dm.
  - (* four bytes *)
    cbn [app]. rewrite S6, S12, S18, !M.
    rewrite (lor_high 240 (cp / 262144) 3), (lor_high 128 (cp / 4096 mod 64) 6),
      (lor_high 128 (cp / 64 mod 64) 6), (lor_high 128 (cp mod 64) 6)
      by (try reflexivity; dm).
    rewrite !decode_run_cons, decode_byte_lead.
    rewrite !unsigned_of_Z_byte by (unfold is_byte; dm).
    rewrite decode_lead_4 by dm. cbn [fst snd app].
    rewrite decode_byte_more by (try discriminate; by_cases; dm).
    cbn [fst snd app].
    rewrite decode_byte_more by dm.
    cbn [fst snd app].
    rewrite decode_byte_last by dm.
    cbn [fst snd app].
    f_equal. rewrite (land_mask _ 3) by (try reflexivity; lia).
    rewrite (continuation (_ mod 2 ^ 3)) by dm.
    rewrite (continuation (_ * 64 + _)) by dm.
    rewrite continuation by dm. dm.
Qed.

(** The first code point the decoder reads from an encoded string is a
    byte order mark only if the string begins with one. *)
Lemma first_code_point (c : Z) (r : jsstring) :
  0 <= c < 65536 -> c <> 65279 ->
  exists cp cps,
    decode_run decoder_init (TextEncoder_encode (c :: r)) = cp :: cps /\ cp <> 65279.
Proof.
  intros Hc Hne. cbn [TextEncoder_encode].
  assert (R : scalar 65533) by (unfold scalar; lia).
  unfold is_high_surrogate, is_low_surrogate.
  destruct (Z.leb_spec 55296 c); [destruct (Z.leb_spec c 56319)|]; cbn [andb].
  - (* a high surrogate *)
    destruct r as [|d r'].
    + rewrite <- (app_nil_r (utf8_bytes 65533)), decode_one by exact R.
      eexists. eexists. split; [reflexivity|lia].
    + destruct (Z.leb_spec 56320 d); [destruct (Z.leb_spec d 57343)|]; cbn [andb].
      * rewrite decode_one by (unfold scalar; lia).
        eexists. eexists. split; [reflexivity|lia].
      * rewrite decode_one by exact R. eexists. eexists. split; [reflexivity|lia].
      * rewrite decode_one by exact R. eexists. eexists. split; [reflexivity|lia].
  - destruct (Z.leb_spec 56320 c); [destruct (Z.leb_spec c 57343)|]; cbn [andb].
    + rewrite decode_one by exact R. eexists. eexists. split; [reflexivity|lia].
    + rewrite decode_one by (unfold scalar; lia).
      eexists. eexists. split; [reflexivity|exact Hne].
    + lia.
  - destruct (Z.leb_spec 56320 c); [lia|]. cbn [andb].
    rewrite decode_one by (unfold scalar; lia).
    eexists. eexists. split; [reflexivity|exact Hne].
Qed.

Lemma Buffer_iv_words_eq (K : jsstring) :
  is_string K -> nth 0 K 0 <> 65279 -> BufferPlugin.iv_words K = Encrypt.iv_words K.
Proof.
  intros HK Hne. unfold BufferPlugin.iv_words, Encrypt.iv_words,
    BufferPlugin.Buffer_toString_utf8, BufferPlugin.Buffer_from_utf8, TextDecoder_decode.
  destruct K as [|c r]; [reflexivity|].
  change (slice (c :: r) 0 16) with (c :: firstn 15 r). cbn [nth] in Hne.
  destruct (first_code_point c (firstn 15 r)) as (cp & cps & E & Hcp).
  - unfold is_string in HK. apply Forall_inv in HK. exact HK.
  - exact Hne.
  - rewrite E. destruct (Z.eqb_spec cp 65279); [contradiction|reflexivity].
Qed.

(** X20.  The revision that reads the key through [Buffer] and the one that
    reads it through [TextEncoder] and [TextDecoder] compute the same
    [encryptText] and the same [decryptText] for every key string of 16-bit
    code units that does not begin with U+FEFF. *)
Theorem buffer_revision_agrees (K : jsstring) :
  is_string K -> nth 0 K 0 <> 65279 ->
  (forall P, BufferPlugin.encryptText P K = Legacy.encryptText P K) /\
  (forall buf, BufferPlugin.decryptText buf K = Legacy.decryptText buf K).
Proof.
  intros HK Hne. pose proof (Buffer_iv_words_eq K HK Hne) as E. split.
  - intros P. apply Buffer_encryptText_eq, E.
  - intros buf. apply Buffer_decryptText_eq, E.
Qed.

Lemma buffer_revision_agrees_witness :
  (forall P, BufferPlugin.encryptText P sample_key_e_acute
             = Legacy.encryptText P sample_key_e_acute) /\
  (forall buf, BufferPlugin.decryptText buf sample_key_e_acute
               = Legacy.decryptText buf sample_key_e_acute).
Proof.
  apply (buffer_revision_agrees sample_key_e_acute).
  - unfold is_string. apply Forall_forall. intros c Hc. vm_compute in Hc.
    repeat (destruct Hc as [<-|Hc]; [lia|]). destruct Hc.
  - vm_compute. discriminate.
Defined.

(** * The key generator *)

Lemma hex_digit_lower (d : Z) : 0 <= d < 16 -> lower_hex (SHA256.hex_digit d).
Proof.
  intros H. unfold SHA256.hex_digit, lower_hex.
  destruct (Z.ltb_spec d 10); lia.
Qed.

Lemma toString16_digit (d : Z) : 0 <= d < 16 -> SHA256.toString16 d = [SHA256.hex_digit d].
Proof.
  intros H. unfold SHA256.toString16. cbn [SHA256.toString16_from].
  rewrite Z.mod_small, Z.div_small by lia. reflexivity.
Qed.

Lemma ushr_4_byte (b : Z) : is_byte b -> 0 <= ushr b 4 < 16.
Proof.
  unfold is_byte, ushr, u32. intros H. change (4 mod 32) with 4.
  rewrite Z.mod_small by lia. rewrite Z.shiftr_div_pow2 by lia.
  change (2 ^ 4) with 16. Z.div_mod_to_equations. lia.
Qed.

Lemma band_15 (b : Z) : 0 <= band b 15 < 16.
Proof.
  unfold band, u32. change 15 with (Z.ones 4). rewrite Z.land_ones by lia.
  rewrite Z.mod_small; Z.div_mod_to_equations; lia.
Qed.

(** [Hex.stringify] writes two lower-case digits for each byte. *)
Lemma Hex_stringify_loop (ws : list Z) (n : nat) :
  let hexChars :=
    for_loop n
      (fun i hexChars =>
         let bite := band (ushr (get ws (ushr i 2)) (24 - (i mod 4) * 8)) 255 in
         (hexChars ++ [SHA256.toString16 (ushr bite 4)]) ++ [SHA256.toString16 (band bite 15)])
      [] in
  length (concat hexChars) = (2 * n)%nat /\ Forall lower_hex (concat hexChars).
Proof.
  cbv zeta. induction n as [|n IH]; [split; [reflexivity|constructor]|].
  rewrite for_loop_S. destruct IH as (L & F).
  set (bite := band _ 255).
  assert (Hb : is_byte bite) by apply is_byte_land.
  rewrite !toString16_digit by (try apply ushr_4_byte; try apply band_15; assumption).
  rewrite !concat_app. cbn [concat app]. rewrite !length_app, L. cbn [length].
  split; [lia|].
  rewrite !Forall_app. split; [split; [exact F|]|].
  - constructor; [|constructor]. apply hex_digit_lower, ushr_4_byte, Hb.
  - constructor; [|constructor]. apply hex_digit_lower, band_15.
Qed.

Lemma Hex_stringify_spec (w : WordArray) :
  0 <= sigBytes w ->
  Z.of_nat (length (SHA256.Hex_stringify w)) = 2 * sigBytes w /\
  Forall lower_hex (SHA256.Hex_stringify w).
Proof.
  intros H. unfold SHA256.Hex_stringify.
  pose proof (Hex_stringify_loop (words w) (Z.to_nat (sigBytes w))) as HL.
  cbv zeta in *. destruct HL as (L & F).
  split; [rewrite L; lia|exact F].
Qed.

Lemma sigBytes_doFinalize (hash W : list Z) (data : WordArray) (n : Z) :
  sigBytes (fst (SHA256.doFinalize hash W data n)) = 32.
Proof.
  unfold SHA256.doFinalize.
  destruct (SHA256.process _ _ _) as [[h w] d]. reflexivity.
Qed.

(** A digest is 32 bytes, whatever the message. *)
Lemma sigBytes_SHA256 (message : jsstring) (W W' : list Z) (digest : WordArray) :
  SHA256.SHA256 message W = Ok (digest, W') -> sigBytes digest = 32.
Proof.
  unfold SHA256.SHA256.
  assert (G : forall hash data n r,
             r = SHA256.doFinalize hash W data n -> Ok r = Ok (digest, W') ->
             sigBytes digest = 32).
  { intros hash data n r Hr E. injection E as E.
    pose proof (sigBytes_doFinalize hash W data n) as S. rewrite <- Hr, E in S. exact S. }
  destruct message as [|c r].
  - apply (G _ _ _ _ eq_refl).
  - destruct (Utf8_parse (c :: r)) as [parsed|m]; [|discriminate].
    apply (G _ _ _ _ eq_refl).
Qed.

(** A digest is computed for every string without a lone surrogate. *)
Lemma SHA256_total (message : jsstring) (W : list Z) :
  (well_formed message = true ->
   exists digest W', SHA256.SHA256 message W = Ok (digest, W')) /\
  (well_formed message = false -> SHA256.SHA256 message W = Throw URIMalformed).
Proof.
  unfold SHA256.SHA256.
  assert (G : forall r : WordArray * list Z, exists digest W', Ok r = Ok (digest, W')).
  { intros [d w]. exists d, w. reflexivity. }
  destruct message as [|c r].
  - split; [|discriminate]. intros _. apply G.
  - unfold Utf8_parse. destruct (well_formed (c :: r)); split; try discriminate.
    + intros _. apply G.
    + reflexivity.
Qed.

(** ** The array [W] carries nothing from one digest to the next *)

Lemma round_independent (M : list Z) (offset : Z) (k : nat) (W1 W2 : list Z)
  (regs : SHA256.registers) :
  let r1 := for_loop k (SHA256.round M offset) (W1, regs) in
  let r2 := for_loop k (SHA256.round M offset) (W2, regs) in
  snd r1 = snd r2 /\
  (forall j, 0 <= j < Z.of_nat k -> get (fst r1) j = get (fst r2) j).
Proof.
  cbv zeta. induction k as [|k IH]; [split; [reflexivity|intros; lia]|].
  rewrite !for_loop_S.
  destruct (for_loop k (SHA256.round M offset) (W1, regs)) as [U1 g1].
  destruct (for_loop k (SHA256.round M offset) (W2, regs)) as [U2 g2].
  cbn [fst snd] in IH. destruct IH as (<- & IH).
  destruct g1 as [[[[[[[a b] c] d] e] f] g] h].
  unfold SHA256.round.
  set (i := Z.of_nat k) in *.
  assert (Hi : 0 <= i) by (unfold i; lia).
  destruct (Z.ltb_spec i 16).
  - cbn [fst snd]. rewrite !get_set_same by lia. split; [reflexivity|].
    intros j Hj. rewrite !get_set by lia.
    destruct (Z.eqb_spec j i); [reflexivity|]. apply IH. lia.
  - cbn [fst snd]. rewrite !get_set_same by lia.
    rewrite (IH (i - 15)), (IH (i - 2)), (IH (i - 7)), (IH (i - 16)) by lia.
    split; [reflexivity|].
    intros j Hj. rewrite !get_set by lia.
    destruct (Z.eqb_spec j i); [reflexivity|]. apply IH. lia.
Qed.

Lemma doProcessBlock_independent (hash W1 W2 M : list Z) (offset : Z) :
  fst (SHA256.doProcessBlock hash W1 M offset) = fst (SHA256.doProcessBlock hash W2 M offset).
Proof.
  unfold SHA256.doProcessBlock.
  set (regs := (get hash 0, get hash 1, get hash 2, get hash 3,
                get hash 4, get hash 5, get hash 6, get hash 7)).
  pose proof (round_independent M offset 64 W1 W2 regs) as R.
  cbv zeta in R. destruct R as (R & _).
  set (r1 := for_loop 64 (SHA256.round M offset) (W1, regs)).
  set (r2 := for_loop 64 (SHA256.round M offset) (W2, regs)).
  change (snd r1 = snd r2) in R.
  clearbody r1 r2. destruct r1 as [U1 g1], r2 as [U2 g2].
  cbn [snd] in R. subst g2.
  destruct g1 as [[[[[[[a b] c] d] e] f] g] h]. reflexivity.
Qed.

Lemma process_independent (hash W1 W2 : list Z) (data : WordArray) :
  fst (fst (SHA256.process hash W1 data)) = fst (fst (SHA256.process hash W2 data)).
Proof.
  unfold SHA256.process. destruct (_ =? 0); [reflexivity|].
  set (n := Z.to_nat _). clearbody n.
  assert (G : fst (for_loop n
                     (fun k '(hash, W) => SHA256.doProcessBlock hash W (words data) (k * 16))
                     (hash, W1))
            = fst (for_loop n
                     (fun k '(hash, W) => SHA256.doProcessBlock hash W (words data) (k * 16))
                     (hash, W2))).
  { induction n as [|n IH]; [reflexivity|]. rewrite !for_loop_S.
    destruct (for_loop n _ (hash, W1)) as [h1 U1]. destruct (for_loop n _ (hash, W2)) as [h2 U2].
    cbn [fst] in IH. subst h2. apply doProcessBlock_independent. }
  destruct (for_loop n _ (hash, W1)) as [h1 U1]. destruct (for_loop n _ (hash, W2)) as [h2 U2].
  cbn [fst] in *. exact G.
Qed.

Lemma doFinalize_independent (hash W1 W2 : list Z) (data : WordArray) (n : Z) :
  fst (SHA256.doFinalize hash W1 data n) = fst (SHA256.doFinalize hash W2 data n).
Proof.
  unfold SHA256.doFinalize.
  match goal with
  | |- context [SHA256.process hash W1 ?d] =>
      pose proof (process_independent hash W1 W2 d) as E;
      destruct (SHA256.process hash W1 d) as [[h1 U1] d1];
      destruct (SHA256.process hash W2 d) as [[h2 U2] d2]
  end.
  cbn [fst] in *. subst h2. reflexivity.
Qed.

(** The digest of a message does not depend on what [W] holds. *)
Lemma SHA256_independent (message : jsstring) (W1 W2 U1 U2 : list Z) (d1 d2 : WordArray) :
  SHA256.SHA256 message W1 = Ok (d1, U1) ->
  SHA256.SHA256 message W2 = Ok (d2, U2) ->
  d1 = d2.
Proof.
  unfold SHA256.SHA256.
  assert (G : forall hash data n,
             Ok (SHA256.doFinalize hash W1 data n) = Ok (d1, U1) ->
             Ok (SHA256.doFinalize hash W2 data n) = Ok (d2, U2) -> d1 = d2).
  { intros hash data n E1 E2.
    pose proof (doFinalize_independent hash W1 W2 data n) as E.
    set (r1 := SHA256.doFinalize hash W1 data n) in *.
    set (r2 := SHA256.doFinalize hash W2 data n) in *.
    clearbody r1 r2. injection E1 as E1. injection E2 as E2. subst r1 r2. exact E. }
  destruct message as [|c r]; [apply G|].
  destruct (Utf8_parse (c :: r)) as [parsed|m]; [apply G|discriminate].
Qed.

(** ** The digest against its reference values *)

Lemma SHA256_from_empty_W (m : jsstring) (W : list Z) (hex : jsstring) :
  well_formed m = true ->
  match SHA256.SHA256 m [] with
  | Ok (d, _) => SHA256.Hex_stringify d
  | Throw _ => []
  end = hex ->
  exists d W', SHA256.SHA256 m W = Ok (d, W') /\ SHA256.Hex_stringify d = hex.
Proof.
  intros Hwf H.
  destruct (proj1 (SHA256_total m []) Hwf) as (d0 & W0 & E0). rewrite E0 in H.
  destruct (proj1 (SHA256_total m W) Hwf) as (d & W' & E).
  exists d, W'. split; [exact E|].
  rewrite (SHA256_independent m W [] W' W0 d d0 E E0). exact H.
Qed.

Example SHA256_reference_values (W : list Z) :
  (exists d W', SHA256.SHA256 abc W = Ok (d, W') /\ SHA256.Hex_stringify d = digest_of_abc) /\
  (exists d W', SHA256.SHA256 [] W = Ok (d, W') /\ SHA256.Hex_stringify d = digest_of_empty) /\
  (exists d W',
     SHA256.SHA256 (repeat 97 120) W = Ok (d, W') /\
     SHA256.Hex_stringify d = digest_of_120_a).
Proof.
  split; [|split]; apply SHA256_from_empty_W; vm_compute; reflexivity.
Qed.

(** ** The generated key *)

Lemma Forall_slice {A : Type} (P : A -> Prop) (l : list A) (a b : nat) :
  Forall P l -> Forall P (slice l a b).
Proof.
  intros H. unfold slice.
  rewrite <- (firstn_skipn a l) in H. apply Forall_app in H. destruct H as [_ H].
  rewrite <- (firstn_skipn (b - a) (skipn a l)) in H. apply Forall_app in H. tauto.
Qed.

Lemma lower_hex_ascii (s : jsstring) : Forall lower_hex s -> is_ascii s.
Proof.
  unfold is_ascii. apply Forall_impl. unfold lower_hex. intros c H. lia.
Qed.

(** The key the generator assigns: 16 digits of the first digest and the
    64 digits of the second. *)
Lemma generated_key_shape (du dp : WordArray) :
  sigBytes du = 32 -> sigBytes dp = 32 ->
  let key := slice (SHA256.Hex_stringify du) 0 16 ++ slice (SHA256.Hex_stringify dp) 0 64 in
  length key = 80%nat /\ Forall lower_hex key.
Proof.
  intros Hu Hp key. subst key.
  destruct (Hex_stringify_spec du ltac:(lia)) as (Lu & Fu).
  destruct (Hex_stringify_spec dp ltac:(lia)) as (Lp & Fp).
  split.
  - rewrite length_app, !length_slice by lia. reflexivity.
  - apply Forall_app. split; apply Forall_slice; assumption.
Qed.

(** X21.  The key generator button.  With a user name or a password of white
    space only, the key setting is left as it is and the notice asks for
    input.  Otherwise a lone surrogate in either field makes the digest throw
    before anything is assigned, and in every other case the new key is 80
    lower-case hexadecimal digits. *)
Theorem generate_key_outcomes (tab : BufferPlugin.EncryptSettingTab) (old : jsstring)
  (W : list Z) :
  (BufferPlugin.not_string (Plugin.trim (BufferPlugin.username tab))
   || BufferPlugin.not_string (Plugin.trim (BufferPlugin.password tab)) = true ->
   BufferPlugin.generate_key tab old W = Ok (old, BufferPlugin.MissingInput, W)) /\
  (BufferPlugin.not_string (Plugin.trim (BufferPlugin.username tab))
   || BufferPlugin.not_string (Plugin.trim (BufferPlugin.password tab)) = false ->
   well_formed (BufferPlugin.username tab) && well_formed (BufferPlugin.password tab) = false ->
   BufferPlugin.generate_key tab old W = Throw URIMalformed) /\
  (BufferPlugin.not_string (Plugin.trim (BufferPlugin.username tab))
   || BufferPlugin.not_string (Plugin.trim (BufferPlugin.password tab)) = false ->
   well_formed (BufferPlugin.username tab) && well_formed (BufferPlugin.password tab) = true ->
   exists key W',
     BufferPlugin.generate_key tab old W = Ok (key, BufferPlugin.KeyGenerated, W') /\
     length key = 80%nat /\ Forall lower_hex key).
Proof.
  unfold BufferPlugin.generate_key.
  destruct (_ || _); (split; [|split]); try discriminate; try reflexivity.
  - intros _ Hwf. apply andb_false_iff in Hwf.
    destruct (well_formed (BufferPlugin.username tab)) eqn:Eu.
    + destruct (proj1 (SHA256_total (BufferPlugin.username tab) W) Eu) as (du & W1 & ->).
      destruct Hwf as [Hwf|Hwf]; [discriminate|].
      rewrite (proj2 (SHA256_total (BufferPlugin.password tab) W1) Hwf). reflexivity.
    + rewrite (proj2 (SHA256_total (BufferPlugin.username tab) W) Eu). reflexivity.
  - intros _ Hwf. apply andb_true_iff in Hwf. destruct Hwf as (Eu & Ep).
    destruct (proj1 (SHA256_total (BufferPlugin.username tab) W) Eu) as (du & W1 & Hu).
    destruct (proj1 (SHA256_total (BufferPlugin.password tab) W1) Ep) as (dp & W2 & Hp).
    rewrite Hu, Hp. eexists. eexists. split; [reflexivity|].
    apply generated_key_shape; eapply sigBytes_SHA256; eassumption.
Qed.

(** What the generator returns with the notice of success. *)
Lemma generate_key_generated (tab : BufferPlugin.EncryptSettingTab) (old key : jsstring)
  (W W' : list Z) :
  BufferPlugin.generate_key tab old W = Ok (key, BufferPlugin.KeyGenerated, W') ->
  length key = 80%nat /\ Forall lower_hex key.
Proof.
  unfold BufferPlugin.generate_key. destruct (_ || _); [discriminate|].
  destruct (SHA256.SHA256 (BufferPlugin.username tab) W) as [[du W1]|m] eqn:Hu; [|discriminate].
  destruct (SHA256.SHA256 (BufferPlugin.password tab) W1) as [[dp W2]|m] eqn:Hp; [|discriminate].
  intros E. injection E as <- _.
  apply generated_key_shape; eapply sigBytes_SHA256; eassumption.
Qed.

(** X22.  Under any key the generator assigns, decryption returns the
    plaintext from what encryption made of it, in the revision that holds the
    generator and in the current engine (plaintexts below 2^32 - 20 bytes). *)
Theorem generated_key_round_trip (tab : BufferPlugin.EncryptSettingTab) (old key : jsstring)
  (W W' : list Z) (P : list byte) :
  BufferPlugin.generate_key tab old W = Ok (key, BufferPlugin.KeyGenerated, W') ->
  Z.of_nat (length P) + 20 <= 2 ^ 32 ->
  (exists out,
     BufferPlugin.encryptText P key = Ok out /\
     BufferPlugin.decryptText out key = Legacy.Returned P) /\
  (exists frame,
     Encrypt.encryptText P key Encrypt.initial = (Ok frame, Encrypt.initial) /\
     Encrypt.decryptText frame key Encrypt.initial = (Ok P, Encrypt.initial)).
Proof.
  intros Hg Hb. destruct (generate_key_generated _ _ _ _ _ Hg) as (L & F).
  apply lower_hex_ascii in F.
  assert (Hk : sigBytes (Encrypt.key_words key) mod 4 = 0)
    by (rewrite key_words_ascii by (try assumption; lia); reflexivity).
  split.
  - destruct (iv_words_total key) as [iv Hiv].
    rewrite Buffer_encryptText_eq by (apply Buffer_iv_words_ascii, F).
    eexists. split; [apply Legacy_encryptText_spec; eassumption|].
    rewrite Buffer_decryptText_eq by (apply Buffer_iv_words_ascii, F).
    apply Legacy_decryptText_spec; assumption.
  - apply frame_round_trip; assumption.
Qed.

Lemma generated_key_round_trip_witness :
  (exists out,
     BufferPlugin.encryptText hello_world (key_of alice) = Ok out /\
     BufferPlugin.decryptText out (key_of alice) = Legacy.Returned hello_world) /\
  (exists frame,
     Encrypt.encryptText hello_world (key_of alice) Encrypt.initial
     = (Ok frame, Encrypt.initial) /\
     Encrypt.decryptText frame (key_of alice) Encrypt.initial
     = (Ok hello_world, Encrypt.initial)).
Proof.
  apply (generated_key_round_trip alice [] (key_of alice) [] (W_after alice) hello_world).
  - vm_compute. reflexivity.
  - vm_compute. discriminate.
Defined.

Lemma skipn_app_exact {A : Type} (a b : list A) (n : nat) :
  length a = n -> skipn n (a ++ b) = b.
Proof. intros <-. rewrite skipn_app, skipn_all, Nat.sub_diag. reflexivity. Qed.

Lemma firstn_app_exact {A : Type} (a b : list A) (n : nat) :
  length a = n -> firstn n (a ++ b) = a.
Proof. intros <-. rewrite firstn_app, firstn_all, Nat.sub_diag, firstn_O, app_nil_r. reflexivity. Qed.

Lemma slice_app_l {A : Type} (a b : list A) (n : nat) :
  length a = n -> slice (a ++ b) 0 n = a.
Proof. intros H. unfold slice. cbn [skipn]. rewrite Nat.sub_0_r. apply firstn_app_exact, H. Qed.

Lemma slice_app_r {A : Type} (a b : list A) (n m : nat) :
  length a = n -> slice (a ++ b) n m = slice b 0 (m - n).
Proof.
  intros H. unfold slice. rewrite skipn_app_exact by exact H. cbn [skipn].
  rewrite Nat.sub_0_r. reflexivity.
Qed.

(** X23.  In a generated key the user name decides the 16 code units of the iv
    and nothing else, and the password decides the code units 16..47 of the
    cipher key and nothing of the iv: two users with one password share the
    cipher key. *)
Theorem generated_key_parts (tab1 tab2 : BufferPlugin.EncryptSettingTab)
  (old1 old2 key1 key2 W1 W2 U1 U2 : list Z) :
  BufferPlugin.generate_key tab1 old1 W1 = Ok (key1, BufferPlugin.KeyGenerated, U1) ->
  BufferPlugin.generate_key tab2 old2 W2 = Ok (key2, BufferPlugin.KeyGenerated, U2) ->
  (BufferPlugin.username tab1 = BufferPlugin.username tab2 -> slice key1 0 16 = slice key2 0 16) /\
  (BufferPlugin.password tab1 = BufferPlugin.password tab2 -> slice key1 16 48 = slice key2 16 48).
Proof.
  unfold BufferPlugin.generate_key.
  destruct (_ || _); [discriminate|]. destruct (_ || _); [discriminate|].
  destruct (SHA256.SHA256 (BufferPlugin.username tab1) W1) as [[du1 V1]|m] eqn:Hu1; [|discriminate].
  destruct (SHA256.SHA256 (BufferPlugin.password tab1) V1) as [[dp1 V1']|m] eqn:Hp1; [|discriminate].
  destruct (SHA256.SHA256 (BufferPlugin.username tab2) W2) as [[du2 V2]|m] eqn:Hu2; [|discriminate].
  destruct (SHA256.SHA256 (BufferPlugin.password tab2) V2) as [[dp2 V2']|m] eqn:Hp2; [|discriminate].
  intros E1 E2. injection E1 as <- _. injection E2 as <- _.
  assert (L : forall d, sigBytes d = 32 -> length (slice (SHA256.Hex_stringify d) 0 16) = 16%nat).
  { intros d Hd. destruct (Hex_stringify_spec d ltac:(lia)) as (Ld & _).
    rewrite length_slice by lia. reflexivity. }
  pose proof (L du1 (sigBytes_SHA256 _ _ _ _ Hu1)) as L1.
  pose proof (L du2 (sigBytes_SHA256 _ _ _ _ Hu2)) as L2.
  split.
  - intros Eu. rewrite Eu in Hu1.
    rewrite !slice_app_l by assumption.
    rewrite (SHA256_independent _ _ _ _ _ _ _ Hu1 Hu2). reflexivity.
  - intros Ep. rewrite Ep in Hp1.
    rewrite !(slice_app_r _ _ 16 48) by assumption.
    rewrite (SHA256_independent _ _ _ _ _ _ _ Hp1 Hp2). reflexivity.
Qed.

Lemma generated_key_parts_witness :
  (BufferPlugin.username alice = BufferPlugin.username bob ->
   slice (key_of alice) 0 16 = slice (key_of bob) 0 16) /\
  (BufferPlugin.password alice = BufferPlugin.password bob ->
   slice (key_of alice) 16 48 = slice (key_of bob) 16 48).
Proof.
  apply (generated_key_parts alice bob [] [] (key_of alice) (key_of bob) [] []
           (W_after alice) (W_after bob)).
  - vm_compute. reflexivity.
  - vm_compute. reflexivity.
Defined.
